(** * GLSL entry-point legalization (slang-ir-glsl-legalize.cpp)

    A shallow embedding of the pass that rewrites an entry-point function
    so that its varying inputs and outputs become global shader
    parameters, and the properties of that pass.

    The IR library, the layout tables, the diagnostic sink and the
    extension tracker are collaborators of the pass; the part of them the
    pass touches is modelled in the first sections below. *)

From Stdlib Require Import List String Ascii ZArith Bool Arith Lia Permutation.
Import ListNotations.

Set Implicit Arguments.
Set Warnings "-register-all".
Set Warnings "-notation-overridden".
Set Warnings "-notation-incompatible-prefix".

(* ------------------------------------------------------------------ *)
(** ** Enumerations *)

Inductive BaseType : Type :=
| BaseType_Bool | BaseType_Int | BaseType_UInt | BaseType_Half
| BaseType_Float | BaseType_Double.

Inductive Stage : Type :=
| Stage_Unknown | Stage_Vertex | Stage_Hull | Stage_Domain | Stage_Geometry
| Stage_Fragment | Stage_Compute
| Stage_RayGeneration | Stage_Intersection | Stage_AnyHit
| Stage_ClosestHit | Stage_Miss | Stage_Callable.

Inductive LayoutResourceKind : Type :=
| LayoutResourceKind_Uniform
| LayoutResourceKind_VaryingInput
| LayoutResourceKind_VaryingOutput.

Inductive ProfileVersion : Type :=
| GLSL_150 | GLSL_430 | GLSL_450.

(** Opcodes of the pointer-like types: [IROutType] and [IRInOutType] are
    the two [IROutTypeBase] cases of [IRPtrTypeBase]. *)
Inductive PtrOp : Type :=
| kIROp_PtrType | kIROp_RefType | kIROp_OutType | kIROp_InOutType.

Inductive StreamOp : Type :=
| kIROp_HLSLPointStreamType | kIROp_HLSLLineStreamType
| kIROp_HLSLTriangleStreamType.

Definition BaseType_eqb (a b : BaseType) : bool :=
  match a, b with
  | BaseType_Bool, BaseType_Bool | BaseType_Int, BaseType_Int
  | BaseType_UInt, BaseType_UInt | BaseType_Half, BaseType_Half
  | BaseType_Float, BaseType_Float | BaseType_Double, BaseType_Double => true
  | _, _ => false
  end.

Definition PtrOp_eqb (a b : PtrOp) : bool :=
  match a, b with
  | kIROp_PtrType, kIROp_PtrType | kIROp_RefType, kIROp_RefType
  | kIROp_OutType, kIROp_OutType | kIROp_InOutType, kIROp_InOutType => true
  | _, _ => false
  end.

Definition StreamOp_eqb (a b : StreamOp) : bool :=
  match a, b with
  | kIROp_HLSLPointStreamType, kIROp_HLSLPointStreamType
  | kIROp_HLSLLineStreamType, kIROp_HLSLLineStreamType
  | kIROp_HLSLTriangleStreamType, kIROp_HLSLTriangleStreamType => true
  | _, _ => false
  end.

Definition LayoutResourceKind_eqb (a b : LayoutResourceKind) : bool :=
  match a, b with
  | LayoutResourceKind_Uniform, LayoutResourceKind_Uniform
  | LayoutResourceKind_VaryingInput, LayoutResourceKind_VaryingInput
  | LayoutResourceKind_VaryingOutput, LayoutResourceKind_VaryingOutput => true
  | _, _ => false
  end.

(* ------------------------------------------------------------------ *)
(** ** IR types

    Types are IR instructions in the compiler, made unique by the
    builder, so that two types are the same type exactly when they are
    built alike; they are terms here.  A struct type carries its fields,
    each a key and a field type.  The element count of an array or vector
    type is the value of its integer literal ([GetIntVal]). *)

Definition IRStructKey := nat.

Inductive IRType : Type :=
| IRVoidType
| IRBasicType (baseType : BaseType)
| IRVectorType (elementType : IRType) (elementCount : Z)
| IRMatrixType (elementType : IRType) (rowCount columnCount : Z)
| IRArrayType (elementType : IRType) (elementCount : Z)
| IRHLSLStreamOutputType (streamOp : StreamOp) (elementType : IRType)
| IRStructType (name : string) (fields : list (IRStructKey * IRType))
| IRPtrTypeBase (ptrOp : PtrOp) (valueType : IRType)
| IRFuncType (paramTypes : list IRType) (resultType : IRType)
| IROtherType (tag : nat).

Definition IRStructField : Type := (IRStructKey * IRType)%type.
Definition IRStructField_getKey (f : IRStructField) : IRStructKey := fst f.
Definition IRStructField_getFieldType (f : IRStructField) : IRType := snd f.

Definition getOutType (t : IRType) : IRType := IRPtrTypeBase kIROp_OutType t.
Definition getPtrType (t : IRType) : IRType := IRPtrTypeBase kIROp_PtrType t.
Definition getVoidType : IRType := IRVoidType.
Definition getFuncType (paramTypes : list IRType) (resultType : IRType) : IRType :=
  IRFuncType paramTypes resultType.

(** [isTypeEqual]: structural equality of types. *)
Fixpoint isTypeEqual (a b : IRType) {struct a} : bool :=
  match a, b with
  | IRVoidType, IRVoidType => true
  | IRBasicType x, IRBasicType y => BaseType_eqb x y
  | IRVectorType e n, IRVectorType e' n' => isTypeEqual e e' && Z.eqb n n'
  | IRMatrixType e r c, IRMatrixType e' r' c' =>
      isTypeEqual e e' && Z.eqb r r' && Z.eqb c c'
  | IRArrayType e n, IRArrayType e' n' => isTypeEqual e e' && Z.eqb n n'
  | IRHLSLStreamOutputType o e, IRHLSLStreamOutputType o' e' =>
      StreamOp_eqb o o' && isTypeEqual e e'
  | IRStructType n fs, IRStructType n' fs' =>
      String.eqb n n' &&
      (fix fields (l l' : list (IRStructKey * IRType)) {struct l} : bool :=
         match l, l' with
         | [], [] => true
         | (k, t) :: r, (k', t') :: r' =>
             Nat.eqb k k' && isTypeEqual t t' && fields r r'
         | _, _ => false
         end) fs fs'
  | IRPtrTypeBase o v, IRPtrTypeBase o' v' => PtrOp_eqb o o' && isTypeEqual v v'
  | IRFuncType ps r, IRFuncType ps' r' =>
      (fix params (l l' : list IRType) {struct l} : bool :=
         match l, l' with
         | [], [] => true
         | t :: r, t' :: r' => isTypeEqual t t' && params r r'
         | _, _ => false
         end) ps ps' && isTypeEqual r r'
  | IROtherType n, IROtherType n' => Nat.eqb n n'
  | _, _ => false
  end.

(* ------------------------------------------------------------------ *)
(** ** Layouts

    The layout tables computed by an earlier stage: a variable layout
    gives, per resource kind, the index of the variable; a type layout
    gives, per resource kind, the count the type uses, and mirrors the
    shape of the type. *)

Record VarDecl : Type := mkVarDecl { declName : string; loc : nat }.

Inductive TypeLayout : Type :=
| mkTypeLayout (rules : nat) (resourceInfos : list (LayoutResourceKind * Z))
               (shape : TypeLayoutShape)
with TypeLayoutShape : Type :=
| PlainTypeLayout
| ArrayTypeLayout (originalElementTypeLayout elementTypeLayout : TypeLayout)
                  (uniformStride : Z)
| StreamOutputTypeLayout (elementTypeLayout : TypeLayout)
| StructTypeLayout (fields : list VarLayout)
with VarLayout : Type :=
| mkVarLayout (varDecl : VarDecl) (typeLayout : TypeLayout) (flags : nat)
              (systemValueSemantic : string) (systemValueSemanticIndex : Z)
              (semanticName : string) (semanticIndex : Z) (stage : Stage)
              (resourceInfos : list (LayoutResourceKind * Z)).

Definition TypeLayout_rules (t : TypeLayout) : nat :=
  match t with mkTypeLayout r _ _ => r end.
Definition TypeLayout_resourceInfos (t : TypeLayout) : list (LayoutResourceKind * Z) :=
  match t with mkTypeLayout _ r _ => r end.
Definition TypeLayout_shape (t : TypeLayout) : TypeLayoutShape :=
  match t with mkTypeLayout _ _ s => s end.

Definition varDecl (v : VarLayout) : VarDecl :=
  match v with mkVarLayout d _ _ _ _ _ _ _ _ => d end.
Definition VarLayout_typeLayout (v : VarLayout) : TypeLayout :=
  match v with mkVarLayout _ t _ _ _ _ _ _ _ => t end.
Definition flags (v : VarLayout) : nat :=
  match v with mkVarLayout _ _ f _ _ _ _ _ _ => f end.
Definition systemValueSemantic (v : VarLayout) : string :=
  match v with mkVarLayout _ _ _ s _ _ _ _ _ => s end.
Definition systemValueSemanticIndex (v : VarLayout) : Z :=
  match v with mkVarLayout _ _ _ _ i _ _ _ _ => i end.
Definition semanticName (v : VarLayout) : string :=
  match v with mkVarLayout _ _ _ _ _ n _ _ _ => n end.
Definition semanticIndex (v : VarLayout) : Z :=
  match v with mkVarLayout _ _ _ _ _ _ i _ _ => i end.
Definition VarLayout_stage (v : VarLayout) : Stage :=
  match v with mkVarLayout _ _ _ _ _ _ _ s _ => s end.
Definition VarLayout_resourceInfos (v : VarLayout) : list (LayoutResourceKind * Z) :=
  match v with mkVarLayout _ _ _ _ _ _ _ _ r => r end.

(** [FindResourceInfo]: the first entry of the given kind. *)
Fixpoint FindResourceInfo (infos : list (LayoutResourceKind * Z))
         (kind : LayoutResourceKind) : option Z :=
  match infos with
  | [] => None
  | (k, v) :: rest =>
      if LayoutResourceKind_eqb k kind then Some v else FindResourceInfo rest kind
  end.

Record EntryPointLayout : Type := mkEntryPointLayout {
  profileStage : Stage;
  resultLayout : option VarLayout
}.

Inductive Layout : Type :=
| Layout_VarLayout (l : VarLayout)
| Layout_TypeLayout (l : TypeLayout)
| Layout_EntryPointLayout (l : EntryPointLayout).

(** [UInt] is an unsigned 64-bit integer. *)
Definition UInt_wrap (z : Z) : Z := Z.modulo z (2 ^ 64).

(* ------------------------------------------------------------------ *)
(** ** IR instructions *)

Inductive IROp : Type :=
| kIROp_Param | kIROp_GlobalParam | kIROp_Func | kIROp_Generic
| kIROp_Specialize | kIROp_Call
| kIROp_ReturnVal | kIROp_ReturnVoid
| kIROp_Var | kIROp_Load | kIROp_Store
| kIROp_FieldExtract | kIROp_FieldAddress
| kIROp_getElement | kIROp_getElementPtr
| kIROp_Construct | kIROp_makeArray | kIROp_undefined
| kIROp_IntLit | kIROp_StructKey
| kIROp_Other (tag : nat).

Definition IROp_eqb (a b : IROp) : bool :=
  match a, b with
  | kIROp_Param, kIROp_Param | kIROp_GlobalParam, kIROp_GlobalParam
  | kIROp_Func, kIROp_Func | kIROp_Generic, kIROp_Generic
  | kIROp_Specialize, kIROp_Specialize | kIROp_Call, kIROp_Call
  | kIROp_ReturnVal, kIROp_ReturnVal | kIROp_ReturnVoid, kIROp_ReturnVoid
  | kIROp_Var, kIROp_Var | kIROp_Load, kIROp_Load | kIROp_Store, kIROp_Store
  | kIROp_FieldExtract, kIROp_FieldExtract
  | kIROp_FieldAddress, kIROp_FieldAddress
  | kIROp_getElement, kIROp_getElement
  | kIROp_getElementPtr, kIROp_getElementPtr
  | kIROp_Construct, kIROp_Construct | kIROp_makeArray, kIROp_makeArray
  | kIROp_undefined, kIROp_undefined
  | kIROp_IntLit, kIROp_IntLit | kIROp_StructKey, kIROp_StructKey => true
  | kIROp_Other n, kIROp_Other m => Nat.eqb n m
  | _, _ => false
  end.

(** An [IRInst*].  Instructions that live in a block or in the module
    have an identity; integer literals and struct keys are values the
    builder makes unique, so the literal or the key is the identity. *)
Inductive IRInstPtr : Type :=
| InstRef (id : nat)
| IntLitRef (type : IRType) (value : Z)
| StructKeyRef (key : IRStructKey).

Definition IRInstPtr_eqb (a b : IRInstPtr) : bool :=
  match a, b with
  | InstRef x, InstRef y => Nat.eqb x y
  | IntLitRef t v, IntLitRef t' v' => isTypeEqual t t' && Z.eqb v v'
  | StructKeyRef k, StructKeyRef k' => Nat.eqb k k'
  | _, _ => false
  end.

Inductive IRDecoration : Type :=
| IRLayoutDecoration (layout : Layout)
| IRImportDecoration (name : string)
| IRGLSLOuterArrayDecoration (outerArrayName : string)
| IRDependsOnDecoration (dependency : IRInstPtr)
| IRTargetIntrinsicDecoration (targetName definition : string)
| IROtherDecoration (tag : nat).

(** An instruction.  [genericReturnVal] is the value a generic returns
    (what [findGenericReturnVal] finds in its body); it is [None] for
    every other instruction. *)
Record IRInst : Type := mkIRInst {
  instId : nat;
  op : IROp;
  dataType : IRType;
  operands : list IRInstPtr;
  decorations : list IRDecoration;
  genericReturnVal : option IRInstPtr
}.

(** A block: its children in order, the parameters first. *)
Record IRBlock : Type := mkIRBlock { children : list IRInst }.

Record IRFunc : Type := mkIRFunc {
  funcId : nat;
  fullType : IRType;
  blocks : list IRBlock;
  funcDecorations : list IRDecoration
}.

(** The module around the entry point: the instructions before the
    function, the function, the instructions after it. *)
Record IRModule : Type := mkIRModule {
  moduleBefore : list IRInst;
  moduleFunc : IRFunc;
  moduleAfter : list IRInst
}.

(** Where a builder inserts: into the function itself, at the end of a
    block (the block is named by its position in the function, which the
    pass never changes), or before an instruction. *)
Inductive IRBuilder : Type :=
| insertIntoFunc
| insertIntoBlock (blockIndex : nat)
| insertBeforeInst (id : nat).

Record Diagnostic : Type := mkDiagnostic {
  diagLoc : nat;
  diagCode : string;
  diagArg : string
}.

Record ExtensionUsageTracker : Type := mkExtensionUsageTracker {
  glslExtensions : list string;
  glslVersions : list ProfileVersion
}.

(** Everything the pass reads and writes: the module, what the
    [GLSLLegalizationContext] points to (stage, sink, extension tracker,
    the builder of the pass), and the supply of fresh instructions. *)
Record PassState : Type := mkPassState {
  nextInstId : nat;
  module : IRModule;
  contextStage : Stage;
  sink : list Diagnostic;
  extensionUsageTracker : ExtensionUsageTracker;
  contextBuilder : IRBuilder
}.

(* ------------------------------------------------------------------ *)
(** ** The monad of the pass: state, and abort on a failed assertion *)

Inductive Result (A : Type) : Type :=
| OK (a : A)
| Abort (msg : string)
| OutOfFuel.
Arguments OK {A} a.
Arguments Abort {A} msg.
Arguments OutOfFuel {A}.

Definition M (A : Type) : Type := PassState -> Result (A * PassState).

Definition ret {A} (a : A) : M A := fun st => OK (a, st).
Definition bind {A B} (m : M A) (f : A -> M B) : M B :=
  fun st =>
    match m st with
    | OK (a, st') => f a st'
    | Abort msg => Abort msg
    | OutOfFuel => OutOfFuel
    end.
Definition abort {A} (msg : string) : M A := fun _ => Abort msg.
Definition outOfFuel {A} : M A := fun _ => OutOfFuel.
Definition get : M PassState := fun st => OK (st, st).
Definition put (st : PassState) : M unit := fun _ => OK (tt, st).
Definition modify (f : PassState -> PassState) : M unit := fun st => OK (tt, f st).

Declare Scope pass_scope.
Delimit Scope pass_scope with pass.
Notation "x <- m ;; k" := (bind m (fun x => k))
  (at level 61, m at next level, right associativity) : pass_scope.
Notation "m ;; k" := (bind m (fun _ => k))
  (at level 61, right associativity) : pass_scope.
Notation "' pat <- m ;; k" := (bind m (fun x => match x with pat => k end))
  (at level 61, pat pattern, m at next level, right associativity) : pass_scope.
Open Scope pass_scope.

(** [SLANG_ASSERT], [SLANG_RELEASE_ASSERT]: abort when the condition
    fails. *)
Definition SLANG_ASSERT (c : bool) : M unit :=
  if c then ret tt else abort "assertion failed".

(** [SLANG_UNEXPECTED]. *)
Definition SLANG_UNEXPECTED {A} (msg : string) : M A := abort msg.

(** Run [f] on each element, in order. *)
Fixpoint forEach {A} (f : A -> M unit) (l : list A) : M unit :=
  match l with
  | [] => ret tt
  | x :: r => f x ;; forEach f r
  end.

(* ------------------------------------------------------------------ *)
(** ** The IR library: structural queries *)

Definition isParam (i : IRInst) : bool := IROp_eqb (op i) kIROp_Param.

Fixpoint takeWhile {A} (p : A -> bool) (l : list A) : list A :=
  match l with
  | [] => []
  | x :: r => if p x then x :: takeWhile p r else []
  end.

Fixpoint dropWhile {A} (p : A -> bool) (l : list A) : list A :=
  match l with
  | [] => []
  | x :: r => if p x then dropWhile p r else l
  end.

Fixpoint lastOpt {A} (l : list A) : option A :=
  match l with
  | [] => None
  | [x] => Some x
  | _ :: r => lastOpt r
  end.

(** Modelled from the spec: the structural queries of the IR library
    (function blocks, parameters, operands), which slang-ir.h declares.
    The parameters of a block are its leading [kIROp_Param] children; the
    first ordinary instruction is the child after them. *)
Definition getFirstBlock (f : IRFunc) : option IRBlock := hd_error (blocks f).
Definition getParams (b : IRBlock) : list IRInst := takeWhile isParam (children b).
Definition getFirstOrdinaryInst (b : IRBlock) : option IRInst :=
  hd_error (dropWhile isParam (children b)).
Definition getLastInst (b : IRBlock) : option IRInst := lastOpt (children b).
Definition getOperand (i : IRInst) (n : nat) : option IRInstPtr := nth_error (operands i) n.

(** Modelled from the spec: [IRFunc::getParamCount] and
    [IRFunc::getResultType], which read the function type of the
    function. *)
Definition getParamCount (f : IRFunc) : nat :=
  match fullType f with
  | IRFuncType ps _ => List.length ps
  | _ => 0
  end.

Definition getResultType (f : IRFunc) : option IRType :=
  match fullType f with
  | IRFuncType _ r => Some r
  | _ => None
  end.

(** The parameters of the function: those of its entry block. *)
Definition funcParams (f : IRFunc) : list IRInst :=
  match getFirstBlock f with
  | Some b => getParams b
  | None => []
  end.

Definition allInsts (m : IRModule) : list IRInst :=
  moduleBefore m ++ flat_map children (blocks (moduleFunc m)) ++ moduleAfter m.

(** The instruction a pointer points to.  The entry-point function is
    seen as an instruction of opcode [kIROp_Func]. *)
Definition funcAsInst (f : IRFunc) : IRInst :=
  mkIRInst (funcId f) kIROp_Func (fullType f) [] (funcDecorations f) None.

Definition findInst (m : IRModule) (id : nat) : option IRInst :=
  if Nat.eqb id (funcId (moduleFunc m)) then Some (funcAsInst (moduleFunc m))
  else find (fun i => Nat.eqb (instId i) id) (allInsts m).

Definition deref (m : IRModule) (p : IRInstPtr) : option IRInst :=
  match p with
  | InstRef id => findInst m id
  | IntLitRef t v => Some (mkIRInst 0 kIROp_IntLit t [] [] None)
  | StructKeyRef k => Some (mkIRInst 0 kIROp_StructKey IRVoidType [] [] None)
  end.

Definition derefM (p : IRInstPtr) : M IRInst :=
  fun st =>
    match deref (module st) p with
    | Some i => OK (i, st)
    | None => Abort "dangling instruction pointer"
    end.

Definition getDataType (p : IRInstPtr) : M IRType :=
  i <- derefM p ;; ret (dataType i).

(** Modelled from the spec: [findTargetIntrinsicDecoration], the first
    target-intrinsic decoration of the instruction for the given target. *)
Fixpoint findTargetIntrinsicDecoration (ds : list IRDecoration) (target : string)
  : option string :=
  match ds with
  | [] => None
  | IRTargetIntrinsicDecoration t d :: r =>
      if String.eqb t target then Some d else findTargetIntrinsicDecoration r target
  | _ :: r => findTargetIntrinsicDecoration r target
  end.

(** [findDecoration<IRLayoutDecoration>]. *)
Fixpoint findLayoutDecoration (ds : list IRDecoration) : option Layout :=
  match ds with
  | [] => None
  | IRLayoutDecoration l :: _ => Some l
  | _ :: r => findLayoutDecoration r
  end.

(* ------------------------------------------------------------------ *)
(** ** The IR library: updates *)

Definition set_module (st : PassState) (m : IRModule) : PassState :=
  mkPassState (nextInstId st) m (contextStage st) (sink st)
              (extensionUsageTracker st) (contextBuilder st).

Definition set_func (m : IRModule) (f : IRFunc) : IRModule :=
  mkIRModule (moduleBefore m) f (moduleAfter m).

Definition set_blocks (f : IRFunc) (bs : list IRBlock) : IRFunc :=
  mkIRFunc (funcId f) (fullType f) bs (funcDecorations f).

Definition set_state_blocks (st : PassState) (bs : list IRBlock) : PassState :=
  set_module st (set_func (module st) (set_blocks (moduleFunc (module st)) bs)).

Definition stateBlocks (st : PassState) : list IRBlock :=
  blocks (moduleFunc (module st)).

Definition freshId : M nat :=
  fun st =>
    OK (nextInstId st,
        mkPassState (S (nextInstId st)) (module st) (contextStage st) (sink st)
                    (extensionUsageTracker st) (contextBuilder st)).

Fixpoint insertBeforeInList (id : nat) (new : IRInst) (l : list IRInst)
  : option (list IRInst) :=
  match l with
  | [] => None
  | i :: r =>
      if Nat.eqb (instId i) id then Some (new :: i :: r)
      else option_map (cons i) (insertBeforeInList id new r)
  end.

Fixpoint insertBeforeInBlocks (id : nat) (new : IRInst) (bs : list IRBlock)
  : option (list IRBlock) :=
  match bs with
  | [] => None
  | b :: r =>
      match insertBeforeInList id new (children b) with
      | Some c => Some (mkIRBlock c :: r)
      | None => option_map (cons b) (insertBeforeInBlocks id new r)
      end
  end.

Fixpoint insertAtEndOfBlock (n : nat) (new : IRInst) (bs : list IRBlock)
  : option (list IRBlock) :=
  match bs, n with
  | [], _ => None
  | b :: r, O => Some (mkIRBlock (children b ++ [new]) :: r)
  | b :: r, S n' => option_map (cons b) (insertAtEndOfBlock n' new r)
  end.

Definition insertAt (b : IRBuilder) (new : IRInst) (bs : list IRBlock)
  : option (list IRBlock) :=
  match b with
  | insertIntoFunc => None
  | insertIntoBlock n => insertAtEndOfBlock n new bs
  | insertBeforeInst id => insertBeforeInBlocks id new bs
  end.

(** Modelled from the spec: the insertion-point-based builder of the IR
    library.  A new instruction goes at the end of the block the builder
    inserts into, or right before the instruction it inserts before.  The
    pass emits no instruction while its builder inserts into the function
    itself; the model aborts there, and where the place to insert is not
    in the function. *)
Definition insertInst (b : IRBuilder) (new : IRInst) : M unit :=
  fun st =>
    match insertAt b new (stateBlocks st) with
    | Some bs => OK (tt, set_state_blocks st bs)
    | None => Abort "no place to insert"
    end.

Definition emitInst (b : IRBuilder) (o : IROp) (t : IRType) (args : list IRInstPtr)
  : M IRInstPtr :=
  id <- freshId ;;
  insertInst b (mkIRInst id o t args [] None) ;;
  ret (InstRef id).

(** Modelled from the spec: the instruction creators of the IR library
    ([emitStore], [emitLoad], [emitFieldExtract], [emitFieldAddress],
    [emitElementExtract], [emitElementAddress], [emitConstructorInst],
    [emitMakeArray], [emitVar], [emitUndefined], [emitReturn]); each
    creates one instruction of its opcode at the builder's place.  A load
    has the type its pointer operand points to. *)
Definition emitStore (b : IRBuilder) (ptr val : IRInstPtr) : M IRInstPtr :=
  emitInst b kIROp_Store IRVoidType [ptr; val].

Definition emitLoad (b : IRBuilder) (ptr : IRInstPtr) : M IRInstPtr :=
  t <- getDataType ptr ;;
  match t with
  | IRPtrTypeBase _ valueType => emitInst b kIROp_Load valueType [ptr]
  | _ => abort "load from a value that is not a pointer"
  end.

Definition emitFieldExtract (b : IRBuilder) (type : IRType) (base : IRInstPtr)
           (fieldKey : IRStructKey) : M IRInstPtr :=
  emitInst b kIROp_FieldExtract type [base; StructKeyRef fieldKey].

Definition emitFieldAddress (b : IRBuilder) (type : IRType) (base : IRInstPtr)
           (fieldKey : IRStructKey) : M IRInstPtr :=
  emitInst b kIROp_FieldAddress type [base; StructKeyRef fieldKey].

Definition emitElementExtract (b : IRBuilder) (type : IRType) (base index : IRInstPtr)
  : M IRInstPtr :=
  emitInst b kIROp_getElement type [base; index].

Definition emitElementAddress (b : IRBuilder) (type : IRType) (base index : IRInstPtr)
  : M IRInstPtr :=
  emitInst b kIROp_getElementPtr type [base; index].

Definition emitConstructorInst (b : IRBuilder) (type : IRType) (args : list IRInstPtr)
  : M IRInstPtr :=
  emitInst b kIROp_Construct type args.

Definition emitMakeArray (b : IRBuilder) (type : IRType) (args : list IRInstPtr)
  : M IRInstPtr :=
  emitInst b kIROp_makeArray type args.

Definition emitVar (b : IRBuilder) (type : IRType) : M IRInstPtr :=
  emitInst b kIROp_Var (getPtrType type) [].

Definition emitUndefined (b : IRBuilder) (type : IRType) : M IRInstPtr :=
  emitInst b kIROp_undefined type [].

Definition emitReturn (b : IRBuilder) : M IRInstPtr :=
  emitInst b kIROp_ReturnVoid IRVoidType [].

(** The builder of the pass ([context->getBuilder()]). *)
Definition getBuilder : M IRBuilder := fun st => OK (contextBuilder st, st).

Definition setBuilder (b : IRBuilder) : M unit :=
  modify (fun st =>
    mkPassState (nextInstId st) (module st) (contextStage st) (sink st)
                (extensionUsageTracker st) b).

Definition setInsertInto (blockIndex : nat) : M unit :=
  setBuilder (insertIntoBlock blockIndex).

(** Modelled from the spec: [IRBuilder::setInsertBefore]; there must be
    an instruction to insert before. *)
Definition setInsertBefore (i : option IRInst) : M unit :=
  match i with
  | Some x => setBuilder (insertBeforeInst (instId x))
  | None => abort "no instruction to insert before"
  end.

Definition mapInsts (f : IRInst -> IRInst) (m : IRModule) : IRModule :=
  mkIRModule (map f (moduleBefore m))
    (set_blocks (moduleFunc m)
       (map (fun b => mkIRBlock (map f (children b))) (blocks (moduleFunc m))))
    (map f (moduleAfter m)).

Definition addDecorationTo (id : nat) (d : IRDecoration) (i : IRInst) : IRInst :=
  if Nat.eqb (instId i) id
  then mkIRInst (instId i) (op i) (dataType i) (operands i) (d :: decorations i)
                (genericReturnVal i)
  else i.

(** Modelled from the spec: the decoration creators of the IR library
    (layout, import-name, outer-array, depends-on); the decoration is
    attached to the instruction, or to the entry-point function. *)
Definition addDecoration (target : IRInstPtr) (d : IRDecoration) : M unit :=
  match target with
  | InstRef id =>
      modify (fun st =>
        let m := module st in
        if Nat.eqb id (funcId (moduleFunc m))
        then set_module st (set_func m
               (mkIRFunc (funcId (moduleFunc m)) (fullType (moduleFunc m))
                         (blocks (moduleFunc m)) (d :: funcDecorations (moduleFunc m))))
        else set_module st (mapInsts (addDecorationTo id d) m))
  | _ => ret tt
  end.

Definition replacePtr (old new p : IRInstPtr) : IRInstPtr :=
  if IRInstPtr_eqb p old then new else p.

Definition replaceInDecoration (old new : IRInstPtr) (d : IRDecoration) : IRDecoration :=
  match d with
  | IRDependsOnDecoration p => IRDependsOnDecoration (replacePtr old new p)
  | _ => d
  end.

Definition replaceInInst (old new : IRInstPtr) (i : IRInst) : IRInst :=
  mkIRInst (instId i) (op i) (dataType i)
           (map (replacePtr old new) (operands i))
           (map (replaceInDecoration old new) (decorations i))
           (option_map (replacePtr old new) (genericReturnVal i)).

(** Modelled from the spec: [IRInst::replaceUsesWith]; every operand that
    is the old instruction becomes the new one. *)
Definition replaceUsesWith (old new : IRInstPtr) : M unit :=
  modify (fun st =>
    let m := mapInsts (replaceInInst old new) (module st) in
    set_module st (set_func m
      (mkIRFunc (funcId (moduleFunc m)) (fullType (moduleFunc m))
                (blocks (moduleFunc m))
                (map (replaceInDecoration old new) (funcDecorations (moduleFunc m)))))).

Definition removeFromBlock (id : nat) (b : IRBlock) : IRBlock :=
  mkIRBlock (filter (fun i => negb (Nat.eqb (instId i) id)) (children b)).

(** Modelled from the spec: [IRInst::removeAndDeallocate] for an
    instruction of the function. *)
Definition removeAndDeallocate (id : nat) : M unit :=
  modify (fun st => set_state_blocks st (map (removeFromBlock id) (stateBlocks st))).

(** Modelled from the spec: [createGlobalParam] of a builder without a
    place to insert; the new global parameter goes at the end of the
    module. *)
Definition addGlobalParam (valueType : IRType) : M IRInstPtr :=
  id <- freshId ;;
  modify (fun st =>
    let m := module st in
    set_module st (mkIRModule (moduleBefore m) (moduleFunc m)
      (moduleAfter m ++ [mkIRInst id kIROp_GlobalParam valueType [] [] None])) ) ;;
  ret (InstRef id).

(** [moveValueBefore valueToMove placeBefore], where the place is the
    entry-point function, as in each call of the pass. *)
Definition moveValueBefore (valueToMove : IRInstPtr) : M unit :=
  match valueToMove with
  | InstRef id =>
      fun st =>
        let m := module st in
        let here i := Nat.eqb (instId i) id in
        match find here (moduleBefore m ++ moduleAfter m) with
        | Some v =>
            OK (tt, set_module st
                  (mkIRModule (filter (fun i => negb (here i)) (moduleBefore m) ++ [v])
                              (moduleFunc m)
                              (filter (fun i => negb (here i)) (moduleAfter m))))
        | None => Abort "value to move is not in the module"
        end
  | _ => abort "value to move is not in the module"
  end.

(** The sink and the extension tracker. *)
Definition diagnose (l : nat) (code arg : string) : M unit :=
  modify (fun st =>
    mkPassState (nextInstId st) (module st) (contextStage st)
                (sink st ++ [mkDiagnostic l code arg])
                (extensionUsageTracker st) (contextBuilder st)).

Definition requireGLSLExtension (name : string) : M unit :=
  modify (fun st =>
    let t := extensionUsageTracker st in
    mkPassState (nextInstId st) (module st) (contextStage st) (sink st)
                (mkExtensionUsageTracker (glslExtensions t ++ [name]) (glslVersions t))
                (contextBuilder st)).

Definition requireGLSLVersion (v : ProfileVersion) : M unit :=
  modify (fun st =>
    let t := extensionUsageTracker st in
    mkPassState (nextInstId st) (module st) (contextStage st) (sink st)
                (mkExtensionUsageTracker (glslExtensions t) (glslVersions t ++ [v]))
                (contextBuilder st)).

Definition getStage : M Stage := fun st => OK (contextStage st, st).

(* ------------------------------------------------------------------ *)
(** ** The scalarized value model *)

(** [getFieldType baseType fieldKey]: the type of the field with that key
    in a struct type; "no such field" otherwise. *)
Fixpoint findFieldType (fs : list IRStructField) (fieldKey : IRStructKey)
  : option IRType :=
  match fs with
  | [] => None
  | ff :: r =>
      if Nat.eqb (IRStructField_getKey ff) fieldKey
      then Some (IRStructField_getFieldType ff)
      else findFieldType r fieldKey
  end.

Definition getFieldType (baseType : IRType) (fieldKey : IRStructKey) : M IRType :=
  match baseType with
  | IRStructType _ fs =>
      match findFieldType fs fieldKey with
      | Some t => ret t
      | None => SLANG_UNEXPECTED "no such field"
      end
  | _ => SLANG_UNEXPECTED "no such field"
  end.

Module ScalarizedVal.

(** The flavors of [ScalarizedVal], each with its payload: nothing, an
    instruction that is the value, an instruction that is the address
    of the value, a tuple (its type and its elements, each a key and a
    value), a type adapter (the value it wraps, its actual type and the
    type it pretends to have). *)
Inductive t : Type :=
| none
| value (irValue : IRInstPtr)
| address (irValue : IRInstPtr)
| tuple (type : IRType) (elements : list (IRStructKey * t))
| typeAdapter (val : t) (actualType pretendType : IRType).

Definition isNone (v : t) : bool :=
  match v with
  | none => true
  | _ => false
  end.

End ScalarizedVal.

Record GlobalVaryingDeclarator : Type := mkGlobalVaryingDeclarator {
  elementCount : Z
}.

Record GLSLSystemValueInfo : Type := mkGLSLSystemValueInfo {
  name : string;
  outerArrayName : option string;
  requiredType : option IRType
}.

(* ------------------------------------------------------------------ *)
(** ** The system-value resolver *)

Definition toLowerAscii (c : ascii) : ascii :=
  let n := nat_of_ascii c in
  if (Nat.leb 65 n && Nat.leb n 90)%bool then ascii_of_nat (n + 32) else c.

Fixpoint toLower (s : string) : string :=
  match s with
  | EmptyString => EmptyString
  | String c r => String (toLowerAscii c) (toLower r)
  end.

Definition float4Type : IRType := IRVectorType (IRBasicType BaseType_Float) 4.
Definition float3Type : IRType := IRVectorType (IRBasicType BaseType_Float) 3.
Definition uint3Type : IRType := IRVectorType (IRBasicType BaseType_UInt) 3.

(** What the chain of comparisons leaves in the local variables [name],
    [outerArrayName] and [requiredType]. *)
Definition SystemValueLocals : Type :=
  (option string * option string * option IRType)%type.

Definition found (n : string) (t : option IRType) : M (option SystemValueLocals) :=
  ret (Some (Some n, None, t)).

Definition Stage_eqb (a b : Stage) : bool :=
  match a, b with
  | Stage_Unknown, Stage_Unknown | Stage_Vertex, Stage_Vertex
  | Stage_Hull, Stage_Hull | Stage_Domain, Stage_Domain
  | Stage_Geometry, Stage_Geometry | Stage_Fragment, Stage_Fragment
  | Stage_Compute, Stage_Compute | Stage_RayGeneration, Stage_RayGeneration
  | Stage_Intersection, Stage_Intersection | Stage_AnyHit, Stage_AnyHit
  | Stage_ClosestHit, Stage_ClosestHit | Stage_Miss, Stage_Miss
  | Stage_Callable, Stage_Callable => true
  | _, _ => false
  end.

(** The chain of comparisons of [getGLSLSystemValueInfo]; [None] is the
    early return of a null pointer in the [sv_target] case. *)
Definition systemValueTable (semanticName : string) (kind : LayoutResourceKind)
           (stage : Stage) : M (option SystemValueLocals) :=
  let named (s : string) := String.eqb semanticName s in
  if named "sv_position"%string then
    if (Stage_eqb stage Stage_Fragment
        && LayoutResourceKind_eqb kind LayoutResourceKind_VaryingInput)%bool
    then found "gl_FragCoord" (Some float4Type)
    else if (Stage_eqb stage Stage_Geometry
             && LayoutResourceKind_eqb kind LayoutResourceKind_VaryingInput)%bool
    then ret (Some (Some "gl_Position"%string, Some "gl_in"%string, Some float4Type))
    else found "gl_Position" (Some float4Type)
  else if named "sv_target"%string then ret None
  else if named "sv_clipdistance"%string then
    found "gl_ClipDistance" (Some (IRBasicType BaseType_Float))
  else if named "sv_culldistance"%string then
    requireGLSLExtension "ARB_cull_distance" ;;
    found "gl_CullDistance" (Some (IRBasicType BaseType_Float))
  else if named "sv_coverage"%string then
    found "gl_SampleMask" (Some (IRBasicType BaseType_Int))
  else if named "sv_depth"%string then
    found "gl_FragDepth" (Some (IRBasicType BaseType_Float))
  else if named "sv_depthgreaterequal"%string then
    found "gl_FragDepth" (Some (IRBasicType BaseType_Float))
  else if named "sv_depthlessequal"%string then
    found "gl_FragDepth" (Some (IRBasicType BaseType_Float))
  else if named "sv_dispatchthreadid"%string then
    found "gl_GlobalInvocationID" (Some uint3Type)
  else if named "sv_domainlocation"%string then
    found "gl_TessCoord" (Some float3Type)
  else if named "sv_groupid"%string then
    found "gl_WorkGroupID" (Some uint3Type)
  else if named "sv_groupindex"%string then
    found "gl_LocalInvocationIndex" (Some (IRBasicType BaseType_UInt))
  else if named "sv_groupthreadid"%string then
    found "gl_LocalInvocationID" (Some uint3Type)
  else if named "sv_gsinstanceid"%string then
    found "gl_InvocationID" (Some (IRBasicType BaseType_Int))
  else if named "sv_instanceid"%string then
    found "gl_InstanceIndex" (Some (IRBasicType BaseType_Int))
  else if named "sv_isfrontface"%string then
    found "gl_FrontFacing" (Some (IRBasicType BaseType_Bool))
  else if named "sv_outputcontrolpointid"%string then
    found "gl_InvocationID" (Some (IRBasicType BaseType_Int))
  else if named "sv_pointsize"%string then
    found "gl_PointSize" (Some (IRBasicType BaseType_Float))
  else if named "sv_primitiveid"%string then
    found "gl_PrimitiveID" (Some (IRBasicType BaseType_Int))
  else if named "sv_rendertargetarrayindex"%string then
    contextStage <- getStage ;;
    match contextStage with
    | Stage_Geometry => requireGLSLVersion GLSL_150
    | Stage_Fragment => requireGLSLVersion GLSL_430
    | _ =>
        requireGLSLVersion GLSL_450 ;;
        requireGLSLExtension "GL_ARB_shader_viewport_layer_array"
    end ;;
    found "gl_Layer" (Some (IRBasicType BaseType_Int))
  else if named "sv_sampleindex"%string then
    found "gl_SampleID" (Some (IRBasicType BaseType_Int))
  else if named "sv_stencilref"%string then
    requireGLSLExtension "ARB_shader_stencil_export" ;;
    found "gl_FragStencilRef" (Some (IRBasicType BaseType_Int))
  else if named "sv_tessfactor"%string then
    found "gl_TessLevelOuter" (Some (IRArrayType (IRBasicType BaseType_Float) 4))
  else if named "sv_vertexid"%string then
    found "gl_VertexIndex" (Some (IRBasicType BaseType_Int))
  else if named "sv_viewportarrayindex"%string then
    found "gl_ViewportIndex" (Some (IRBasicType BaseType_Int))
  else if named "nv_x_right"%string then
    requireGLSLVersion GLSL_450 ;;
    requireGLSLExtension "GL_NVX_multiview_per_view_attributes" ;;
    found "gl_PositionPerViewNV[1]" None
  else if named "nv_viewport_mask"%string then
    requireGLSLVersion GLSL_450 ;;
    requireGLSLExtension "GL_NVX_multiview_per_view_attributes" ;;
    found "gl_ViewportMaskPerViewNV" None
  else ret (Some (None, None, None)).

Definition unknownSystemValueSemantic : string := "unknownSystemValueSemantic".

(** [getGLSLSystemValueInfo]: [Some] is the pointer to the filled
    storage, [None] the null pointer. *)
Definition getGLSLSystemValueInfo (varLayout : VarLayout) (kind : LayoutResourceKind)
           (stage : Stage) : M (option GLSLSystemValueInfo) :=
  let semanticNameSpelling := systemValueSemantic varLayout in
  if Nat.eqb (String.length semanticNameSpelling) 0 then ret None
  else
    let semanticName := toLower semanticNameSpelling in
    locals <- systemValueTable semanticName kind stage ;;
    match locals with
    | None => ret None
    | Some (Some n, outer, required) =>
        ret (Some (mkGLSLSystemValueInfo n outer required))
    | Some (None, _, _) =>
        diagnose (loc (varDecl varLayout)) unknownSystemValueSemantic
                 semanticNameSpelling ;;
        ret None
    end.

(* ------------------------------------------------------------------ *)
(** ** The varying materializer

    The builder argument of the source serves there to build types and
    to reach the module and the function; types are terms and the module
    is in the state here, so the three functions take no builder. *)

Import ScalarizedVal.

Definition isOutputKind (kind : LayoutResourceKind) : bool :=
  LayoutResourceKind_eqb kind LayoutResourceKind_VaryingOutput.

(** One turn of the loop over the declarators: wrap the type in an array
    type and make the array type layout. *)
Definition wrapDeclarator (inTypeLayout : TypeLayout) (kind : LayoutResourceKind)
           (acc : IRType * TypeLayout) (dd : GlobalVaryingDeclarator)
  : IRType * TypeLayout :=
  let '(type, typeLayout) := acc in
  let arrayType := IRArrayType type (elementCount dd) in
  let usage :=
    match FindResourceInfo (TypeLayout_resourceInfos inTypeLayout) kind with
    | Some count => [(kind, UInt_wrap (count * UInt_wrap (elementCount dd)))]
    | None => []
    end in
  (arrayType,
   mkTypeLayout (TypeLayout_rules typeLayout) usage
                (ArrayTypeLayout typeLayout typeLayout 0)).

Definition createSimpleGLSLGlobalVarying
           (inType : IRType) (inVarLayout : VarLayout) (inTypeLayout : TypeLayout)
           (kind : LayoutResourceKind) (stage : Stage) (bindingIndex : Z)
           (declarator : list GlobalVaryingDeclarator) : M ScalarizedVal.t :=
  systemValueInfo <- getGLSLSystemValueInfo inVarLayout kind stage ;;
  let type :=
    match systemValueInfo with
    | Some info =>
        match requiredType info with
        | Some t => t
        | None => inType
        end
    | None => inType
    end in
  let '(type, typeLayout) :=
    fold_left (wrapDeclarator inTypeLayout kind) declarator (type, inTypeLayout) in
  let varLayout :=
    mkVarLayout (varDecl inVarLayout) typeLayout (flags inVarLayout)
                (systemValueSemantic inVarLayout)
                (systemValueSemanticIndex inVarLayout)
                (semanticName inVarLayout) (semanticIndex inVarLayout)
                (VarLayout_stage inVarLayout) [(kind, bindingIndex)] in
  let isOutput := isOutputKind kind in
  let paramType := if isOutput then getOutType type else type in
  globalParam <- addGlobalParam paramType ;;
  moveValueBefore globalParam ;;
  let val := if isOutput then address globalParam else value globalParam in
  val <- match systemValueInfo with
         | Some info =>
             addDecoration globalParam (IRImportDecoration (name info)) ;;
             let val' :=
               match requiredType info with
               | Some fromType =>
                   let toType := inType in
                   if negb (isTypeEqual fromType toType)
                   then typeAdapter val fromType inType
                   else val
               | None => val
               end in
             match outerArrayName info with
             | Some outer =>
                 addDecoration globalParam (IRGLSLOuterArrayDecoration outer)
             | None => ret tt
             end ;;
             ret val'
         | None => ret val
         end ;;
  addDecoration globalParam (IRLayoutDecoration (Layout_VarLayout varLayout)) ;;
  ret val.

(** The type of a tuple, with the outer arrays of the declarators. *)
Definition wrapFullType (type : IRType) (declarator : list GlobalVaryingDeclarator)
  : IRType :=
  fold_left (fun fullType dd => IRArrayType fullType (elementCount dd)) declarator type.

Fixpoint createGLSLGlobalVaryingsImpl
         (type : IRType) (varLayout : VarLayout) (typeLayout : TypeLayout)
         (kind : LayoutResourceKind) (stage : Stage) (bindingIndex : Z)
         (declarator : list GlobalVaryingDeclarator) {struct type}
  : M ScalarizedVal.t :=
  match type with
  | IRVoidType => ret none
  | IRBasicType _ | IRVectorType _ _ | IRMatrixType _ _ _ =>
      createSimpleGLSLGlobalVarying type varLayout typeLayout kind stage
                                    bindingIndex declarator
  | IRArrayType elementType elementCount =>
      match TypeLayout_shape typeLayout with
      | ArrayTypeLayout _ elementTypeLayout _ =>
          let arrayDeclarator := mkGlobalVaryingDeclarator elementCount in
          createGLSLGlobalVaryingsImpl elementType varLayout elementTypeLayout
                                       kind stage bindingIndex
                                       (arrayDeclarator :: declarator)
      | _ => abort "assertion failed: arrayLayout"
      end
  | IRHLSLStreamOutputType _ elementType =>
      match TypeLayout_shape typeLayout with
      | StreamOutputTypeLayout elementTypeLayout =>
          createGLSLGlobalVaryingsImpl elementType varLayout elementTypeLayout
                                       kind stage bindingIndex declarator
      | _ => abort "assertion failed: streamLayout"
      end
  | IRStructType _ fields =>
      match TypeLayout_shape typeLayout with
      | StructTypeLayout fieldLayouts =>
          let fullType := wrapFullType type declarator in
          elements <-
            (fix eachField (fs : list (IRStructKey * IRType)) (fieldCounter : nat)
               {struct fs} : M (list (IRStructKey * ScalarizedVal.t)) :=
               match fs with
               | [] => ret []
               | (key, fieldType) :: rest =>
                   let fieldIndex := fieldCounter in
                   match nth_error fieldLayouts fieldIndex with
                   | None => abort "index out of range: fields"
                   | Some fieldLayout =>
                       let fieldBindingIndex :=
                         match FindResourceInfo (VarLayout_resourceInfos fieldLayout) kind with
                         | Some index => UInt_wrap (bindingIndex + index)
                         | None => bindingIndex
                         end in
                       fieldVal <- createGLSLGlobalVaryingsImpl
                                     fieldType fieldLayout (VarLayout_typeLayout fieldLayout)
                                     kind stage fieldBindingIndex declarator ;;
                       others <- eachField rest (S fieldCounter) ;;
                       ret (if isNone fieldVal then others
                            else (key, fieldVal) :: others)
                   end
               end) fields 0%nat ;;
          ret (tuple fullType elements)
      | _ => abort "assertion failed: structTypeLayout"
      end
  | _ =>
      createSimpleGLSLGlobalVarying type varLayout typeLayout kind stage
                                    bindingIndex declarator
  end.

Definition createGLSLGlobalVaryings
           (type : IRType) (layout : VarLayout) (kind : LayoutResourceKind)
           (stage : Stage) : M ScalarizedVal.t :=
  let bindingIndex :=
    match FindResourceInfo (VarLayout_resourceInfos layout) kind with
    | Some index => index
    | None => 0%Z
    end in
  createGLSLGlobalVaryingsImpl type layout (VarLayout_typeLayout layout) kind stage
                               bindingIndex [].

(* ------------------------------------------------------------------ *)
(** ** Scalarized operations *)

Definition extractField (builder : IRBuilder) (val : ScalarizedVal.t)
           (fieldIndex : nat) (fieldKey : IRStructKey) : M ScalarizedVal.t :=
  match val with
  | value irValue =>
      baseType <- getDataType irValue ;;
      fieldType <- getFieldType baseType fieldKey ;;
      i <- emitFieldExtract builder fieldType irValue fieldKey ;;
      ret (value i)
  | address irValue =>
      ptrType <- getDataType irValue ;;
      match ptrType with
      | IRPtrTypeBase ptrOp valType =>
          fieldType <- getFieldType valType fieldKey ;;
          let fieldPtrType := IRPtrTypeBase ptrOp fieldType in
          i <- emitFieldAddress builder fieldPtrType irValue fieldKey ;;
          ret (address i)
      | _ => abort "not a pointer type"
      end
  | tuple _ elements =>
      match nth_error elements fieldIndex with
      | Some (_, v) => ret v
      | None => abort "index out of range: elements"
      end
  | _ => SLANG_UNEXPECTED "unimplemented"
  end.

(** [adaptType] for an instruction. *)
Definition adaptTypeInst (builder : IRBuilder) (val : IRInstPtr)
           (toType fromType : IRType) : M ScalarizedVal.t :=
  i <- emitConstructorInst builder toType [val] ;;
  ret (value i).

(** [adaptType] for a scalarized value. *)
Definition adaptType (builder : IRBuilder) (val : ScalarizedVal.t)
           (toType fromType : IRType) : M ScalarizedVal.t :=
  match val with
  | value irValue => adaptTypeInst builder irValue toType fromType
  | address irValue =>
      loaded <- emitLoad builder irValue ;;
      adaptTypeInst builder loaded toType fromType
  | _ => SLANG_UNEXPECTED "unimplemented"
  end.

(** Run [f] on each element with its index, in order. *)
Fixpoint forEachIndexed {A} (f : nat -> A -> M unit) (ee : nat) (l : list A) : M unit :=
  match l with
  | [] => ret tt
  | x :: r => f ee x ;; forEachIndexed f (S ee) r
  end.

(** [assign], with the depth of the recursion bounded by [fuel]. *)
Fixpoint assign_fuel (fuel : nat) (builder : IRBuilder)
         (left right : ScalarizedVal.t) {struct fuel} : M unit :=
  match fuel with
  | O => outOfFuel
  | S fuel' =>
      match left with
      | address leftValue =>
          match right with
          | value rightValue =>
              emitStore builder leftValue rightValue ;; ret tt
          | address rightValue =>
              val <- emitLoad builder rightValue ;;
              emitStore builder leftValue val ;; ret tt
          | tuple _ rightElements =>
              forEachIndexed
                (fun ee rightElement =>
                   leftElementVal <- extractField builder left ee (fst rightElement) ;;
                   assign_fuel fuel' builder leftElementVal (snd rightElement))
                0%nat rightElements
          | _ => SLANG_UNEXPECTED "unimplemented"
          end
      | tuple _ leftElements =>
          forEachIndexed
            (fun ee leftElement =>
               rightElementVal <- extractField builder right ee (fst leftElement) ;;
               assign_fuel fuel' builder (snd leftElement) rightElementVal)
            0%nat leftElements
      | typeAdapter val actualType pretendType =>
          adaptedRight <- adaptType builder right actualType pretendType ;;
          assign_fuel fuel' builder val adaptedRight
      | _ => SLANG_UNEXPECTED "unimplemented"
      end
  end.

(** The size of a scalarized value: the number of its nodes. *)
Fixpoint sizeOfVal (v : ScalarizedVal.t) : nat :=
  match v with
  | tuple _ elements =>
      S ((fix sum (l : list (IRStructKey * ScalarizedVal.t)) : nat :=
            match l with
            | [] => O
            | (_, e) :: r => sizeOfVal e + sum r
            end) elements)
  | typeAdapter val _ _ => S (sizeOfVal val)
  | _ => 1%nat
  end.

(** [assign]: each recursive call is on values of a smaller total size,
    so that the sum of the two sizes bounds the depth. *)
Definition assign (builder : IRBuilder) (left right : ScalarizedVal.t) : M unit :=
  assign_fuel (sizeOfVal left + sizeOfVal right) builder left right.

(** [getSubscriptVal] with an instruction as the index.  The loop over
    the fields of the struct type goes along the elements of the tuple:
    the element read is the one at the position of the field. *)
Fixpoint getSubscriptVal (builder : IRBuilder) (elementType : IRType)
         (val : ScalarizedVal.t) (indexVal : IRInstPtr) {struct val}
  : M ScalarizedVal.t :=
  match val with
  | value irValue =>
      i <- emitElementExtract builder elementType irValue indexVal ;;
      ret (value i)
  | address irValue =>
      i <- emitElementAddress builder (getPtrType elementType) irValue indexVal ;;
      ret (address i)
  | tuple _ inputElements =>
      match elementType with
      | IRStructType _ fields =>
          resultElements <-
            (fix eachField (fs : list IRStructField)
                 (es : list (IRStructKey * ScalarizedVal.t)) {struct es}
               : M (list (IRStructKey * ScalarizedVal.t)) :=
               match fs with
               | [] =>
                   match es with
                   | [] => ret []
                   | _ :: _ =>
                       abort "assertion failed: elementCounter == elementCount"
                   end
               | field :: fs' =>
                   match es with
                   | [] => abort "assertion failed: elementIndex < elementCount"
                   | (key, inputVal) :: es' =>
                       let tupleElementType := IRStructField_getFieldType field in
                       resultVal <- getSubscriptVal builder tupleElementType
                                                      inputVal indexVal ;;
                       others <- eachField fs' es' ;;
                       ret ((key, resultVal) :: others)
                   end
               end) fields inputElements ;;
          ret (tuple elementType resultElements)
      | _ => abort "not a struct type"
      end
  | _ => SLANG_UNEXPECTED "unimplemented"
  end.

Definition getIntType : IRType := IRBasicType BaseType_Int.
Definition getIntValue (type : IRType) (v : Z) : IRInstPtr := IntLitRef type v.

(** [getSubscriptVal] with a number as the index. *)
Definition getSubscriptValAt (builder : IRBuilder) (elementType : IRType)
           (val : ScalarizedVal.t) (index : nat) : M ScalarizedVal.t :=
  getSubscriptVal builder elementType val (getIntValue getIntType (Z.of_nat index)).

(** Run [f] on each element, in order, and collect the results. *)
Fixpoint mapM {A B} (f : A -> M B) (l : list A) : M (list B) :=
  match l with
  | [] => ret []
  | x :: r => y <- f x ;; ys <- mapM f r ;; ret (y :: ys)
  end.

(** [materializeTupleValue], given [materializeValue]. *)
Definition materializeTupleValueWith
           (materializeValue : IRBuilder -> ScalarizedVal.t -> M IRInstPtr)
           (builder : IRBuilder) (val : ScalarizedVal.t) : M IRInstPtr :=
  match val with
  | tuple type elements =>
      match type with
      | IRArrayType elementType count =>
          let arrayElementCount := Z.to_nat (UInt_wrap count) in
          arrayElementVals <-
            mapM (fun ii =>
                    arrayElementPseudoVal <-
                      getSubscriptValAt builder elementType val ii ;;
                    materializeValue builder arrayElementPseudoVal)
                 (seq 0 arrayElementCount) ;;
          emitMakeArray builder type arrayElementVals
      | _ =>
          elementVals <-
            mapM (fun element => materializeValue builder (snd element)) elements ;;
          emitConstructorInst builder type elementVals
      end
  | _ => abort "assertion failed: tupleVal"
  end.

(** [materializeValue], with the depth of the recursion bounded by
    [fuel]. *)
Fixpoint materializeValue_fuel (fuel : nat) (builder : IRBuilder)
         (val : ScalarizedVal.t) {struct fuel} : M IRInstPtr :=
  match fuel with
  | O => outOfFuel
  | S fuel' =>
      match val with
      | value irValue => ret irValue
      | address irValue => emitLoad builder irValue
      | tuple _ _ =>
          materializeTupleValueWith (materializeValue_fuel fuel') builder val
      | typeAdapter inner actualType pretendType =>
          adapted <- adaptType builder inner pretendType actualType ;;
          materializeValue_fuel fuel' builder adapted
      | none => SLANG_UNEXPECTED "unimplemented"
      end
  end.

(** The size of a type: the number of its nodes. *)
Fixpoint typeSize (t : IRType) : nat :=
  match t with
  | IRVectorType e _ | IRMatrixType e _ _ | IRArrayType e _
  | IRHLSLStreamOutputType _ e | IRPtrTypeBase _ e => S (typeSize e)
  | IRStructType _ fs =>
      S ((fix sum (l : list (IRStructKey * IRType)) : nat :=
            match l with
            | [] => O
            | (_, e) :: r => typeSize e + sum r
            end) fs)
  | IRFuncType ps r =>
      S ((fix sum (l : list IRType) : nat :=
            match l with
            | [] => O
            | e :: r => typeSize e + sum r
            end) ps + typeSize r)
  | _ => 1%nat
  end.

(** The largest size of the type of a tuple in a scalarized value. *)
Fixpoint maxTupleTypeSize (v : ScalarizedVal.t) : nat :=
  match v with
  | tuple type elements =>
      Nat.max (typeSize type)
        ((fix most (l : list (IRStructKey * ScalarizedVal.t)) : nat :=
            match l with
            | [] => O
            | (_, e) :: r => Nat.max (maxTupleTypeSize e) (most r)
            end) elements)
  | typeAdapter val _ _ => maxTupleTypeSize val
  | _ => O
  end.

Definition tupleTypeSize (v : ScalarizedVal.t) : nat :=
  match v with
  | tuple type _ => typeSize type
  | _ => O
  end.

(** [materializeValue].  A recursive call is on a part of the value, or,
    for a tuple of an array type, on a tuple of the same shape whose type
    is the element type; the bound below covers both. *)
Definition materializeFuel (v : ScalarizedVal.t) : nat :=
  S (sizeOfVal v * S (maxTupleTypeSize v) + tupleTypeSize v).

Definition materializeValue (builder : IRBuilder) (val : ScalarizedVal.t)
  : M IRInstPtr :=
  materializeValue_fuel (materializeFuel val) builder val.

(* ------------------------------------------------------------------ *)
(** ** The entry-point rewriter *)

Definition getFunc : M IRFunc := fun st => OK (moduleFunc (module st), st).

Definition getFuncPtr : M IRInstPtr :=
  f <- getFunc ;; ret (InstRef (funcId f)).

(** The number of blocks of the function, and the children of the block
    at a position when the loop reaches it. *)
Definition blockCount : M nat :=
  f <- getFunc ;; ret (List.length (blocks f)).

Definition getBlock (blockIndex : nat) : M IRBlock :=
  f <- getFunc ;;
  match nth_error (blocks f) blockIndex with
  | Some b => ret b
  | None => abort "no such block"
  end.

(** [for (bb = func->getFirstBlock(); bb; bb = bb->getNextBlock())]. *)
Definition forEachBlock (body : nat -> IRBlock -> M unit) : M unit :=
  n <- blockCount ;;
  forEach (fun blockIndex => bb <- getBlock blockIndex ;; body blockIndex bb) (seq 0 n).

Definition legalizeRayTracingEntryPointParameterForGLSL
           (pp : IRInst) (paramLayout : VarLayout) : M unit :=
  let paramType := dataType pp in
  globalParam <- addGlobalParam paramType ;;
  addDecoration globalParam (IRLayoutDecoration (Layout_VarLayout paramLayout)) ;;
  moveValueBefore globalParam ;;
  replaceUsesWith (InstRef (instId pp)) globalParam ;;
  func <- getFuncPtr ;;
  addDecoration func (IRDependsOnDecoration globalParam).

(** [as<IROutTypeBase>]. *)
Definition asOutTypeBase (t : IRType) : option (PtrOp * IRType) :=
  match t with
  | IRPtrTypeBase kIROp_OutType v => Some (kIROp_OutType, v)
  | IRPtrTypeBase kIROp_InOutType v => Some (kIROp_InOutType, v)
  | _ => None
  end.


Definition isRayTracingStage (s : Stage) : bool :=
  match s with
  | Stage_AnyHit | Stage_Callable | Stage_ClosestHit | Stage_Intersection
  | Stage_Miss | Stage_RayGeneration => true
  | _ => false
  end.

(** The loop that finds what a call calls: the operand of a
    [specialize], the value a [generic] returns.  The loop ends on every
    module whose instructions do not refer to one another in a cycle;
    [fuel] bounds its turns. *)
Fixpoint resolveCallee (fuel : nat) (callee : IRInst) {struct fuel} : M IRInst :=
  match fuel with
  | O => outOfFuel
  | S fuel' =>
      match op callee with
      | kIROp_Specialize =>
          match getOperand callee 0 with
          | Some p => c <- derefM p ;; resolveCallee fuel' c
          | None => abort "no operand"
          end
      | kIROp_Generic =>
          match genericReturnVal callee with
          | Some genericResult => c <- derefM genericResult ;; resolveCallee fuel' c
          | None => ret callee
          end
      | _ => ret callee
      end
  end.

Definition resolveCalleeFuel : M nat :=
  fun st => OK (S (S (List.length (allInsts (module st)))), st).

(** The body of the loop over the instructions of a block for a
    geometry-shader output stream. *)
Definition legalizeStreamOutputCall (globalOutputVal : ScalarizedVal.t)
           (ii : IRInst) : M unit :=
  if negb (IROp_eqb (op ii) kIROp_Call) then ret tt
  else
    match getOperand ii 0 with
    | None => abort "no operand"
    | Some calleePtr =>
        callee <- derefM calleePtr ;;
        fuel <- resolveCalleeFuel ;;
        callee <- resolveCallee fuel callee ;;
        if negb (IROp_eqb (op callee) kIROp_Func) then ret tt
        else
          match findTargetIntrinsicDecoration (decorations callee) "glsl" with
          | None => ret tt
          | Some definition =>
              if negb (String.eqb definition "EmitVertex()") then ret tt
              else
                setInsertBefore (Some ii) ;;
                builder <- getBuilder ;;
                match getOperand ii 2 with
                | None => abort "no operand"
                | Some arg => assign builder globalOutputVal (value arg)
                end
          end
    end.

(** The body of the loop over the blocks for an [out] or [inout]
    parameter: the assignment goes before the terminator, with a builder
    of its own. *)
Definition assignBeforeReturn (globalOutputVal localVal : ScalarizedVal.t)
           (bb : IRBlock) : M unit :=
  match getLastInst bb with
  | None => ret tt
  | Some terminatorInst =>
      match op terminatorInst with
      | kIROp_ReturnVal | kIROp_ReturnVoid =>
          let terminatorBuilder := insertBeforeInst (instId terminatorInst) in
          assign terminatorBuilder globalOutputVal localVal
      | _ => ret tt
      end
  end.

Definition legalizeEntryPointParameterForGLSL
           (pp : IRInst) (paramLayout : VarLayout) : M unit :=
  stage <- getStage ;;
  let paramType := dataType pp in
  let ppPtr := InstRef (instId pp) in
  match asOutTypeBase paramType with
  | Some (_, IRHLSLStreamOutputType streamOp elementType) =>
      let valueType := IRHLSLStreamOutputType streamOp elementType in
      globalOutputVal <- createGLSLGlobalVaryings valueType paramLayout
                           LayoutResourceKind_VaryingOutput stage ;;
      forEachBlock (fun _ bb =>
                      forEach (legalizeStreamOutputCall globalOutputVal) (children bb)) ;;
      firstBlock <- getBlock 0 ;;
      setInsertBefore (getFirstOrdinaryInst firstBlock) ;;
      builder <- getBuilder ;;
      undefinedVal <- emitUndefined builder (dataType pp) ;;
      replaceUsesWith ppPtr undefinedVal
  | asOut =>
      if isRayTracingStage stage
      then legalizeRayTracingEntryPointParameterForGLSL pp paramLayout
      else
        match asOut with
        | Some (ptrOp, valueType) =>
            builder <- getBuilder ;;
            localVariable <- emitVar builder valueType ;;
            let localVal := address localVariable in
            match ptrOp with
            | kIROp_InOutType =>
                globalInputVal <- createGLSLGlobalVaryings valueType paramLayout
                                    LayoutResourceKind_VaryingInput stage ;;
                assign builder localVal globalInputVal
            | _ => ret tt
            end ;;
            replaceUsesWith ppPtr localVariable ;;
            globalOutputVal <- createGLSLGlobalVaryings valueType paramLayout
                                 LayoutResourceKind_VaryingOutput stage ;;
            forEachBlock (fun _ bb => assignBeforeReturn globalOutputVal localVal bb)
        | None =>
            globalValue <- createGLSLGlobalVaryings paramType paramLayout
                             LayoutResourceKind_VaryingInput stage ;;
            builder <- getBuilder ;;
            materialized <- materializeValue builder globalValue ;;
            replaceUsesWith ppPtr materialized
        end
  end.

(** The loop over the instructions of a block that rewrites a
    [returnVal]: the rest of the block is [rest].  After the rewrite the
    loop goes on from the new [returnVoid], which is the last instruction
    of the block, so that the loop over this block ends there. *)
Fixpoint rewriteReturnVal (resultGlobal : ScalarizedVal.t) (blockIndex : nat)
         (insts : list IRInst) {struct insts} : M unit :=
  match insts with
  | [] => ret tt
  | ii :: rest =>
      if negb (IROp_eqb (op ii) kIROp_ReturnVal)
      then rewriteReturnVal resultGlobal blockIndex rest
      else
        match getOperand ii 0 with
        | None => abort "no operand"
        | Some returnValue =>
            setInsertInto blockIndex ;;
            builder <- getBuilder ;;
            assign builder resultGlobal (value returnValue) ;;
            returnVoid <- emitReturn builder ;;
            removeAndDeallocate (instId ii) ;;
            ret tt
        end
  end.

(** The instructions a decoration refers to, and all those an
    instruction refers to: its operands, those of its decorations, and
    the value it returns when it is a generic. *)
Definition decorationOperands (d : IRDecoration) : list IRInstPtr :=
  match d with
  | IRDependsOnDecoration dependency => [dependency]
  | _ => []
  end.

Definition usesOfInst (i : IRInst) : list IRInstPtr :=
  operands i ++ flat_map decorationOperands (decorations i) ++
  match genericReturnVal i with
  | Some p => [p]
  | None => []
  end.

(** [firstUse != nullptr]: some instruction of the module, or some
    decoration of the function, refers to the instruction. *)
Definition hasUses (m : IRModule) (p : IRInstPtr) : bool :=
  (existsb (fun i => existsb (IRInstPtr_eqb p) (usesOfInst i)) (allInsts m) ||
   existsb (IRInstPtr_eqb p)
           (flat_map decorationOperands (funcDecorations (moduleFunc m))))%bool.

Definition setContextStage (s : Stage) : M unit :=
  modify (fun st =>
    mkPassState (nextInstId st) (module st) s (sink st)
                (extensionUsageTracker st) (contextBuilder st)).

Definition setFullType (t : IRType) : M unit :=
  modify (fun st =>
    let f := moduleFunc (module st) in
    set_module st (set_func (module st)
      (mkIRFunc (funcId f) t (blocks f) (funcDecorations f)))).

Definition isVoidType (t : IRType) : bool :=
  match t with
  | IRVoidType => true
  | _ => false
  end.

(** The loop that turns each parameter of the entry block into global
    variables.  No step of the pass inserts before a parameter or removes
    one, so the parameters the loop goes through are those the block has
    when the loop starts. *)
Definition legalizeParams (firstBlock : IRBlock) : M unit :=
  forEach
    (fun pp =>
       match findLayoutDecoration (decorations pp) with
       | Some (Layout_VarLayout paramLayout) =>
           legalizeEntryPointParameterForGLSL pp paramLayout
       | _ => abort "assertion failed: paramLayout"
       end)
    (getParams firstBlock).

(** The loop that destroys the parameters of the entry block. *)
Definition removeParams : M unit :=
  modify (fun st =>
    match stateBlocks st with
    | [] => st
    | b :: r =>
        set_state_blocks st (mkIRBlock (dropWhile isParam (children b)) :: r)
    end).

Definition legalizeEntryPointForGLSL : M unit :=
  func <- getFunc ;;
  match findLayoutDecoration (funcDecorations func) with
  | Some (Layout_EntryPointLayout entryPointLayout) =>
      let stage := profileStage entryPointLayout in
      setContextStage stage ;;
      m <- (fun st => OK (module st, st)) ;;
      SLANG_ASSERT (negb (hasUses m (InstRef (funcId func)))) ;;
      setBuilder insertIntoFunc ;;
      match getResultType func with
      | None => abort "not a function type"
      | Some resultType =>
          if (isVoidType resultType && Nat.eqb (getParamCount func) 0)%bool
          then ret tt
          else
            (if isVoidType resultType then ret tt
             else
               match resultLayout entryPointLayout with
               | None => abort "no result layout"
               | Some layout =>
                   resultGlobal <- createGLSLGlobalVaryings resultType layout
                                     LayoutResourceKind_VaryingOutput stage ;;
                   forEachBlock (fun blockIndex bb =>
                                   rewriteReturnVal resultGlobal blockIndex (children bb))
               end) ;;
            func <- getFunc ;;
            match getFirstBlock func with
            | Some firstBlock =>
                setInsertBefore (getFirstOrdinaryInst firstBlock) ;;
                legalizeParams firstBlock ;;
                removeParams
            | None => ret tt
            end ;;
            let voidFuncType := getFuncType [] getVoidType in
            setFullType voidFuncType
      end
  | _ => abort "assertion failed: entryPointLayout"
  end.

(* ------------------------------------------------------------------ *)
(** ** Notions used in the statements *)

(** The semantics the table of the resolver knows, in lower case. *)
Definition knownSystemValueSemantics : list string :=
  [ "sv_position"; "sv_target"; "sv_clipdistance"; "sv_culldistance";
    "sv_coverage"; "sv_depth"; "sv_depthgreaterequal"; "sv_depthlessequal";
    "sv_dispatchthreadid"; "sv_domainlocation"; "sv_groupid"; "sv_groupindex";
    "sv_groupthreadid"; "sv_gsinstanceid"; "sv_instanceid"; "sv_isfrontface";
    "sv_outputcontrolpointid"; "sv_pointsize"; "sv_primitiveid";
    "sv_rendertargetarrayindex"; "sv_sampleindex"; "sv_stencilref";
    "sv_tessfactor"; "sv_vertexid"; "sv_viewportarrayindex"; "nv_x_right";
    "nv_viewport_mask" ]%string.

Definition isKnownSemantic (semanticName : string) : bool :=
  existsb (String.eqb semanticName) knownSystemValueSemantics.

(** What the resolver returns and the state it leaves, at a state. *)
Definition resolveSystemValue (varLayout : VarLayout) (kind : LayoutResourceKind)
           (stage : Stage) (st : PassState) : option GLSLSystemValueInfo * PassState :=
  match getGLSLSystemValueInfo varLayout kind stage st with
  | OK r => r
  | _ => (None, st)
  end.

(** The state after a diagnostic has gone to the sink. *)
Definition withDiagnostic (d : Diagnostic) (st : PassState) : PassState :=
  mkPassState (nextInstId st) (module st) (contextStage st) (sink st ++ [d])
              (extensionUsageTracker st) (contextBuilder st).

(** Every instruction of the module and the function itself are older
    than the next fresh instruction. *)
Definition freshIds (st : PassState) : Prop :=
  Forall (fun i => instId i < nextInstId st) (allInsts (module st)) /\
  funcId (moduleFunc (module st)) < nextInstId st.

(** The leaf the materializer creates for a type, given what the
    resolver returned: its type, the decorations of its global parameter,
    the global parameter, and the value that refers to it. *)
Definition leafType (inType : IRType) (info : option GLSLSystemValueInfo) : IRType :=
  match info with
  | Some i =>
      match requiredType i with
      | Some t => t
      | None => inType
      end
  | None => inType
  end.

Definition needsTypeAdapter (inType : IRType) (info : option GLSLSystemValueInfo)
  : option IRType :=
  match info with
  | Some i =>
      match requiredType i with
      | Some t => if isTypeEqual t inType then None else Some t
      | None => None
      end
  | None => None
  end.

Definition leafParamType (kind : LayoutResourceKind) (type : IRType) : IRType :=
  if isOutputKind kind then getOutType type else type.

Definition leafVarLayout (inVarLayout : VarLayout) (tl : TypeLayout)
           (kind : LayoutResourceKind) (bindingIndex : Z) : VarLayout :=
  mkVarLayout (varDecl inVarLayout) tl (flags inVarLayout)
              (systemValueSemantic inVarLayout)
              (systemValueSemanticIndex inVarLayout)
              (semanticName inVarLayout) (semanticIndex inVarLayout)
              (VarLayout_stage inVarLayout) [(kind, bindingIndex)].

Definition leafDecorations (info : option GLSLSystemValueInfo) (l : VarLayout)
  : list IRDecoration :=
  IRLayoutDecoration (Layout_VarLayout l) ::
  match info with
  | Some i =>
      match outerArrayName i with
      | Some outer => [IRGLSLOuterArrayDecoration outer]
      | None => []
      end ++ [IRImportDecoration (name i)]
  | None => []
  end.

Definition leafGlobalParam (id : nat) (inType : IRType) (inVarLayout : VarLayout)
           (inTypeLayout : TypeLayout) (kind : LayoutResourceKind)
           (bindingIndex : Z) (declarator : list GlobalVaryingDeclarator)
           (info : option GLSLSystemValueInfo) : IRInst :=
  let wrapped := fold_left (wrapDeclarator inTypeLayout kind) declarator
                           (leafType inType info, inTypeLayout) in
  mkIRInst id kIROp_GlobalParam (leafParamType kind (fst wrapped)) []
           (leafDecorations info (leafVarLayout inVarLayout (snd wrapped) kind bindingIndex))
           None.

Definition leafRef (id : nat) (kind : LayoutResourceKind) : ScalarizedVal.t :=
  if isOutputKind kind then address (InstRef id) else value (InstRef id).

Definition leafVal (id : nat) (inType : IRType) (kind : LayoutResourceKind)
           (info : option GLSLSystemValueInfo) : ScalarizedVal.t :=
  match needsTypeAdapter inType info with
  | Some actual => typeAdapter (leafRef id kind) actual inType
  | None => leafRef id kind
  end.

(** The state after a global parameter has been put before the
    function. *)
Definition withGlobalParam (g : IRInst) (st : PassState) : PassState :=
  mkPassState (S (nextInstId st))
    (mkIRModule (moduleBefore (module st) ++ [g]) (moduleFunc (module st))
                (moduleAfter (module st)))
    (contextStage st) (sink st) (extensionUsageTracker st) (contextBuilder st).

(** The value a type adapter wraps; the value itself otherwise. *)
Definition stripTypeAdapter (v : ScalarizedVal.t) : ScalarizedVal.t :=
  match v with
  | typeAdapter inner _ _ => inner
  | _ => v
  end.

Definition isTypeAdapter (v : ScalarizedVal.t) : bool :=
  match v with
  | typeAdapter _ _ _ => true
  | _ => false
  end.

(** The types for which the materializer creates a single global
    parameter: all but void, arrays, output streams and structs. *)
Definition isSimpleVaryingType (t : IRType) : bool :=
  match t with
  | IRVoidType | IRArrayType _ _ | IRHLSLStreamOutputType _ _ | IRStructType _ _ => false
  | _ => true
  end.

(** The loop over the fields of a struct in
    [createGLSLGlobalVaryingsImpl], by name. *)
Definition createFields (fieldLayouts : list VarLayout) (kind : LayoutResourceKind)
           (stage : Stage) (bindingIndex : Z)
           (declarator : list GlobalVaryingDeclarator)
  : list (IRStructKey * IRType) -> nat -> M (list (IRStructKey * ScalarizedVal.t)) :=
  fix eachField (fs : list (IRStructKey * IRType)) (fieldCounter : nat) {struct fs}
    : M (list (IRStructKey * ScalarizedVal.t)) :=
    match fs with
    | [] => ret []
    | (key, fieldType) :: rest =>
        let fieldIndex := fieldCounter in
        match nth_error fieldLayouts fieldIndex with
        | None => abort "index out of range: fields"
        | Some fieldLayout =>
            let fieldBindingIndex :=
              match FindResourceInfo (VarLayout_resourceInfos fieldLayout) kind with
              | Some index => UInt_wrap (bindingIndex + index)
              | None => bindingIndex
              end in
            fieldVal <- createGLSLGlobalVaryingsImpl
                          fieldType fieldLayout (VarLayout_typeLayout fieldLayout)
                          kind stage fieldBindingIndex declarator ;;
            others <- eachField rest (S fieldCounter) ;;
            ret (if isNone fieldVal then others
                 else (key, fieldVal) :: others)
        end
    end.

(** A state with nothing in it, and what the resolver returns for a
    variable: the result does not depend on the state. *)
Definition emptyState : PassState :=
  mkPassState 0 (mkIRModule [] (mkIRFunc 0 IRVoidType [] []) []) Stage_Unknown []
              (mkExtensionUsageTracker [] []) insertIntoFunc.

Definition systemValueOf (varLayout : VarLayout) (kind : LayoutResourceKind)
           (stage : Stage) : option GLSLSystemValueInfo :=
  fst (resolveSystemValue varLayout kind stage emptyState).

(** The type of the leaf for a field: the type the system value of the
    field requires, or else the type of the field. *)
Definition fieldLeafType (kind : LayoutResourceKind) (stage : Stage)
           (field : IRStructField) (fieldLayout : VarLayout) : IRType :=
  leafType (IRStructField_getFieldType field) (systemValueOf fieldLayout kind stage).

(** The element of the tuple for a field whose leaf is the global
    parameter [id]. *)
Definition fieldElement (kind : LayoutResourceKind) (stage : Stage)
           (field : IRStructField) (fieldLayout : VarLayout) (id : nat)
  : IRStructKey * ScalarizedVal.t :=
  (IRStructField_getKey field,
   leafVal id (IRStructField_getFieldType field) kind
           (systemValueOf fieldLayout kind stage)).

Fixpoint fieldElements (kind : LayoutResourceKind) (stage : Stage)
         (fields : list IRStructField) (fieldLayouts : list VarLayout) (id : nat)
  : list (IRStructKey * ScalarizedVal.t) :=
  match fields, fieldLayouts with
  | field :: fs, fieldLayout :: ls =>
      fieldElement kind stage field fieldLayout id ::
      fieldElements kind stage fs ls (S id)
  | _, _ => []
  end.

(** The type of the global parameter for a field of a struct in arrays:
    the leaf type in the outer arrays, inside an output pointer for an
    output. *)
Fixpoint fieldGlobalTypes (kind : LayoutResourceKind) (stage : Stage)
         (declarator : list GlobalVaryingDeclarator)
         (fields : list IRStructField) (fieldLayouts : list VarLayout)
  : list IRType :=
  match fields, fieldLayouts with
  | field :: fs, fieldLayout :: ls =>
      leafParamType kind
        (wrapFullType (fieldLeafType kind stage field fieldLayout) declarator) ::
      fieldGlobalTypes kind stage declarator fs ls
  | _, _ => []
  end.

Definition isStructType (t : IRType) : bool :=
  match t with
  | IRStructType _ _ => true
  | _ => false
  end.

(** Insert the instructions one after the other at the place of a
    builder. *)
Fixpoint insertAllAt (b : IRBuilder) (new : list IRInst) (bs : list IRBlock)
  : option (list IRBlock) :=
  match new with
  | [] => Some bs
  | i :: rest =>
      match insertAt b i bs with
      | Some bs' => insertAllAt b rest bs'
      | None => None
      end
  end.

(** Two states that differ at most in the blocks of the function and in
    the supply of fresh instructions. *)
Definition sameOutsideBlocks (st st' : PassState) : Prop :=
  moduleBefore (module st') = moduleBefore (module st) /\
  moduleAfter (module st') = moduleAfter (module st) /\
  funcId (moduleFunc (module st')) = funcId (moduleFunc (module st)) /\
  fullType (moduleFunc (module st')) = fullType (moduleFunc (module st)) /\
  funcDecorations (moduleFunc (module st')) = funcDecorations (moduleFunc (module st)) /\
  contextStage st' = contextStage st /\
  sink st' = sink st /\
  extensionUsageTracker st' = extensionUsageTracker st /\
  contextBuilder st' = contextBuilder st.

(** From [st] to [st'] the instructions [new], all fresh, were inserted
    in this order at the place of the builder [b], and nothing else was
    done. *)
Definition emitted (b : IRBuilder) (st st' : PassState) (new : list IRInst) : Prop :=
  sameOutsideBlocks st st' /\
  nextInstId st' = nextInstId st + List.length new /\
  map instId new = seq (nextInstId st) (List.length new) /\
  insertAllAt b new (stateBlocks st) = Some (stateBlocks st').

(** The opcodes of the instructions the scalarized operations emit. *)
Definition isScalarizedOp (o : IROp) : bool :=
  match o with
  | kIROp_Load | kIROp_Store | kIROp_FieldExtract | kIROp_FieldAddress
  | kIROp_getElement | kIROp_getElementPtr | kIROp_Construct | kIROp_makeArray => true
  | _ => false
  end.

(** A computation that, when it returns, has emitted only at the place
    of [b], and only instructions of the scalarized operations. *)
Definition emits {A} (b : IRBuilder) (m : M A) : Prop :=
  forall st a st',
    m st = OK (a, st') ->
    exists new,
      emitted b st st' new /\
      Forall (fun i => isScalarizedOp (op i) = true) new.

(** From [st] to [st'] the global parameters [globals], all fresh, were
    put before the function, in this order; the function and the builder
    of the pass are as they were. *)
Definition createdGlobals (st st' : PassState) (globals : list IRInst) : Prop :=
  moduleBefore (module st') = moduleBefore (module st) ++ globals /\
  moduleAfter (module st') = moduleAfter (module st) /\
  moduleFunc (module st') = moduleFunc (module st) /\
  contextStage st' = contextStage st /\
  contextBuilder st' = contextBuilder st /\
  nextInstId st' = nextInstId st + List.length globals /\
  map instId globals = seq (nextInstId st) (List.length globals) /\
  Forall (fun g => op g = kIROp_GlobalParam) globals.

(** The type of a global parameter created under the declarators
    [declarator]: some type that is not a struct, in the outer arrays of
    the declarators (inside an output pointer for an output). *)
Definition distributesArrays (kind : LayoutResourceKind)
           (declarator : list GlobalVaryingDeclarator) (g : IRInst) : Prop :=
  exists X, isStructType X = false /\
            dataType g = leafParamType kind (wrapFullType X declarator).

Definition isInsertBefore (b : IRBuilder) : bool :=
  match b with
  | insertBeforeInst _ => true
  | _ => false
  end.

(** The opcodes of the instructions the rewrite of a parameter emits. *)
Definition isPassOp (o : IROp) : bool :=
  (isScalarizedOp o ||
   match o with
   | kIROp_Var | kIROp_undefined => true
   | _ => false
   end)%bool.

Definition blockOps (b : IRBlock) : list IROp := map op (children b).

(** The block [b'] comes from the block [b] by steps that keep the
    opcode of the last instruction and add only instructions of the
    rewrite of a parameter. *)
Definition blockRefines (b b' : IRBlock) : Prop :=
  lastOpt (blockOps b') = lastOpt (blockOps b) /\
  Forall (fun o => In o (blockOps b) \/ isPassOp o = true) (blockOps b').

Definition blocksRefine (bs bs' : list IRBlock) : Prop := Forall2 blockRefines bs bs'.

(** A step of the rewrite of the parameters: from a state with fresh
    instructions whose builder inserts before an instruction, it leads
    to such a state, and the blocks of the function change as above. *)
Definition paramStep {A} (m : M A) : Prop :=
  forall st a st',
    freshIds st ->
    isInsertBefore (contextBuilder st) = true ->
    m st = OK (a, st') ->
    freshIds st' /\
    isInsertBefore (contextBuilder st') = true /\
    blocksRefine (stateBlocks st) (stateBlocks st').

(** No two instructions of the function are the same instruction. *)
Definition uniqueIds (st : PassState) : Prop :=
  NoDup (map instId (flat_map children (stateBlocks st))).

(** A [returnVal] is a terminator: in a block it can only be the last
    instruction. *)
Definition returnValOnlyLast (b : IRBlock) : Prop :=
  forall pre i post,
    children b = pre ++ i :: post -> op i = kIROp_ReturnVal -> post = [].

Definition isReturnVal (i : IRInst) : bool := IROp_eqb (op i) kIROp_ReturnVal.

Definition noReturnVal (b : IRBlock) : Prop :=
  Forall (fun o => o <> kIROp_ReturnVal) (blockOps b).

Definition isReturnOp (o : IROp) : bool :=
  match o with
  | kIROp_ReturnVal | kIROp_ReturnVoid => true
  | _ => false
  end.

(** A block that ended in a return ends in [returnVoid]. *)
Definition returnsVoid (b b' : IRBlock) : Prop :=
  forall o, lastOpt (blockOps b) = Some o -> isReturnOp o = true ->
            lastOpt (blockOps b') = Some kIROp_ReturnVoid.

(** The function type agrees with the entry block on whether there are
    parameters. *)
Definition signatureMatchesParams (f : IRFunc) : Prop :=
  getParamCount f = 0%nat -> funcParams f = [].

(** What the loop over the return sites does to a block: a block
    without [returnVal] stays; in a block with a [returnVal], the first
    one is removed, and the instructions that assign the returned value
    to the result global, then a new [returnVoid], are put at the end of
    the block.  What came after the [returnVal] in the block is not
    looked at any more. *)
Definition returnRewritten (resultGlobal : ScalarizedVal.t) (b b' : IRBlock) : Prop :=
  (noReturnVal b /\ b' = b) \/
  (exists pre rv post new rt returnValue blockIndex st1 st2,
      children b = pre ++ rv :: post /\
      Forall (fun i => op i <> kIROp_ReturnVal) pre /\
      op rv = kIROp_ReturnVal /\
      getOperand rv 0 = Some returnValue /\
      assign (insertIntoBlock blockIndex) resultGlobal (value returnValue) st1
        = OK (tt, st2) /\
      emitted (insertIntoBlock blockIndex) st1 st2 new /\
      Forall (fun i => isScalarizedOp (op i) = true) new /\
      op rt = kIROp_ReturnVoid /\
      children b' = pre ++ post ++ new ++ [rt]).

(** What the rewrite of the parameters keeps of a block: that it has no
    [returnVal], and that it ends in [returnVoid]. *)
Definition keepsReturns (b b' : IRBlock) : Prop :=
  (noReturnVal b -> noReturnVal b') /\
  (lastOpt (blockOps b) = Some kIROp_ReturnVoid ->
   lastOpt (blockOps b') = Some kIROp_ReturnVoid).

(** The loop over the return sites, as the pass runs it. *)
Definition rewriteReturnSites (resultGlobal : ScalarizedVal.t) : M unit :=
  forEachBlock (fun blockIndex bb =>
                  rewriteReturnVal resultGlobal blockIndex (children bb)).


(** No instruction of the module has the instruction as an operand. *)
Definition noUsesOf (p : IRInstPtr) (st : PassState) : Prop :=
  Forall (fun i => ~ In p (operands i)) (allInsts (module st)).

(** The state a computation leaves, when it returns. *)
Definition stateAfter {A} (m : M A) (st : PassState) : PassState :=
  match m st with
  | OK (_, st') => st'
  | _ => st
  end.

(** In the state [st], the instruction is a call whose callee, behind
    every [specialize] and every value a [generic] returns, is a function
    with the [glsl] target intrinsic of definition [EmitVertex()]. *)
Definition callsEmitVertex (st : PassState) (ii : IRInst) : Prop :=
  op ii = kIROp_Call /\
  exists calleePtr callee0 callee,
    getOperand ii 0 = Some calleePtr /\
    deref (module st) calleePtr = Some callee0 /\
    resolveCallee (S (S (List.length (allInsts (module st))))) callee0 st
      = OK (callee, st) /\
    op callee = kIROp_Func /\
    findTargetIntrinsicDecoration (decorations callee) "glsl" = Some "EmitVertex()"%string.

(** What the loop over the instructions of a block does for a
    geometry-shader output stream, from the state [st] the loop is in
    when it reaches the instructions [l] to the state [st'] it leaves:
    an instruction that, in the state the loop is in when it reaches it,
    is no call of [EmitVertex()] stays as it is, and so does the state;
    before a call of [EmitVertex()], the instructions are inserted that
    assign operand 2 of the call to the output varying, by the builder
    set before the call, and the loop goes on from the state the
    assignment leaves. *)
Inductive streamCallsAssigned (globalOutputVal : ScalarizedVal.t)
  : PassState -> list IRInst -> PassState -> list IRInst -> Prop :=
| streamCalls_nil (st : PassState) :
    streamCallsAssigned globalOutputVal st [] st []
| streamCalls_other (st st' : PassState) (ii : IRInst) (l l' : list IRInst) :
    ~ callsEmitVertex st ii ->
    streamCallsAssigned globalOutputVal st l st' l' ->
    streamCallsAssigned globalOutputVal st (ii :: l) st' (ii :: l')
| streamCalls_emitVertex (st st1 st' : PassState) (ii : IRInst) (arg : IRInstPtr)
                         (new l l' : list IRInst) :
    callsEmitVertex st ii ->
    getOperand ii 2 = Some arg ->
    assign (insertBeforeInst (instId ii)) globalOutputVal (value arg)
           (stateAfter (setInsertBefore (Some ii)) st) = OK (tt, st1) ->
    emitted (insertBeforeInst (instId ii))
            (stateAfter (setInsertBefore (Some ii)) st) st1 new ->
    streamCallsAssigned globalOutputVal st1 l st' l' ->
    streamCallsAssigned globalOutputVal st (ii :: l) st' (new ++ ii :: l').

(** The same for the blocks of the function, one after the other: the
    loop over a block starts in the state the loop over the block
    before it has left. *)
Inductive streamBlocksAssigned (globalOutputVal : ScalarizedVal.t)
  : PassState -> list IRBlock -> PassState -> list IRBlock -> Prop :=
| streamBlocks_nil (st : PassState) :
    streamBlocksAssigned globalOutputVal st [] st []
| streamBlocks_cons (st st1 st' : PassState) (b b' : IRBlock)
                    (bs bs' : list IRBlock) :
    streamCallsAssigned globalOutputVal st (children b) st1 (children b') ->
    streamBlocksAssigned globalOutputVal st1 bs st' bs' ->
    streamBlocksAssigned globalOutputVal st (b :: bs) st' (b' :: bs').

(** The conversions among instructions: the constructor instructions,
    which is what [adaptType] emits to convert a value to a type. *)
Definition conversions (l : list IRInst) : list IRInst :=
  filter (fun i => IROp_eqb (op i) kIROp_Construct) l.

(** The conversion of the value [src] to the type [toType], as the
    instruction of identity [id]. *)
Definition conversion (id : nat) (toType : IRType) (src : IRInstPtr) : IRInst :=
  mkIRInst id kIROp_Construct toType [src] [] None.

(** A computation that comes to an end from every state, by returning
    or by aborting as the code does, and whose result satisfies [P] when
    it returns: the bound on the depth of the recursion is never
    reached. *)
Definition terminatesWith {A} (m : M A) (P : A -> Prop) : Prop :=
  forall st,
    match m st with
    | OK (a, _) => P a
    | Abort _ => True
    | OutOfFuel => False
    end.

Definition terminates {A} (m : M A) : Prop := terminatesWith m (fun _ => True).

(** One turn of the loop that looks for the callee behind the
    [specialize] and [generic] wrappers: where the loop goes on from
    [callee], if it goes on. *)
Definition nextCallee (callee : IRInst) : option IRInstPtr :=
  match op callee with
  | kIROp_Specialize => getOperand callee 0
  | kIROp_Generic => genericReturnVal callee
  | _ => None
  end.

(** The callee the loop is at after [turns] turns, if it makes that many. *)
Fixpoint calleeAfter (m : IRModule) (turns : nat) (callee : IRInst) : option IRInst :=
  match turns with
  | O => Some callee
  | S turns' =>
      match nextCallee callee with
      | Some p =>
          match deref m p with
          | Some callee' => calleeAfter m turns' callee'
          | None => None
          end
      | None => None
      end
  end.

(** The callee loop of the source does not end from [callee]: whatever
    the bound, the bound is reached. *)
Definition calleeLoopDiverges (st : PassState) (callee : IRInst) : Prop :=
  forall fuel, resolveCallee fuel callee st = OutOfFuel.

(** A computation that reaches a bound on the recursion only where the
    callee loop of the source does not end. *)
Definition terminatesUnlessCalleeLoop {A} (m : M A) : Prop :=
  forall st, m st = OutOfFuel -> exists s callee, calleeLoopDiverges s callee.

(** Whether no instruction but the last of a list is a [returnVal]. *)
Fixpoint returnValOnlyLastIn (l : list IRInst) : bool :=
  match l with
  | [] => true
  | [_] => true
  | i :: r => (negb (isReturnVal i) && returnValOnlyLastIn r)%bool
  end.

(* ------------------------------------------------------------------ *)
(** ** Example entry points *)

Definition exampleTypeLayout : TypeLayout :=
  mkTypeLayout 0 [(LayoutResourceKind_VaryingInput, 1%Z);
                  (LayoutResourceKind_VaryingOutput, 1%Z)] PlainTypeLayout.

Definition exampleVarLayout (semantic : string) (index : Z) (tl : TypeLayout)
  : VarLayout :=
  mkVarLayout (mkVarDecl "v" 7) tl 0 semantic 0 "" 0 Stage_Vertex
    [(LayoutResourceKind_VaryingInput, index);
     (LayoutResourceKind_VaryingOutput, index)].

Definition exampleState (stage : Stage) (result : option VarLayout) (type : IRType)
           (bs : list IRBlock) (before after : list IRInst) : PassState :=
  mkPassState 1000
    (mkIRModule before
       (mkIRFunc 100 type bs
          [IRLayoutDecoration (Layout_EntryPointLayout
                                 (mkEntryPointLayout stage result))])
       after)
    Stage_Unknown [] (mkExtensionUsageTracker [] []) insertIntoFunc.

Definition exampleParam (id : nat) (type : IRType) (layout : VarLayout) : IRInst :=
  mkIRInst id kIROp_Param type [] [IRLayoutDecoration (Layout_VarLayout layout)] None.

(** [entry() -> void]. *)
Definition trivialEntryPoint : PassState :=
  exampleState Stage_Vertex None (IRFuncType [] IRVoidType)
    [mkIRBlock [mkIRInst 1 kIROp_ReturnVoid IRVoidType [] [] None]] [] [].

(** [entry(x : void) -> void]. *)
Definition voidParam : IRInst :=
  exampleParam 1 IRVoidType (exampleVarLayout "" 0 exampleTypeLayout).
Definition voidParamEntryPoint : PassState :=
  exampleState Stage_Vertex None (IRFuncType [IRVoidType] IRVoidType)
    [mkIRBlock [voidParam; mkIRInst 2 kIROp_ReturnVoid IRVoidType [] [] None]] [] [].

(** [entry(id : uint @SV_InstanceID) -> void]. *)
Definition instanceIdLayout : VarLayout :=
  exampleVarLayout "SV_InstanceID" 0 exampleTypeLayout.
Definition instanceIdParam : IRInst :=
  exampleParam 1 (IRBasicType BaseType_UInt) instanceIdLayout.
Definition instanceIdEntryPoint : PassState :=
  exampleState Stage_Vertex None (IRFuncType [IRBasicType BaseType_UInt] IRVoidType)
    [mkIRBlock [instanceIdParam;
                mkIRInst 2 (kIROp_Other 0) IRVoidType [InstRef 1] [] None;
                mkIRInst 3 kIROp_ReturnVoid IRVoidType [] [] None]] [] [].

(** A variable with a semantic the table does not know. *)
Definition unknownSemanticLayout : VarLayout :=
  exampleVarLayout "SV_Bogus" 0 exampleTypeLayout.
Definition targetLayout : VarLayout :=
  exampleVarLayout "SV_Target" 0 exampleTypeLayout.

(** [entry(v : Bundle[3])] with
    [Bundle = { id : uint @SV_InstanceID; uv : float2 }]. *)
Definition float2Type : IRType := IRVectorType (IRBasicType BaseType_Float) 2.

(** [entry(pos : float4 @POSITION, id : uint @SV_InstanceID)
      -> float4 @SV_Position], for a vertex shader. *)
Definition simpleVertexShader : PassState :=
  exampleState Stage_Vertex (Some (exampleVarLayout "SV_Position" 0 exampleTypeLayout))
    (IRFuncType [float4Type; IRBasicType BaseType_UInt] float4Type)
    [mkIRBlock
       [exampleParam 1 float4Type (exampleVarLayout "" 0 exampleTypeLayout);
        exampleParam 2 (IRBasicType BaseType_UInt) instanceIdLayout;
        mkIRInst 3 (kIROp_Other 0) float4Type [InstRef 1; InstRef 2] [] None;
        mkIRInst 4 kIROp_ReturnVal IRVoidType [InstRef 3] [] None]] [] [].

(** The state in which the pass turns to the result of the function: the
    stage is the one of the entry point and the builder inserts into the
    function. *)
Definition atResult (stage : Stage) (st : PassState) : PassState :=
  mkPassState (nextInstId st) (module st) stage (sink st)
              (extensionUsageTracker st) insertIntoFunc.

(** What the pass does once the result is dealt with: the parameters of
    the entry block, then the type of the function. *)
Definition legalizeAfterResult : M unit :=
  func <- getFunc ;;
  match getFirstBlock func with
  | Some firstBlock =>
      setInsertBefore (getFirstOrdinaryInst firstBlock) ;;
      legalizeParams firstBlock ;;
      removeParams
  | None => ret tt
  end ;;
  setFullType (getFuncType [] getVoidType).

(** A state in the loop over the parameters: the stage is known and the
    builder inserts before the first ordinary instruction. *)
Definition inParameterLoop (stage : Stage) (firstOrdinary : nat) (st : PassState)
  : PassState :=
  mkPassState (nextInstId st) (module st) stage (sink st)
              (extensionUsageTracker st) (insertBeforeInst firstOrdinary).

(** [entry(io : inout Foo) -> void] with [Foo = { a : float; b : float2 }]. *)
Definition fooFields : list IRStructField :=
  [(1%nat, IRBasicType BaseType_Float); (2%nat, float2Type)].
Definition fooType : IRType := IRStructType "Foo" fooFields.
Definition fooLayout : VarLayout :=
  exampleVarLayout "" 0
    (mkTypeLayout 0 []
       (StructTypeLayout [exampleVarLayout "" 0 exampleTypeLayout;
                          exampleVarLayout "" 1 exampleTypeLayout])).
Definition inoutParam : IRInst :=
  exampleParam 1 (IRPtrTypeBase kIROp_InOutType fooType) fooLayout.
Definition inoutEntryPoint : PassState :=
  exampleState Stage_Vertex None
    (IRFuncType [IRPtrTypeBase kIROp_InOutType fooType] IRVoidType)
    [mkIRBlock [inoutParam;
                mkIRInst 2 (kIROp_Other 0) IRVoidType [InstRef 1] [] None;
                mkIRInst 3 (kIROp_Other 1) IRVoidType [] [] None];
     mkIRBlock [mkIRInst 4 kIROp_ReturnVoid IRVoidType [] [] None]] [] [].

(** A geometry shader [entry(stream : inout TriangleStream<Foo>) -> void]
    that calls [stream.Append(v)] once; [Append] is a specialization of a
    generic whose value is a function with the [glsl] target intrinsic
    [EmitVertex()].  The second call is to an ordinary function. *)
Definition streamType : IRType := IRHLSLStreamOutputType kIROp_HLSLTriangleStreamType fooType.
Definition streamLayout : VarLayout :=
  exampleVarLayout "" 0
    (mkTypeLayout 0 []
       (StreamOutputTypeLayout
          (mkTypeLayout 0 []
             (StructTypeLayout [exampleVarLayout "" 0 exampleTypeLayout;
                                exampleVarLayout "" 1 exampleTypeLayout])))).
Definition streamParam : IRInst :=
  exampleParam 1 (IRPtrTypeBase kIROp_InOutType streamType) streamLayout.
Definition emitVertexFunc : IRInst :=
  mkIRInst 10 kIROp_Func (IRFuncType [streamType; fooType] IRVoidType) []
           [IRTargetIntrinsicDecoration "glsl" "EmitVertex()"] None.
Definition appendCall : IRInst :=
  mkIRInst 3 kIROp_Call IRVoidType [InstRef 12; InstRef 1; InstRef 2] [] None.
Definition geometryEntryPoint : PassState :=
  exampleState Stage_Geometry None
    (IRFuncType [IRPtrTypeBase kIROp_InOutType streamType] IRVoidType)
    [mkIRBlock [streamParam;
                mkIRInst 2 (kIROp_Other 0) fooType [] [] None;
                appendCall;
                mkIRInst 4 kIROp_Call IRVoidType [InstRef 13; InstRef 1; InstRef 2] [] None;
                mkIRInst 5 kIROp_ReturnVoid IRVoidType [] [] None]]
    [emitVertexFunc;
     mkIRInst 11 kIROp_Generic IRVoidType [] [] (Some (InstRef 10));
     mkIRInst 12 kIROp_Specialize IRVoidType [InstRef 11; InstRef 20] [] None;
     mkIRInst 13 kIROp_Func (IRFuncType [streamType; fooType] IRVoidType) [] [] None]
    [].

(* ------------------------------------------------------------------ *)
(** ** Notions used in the further properties *)

(** The types for which the materializer returns the flavor [none]:
    void, and the arrays and output streams of such a type. *)
Fixpoint yieldsNone (type : IRType) : bool :=
  match type with
  | IRVoidType => true
  | IRArrayType elementType _ | IRHLSLStreamOutputType _ elementType =>
      yieldsNone elementType
  | _ => false
  end.

(** The fields of a struct that get an element in the tuple. *)
Definition keptFields (fields : list IRStructField) : list IRStructField :=
  filter (fun f => negb (yieldsNone (IRStructField_getFieldType f))) fields.

(** Whether a type layout has the shape the materializer casts it to at
    each level of a type: an array layout for an array, a stream layout
    for an output stream, a struct layout with a field layout at the
    position of each field for a struct. *)
Fixpoint layoutFits (type : IRType) (typeLayout : TypeLayout) {struct type} : bool :=
  match type with
  | IRArrayType elementType _ =>
      match TypeLayout_shape typeLayout with
      | ArrayTypeLayout _ elementTypeLayout _ => layoutFits elementType elementTypeLayout
      | _ => false
      end
  | IRHLSLStreamOutputType _ elementType =>
      match TypeLayout_shape typeLayout with
      | StreamOutputTypeLayout elementTypeLayout => layoutFits elementType elementTypeLayout
      | _ => false
      end
  | IRStructType _ fields =>
      match TypeLayout_shape typeLayout with
      | StructTypeLayout fieldLayouts =>
          (fix eachField (fs : list (IRStructKey * IRType)) (fieldCounter : nat)
               {struct fs} : bool :=
             match fs with
             | [] => true
             | (_, fieldType) :: rest =>
                 match nth_error fieldLayouts fieldCounter with
                 | Some fieldLayout =>
                     (layoutFits fieldType (VarLayout_typeLayout fieldLayout)
                      && eachField rest (S fieldCounter))%bool
                 | None => false
                 end
             end) fields 0%nat
      | _ => false
      end
  | _ => true
  end.

(** The number of leaves of a type: the number of global parameters the
    materializer creates for it. *)
Fixpoint leafCount (type : IRType) : nat :=
  match type with
  | IRVoidType => 0%nat
  | IRArrayType elementType _ | IRHLSLStreamOutputType _ elementType =>
      leafCount elementType
  | IRStructType _ fields =>
      (fix sum (fs : list (IRStructKey * IRType)) : nat :=
         match fs with
         | [] => 0%nat
         | (_, fieldType) :: rest => (leafCount fieldType + sum rest)%nat
         end) fields
  | _ => 1%nat
  end.

(** [Gap = { a : float; nothing : void; b : float2 }], with its layout. *)
Definition gapFields : list IRStructField :=
  [(1%nat, IRBasicType BaseType_Float); (2%nat, IRVoidType); (3%nat, float2Type)].
Definition gapType : IRType := IRStructType "Gap" gapFields.
Definition gapLayout : VarLayout :=
  exampleVarLayout "" 4
    (mkTypeLayout 0 []
       (StructTypeLayout [exampleVarLayout "" 0 exampleTypeLayout;
                          exampleVarLayout "" 1 exampleTypeLayout;
                          exampleVarLayout "" 1 exampleTypeLayout])).

(** What the resolver asks of the extension tracker for a semantic (in
    lower case), in a context of stage [contextStage]: the extensions
    and the versions of GLSL it requires, in the order it requires
    them. *)
Definition requiredBy (semanticName : string) (contextStage : Stage)
  : list string * list ProfileVersion :=
  if String.eqb semanticName "sv_culldistance" then (["ARB_cull_distance"%string], [])
  else if String.eqb semanticName "sv_rendertargetarrayindex" then
    match contextStage with
    | Stage_Geometry => ([], [GLSL_150])
    | Stage_Fragment => ([], [GLSL_430])
    | _ => (["GL_ARB_shader_viewport_layer_array"%string], [GLSL_450])
    end
  else if String.eqb semanticName "sv_stencilref" then
    (["ARB_shader_stencil_export"%string], [])
  else if (String.eqb semanticName "nv_x_right"
           || String.eqb semanticName "nv_viewport_mask")%bool then
    (["GL_NVX_multiview_per_view_attributes"%string], [GLSL_450])
  else ([], []).

(** The tracker after more extensions and versions have been required. *)
Definition withRequirements (r : list string * list ProfileVersion)
           (t : ExtensionUsageTracker) : ExtensionUsageTracker :=
  mkExtensionUsageTracker (glslExtensions t ++ fst r) (glslVersions t ++ snd r).

(** The binding index of a field of a struct whose own binding index is
    [bindingIndex]: the index the layout of the field gives for the
    kind is added (in [UInt]); a field without it keeps the index of the
    struct. *)
Definition fieldBindingIndex (bindingIndex : Z) (kind : LayoutResourceKind)
           (fieldLayout : VarLayout) : Z :=
  match FindResourceInfo (VarLayout_resourceInfos fieldLayout) kind with
  | Some index => UInt_wrap (bindingIndex + index)
  | None => bindingIndex
  end.

(** The resource information in the layout decoration of a global
    parameter. *)
Definition globalResourceInfos (g : IRInst) : option (list (LayoutResourceKind * Z)) :=
  match findLayoutDecoration (decorations g) with
  | Some (Layout_VarLayout l) => Some (VarLayout_resourceInfos l)
  | _ => None
  end.

(** A tuple whose elements are the leaves [leaves], each a key and a
    global parameter, referred to by address (outputs) or by value
    (inputs). *)
Definition addressLeaves (leaves : list (IRStructKey * IRInstPtr))
  : list (IRStructKey * ScalarizedVal.t) :=
  map (fun leaf => (fst leaf, address (snd leaf))) leaves.

Definition valueLeaves (leaves : list (IRStructKey * IRInstPtr))
  : list (IRStructKey * ScalarizedVal.t) :=
  map (fun leaf => (fst leaf, value (snd leaf))) leaves.

(** The instructions that assign the struct value [rv] to a tuple of
    address leaves: for each leaf, the extraction of its field from
    [rv], then the store of the field to the leaf.  [n] is the identity
    of the first instruction, [types] the types of the fields. *)
Fixpoint extractAndStore (n : nat) (rv : IRInstPtr)
         (leaves : list (IRStructKey * IRInstPtr)) (types : list IRType)
  : list IRInst :=
  match leaves, types with
  | (key, g) :: leaves', t :: types' =>
      mkIRInst n kIROp_FieldExtract t [rv; StructKeyRef key] [] None ::
      mkIRInst (S n) kIROp_Store IRVoidType [g; InstRef n] [] None ::
      extractAndStore (S (S n)) rv leaves' types'
  | _, _ => []
  end.

(** The instructions that assign the struct variable at the address
    [lv] to a tuple of address leaves: for each leaf, the address of its
    field in [lv], the load of the field, and the store of what was
    loaded to the leaf. *)
Fixpoint addressLoadStore (n : nat) (ptrOp : PtrOp) (lv : IRInstPtr)
         (leaves : list (IRStructKey * IRInstPtr)) (types : list IRType)
  : list IRInst :=
  match leaves, types with
  | (key, g) :: leaves', t :: types' =>
      mkIRInst n kIROp_FieldAddress (IRPtrTypeBase ptrOp t) [lv; StructKeyRef key] [] None ::
      mkIRInst (S n) kIROp_Load t [InstRef n] [] None ::
      mkIRInst (S (S n)) kIROp_Store IRVoidType [g; InstRef (S n)] [] None ::
      addressLoadStore (S (S (S n))) ptrOp lv leaves' types'
  | _, _ => []
  end.

(** The instructions that assign a tuple of value leaves to the struct
    variable at the address [lv]: for each leaf, the address of its
    field in [lv], then the store of the leaf to it. *)
Fixpoint addressAndStore (n : nat) (ptrOp : PtrOp) (lv : IRInstPtr)
         (leaves : list (IRStructKey * IRInstPtr)) (types : list IRType)
  : list IRInst :=
  match leaves, types with
  | (key, g) :: leaves', t :: types' =>
      mkIRInst n kIROp_FieldAddress (IRPtrTypeBase ptrOp t) [lv; StructKeyRef key] [] None ::
      mkIRInst (S n) kIROp_Store IRVoidType [InstRef n; g] [] None ::
      addressAndStore (S (S n)) ptrOp lv leaves' types'
  | _, _ => []
  end.

(** The types of the fields of the leaves, in a struct with the fields
    [fields]. *)
Definition fieldTypesOf (fields : list IRStructField)
           (leaves : list (IRStructKey * IRInstPtr)) : list (option IRType) :=
  map (fun leaf => findFieldType fields (fst leaf)) leaves.

(** [entry() -> Foo], returning the value of instruction 2; and a
    function with a local variable of type [Foo]. *)
Definition fooReturnEntryPoint : PassState :=
  exampleState Stage_Vertex (Some fooLayout) (IRFuncType [] fooType)
    [mkIRBlock [mkIRInst 2 (kIROp_Other 0) fooType [] [] None;
                mkIRInst 3 kIROp_ReturnVal IRVoidType [InstRef 2] [] None]] [] [].
Definition fooVarEntryPoint : PassState :=
  exampleState Stage_Vertex None (IRFuncType [] IRVoidType)
    [mkIRBlock [mkIRInst 2 kIROp_Var (getPtrType fooType) [] [] None;
                mkIRInst 3 kIROp_ReturnVoid IRVoidType [] [] None]] [] [].
Definition fooLeaves : list (IRStructKey * IRInstPtr) :=
  [(1%nat, InstRef 50); (2%nat, InstRef 51)].

Definition isArrayType (t : IRType) : bool :=
  match t with
  | IRArrayType _ _ => true
  | _ => false
  end.

(** The reads of one element of a scalarized array of structs: for each
    field of the struct, by position, the element at [index] of the
    array of the leaf at that position, of the type of the field. *)
Fixpoint elementReads (n : nat) (fields : list IRStructField)
         (leaves : list (IRStructKey * IRInstPtr)) (index : IRInstPtr) : list IRInst :=
  match fields, leaves with
  | field :: fields', (_, g) :: leaves' =>
      mkIRInst n kIROp_getElement (IRStructField_getFieldType field) [g; index] [] None ::
      elementReads (S n) fields' leaves' index
  | _, _ => []
  end.

(** The leaves of the element that was read: the keys of the leaves,
    with the instructions from [n] on. *)
Fixpoint readLeaves (n : nat) (leaves : list (IRStructKey * IRInstPtr))
  : list (IRStructKey * IRInstPtr) :=
  match leaves with
  | [] => []
  | (key, _) :: leaves' => (key, InstRef n) :: readLeaves (S n) leaves'
  end.

(** The instructions that rebuild the elements [indices] of an array of
    structs from the arrays of its leaves: for each index, the reads of
    the element, then the constructor of a struct from what was read. *)
Fixpoint arrayReads (n : nat) (elementType : IRType) (fields : list IRStructField)
         (leaves : list (IRStructKey * IRInstPtr)) (indices : list nat) : list IRInst :=
  match indices with
  | [] => []
  | ii :: rest =>
      elementReads n fields leaves (getIntValue getIntType (Z.of_nat ii)) ++
      mkIRInst (n + List.length leaves) kIROp_Construct elementType
               (map snd (readLeaves n leaves)) [] None ::
      arrayReads (n + S (List.length leaves)) elementType fields leaves rest
  end.

(** The structs that were rebuilt: one for each of [count] elements. *)
Fixpoint arrayResults (n k count : nat) : list IRInstPtr :=
  match count with
  | O => []
  | S count' => InstRef (n + k) :: arrayResults (n + S k) k count'
  end.

(** A parameter type the pass treats as a geometry-shader output stream:
    an [out] or [inout] pointer to a stream type. *)
Definition isStreamOutParam (t : IRType) : bool :=
  match asOutTypeBase t with
  | Some (_, IRHLSLStreamOutputType _ _) => true
  | _ => false
  end.

(** A ray-tracing entry point with one payload parameter that its body
    loads. *)
Definition payloadType : IRType := IRVectorType (IRBasicType BaseType_Float) 4.
Definition payloadParam : IRInst :=
  mkIRInst 10 kIROp_Param (IRPtrTypeBase kIROp_InOutType payloadType) [] [] None.
Definition payloadLayout : VarLayout := exampleVarLayout "" 0 exampleTypeLayout.
Definition payloadState : PassState :=
  mkPassState 20
    (mkIRModule []
       (mkIRFunc 1 (IRFuncType [IRPtrTypeBase kIROp_InOutType payloadType] IRVoidType)
          [mkIRBlock [payloadParam;
                      mkIRInst 11 kIROp_Load payloadType [InstRef 10] [] None;
                      mkIRInst 12 kIROp_ReturnVoid IRVoidType [] [] None]]
          [])
       [])
    Stage_ClosestHit [] (mkExtensionUsageTracker [] []) insertIntoFunc.

(** The binding index [createGLSLGlobalVaryings] starts from: the index
    the layout gives for the kind, zero when it gives none. *)
Definition startBindingIndex (layout : VarLayout) (kind : LayoutResourceKind) : Z :=
  match FindResourceInfo (VarLayout_resourceInfos layout) kind with
  | Some index => index
  | None => 0%Z
  end.

(** The global parameter of an input parameter of a simple type. *)
Definition inputGlobalParam (id : nat) (pp : IRInst) (paramLayout : VarLayout)
           (info : option GLSLSystemValueInfo) : IRInst :=
  leafGlobalParam id (dataType pp) paramLayout (VarLayout_typeLayout paramLayout)
    LayoutResourceKind_VaryingInput
    (startBindingIndex paramLayout LayoutResourceKind_VaryingInput) [] info.

(** The blocks with every use of [old] turned into a use of [new]. *)
Definition replaceInBlocks (old new : IRInstPtr) (bs : list IRBlock) : list IRBlock :=
  map (fun bb => mkIRBlock (map (replaceInInst old new) (children bb))) bs.

(** A vertex entry point with one input parameter with no semantic, that
    its body uses. *)
Definition colorType : IRType := IRVectorType (IRBasicType BaseType_Float) 4.
Definition colorLayout : VarLayout := exampleVarLayout "" 3 exampleTypeLayout.
Definition colorParam : IRInst := exampleParam 10 colorType colorLayout.
Definition colorState : PassState :=
  mkPassState 20
    (mkIRModule []
       (mkIRFunc 1 (IRFuncType [colorType] IRVoidType)
          [mkIRBlock [colorParam;
                      mkIRInst 11 (kIROp_Other 0) IRVoidType [InstRef 10] [] None;
                      mkIRInst 12 kIROp_ReturnVoid IRVoidType [] [] None]]
          [])
       [])
    Stage_Vertex [] (mkExtensionUsageTracker [] []) (insertBeforeInst 11).

(** The same entry point with a parameter [id : uint @SV_InstanceID]. *)
Definition instanceIdState : PassState :=
  mkPassState 20
    (mkIRModule []
       (mkIRFunc 1 (IRFuncType [IRBasicType BaseType_UInt] IRVoidType)
          [mkIRBlock [instanceIdParam;
                      mkIRInst 2 (kIROp_Other 0) IRVoidType [InstRef 1] [] None;
                      mkIRInst 3 kIROp_ReturnVoid IRVoidType [] [] None]]
          [])
       [])
    Stage_Vertex [] (mkExtensionUsageTracker [] []) (insertBeforeInst 2).

(** The entry point of [instanceIdState] with the parameter
    [inout id : uint @SV_InstanceID]. *)
Definition instanceIdInOutParam : IRInst :=
  exampleParam 1 (IRPtrTypeBase kIROp_InOutType (IRBasicType BaseType_UInt))
               instanceIdLayout.
Definition instanceIdInOutState : PassState :=
  mkPassState 20
    (mkIRModule []
       (mkIRFunc 1
          (IRFuncType [IRPtrTypeBase kIROp_InOutType (IRBasicType BaseType_UInt)]
                      IRVoidType)
          [mkIRBlock [instanceIdInOutParam;
                      mkIRInst 2 kIROp_Load (IRBasicType BaseType_UInt) [InstRef 1] [] None;
                      mkIRInst 3 kIROp_ReturnVoid IRVoidType [] [] None]]
          [])
       [])
    Stage_Vertex [] (mkExtensionUsageTracker [] []) (insertBeforeInst 2).

(** The type of the field with a key in a type: none when the type is
    not a struct, or has no field with that key. *)
Definition fieldTypeOf (t : IRType) (fieldKey : IRStructKey) : option IRType :=
  match t with
  | IRStructType _ fs => findFieldType fs fieldKey
  | _ => None
  end.

(** Whether the first layout decoration of an instruction is the layout
    of a variable. *)
Definition hasVarLayout (i : IRInst) : bool :=
  match findLayoutDecoration (decorations i) with
  | Some (Layout_VarLayout _) => true
  | _ => false
  end.

(* ------------------------------------------------------------------ *)
(** ** Arrays of structs, as the specification puts them *)






(* ------------------------------------------------------------------ *)
(** * Properties *)

(** ** Reasoning in the monad *)

Lemma bind_OK {A B} (m : M A) (f : A -> M B) st b st' :
  bind m f st = OK (b, st') ->
  exists a st1, m st = OK (a, st1) /\ f a st1 = OK (b, st').
Proof.
  unfold bind. destruct (m st) as [[a st1] | msg | ]; try discriminate.
  intros H. exists a, st1. split; [reflexivity | exact H].
Qed.

Lemma ret_OK {A} (a b : A) st st' : ret a st = OK (b, st') -> a = b /\ st = st'.
Proof. unfold ret. intros H. inversion H. split; reflexivity. Qed.

Lemma modify_OK f st u st' : modify f st = OK (u, st') -> st' = f st.
Proof. unfold modify. intros H. inversion H. reflexivity. Qed.

Ltac monadInv1 H :=
  match type of H with
  | bind _ _ _ = OK _ =>
      let a := fresh "a" in
      let s := fresh "st" in
      let H1 := fresh "Hm" in
      let H2 := fresh "Hk" in
      apply bind_OK in H; destruct H as (a & s & H1 & H2)
  | ret _ _ = OK _ =>
      apply ret_OK in H; destruct H; subst
  | abort _ _ = OK _ => discriminate H
  | outOfFuel _ = OK _ => discriminate H
  | SLANG_UNEXPECTED _ _ = OK _ => discriminate H
  end.


(** ** The guard on entry points that are legal already *)

(** C9. An entry point whose result type is void and which has no
    parameter is left as it is: the pass returns at once, with the module
    (and so the function), the supply of instructions, the sink and the
    extension tracker unchanged.  As the assertions before the guard
    require, the function carries its entry-point layout and nothing
    refers to it, be it as an operand, in a decoration or as the value
    of a generic. *)
Theorem legalizeEntryPointForGLSL_already_legal (st : PassState) (e : EntryPointLayout) :
  let func := moduleFunc (module st) in
  getResultType func = Some IRVoidType ->
  getParamCount func = 0%nat ->
  findLayoutDecoration (funcDecorations func) = Some (Layout_EntryPointLayout e) ->
  hasUses (module st) (InstRef (funcId func)) = false ->
  exists st',
    legalizeEntryPointForGLSL st = OK (tt, st') /\
    module st' = module st /\
    nextInstId st' = nextInstId st /\
    sink st' = sink st /\
    extensionUsageTracker st' = extensionUsageTracker st.
Proof.
  intros func Hres Hcount Hlayout Huses.
  unfold legalizeEntryPointForGLSL, bind, getFunc.
  fold func. rewrite Hlayout. cbn.
  fold func. rewrite Huses. cbn.
  rewrite Hres, Hcount. cbn.
  eexists. split; [reflexivity | cbn; auto].
Qed.

(** ** A parameter of type void *)

(** C10. For a parameter of type void that is neither a pointer nor a
    parameter of a ray-tracing stage, the materializer returns the flavor
    [none] and creates nothing; [materializeValue] on [none] reaches
    "unimplemented"; so the rewrite of the parameter aborts. *)
Theorem legalizeEntryPointParameterForGLSL_void_aborts
        (pp : IRInst) (paramLayout : VarLayout) (st : PassState) :
  dataType pp = IRVoidType ->
  isRayTracingStage (contextStage st) = false ->
  createGLSLGlobalVaryings IRVoidType paramLayout LayoutResourceKind_VaryingInput
                           (contextStage st) st = OK (none, st) /\
  (forall builder st1, materializeValue builder none st1 = Abort "unimplemented") /\
  legalizeEntryPointParameterForGLSL pp paramLayout st = Abort "unimplemented".
Proof.
  intros Hty Hstage. split; [reflexivity | split; [reflexivity | ] ].
  unfold legalizeEntryPointParameterForGLSL, bind, getStage.
  rewrite Hty. cbn. rewrite Hstage. reflexivity.
Qed.

Lemma legalizeEntryPointForGLSL_already_legal_witness :
  exists st',
    legalizeEntryPointForGLSL trivialEntryPoint = OK (tt, st') /\
    module st' = module trivialEntryPoint /\
    nextInstId st' = nextInstId trivialEntryPoint /\
    sink st' = sink trivialEntryPoint /\
    extensionUsageTracker st' = extensionUsageTracker trivialEntryPoint.
Proof.
  apply (@legalizeEntryPointForGLSL_already_legal
           trivialEntryPoint (mkEntryPointLayout Stage_Vertex None));
    reflexivity.
Defined.

Lemma legalizeEntryPointParameterForGLSL_void_aborts_witness :
  legalizeEntryPointParameterForGLSL
    voidParam (exampleVarLayout "" 0 exampleTypeLayout) voidParamEntryPoint
  = Abort "unimplemented".
Proof.
  apply (@legalizeEntryPointParameterForGLSL_void_aborts
           voidParam (exampleVarLayout "" 0 exampleTypeLayout) voidParamEntryPoint);
    reflexivity.
Defined.

(** ** The system-value resolver *)

Ltac splitSemantic :=
  repeat match goal with
         | |- context [if String.eqb ?a ?b then _ else _] =>
             destruct (String.eqb a b)
         end.

(** The table never aborts, and touches the extension tracker only. *)
Lemma systemValueTable_OK (s : string) kind stage st :
  exists locals st',
    systemValueTable s kind stage st = OK (locals, st') /\
    module st' = module st /\ nextInstId st' = nextInstId st /\
    contextBuilder st' = contextBuilder st /\ contextStage st' = contextStage st /\
    sink st' = sink st.
Proof.
  unfold systemValueTable. splitSemantic;
    try (destruct (Stage_eqb stage Stage_Fragment && _)%bool;
         [ | destruct (Stage_eqb stage Stage_Geometry && _)%bool ]);
    try (unfold bind, getStage; destruct (contextStage st) eqn:?);
    cbn; eexists; eexists; (split; [reflexivity | cbn; repeat split; congruence]).
Qed.

Lemma getGLSLSystemValueInfo_OK vl kind stage st :
  exists info st',
    getGLSLSystemValueInfo vl kind stage st = OK (info, st') /\
    module st' = module st /\ nextInstId st' = nextInstId st /\
    contextBuilder st' = contextBuilder st /\ contextStage st' = contextStage st.
Proof.
  unfold getGLSLSystemValueInfo.
  destruct (Nat.eqb _ 0).
  - exists None, st. cbn. repeat split; reflexivity.
  - destruct (systemValueTable_OK (toLower (systemValueSemantic vl)) kind stage st)
      as (locals & st1 & Ht & Hm & Hn & Hb & Hs & _).
    unfold bind. rewrite Ht.
    destruct locals as [[[[n | ] outer] required] | ]; cbn;
      eexists; eexists; (split; [reflexivity | cbn; auto]).
Qed.

Lemma getGLSLSystemValueInfo_resolve vl kind stage st :
  getGLSLSystemValueInfo vl kind stage st = OK (resolveSystemValue vl kind stage st).
Proof.
  unfold resolveSystemValue.
  destruct (getGLSLSystemValueInfo_OK vl kind stage st) as (info & st' & H & _).
  rewrite H. reflexivity.
Qed.

Lemma resolveSystemValue_frame vl kind stage st :
  let st' := snd (resolveSystemValue vl kind stage st) in
  module st' = module st /\ nextInstId st' = nextInstId st /\
  contextBuilder st' = contextBuilder st /\ contextStage st' = contextStage st.
Proof.
  unfold resolveSystemValue.
  destruct (getGLSLSystemValueInfo_OK vl kind stage st) as (info & st' & H & R).
  rewrite H. exact R.
Qed.

Lemma isKnownSemantic_false_table (s : string) kind stage st :
  isKnownSemantic s = false ->
  systemValueTable s kind stage st = OK (Some (None, None, None), st).
Proof.
  unfold isKnownSemantic, knownSystemValueSemantics. cbn [existsb].
  intros H.
  repeat (apply orb_false_elim in H; destruct H as [? H]).
  unfold systemValueTable.
  repeat match goal with
         | E : String.eqb s ?b = false |- context [String.eqb s ?b] => rewrite E
         end.
  reflexivity.
Qed.

Lemma toLower_nonempty (s : string) :
  toLower s <> EmptyString -> Nat.eqb (String.length s) 0 = false.
Proof. destruct s; cbn; congruence. Qed.

(** An empty semantic: a null result, nothing else. *)
Lemma getGLSLSystemValueInfo_empty vl kind stage st :
  systemValueSemantic vl = EmptyString ->
  getGLSLSystemValueInfo vl kind stage st = OK (None, st).
Proof. intros H. unfold getGLSLSystemValueInfo. rewrite H. reflexivity. Qed.

(** A semantic the table does not know: the diagnostic, and a null
    result. *)
Lemma getGLSLSystemValueInfo_unknown vl kind stage st :
  systemValueSemantic vl <> EmptyString ->
  isKnownSemantic (toLower (systemValueSemantic vl)) = false ->
  getGLSLSystemValueInfo vl kind stage st =
  OK (None,
      withDiagnostic (mkDiagnostic (loc (varDecl vl)) unknownSystemValueSemantic
                                   (systemValueSemantic vl)) st).
Proof.
  intros Hne Hk. unfold getGLSLSystemValueInfo.
  destruct (systemValueSemantic vl) as [ | c r] eqn:E; [congruence | ].
  cbn [String.length Nat.eqb]. unfold bind.
  rewrite (isKnownSemantic_false_table _ kind stage st Hk). reflexivity.
Qed.

(** [SV_Target], in any case of letters: a null result, no diagnostic,
    nothing required of the extension tracker. *)
Lemma getGLSLSystemValueInfo_sv_target vl kind stage st :
  toLower (systemValueSemantic vl) = "sv_target"%string ->
  getGLSLSystemValueInfo vl kind stage st = OK (None, st).
Proof.
  intros H. unfold getGLSLSystemValueInfo.
  rewrite toLower_nonempty by (rewrite H; discriminate).
  rewrite H. reflexivity.
Qed.

(** A semantic of the table other than [sv_target]: a result with the
    name of a built-in, and no diagnostic. *)
Lemma getGLSLSystemValueInfo_known vl kind stage st :
  isKnownSemantic (toLower (systemValueSemantic vl)) = true ->
  toLower (systemValueSemantic vl) <> "sv_target"%string ->
  exists info st',
    getGLSLSystemValueInfo vl kind stage st = OK (Some info, st') /\
    sink st' = sink st.
Proof.
  intros Hk Hne. unfold getGLSLSystemValueInfo.
  rewrite toLower_nonempty
    by (intros E; rewrite E in Hk; discriminate).
  generalize dependent (toLower (systemValueSemantic vl)). intros s Hk Hne.
  unfold isKnownSemantic, knownSystemValueSemantics in Hk. cbn [existsb] in Hk.
  unfold bind, systemValueTable.
  repeat match goal with
         | |- context [if String.eqb s ?b then _ else _] =>
             destruct (String.eqb_spec s b);
             [ subst s; try congruence | ]
         end;
    try solve [ try (destruct (Stage_eqb stage Stage_Fragment && _)%bool;
                     [ | destruct (Stage_eqb stage Stage_Geometry && _)%bool ]);
                try (unfold bind, getStage; destruct (contextStage st) eqn:?);
                cbn; eexists; eexists; (split; reflexivity) ].
  exfalso.
  repeat match goal with
         | E : s <> ?b |- _ =>
             apply String.eqb_neq in E; rewrite E in Hk
         end.
  discriminate.
Qed.

(** ** Fresh instructions *)

Lemma find_fresh_last (n : nat) (l : list IRInst) (new : IRInst) :
  Forall (fun i => instId i < n) l -> instId new = n ->
  find (fun i => Nat.eqb (instId i) n) (l ++ [new]) = Some new.
Proof.
  intros Hl Hn. induction Hl as [ | x l Hx Hl IH]; cbn.
  - rewrite Hn, Nat.eqb_refl. reflexivity.
  - destruct (Nat.eqb_spec (instId x) n); [lia | exact IH].
Qed.

Lemma filter_fresh (n : nat) (l : list IRInst) :
  Forall (fun i => instId i < n) l ->
  filter (fun i => negb (Nat.eqb (instId i) n)) l = l.
Proof.
  intros Hl. induction Hl as [ | x l Hx Hl IH]; cbn; [reflexivity | ].
  destruct (Nat.eqb_spec (instId x) n); [lia | ]. cbn. rewrite IH. reflexivity.
Qed.

Lemma map_addDecorationTo_fresh (n : nat) d (l : list IRInst) :
  Forall (fun i => instId i < n) l ->
  map (addDecorationTo n d) l = l.
Proof.
  intros Hl. induction Hl as [ | x l Hx Hl IH]; cbn; [reflexivity | ].
  unfold addDecorationTo at 1.
  destruct (Nat.eqb_spec (instId x) n); [lia | ]. rewrite IH. reflexivity.
Qed.

Lemma map_blocks_fresh (f : IRInst -> IRInst) (P : IRInst -> Prop) (bs : list IRBlock) :
  (forall l, Forall P l -> map f l = l) ->
  Forall P (flat_map children bs) ->
  map (fun b => mkIRBlock (map f (children b))) bs = bs.
Proof.
  intros Hf. induction bs as [ | b bs IH]; cbn; [reflexivity | ].
  intros H. apply Forall_app in H. destruct H as [Hb Hbs].
  rewrite (Hf _ Hb), (IH Hbs). destruct b; reflexivity.
Qed.

Lemma freshIds_parts st :
  freshIds st ->
  Forall (fun i => instId i < nextInstId st) (moduleBefore (module st)) /\
  Forall (fun i => instId i < nextInstId st)
         (flat_map children (blocks (moduleFunc (module st)))) /\
  Forall (fun i => instId i < nextInstId st) (moduleAfter (module st)) /\
  funcId (moduleFunc (module st)) < nextInstId st.
Proof.
  intros [H Hf]. unfold allInsts in H.
  apply Forall_app in H. destruct H as [H1 H].
  apply Forall_app in H. destruct H as [H2 H3]. auto.
Qed.

(** Adding a decoration to a fresh global parameter that is the last
    instruction before the function. *)
Lemma addDecoration_last_global st g d :
  freshIds (mkPassState (instId g) (module st) (contextStage st) (sink st)
                         (extensionUsageTracker st) (contextBuilder st)) ->
  let m := module st in
  addDecoration (InstRef (instId g)) d
    (set_module st (mkIRModule (moduleBefore m ++ [g]) (moduleFunc m) (moduleAfter m)))
  = OK (tt,
        set_module st
          (mkIRModule
             (moduleBefore m ++
                [mkIRInst (instId g) (op g) (dataType g) (operands g)
                          (d :: decorations g) (genericReturnVal g)])
             (moduleFunc m) (moduleAfter m))).
Proof.
  intros Hf m. subst m. apply freshIds_parts in Hf. cbn in Hf.
  destruct Hf as (Hb & Hbl & Ha & Hfn).
  unfold addDecoration, modify. cbn.
  destruct (Nat.eqb_spec (instId g) (funcId (moduleFunc (module st)))); [lia | ].
  unfold mapInsts, set_module, set_blocks. cbn.
  rewrite map_app, (map_addDecorationTo_fresh d Hb), (map_addDecorationTo_fresh d Ha).
  rewrite (@map_blocks_fresh (addDecorationTo (instId g) d) _ _
             (fun l => @map_addDecorationTo_fresh (instId g) d l) Hbl).
  cbn. unfold addDecorationTo. rewrite Nat.eqb_refl.
  destruct (moduleFunc (module st)); reflexivity.
Qed.

(** ** Steps of the materializer on explicit states *)

Lemma bind_step {A B} (m : M A) (f : A -> M B) st a st1 r :
  m st = OK (a, st1) -> f a st1 = r -> bind m f st = r.
Proof. intros H1 H2. unfold bind. rewrite H1. exact H2. Qed.

Lemma addGlobalParam_step n b f a stg sk tr bd t :
  addGlobalParam t (mkPassState n (mkIRModule b f a) stg sk tr bd) =
  OK (InstRef n,
      mkPassState (S n)
        (mkIRModule b f (a ++ [mkIRInst n kIROp_GlobalParam t [] [] None]))
        stg sk tr bd).
Proof. reflexivity. Qed.

Lemma moveValueBefore_step n0 b f a stg sk tr bd id o t ops ds grv :
  Forall (fun i => instId i < id) b ->
  Forall (fun i => instId i < id) a ->
  moveValueBefore (InstRef id)
    (mkPassState n0 (mkIRModule b f (a ++ [mkIRInst id o t ops ds grv])) stg sk tr bd) =
  OK (tt, mkPassState n0 (mkIRModule (b ++ [mkIRInst id o t ops ds grv]) f a)
                      stg sk tr bd).
Proof.
  intros Hb Ha. unfold moveValueBefore. cbn.
  rewrite app_assoc.
  rewrite (@find_fresh_last id _ (mkIRInst id o t ops ds grv)) by
      (try reflexivity; apply Forall_app; split; assumption).
  rewrite filter_app, (filter_fresh Hb), (filter_fresh Ha). cbn.
  rewrite Nat.eqb_refl. cbn. rewrite app_nil_r. reflexivity.
Qed.

Lemma addDecoration_step n0 b f a stg sk tr bd id o t ops ds grv d :
  Forall (fun i => instId i < id) b ->
  Forall (fun i => instId i < id) (flat_map children (blocks f)) ->
  Forall (fun i => instId i < id) a ->
  funcId f < id ->
  addDecoration (InstRef id) d
    (mkPassState n0 (mkIRModule (b ++ [mkIRInst id o t ops ds grv]) f a) stg sk tr bd) =
  OK (tt,
      mkPassState n0 (mkIRModule (b ++ [mkIRInst id o t ops (d :: ds) grv]) f a)
                  stg sk tr bd).
Proof.
  intros Hb Hbl Ha Hfn.
  unfold addDecoration, modify. cbn.
  destruct (Nat.eqb_spec id (funcId f)); [lia | ].
  unfold mapInsts, set_module, set_blocks. cbn.
  rewrite map_app, (map_addDecorationTo_fresh d Hb), (map_addDecorationTo_fresh d Ha).
  rewrite (@map_blocks_fresh (addDecorationTo id d) _ _
             (fun l => @map_addDecorationTo_fresh id d l) Hbl).
  cbn. unfold addDecorationTo. cbn. rewrite Nat.eqb_refl.
  destruct f; reflexivity.
Qed.

(** What [createSimpleGLSLGlobalVarying] does, when the instructions of
    the module are older than the fresh one: one global parameter, put
    last before the function. *)
Lemma createSimpleGLSLGlobalVarying_spec inType vl tl kind stage bi decl st :
  freshIds st ->
  createSimpleGLSLGlobalVarying inType vl tl kind stage bi decl st =
  OK (leafVal (nextInstId st) inType kind (fst (resolveSystemValue vl kind stage st)),
      withGlobalParam
        (leafGlobalParam (nextInstId st) inType vl tl kind bi decl
                         (fst (resolveSystemValue vl kind stage st)))
        (snd (resolveSystemValue vl kind stage st))).
Proof.
  intros Hfresh.
  unfold createSimpleGLSLGlobalVarying.
  eapply bind_step;
    [rewrite getGLSLSystemValueInfo_resolve; apply f_equal; apply surjective_pairing | ].
  pose proof (resolveSystemValue_frame vl kind stage st) as Hframe.
  destruct (resolveSystemValue vl kind stage st) as [info st1]. cbn in Hframe.
  destruct Hframe as (Hm & Hn & Hb & Hs). cbn [fst snd].
  apply freshIds_parts in Hfresh. rewrite <- Hm in Hfresh.
  destruct Hfresh as (Fb & Fbl & Fa & Ff).
  destruct st1 as [n1 [b f a] stg sk tr bd]. cbn in *. subst n1.
  unfold leafGlobalParam, leafVal, needsTypeAdapter, leafType, withGlobalParam.
  match goal with
  | |- context [fold_left (wrapDeclarator tl kind) decl ?x] =>
      destruct (fold_left (wrapDeclarator tl kind) decl x)
        as [type typeLayout] eqn:Ewrap
  end.
  cbn [fst snd nextInstId module moduleBefore moduleAfter moduleFunc contextStage sink
       extensionUsageTracker contextBuilder].
  eapply bind_step; [apply addGlobalParam_step | ].
  eapply bind_step; [apply moveValueBefore_step; assumption | ].
  unfold leafDecorations, leafVarLayout, leafParamType, leafRef.
  destruct info as [[n [outer | ] required] | ]; cbn [name outerArrayName requiredType].
  - eapply bind_step.
    { eapply bind_step; [apply addDecoration_step; assumption | ].
      eapply bind_step; [apply addDecoration_step; assumption | ]. reflexivity. }
    eapply bind_step; [apply addDecoration_step; assumption | ].
    cbn. destruct required as [t | ]; [destruct (isTypeEqual t inType) | ]; reflexivity.
  - eapply bind_step.
    { eapply bind_step; [apply addDecoration_step; assumption | ].
      eapply bind_step; [reflexivity | ]. reflexivity. }
    eapply bind_step; [apply addDecoration_step; assumption | ].
    cbn. destruct required as [t | ]; [destruct (isTypeEqual t inType) | ]; reflexivity.
  - eapply bind_step; [reflexivity | ].
    eapply bind_step; [apply addDecoration_step; assumption | ].
    reflexivity.
Qed.

(** C8. The three null results of the resolver.  With an empty semantic
    it returns a null pointer and leaves the state as it is.  With a
    semantic that is not empty and not in the table it sends the
    diagnostic for an unknown system-value semantic, at the place of the
    variable, and returns a null pointer; the leaf is then created as for
    an ordinary varying: no import name, no type adapter, the type of the
    user.  With [SV_Target], in any case of letters, it returns the null
    pointer that tells the caller to skip the built-in binding, and sends
    no diagnostic. *)
Theorem getGLSLSystemValueInfo_null_results
        (vl : VarLayout) (kind : LayoutResourceKind) (stage : Stage) (st : PassState) :
  (systemValueSemantic vl = EmptyString ->
   getGLSLSystemValueInfo vl kind stage st = OK (None, st))
  /\
  (systemValueSemantic vl <> EmptyString ->
   isKnownSemantic (toLower (systemValueSemantic vl)) = false ->
   let d := mkDiagnostic (loc (varDecl vl)) unknownSystemValueSemantic
                         (systemValueSemantic vl) in
   getGLSLSystemValueInfo vl kind stage st = OK (None, withDiagnostic d st) /\
   forall inType tl bindingIndex declarator,
     freshIds st ->
     createSimpleGLSLGlobalVarying inType vl tl kind stage bindingIndex declarator st =
     OK (leafRef (nextInstId st) kind,
         withGlobalParam
           (leafGlobalParam (nextInstId st) inType vl tl kind bindingIndex declarator None)
           (withDiagnostic d st)))
  /\
  (toLower (systemValueSemantic vl) = "sv_target"%string ->
   getGLSLSystemValueInfo vl kind stage st = OK (None, st)).
Proof.
  split; [ | split].
  - apply getGLSLSystemValueInfo_empty.
  - intros Hne Hk d.
    pose proof (getGLSLSystemValueInfo_unknown vl kind stage st Hne Hk) as H.
    split; [exact H | ].
    intros inType tl bi decl Hf.
    rewrite (createSimpleGLSLGlobalVarying_spec inType vl tl kind stage bi decl Hf).
    unfold resolveSystemValue. rewrite H. reflexivity.
  - apply getGLSLSystemValueInfo_sv_target.
Qed.

Lemma exampleState_fresh stage result type bs before after :
  Forall (fun i => instId i < 1000) (before ++ flat_map children bs ++ after) ->
  freshIds (exampleState stage result type bs before after).
Proof. intros H. split; [exact H | cbn; lia]. Qed.

Ltac exampleFresh :=
  apply exampleState_fresh; cbn; repeat constructor; cbn; lia.

Lemma getGLSLSystemValueInfo_null_results_witness :
  getGLSLSystemValueInfo (exampleVarLayout "" 0 exampleTypeLayout)
    LayoutResourceKind_VaryingInput Stage_Vertex trivialEntryPoint
  = OK (None, trivialEntryPoint)
  /\
  createSimpleGLSLGlobalVarying (IRBasicType BaseType_Float) unknownSemanticLayout
    exampleTypeLayout LayoutResourceKind_VaryingInput Stage_Vertex 0 [] trivialEntryPoint
  = OK (value (InstRef 1000),
        withGlobalParam
          (leafGlobalParam 1000 (IRBasicType BaseType_Float) unknownSemanticLayout
             exampleTypeLayout LayoutResourceKind_VaryingInput 0 [] None)
          (withDiagnostic (mkDiagnostic 7 unknownSystemValueSemantic "SV_Bogus")
                          trivialEntryPoint))
  /\
  getGLSLSystemValueInfo targetLayout LayoutResourceKind_VaryingOutput
    Stage_Fragment trivialEntryPoint
  = OK (None, trivialEntryPoint).
Proof.
  split; [ | split].
  - apply (proj1 (getGLSLSystemValueInfo_null_results
                    (exampleVarLayout "" 0 exampleTypeLayout)
                    LayoutResourceKind_VaryingInput Stage_Vertex trivialEntryPoint)).
    reflexivity.
  - refine (proj2 (proj1 (proj2 (getGLSLSystemValueInfo_null_results
                    unknownSemanticLayout
                    LayoutResourceKind_VaryingInput Stage_Vertex trivialEntryPoint))
                    _ _) _ _ _ _ _).
    + discriminate.
    + reflexivity.
    + exampleFresh.
  - apply (proj2 (proj2 (getGLSLSystemValueInfo_null_results
                    targetLayout
                    LayoutResourceKind_VaryingOutput Stage_Fragment trivialEntryPoint))).
    reflexivity.
Defined.

(** ** Leaves of the materializer *)

Lemma freshIds_resolve vl kind stage st :
  freshIds st -> freshIds (snd (resolveSystemValue vl kind stage st)).
Proof.
  intros H. destruct (resolveSystemValue_frame vl kind stage st) as (Hm & Hn & _).
  unfold freshIds. rewrite Hm, Hn. exact H.
Qed.

(** C5, as the claim states it, fails: for an input of type [uint] with
    the semantic [SV_InstanceID] the materializer returns a type adapter,
    which is neither an address nor a value. *)
Lemma createSimpleGLSLGlobalVarying_returns_adapter :
  exists st',
    createGLSLGlobalVaryings (IRBasicType BaseType_UInt) instanceIdLayout
      LayoutResourceKind_VaryingInput Stage_Vertex instanceIdEntryPoint
    = OK (typeAdapter (value (InstRef 1000)) (IRBasicType BaseType_Int)
                      (IRBasicType BaseType_UInt), st') /\
    (forall g, typeAdapter (value (InstRef 1000)) (IRBasicType BaseType_Int)
                           (IRBasicType BaseType_UInt) <> value g) /\
    (forall g, typeAdapter (value (InstRef 1000)) (IRBasicType BaseType_Int)
                           (IRBasicType BaseType_UInt) <> address g).
Proof.
  eexists. split; [vm_compute; reflexivity | split; intros g; discriminate].
Qed.

(** C5, amended. Every leaf the materializer creates is one global
    parameter, put last before the function.  For an output its type is
    the leaf type inside an output pointer and the value returned refers
    to it as an address; for an input its type is the leaf type and the
    value returned refers to it as a value.  That address or value is
    what is returned, inside a type adapter exactly when the system value
    requires a type other than the declared one. *)
Theorem createSimpleGLSLGlobalVarying_flavor
        (inType : IRType) (vl : VarLayout) (tl : TypeLayout)
        (kind : LayoutResourceKind) (stage : Stage) (bindingIndex : Z)
        (declarator : list GlobalVaryingDeclarator) (st : PassState) :
  freshIds st ->
  exists v st' g type,
    createSimpleGLSLGlobalVarying inType vl tl kind stage bindingIndex declarator st
    = OK (v, st') /\
    moduleBefore (module st') = moduleBefore (module st) ++ [g] /\
    op g = kIROp_GlobalParam /\
    type = fst (fold_left (wrapDeclarator tl kind) declarator
                  (leafType inType (fst (resolveSystemValue vl kind stage st)), tl)) /\
    (kind = LayoutResourceKind_VaryingOutput ->
     dataType g = getOutType type /\
     stripTypeAdapter v = address (InstRef (instId g))) /\
    (kind <> LayoutResourceKind_VaryingOutput ->
     dataType g = type /\
     stripTypeAdapter v = value (InstRef (instId g))) /\
    (isTypeAdapter v = true <->
     exists actual,
       needsTypeAdapter inType (fst (resolveSystemValue vl kind stage st)) = Some actual /\
       v = typeAdapter (stripTypeAdapter v) actual inType).
Proof.
  intros Hf.
  rewrite (createSimpleGLSLGlobalVarying_spec inType vl tl kind stage bindingIndex
                                              declarator Hf).
  destruct (resolveSystemValue_frame vl kind stage st) as (Hm & Hn & _).
  set (info := fst (resolveSystemValue vl kind stage st)).
  do 4 eexists. split; [reflexivity | ].
  split; [cbn; rewrite Hm; reflexivity | ].
  split; [reflexivity | ].
  split; [reflexivity | ].
  unfold leafVal, leafRef, leafGlobalParam, leafParamType.
  cbn [dataType instId].
  split; [ | split].
  - intros ->. cbn. split; [reflexivity | ].
    destruct (needsTypeAdapter inType info); reflexivity.
  - intros Hk.
    assert (E : isOutputKind kind = false) by (destruct kind; cbn; congruence).
    rewrite E. split; [reflexivity | ].
    destruct (needsTypeAdapter inType info); reflexivity.
  - destruct (needsTypeAdapter inType info) as [actual | ]; cbn.
    + split; [intros _; exists actual; split; reflexivity | reflexivity].
    + split.
      * destruct (isOutputKind kind); discriminate.
      * intros (actual & E & _). discriminate.
Qed.

Lemma createSimpleGLSLGlobalVarying_flavor_witness :
  exists v st' g type,
    createSimpleGLSLGlobalVarying (IRBasicType BaseType_UInt) instanceIdLayout
      exampleTypeLayout LayoutResourceKind_VaryingOutput Stage_Vertex 0 []
      instanceIdEntryPoint = OK (v, st') /\
    moduleBefore (module st') = moduleBefore (module instanceIdEntryPoint) ++ [g] /\
    op g = kIROp_GlobalParam /\
    type = fst (fold_left (wrapDeclarator exampleTypeLayout
                             LayoutResourceKind_VaryingOutput) []
                  (leafType (IRBasicType BaseType_UInt)
                     (fst (resolveSystemValue instanceIdLayout
                             LayoutResourceKind_VaryingOutput Stage_Vertex
                             instanceIdEntryPoint)), exampleTypeLayout)) /\
    (LayoutResourceKind_VaryingOutput = LayoutResourceKind_VaryingOutput ->
     dataType g = getOutType type /\
     stripTypeAdapter v = address (InstRef (instId g))) /\
    (LayoutResourceKind_VaryingOutput <> LayoutResourceKind_VaryingOutput ->
     dataType g = type /\
     stripTypeAdapter v = value (InstRef (instId g))) /\
    (isTypeAdapter v = true <->
     exists actual,
       needsTypeAdapter (IRBasicType BaseType_UInt)
         (fst (resolveSystemValue instanceIdLayout LayoutResourceKind_VaryingOutput
                 Stage_Vertex instanceIdEntryPoint)) = Some actual /\
       v = typeAdapter (stripTypeAdapter v) actual (IRBasicType BaseType_UInt)).
Proof.
  apply (@createSimpleGLSLGlobalVarying_flavor
           (IRBasicType BaseType_UInt) instanceIdLayout exampleTypeLayout
           LayoutResourceKind_VaryingOutput Stage_Vertex 0 [] instanceIdEntryPoint).
  exampleFresh.
Defined.

(** ** Arrays of structs *)

Lemma systemValueTable_independent (s : string) kind stage st1 st2 :
  exists locals st1' st2',
    systemValueTable s kind stage st1 = OK (locals, st1') /\
    systemValueTable s kind stage st2 = OK (locals, st2').
Proof.
  unfold systemValueTable.
  repeat match goal with
         | |- context [if String.eqb ?a ?b then _ else _] =>
             destruct (String.eqb a b)
         end;
    first
      [ solve [cbn; do 3 eexists; (split; reflexivity)]
      | solve [destruct (Stage_eqb stage Stage_Fragment && _)%bool;
               [ | destruct (Stage_eqb stage Stage_Geometry && _)%bool ];
               cbn; do 3 eexists; (split; reflexivity)]
      | solve [unfold bind, getStage;
               destruct (contextStage st1) eqn:?; destruct (contextStage st2) eqn:?;
               cbn; do 3 eexists; (split; reflexivity)] ].
Qed.

Lemma resolveSystemValue_independent vl kind stage st1 st2 :
  fst (resolveSystemValue vl kind stage st1) = fst (resolveSystemValue vl kind stage st2).
Proof.
  unfold resolveSystemValue, getGLSLSystemValueInfo.
  destruct (Nat.eqb _ 0); [reflexivity | ].
  destruct (systemValueTable_independent (toLower (systemValueSemantic vl))
                                         kind stage st1 st2)
    as (locals & st1' & st2' & H1 & H2).
  unfold bind. rewrite H1, H2.
  destruct locals as [[[[n | ] outer] required] | ]; reflexivity.
Qed.

Lemma resolveSystemValue_systemValueOf vl kind stage st :
  fst (resolveSystemValue vl kind stage st) = systemValueOf vl kind stage.
Proof. apply resolveSystemValue_independent. Qed.

Lemma fold_wrapDeclarator_fst tl kind decl type tl0 :
  fst (fold_left (wrapDeclarator tl kind) decl (type, tl0)) = wrapFullType type decl.
Proof.
  revert type tl0. induction decl as [ | dd decl IH]; intros type tl0; cbn.
  - reflexivity.
  - apply IH.
Qed.

Lemma createGLSLGlobalVaryingsImpl_simple type vl tl kind stage bi decl :
  isSimpleVaryingType type = true ->
  createGLSLGlobalVaryingsImpl type vl tl kind stage bi decl =
  createSimpleGLSLGlobalVarying type vl tl kind stage bi decl.
Proof. destruct type; cbn; intros H; try discriminate; reflexivity. Qed.

Lemma createGLSLGlobalVaryingsImpl_struct nm fields vl tl kind stage bi decl :
  createGLSLGlobalVaryingsImpl (IRStructType nm fields) vl tl kind stage bi decl =
  match TypeLayout_shape tl with
  | StructTypeLayout fieldLayouts =>
      elements <- createFields fieldLayouts kind stage bi decl fields 0%nat ;;
      ret (tuple (wrapFullType (IRStructType nm fields) decl) elements)
  | _ => abort "assertion failed: structTypeLayout"
  end.
Proof. reflexivity. Qed.

Lemma freshIds_withGlobalParam g st :
  freshIds st -> instId g = nextInstId st -> freshIds (withGlobalParam g st).
Proof.
  intros H Hg. apply freshIds_parts in H. destruct H as (Hb & Hbl & Ha & Hfn).
  assert (W : forall l, Forall (fun i => instId i < nextInstId st) l ->
                        Forall (fun i => instId i < S (nextInstId st)) l).
  { intros l Hl. eapply Forall_impl; [ | exact Hl]. cbn. intros. lia. }
  split; cbn; [ | lia].
  unfold allInsts. cbn. repeat rewrite Forall_app. repeat split; auto.
  constructor; [lia | constructor].
Qed.

Lemma leafVal_not_none id t kind info : isNone (leafVal id t kind info) = false.
Proof.
  unfold leafVal, leafRef.
  destruct (needsTypeAdapter t info); destruct (isOutputKind kind); reflexivity.
Qed.

(** The loop over fields that are all leaves: one global parameter per
    field, in the order of the fields. *)
Lemma createFields_leaves kind stage bi decl :
  forall fields pre layouts st,
    freshIds st ->
    forallb (fun f => isSimpleVaryingType (IRStructField_getFieldType f)) fields = true ->
    List.length fields <= List.length layouts ->
    exists st' globals,
      createFields (pre ++ layouts) kind stage bi decl fields (List.length pre) st
      = OK (fieldElements kind stage fields layouts (nextInstId st), st') /\
      freshIds st' /\
      moduleBefore (module st') = moduleBefore (module st) ++ globals /\
      moduleFunc (module st') = moduleFunc (module st) /\
      moduleAfter (module st') = moduleAfter (module st) /\
      contextBuilder st' = contextBuilder st /\
      nextInstId st' = nextInstId st + List.length fields /\
      map instId globals = seq (nextInstId st) (List.length fields) /\
      Forall (fun g => op g = kIROp_GlobalParam) globals /\
      map dataType globals = fieldGlobalTypes kind stage decl fields layouts.
Proof.
  induction fields as [ | [key fieldType] fields IH]; intros pre layouts st Hf Hleaf Hlen.
  - exists st, []. cbn. rewrite app_nil_r, Nat.add_0_r.
    split; [reflexivity | ]. split; [exact Hf | ]. repeat split; constructor.
  - destruct layouts as [ | fl layouts]; [cbn in Hlen; lia | ].
    cbn in Hleaf. apply andb_prop in Hleaf. destruct Hleaf as [Hleaf1 Hleaf].
    cbn in Hlen.
    cbn [createFields].
    rewrite nth_error_app2 by lia. rewrite Nat.sub_diag. cbn [nth_error].
    rewrite (createGLSLGlobalVaryingsImpl_simple _ _ _ _ _ _ _ Hleaf1).
    set (fbi := match FindResourceInfo (VarLayout_resourceInfos fl) kind with
                | Some index => UInt_wrap (bi + index)
                | None => bi
                end).
    pose proof (createSimpleGLSLGlobalVarying_spec fieldType fl
                  (VarLayout_typeLayout fl) kind stage fbi decl Hf) as Hs.
    rewrite resolveSystemValue_systemValueOf in Hs.
    set (g := leafGlobalParam (nextInstId st) fieldType fl (VarLayout_typeLayout fl)
                              kind fbi decl (systemValueOf fl kind stage)) in *.
    set (st0 := snd (resolveSystemValue fl kind stage st)) in *.
    destruct (resolveSystemValue_frame fl kind stage st) as (Hm0 & Hn0 & Hb0 & _).
    fold st0 in Hm0, Hn0, Hb0.
    assert (Hf1 : freshIds (withGlobalParam g st0)).
    { apply freshIds_withGlobalParam.
      - apply freshIds_resolve. exact Hf.
      - rewrite Hn0. reflexivity. }
    destruct (IH (pre ++ [fl]) layouts (withGlobalParam g st0) Hf1 Hleaf)
      as (st' & globals & Hrun & Hf' & Hmb & Hmf & Hma & Hcb & Hn & Hids & Hops & Htys);
      [lia | ].
    rewrite <- app_assoc in Hrun. cbn [app] in Hrun.
    rewrite length_app in Hrun. cbn [List.length] in Hrun.
    rewrite Nat.add_1_r in Hrun.
    exists st', (g :: globals).
    split.
    { eapply bind_step; [exact Hs | ].
      eapply bind_step; [exact Hrun | ].
      rewrite leafVal_not_none. cbn [withGlobalParam nextInstId]. rewrite Hn0.
      reflexivity. }
    cbn [withGlobalParam nextInstId module moduleBefore moduleFunc moduleAfter
         contextBuilder] in Hmb, Hmf, Hma, Hcb, Hn, Hids.
    rewrite Hm0 in Hmb, Hmf, Hma. rewrite Hn0 in Hn, Hids.
    split; [exact Hf' | ].
    split; [rewrite Hmb, <- app_assoc; reflexivity | ].
    split; [exact Hmf | ].
    split; [exact Hma | ].
    split; [congruence | ].
    split; [cbn [List.length]; lia | ].
    split; [cbn; rewrite Hids; reflexivity | ].
    split; [constructor; [reflexivity | exact Hops] | ].
    cbn [map fieldGlobalTypes]. rewrite Htys. f_equal.
    unfold g, leafGlobalParam. cbn [dataType].
    rewrite fold_wrapDeclarator_fst. reflexivity.
Qed.

Lemma requiredType_not_struct vl kind stage info t :
  systemValueOf vl kind stage = Some info ->
  requiredType info = Some t ->
  isStructType t = false.
Proof.
  unfold systemValueOf, resolveSystemValue, getGLSLSystemValueInfo.
  destruct (Nat.eqb _ 0); [discriminate | ].
  unfold bind, systemValueTable.
  repeat match goal with
         | |- context [if String.eqb ?a ?b then _ else _] =>
             destruct (String.eqb a b)
         end;
    try (destruct (Stage_eqb stage Stage_Fragment && _)%bool;
         [ | destruct (Stage_eqb stage Stage_Geometry && _)%bool ]);
    cbn; intros H; inversion H; subst; cbn; intros E; inversion E; reflexivity.
Qed.

Lemma fieldLeafType_not_struct kind stage field fl :
  isSimpleVaryingType (IRStructField_getFieldType field) = true ->
  isStructType (fieldLeafType kind stage field fl) = false.
Proof.
  intros Hs. unfold fieldLeafType, leafType.
  destruct (systemValueOf fl kind stage) as [info | ] eqn:E.
  - destruct (requiredType info) as [t | ] eqn:Er.
    + exact (requiredType_not_struct _ _ _ E Er).
    + destruct (IRStructField_getFieldType field); cbn in *; congruence.
  - destruct (IRStructField_getFieldType field); cbn in *; congruence.
Qed.

Lemma fieldGlobalTypes_not_struct_array kind stage N S :
  isStructType S = true ->
  forall fields layouts,
    forallb (fun f => isSimpleVaryingType (IRStructField_getFieldType f)) fields = true ->
    Forall (fun t => t <> leafParamType kind (IRArrayType S N))
           (fieldGlobalTypes kind stage [mkGlobalVaryingDeclarator N] fields layouts).
Proof.
  intros HS. induction fields as [ | f fields IH]; intros layouts Hl; cbn.
  - constructor.
  - destruct layouts as [ | fl layouts]; [constructor | ].
    cbn in Hl. apply andb_prop in Hl. destruct Hl as [H1 H2].
    constructor; [ | apply IH; exact H2].
    pose proof (fieldLeafType_not_struct kind stage f fl H1) as Hn.
    unfold leafParamType, wrapFullType, getOutType. cbn.
    destruct (isOutputKind kind); intros E; inversion E; congruence.
Qed.


(** The case of a struct whose fields all have simple types: the
    elements of the tuple and the types of the global parameters, field
    by field. *)
Lemma createGLSLGlobalVaryings_array_of_simple_fields
        (nm : string) (fields : list IRStructField) (N : Z) (layout : VarLayout)
        (r r2 : nat) (ri ri2 : list (LayoutResourceKind * Z))
        (o : TypeLayout) (us : Z) (fieldLayouts : list VarLayout)
        (kind : LayoutResourceKind) (stage : Stage) (st : PassState) :
  freshIds st ->
  VarLayout_typeLayout layout =
    mkTypeLayout r ri
      (ArrayTypeLayout o (mkTypeLayout r2 ri2 (StructTypeLayout fieldLayouts)) us) ->
  forallb (fun f => isSimpleVaryingType (IRStructField_getFieldType f)) fields = true ->
  List.length fields <= List.length fieldLayouts ->
  exists st' globals,
    createGLSLGlobalVaryings (IRArrayType (IRStructType nm fields) N) layout kind stage st
    = OK (tuple (IRArrayType (IRStructType nm fields) N)
                (fieldElements kind stage fields fieldLayouts (nextInstId st)), st') /\
    moduleBefore (module st') = moduleBefore (module st) ++ globals /\
    map instId globals = seq (nextInstId st) (List.length fields) /\
    Forall (fun g => op g = kIROp_GlobalParam) globals /\
    map dataType globals =
      fieldGlobalTypes kind stage [mkGlobalVaryingDeclarator N] fields fieldLayouts /\
    Forall (fun g => dataType g <>
                     leafParamType kind (IRArrayType (IRStructType nm fields) N))
           globals.
Proof.
  intros Hf Hl Hleaf Hlen.
  unfold createGLSLGlobalVaryings. rewrite Hl.
  cbn [createGLSLGlobalVaryingsImpl TypeLayout_shape].
  set (bi := match FindResourceInfo (VarLayout_resourceInfos layout) kind with
             | Some index => index
             | None => 0%Z
             end).
  destruct (@createFields_leaves kind stage bi [mkGlobalVaryingDeclarator N]
              fields [] fieldLayouts st Hf Hleaf Hlen)
    as (st' & globals & Hrun & _ & Hmb & _ & _ & _ & _ & Hids & Hops & Htys).
  cbn [app List.length] in Hrun.
  exists st', globals.
  split.
  { change (bind (createFields fieldLayouts kind stage bi [mkGlobalVaryingDeclarator N]
                               fields 0)
                 (fun elements =>
                    ret (tuple (wrapFullType (IRStructType nm fields)
                                             [mkGlobalVaryingDeclarator N]) elements))
                 st = OK (tuple (IRArrayType (IRStructType nm fields) N)
                                (fieldElements kind stage fields fieldLayouts
                                               (nextInstId st)), st')).
    eapply bind_step; [exact Hrun | reflexivity]. }
  split; [exact Hmb | ].
  split; [exact Hids | ].
  split; [exact Hops | ].
  split; [exact Htys | ].
  pose proof (@fieldGlobalTypes_not_struct_array kind stage N (IRStructType nm fields)
                eq_refl fields fieldLayouts Hleaf) as Hn.
  rewrite <- Htys in Hn. rewrite Forall_map in Hn. exact Hn.
Qed.

(** ** Induction on types *)

Lemma IRType_nested_ind (P : IRType -> Prop) :
  P IRVoidType ->
  (forall b, P (IRBasicType b)) ->
  (forall e n, P e -> P (IRVectorType e n)) ->
  (forall e r c, P e -> P (IRMatrixType e r c)) ->
  (forall e n, P e -> P (IRArrayType e n)) ->
  (forall o e, P e -> P (IRHLSLStreamOutputType o e)) ->
  (forall nm fs, Forall (fun f => P (snd f)) fs -> P (IRStructType nm fs)) ->
  (forall o v, P v -> P (IRPtrTypeBase o v)) ->
  (forall ps r, Forall P ps -> P r -> P (IRFuncType ps r)) ->
  (forall n, P (IROtherType n)) ->
  forall t, P t.
Proof.
  intros Hvoid Hbasic Hvec Hmat Harr Hstream Hstruct Hptr Hfunc Hother.
  fix IH 1. intros [ | b | e n | e r c | e n | o e | nm fs | o v | ps r | n].
  - exact Hvoid.
  - apply Hbasic.
  - apply Hvec, IH.
  - apply Hmat, IH.
  - apply Harr, IH.
  - apply Hstream, IH.
  - apply Hstruct. induction fs as [ | [k t] fs IHfs]; constructor.
    + apply IH.
    + exact IHfs.
  - apply Hptr, IH.
  - apply Hfunc; [ | apply IH]. induction ps as [ | t ps IHps]; constructor.
    + apply IH.
    + exact IHps.
  - apply Hother.
Qed.

(** ** Emission at the place of a builder *)

Lemma insertAllAt_app b new1 new2 bs :
  insertAllAt b (new1 ++ new2) bs =
  match insertAllAt b new1 bs with
  | Some bs' => insertAllAt b new2 bs'
  | None => None
  end.
Proof.
  revert bs. induction new1 as [ | i new1 IH]; intros bs; cbn.
  - reflexivity.
  - destruct (insertAt b i bs); [apply IH | reflexivity].
Qed.

Lemma sameOutsideBlocks_refl st : sameOutsideBlocks st st.
Proof. repeat split. Qed.

Lemma sameOutsideBlocks_trans st1 st2 st3 :
  sameOutsideBlocks st1 st2 -> sameOutsideBlocks st2 st3 -> sameOutsideBlocks st1 st3.
Proof.
  unfold sameOutsideBlocks. intros H1 H2.
  destruct H1 as (?&?&?&?&?&?&?&?&?), H2 as (?&?&?&?&?&?&?&?&?).
  repeat split; congruence.
Qed.

Lemma emitted_refl b st : emitted b st st [].
Proof.
  split; [apply sameOutsideBlocks_refl | ]. cbn. repeat split. lia.
Qed.

Lemma emitted_trans b st1 st2 st3 new1 new2 :
  emitted b st1 st2 new1 -> emitted b st2 st3 new2 ->
  emitted b st1 st3 (new1 ++ new2).
Proof.
  intros (Ho1 & Hn1 & Hi1 & Hb1) (Ho2 & Hn2 & Hi2 & Hb2).
  split; [eapply sameOutsideBlocks_trans; eassumption | ].
  rewrite length_app, map_app, seq_app, insertAllAt_app, Hb1, Hi1, Hi2, Hn1.
  repeat split; try assumption. lia.
Qed.

Lemma emitInst_emitted b o t args st p st' :
  emitInst b o t args st = OK (p, st') ->
  p = InstRef (nextInstId st) /\
  emitted b st st' [mkIRInst (nextInstId st) o t args [] None].
Proof.
  unfold emitInst, bind, freshId, insertInst, ret, stateBlocks. cbn.
  destruct (insertAt b _ _) as [bs | ] eqn:E; [ | discriminate].
  intros H. inversion H; subst. split; [reflexivity | ].
  split; [repeat split | ]. cbn.
  split; [lia | ]. split; [reflexivity | ].
  unfold stateBlocks. cbn. rewrite E. reflexivity.
Qed.

Lemma emits_ret {A} b (a : A) : emits b (ret a).
Proof.
  intros st a' st' H. apply ret_OK in H. destruct H; subst.
  exists []. split; [apply emitted_refl | constructor].
Qed.

Lemma emits_bind {A B} b (m : M A) (f : A -> M B) :
  emits b m -> (forall a, emits b (f a)) -> emits b (bind m f).
Proof.
  intros Hm Hf st r st' H. apply bind_OK in H. destruct H as (a & st1 & H1 & H2).
  destruct (Hm _ _ _ H1) as (new1 & He1 & Hp1).
  destruct (Hf a _ _ _ H2) as (new2 & He2 & Hp2).
  exists (new1 ++ new2). split; [eapply emitted_trans; eassumption | ].
  apply Forall_app. split; assumption.
Qed.

Lemma emits_abort {A} b msg : emits b (@abort A msg).
Proof. intros st a st' H. discriminate. Qed.

Lemma emits_outOfFuel {A} b : emits b (@outOfFuel A).
Proof. intros st a st' H. discriminate. Qed.

Lemma emits_emitInst b o t args :
  isScalarizedOp o = true -> emits b (emitInst b o t args).
Proof.
  intros Ho st p st' H. apply emitInst_emitted in H. destruct H as [_ H].
  eexists. split; [exact H | ]. constructor; [exact Ho | constructor].
Qed.

Lemma derefM_OK p st i st' : derefM p st = OK (i, st') -> st' = st.
Proof.
  unfold derefM. destruct (deref (module st) p); intros H; inversion H. reflexivity.
Qed.

Lemma emits_derefM b p : emits b (derefM p).
Proof.
  intros st i st' H. apply derefM_OK in H. subst.
  exists []. split; [apply emitted_refl | constructor].
Qed.

Lemma emits_getDataType b p : emits b (getDataType p).
Proof.
  unfold getDataType. apply emits_bind; [apply emits_derefM | intros; apply emits_ret].
Qed.

Lemma emits_getFieldType b t k : emits b (getFieldType t k).
Proof.
  unfold getFieldType, SLANG_UNEXPECTED.
  destruct t; try apply emits_abort.
  destruct (findFieldType _ _); [apply emits_ret | apply emits_abort].
Qed.

Lemma emits_emitLoad b p : emits b (emitLoad b p).
Proof.
  unfold emitLoad. apply emits_bind; [apply emits_getDataType | ].
  intros t. destruct t; try apply emits_abort. apply emits_emitInst. reflexivity.
Qed.

Ltac emitsStep :=
  match goal with
  | |- emits _ (bind _ _) => apply emits_bind; [ | intros ]
  | |- emits _ (ret _) => apply emits_ret
  | |- emits _ (abort _) => apply emits_abort
  | |- emits _ (SLANG_UNEXPECTED _) => apply emits_abort
  | |- emits _ outOfFuel => apply emits_outOfFuel
  | |- emits _ (getDataType _) => apply emits_getDataType
  | |- emits _ (getFieldType _ _) => apply emits_getFieldType
  | |- emits _ (emitLoad _ _) => apply emits_emitLoad
  | |- emits _ (emitInst _ _ _ _) => apply emits_emitInst; reflexivity
  | |- emits _ (emitStore _ _ _) => apply emits_emitInst; reflexivity
  | |- emits _ (emitFieldExtract _ _ _ _) => apply emits_emitInst; reflexivity
  | |- emits _ (emitFieldAddress _ _ _ _) => apply emits_emitInst; reflexivity
  | |- emits _ (emitElementExtract _ _ _ _) => apply emits_emitInst; reflexivity
  | |- emits _ (emitElementAddress _ _ _ _) => apply emits_emitInst; reflexivity
  | |- emits _ (emitConstructorInst _ _ _) => apply emits_emitInst; reflexivity
  | |- emits _ (emitMakeArray _ _ _) => apply emits_emitInst; reflexivity
  end.

Lemma emits_extractField b v fieldIndex fieldKey :
  emits b (extractField b v fieldIndex fieldKey).
Proof.
  unfold extractField. destruct v as [ | p | p | ty es | inner a pr];
    repeat emitsStep.
  - destruct a; repeat emitsStep.
  - destruct (nth_error es fieldIndex) as [[k v] | ]; repeat emitsStep.
Qed.

Lemma emits_adaptType b v toType fromType :
  emits b (adaptType b v toType fromType).
Proof.
  unfold adaptType, adaptTypeInst. destruct v; repeat emitsStep.
Qed.

Lemma emits_forEachIndexed {A} b (f : nat -> A -> M unit) (l : list A) :
  (forall ee x, emits b (f ee x)) ->
  forall ee, emits b (forEachIndexed f ee l).
Proof.
  intros Hf. induction l as [ | x l IH]; intros ee; cbn.
  - apply emits_ret.
  - apply emits_bind; [apply Hf | intros; apply IH].
Qed.

Lemma emits_mapM {A B} b (f : A -> M B) (l : list A) :
  (forall x, emits b (f x)) -> emits b (mapM f l).
Proof.
  intros Hf. induction l as [ | x l IH]; cbn.
  - apply emits_ret.
  - apply emits_bind; [apply Hf | intros].
    apply emits_bind; [apply IH | intros; apply emits_ret].
Qed.

Lemma emits_assign_fuel fuel : forall b left right,
  emits b (assign_fuel fuel b left right).
Proof.
  induction fuel as [ | fuel IH]; intros b left right; cbn.
  - apply emits_outOfFuel.
  - destruct left as [ | p | p | ty es | inner a pr]; repeat emitsStep.
    + destruct right as [ | q | q | ty es | inner a pr]; repeat emitsStep.
      apply emits_forEachIndexed. intros ee x.
      apply emits_bind; [apply emits_extractField | intros; apply IH].
    + apply emits_forEachIndexed. intros ee x.
      apply emits_bind; [apply emits_extractField | intros; apply IH].
    + apply emits_adaptType.
    + apply IH.
Qed.

Lemma emits_assign b left right : emits b (assign b left right).
Proof. apply emits_assign_fuel. Qed.

Lemma ScalarizedVal_nested_ind (P : ScalarizedVal.t -> Prop) :
  P none ->
  (forall p, P (value p)) ->
  (forall p, P (address p)) ->
  (forall ty es, Forall (fun e => P (snd e)) es -> P (tuple ty es)) ->
  (forall inner a pr, P inner -> P (typeAdapter inner a pr)) ->
  forall v, P v.
Proof.
  intros Hnone Hval Haddr Htuple Hadapt.
  fix IH 1. intros [ | p | p | ty es | inner a pr].
  - exact Hnone.
  - apply Hval.
  - apply Haddr.
  - apply Htuple. induction es as [ | [k v] es IHes]; constructor.
    + apply IH.
    + exact IHes.
  - apply Hadapt, IH.
Qed.

Lemma emits_getSubscriptVal b : forall v elementType indexVal,
  emits b (getSubscriptVal b elementType v indexVal).
Proof.
  induction v as [ | p | p | ty es IH | inner a pr IH] using ScalarizedVal_nested_ind;
    intros elementType indexVal; cbn [getSubscriptVal]; repeat emitsStep.
  destruct elementType; try apply emits_abort.
  apply emits_bind; [ | intros; apply emits_ret].
  revert fields. induction IH as [ | [k v] es Hv Hes IHes]; intros fields.
  - destruct fields; [apply emits_ret | apply emits_abort].
  - destruct fields as [ | field fields]; [apply emits_abort | ].
    apply emits_bind; [apply Hv | intros].
    apply emits_bind; [apply IHes | intros; apply emits_ret].
Qed.

Lemma emits_materializeValue_fuel fuel : forall b v,
  emits b (materializeValue_fuel fuel b v).
Proof.
  induction fuel as [ | fuel IH]; intros b v; cbn.
  - apply emits_outOfFuel.
  - destruct v as [ | p | p | ty es | inner a pr]; repeat emitsStep.
    + unfold materializeTupleValueWith.
      destruct ty; repeat emitsStep;
        try (apply emits_mapM; intros; apply IH).
      apply emits_mapM. intros ii.
      apply emits_bind; [apply emits_getSubscriptVal | intros; apply IH].
    + apply emits_adaptType.
    + apply IH.
Qed.

Lemma emits_materializeValue b v : emits b (materializeValue b v).
Proof. apply emits_materializeValue_fuel. Qed.

(** ** What the materializer does to the state *)

Lemma createdGlobals_refl st : createdGlobals st st [].
Proof.
  unfold createdGlobals. rewrite app_nil_r. cbn.
  repeat split; try reflexivity; try lia. constructor.
Qed.

Lemma createdGlobals_trans st1 st2 st3 g1 g2 :
  createdGlobals st1 st2 g1 -> createdGlobals st2 st3 g2 ->
  createdGlobals st1 st3 (g1 ++ g2).
Proof.
  intros (Hb1 & Ha1 & Hf1 & Hs1 & Hc1 & Hn1 & Hi1 & Ho1)
         (Hb2 & Ha2 & Hf2 & Hs2 & Hc2 & Hn2 & Hi2 & Ho2).
  unfold createdGlobals.
  rewrite Hb2, Hb1, <- app_assoc, length_app, map_app, seq_app, Hi1, Hi2, Hn1.
  repeat split; try congruence; try lia. apply Forall_app. split; assumption.
Qed.

Lemma Forall_lt_weaken (n m : nat) (l : list IRInst) :
  n <= m -> Forall (fun i => instId i < n) l -> Forall (fun i => instId i < m) l.
Proof.
  intros Hle H. eapply Forall_impl; [ | exact H]. cbn. intros. lia.
Qed.

Lemma seq_ids_fresh (n : nat) (l : list IRInst) :
  map instId l = seq n (List.length l) ->
  Forall (fun i => instId i < n + List.length l) l.
Proof.
  intros H. apply Forall_forall. intros i Hi.
  assert (Hin : In (instId i) (seq n (List.length l))).
  { rewrite <- H. apply in_map. exact Hi. }
  apply in_seq in Hin. lia.
Qed.

Lemma createdGlobals_fresh st st' globals :
  createdGlobals st st' globals -> freshIds st -> freshIds st'.
Proof.
  intros (Hb & Ha & Hf & Hs & Hc & Hn & Hi & Ho) H.
  apply freshIds_parts in H. destruct H as (Fb & Fbl & Fa & Ff).
  split.
  - unfold allInsts. rewrite Hb, Ha, Hf, Hn.
    repeat rewrite Forall_app. repeat split;
      try (eapply Forall_lt_weaken; [ | eassumption]; lia).
    apply seq_ids_fresh. exact Hi.
  - rewrite Hf, Hn. lia.
Qed.

Lemma createSimpleGLSLGlobalVarying_createdGlobals
      inType vl tl kind stage bi decl st v st' :
  freshIds st ->
  createSimpleGLSLGlobalVarying inType vl tl kind stage bi decl st = OK (v, st') ->
  exists g,
    createdGlobals st st' [g] /\
    dataType g = leafParamType kind
                   (wrapFullType (leafType inType (systemValueOf vl kind stage)) decl).
Proof.
  intros Hf H.
  rewrite (createSimpleGLSLGlobalVarying_spec inType vl tl kind stage bi decl Hf) in H.
  inversion H; subst; clear H.
  destruct (resolveSystemValue_frame vl kind stage st) as (Hm & Hn & Hb & Hs).
  rewrite resolveSystemValue_systemValueOf.
  eexists. split.
  - unfold createdGlobals, withGlobalParam. cbn. rewrite Hm, Hb, Hs, Hn.
    repeat split; try reflexivity; try lia.
    constructor; [reflexivity | constructor].
  - unfold leafGlobalParam. cbn [dataType]. rewrite fold_wrapDeclarator_fst.
    reflexivity.
Qed.

Lemma leafType_not_struct inType vl kind stage :
  isStructType inType = false ->
  isStructType (leafType inType (systemValueOf vl kind stage)) = false.
Proof.
  intros Hs. unfold leafType.
  destruct (systemValueOf vl kind stage) as [info | ] eqn:E; [ | exact Hs].
  destruct (requiredType info) as [t | ] eqn:Er; [ | exact Hs].
  exact (requiredType_not_struct _ _ _ E Er).
Qed.

Lemma distributesArrays_inner kind n decl g :
  distributesArrays kind (mkGlobalVaryingDeclarator n :: decl) g ->
  distributesArrays kind decl g.
Proof.
  intros (X & HX & Hg). exists (IRArrayType X n). split; [reflexivity | exact Hg].
Qed.

(** The materializer only creates global parameters, each with the outer
    arrays of the declarators around a type that is not a struct. *)
Lemma createGLSLGlobalVaryingsImpl_createdGlobals kind stage :
  forall type vl tl bi decl st v st',
    freshIds st ->
    createGLSLGlobalVaryingsImpl type vl tl kind stage bi decl st = OK (v, st') ->
    exists globals,
      createdGlobals st st' globals /\
      Forall (distributesArrays kind decl) globals.
Proof.
  assert (Hsimple : forall type vl tl bi decl st v st',
             isStructType type = false ->
             freshIds st ->
             createSimpleGLSLGlobalVarying type vl tl kind stage bi decl st = OK (v, st') ->
             exists globals,
               createdGlobals st st' globals /\
               Forall (distributesArrays kind decl) globals).
  { intros type vl tl bi decl st v st' Hns Hf H.
    destruct (createSimpleGLSLGlobalVarying_createdGlobals _ _ _ _ _ _ _ Hf H)
      as (g & Hc & Hg).
    exists [g]. split; [exact Hc | ].
    constructor; [ | constructor].
    eexists. split; [ | exact Hg]. apply leafType_not_struct. exact Hns. }
  induction type as [ | b | e n IHtype | e r c IHtype | e n IHtype | o e IHtype
                     | nm fs IHfs | o v0 IHtype | ps r IHps IHr | n]
    using IRType_nested_ind; intros vl tl bi decl st v st' Hf H;
    try solve [eapply Hsimple; [ | exact Hf | exact H]; reflexivity].
  - (* void *)
    cbn in H. apply ret_OK in H. destruct H; subst.
    exists []. split; [apply createdGlobals_refl | constructor].
  - (* array *)
    cbn in H. destruct (TypeLayout_shape tl); try discriminate.
    destruct (IHtype _ _ _ _ _ _ _ Hf H) as (globals & Hc & Hd).
    exists globals. split; [exact Hc | ].
    eapply Forall_impl; [ | exact Hd]. intros g. apply distributesArrays_inner.
  - (* stream *)
    cbn in H. destruct (TypeLayout_shape tl); try discriminate.
    exact (IHtype _ _ _ _ _ _ _ Hf H).
  - (* struct *)
    rewrite createGLSLGlobalVaryingsImpl_struct in H.
    destruct (TypeLayout_shape tl) as [ | | | fieldLayouts]; try discriminate.
    apply bind_OK in H. destruct H as (elements & st1 & Hrun & Hret).
    apply ret_OK in Hret. destruct Hret as [_ <-].
    clear v. revert Hrun Hf. generalize 0%nat as counter.
    revert st elements st1.
    induction IHfs as [ | [key fieldType] fs Hfield Hfs IH];
      intros st elements st1 counter Hrun Hf.
    + cbn in Hrun. apply ret_OK in Hrun. destruct Hrun; subst.
      exists []. split; [apply createdGlobals_refl | constructor].
    + cbn [createFields] in Hrun.
      destruct (nth_error fieldLayouts counter) as [fl | ]; [ | discriminate].
      apply bind_OK in Hrun. destruct Hrun as (fieldVal & st2 & Hfv & Hrest).
      apply bind_OK in Hrest. destruct Hrest as (others & st3 & Hothers & Hret).
      apply ret_OK in Hret. destruct Hret as [_ <-].
      cbn [snd] in Hfield.
      destruct (Hfield _ _ _ _ _ _ _ Hf Hfv) as (g1 & Hc1 & Hd1).
      pose proof (createdGlobals_fresh Hc1 Hf) as Hf2.
      destruct (IH _ _ _ _ Hothers Hf2) as (g2 & Hc2 & Hd2).
      exists (g1 ++ g2). split; [eapply createdGlobals_trans; eassumption | ].
      apply Forall_app. split; assumption.
Qed.

Lemma createGLSLGlobalVaryings_createdGlobals type layout kind stage st v st' :
  freshIds st ->
  createGLSLGlobalVaryings type layout kind stage st = OK (v, st') ->
  exists globals, createdGlobals st st' globals.
Proof.
  intros Hf H. unfold createGLSLGlobalVaryings in H.
  destruct (createGLSLGlobalVaryingsImpl_createdGlobals _ _ _ _ _ _ _ Hf H)
    as (globals & Hc & _).
  exists globals. exact Hc.
Qed.

(** ** Insertion in lists and blocks *)

Lemma insertBeforeInList_split id new l l' :
  insertBeforeInList id new l = Some l' ->
  exists pre x post,
    l = pre ++ x :: post /\ l' = pre ++ new :: x :: post /\
    instId x = id /\ Forall (fun i => instId i <> id) pre.
Proof.
  revert l'. induction l as [ | i l IH]; intros l' H; cbn in H; [discriminate | ].
  destruct (Nat.eqb_spec (instId i) id) as [E | E].
  - inversion H; subst. exists [], i, l. repeat split. constructor.
  - destruct (insertBeforeInList id new l) as [r | ]; [ | discriminate].
    cbn in H. inversion H; subst.
    destruct (IH r eq_refl) as (pre & x & post & -> & -> & Hx & Hpre).
    exists (i :: pre), x, post. repeat split; auto.
Qed.

Lemma insertBeforeInList_none id new l :
  insertBeforeInList id new l = None <-> Forall (fun i => instId i <> id) l.
Proof.
  induction l as [ | i l IH]; cbn.
  - split; [constructor | reflexivity].
  - destruct (Nat.eqb_spec (instId i) id) as [E | E].
    + split; [discriminate | ]. intros H. inversion H; subst. contradiction.
    + destruct (insertBeforeInList id new l).
      * cbn. split; [discriminate | ]. intros H. inversion H; subst.
        apply IH in H3. discriminate.
      * cbn. split; [ | reflexivity]. intros _. constructor; [exact E | ].
        apply IH. reflexivity.
Qed.

Lemma insertBeforeInList_app id new pre x post :
  Forall (fun i => instId i <> id) pre -> instId x = id ->
  insertBeforeInList id new (pre ++ x :: post) = Some (pre ++ new :: x :: post).
Proof.
  intros Hpre Hx. induction Hpre as [ | i pre Hi Hpre IH]; cbn.
  - rewrite Hx, Nat.eqb_refl. reflexivity.
  - destruct (Nat.eqb_spec (instId i) id); [contradiction | ].
    rewrite IH. reflexivity.
Qed.

(** What an insertion does to the blocks: one block gets the new
    instruction, the others stay. *)
Lemma insertAt_split b new bs bs' :
  insertAt b new bs = Some bs' ->
  exists bs1 blk bs2 l1 l2,
    bs = bs1 ++ blk :: bs2 /\
    children blk = l1 ++ l2 /\
    bs' = bs1 ++ mkIRBlock (l1 ++ new :: l2) :: bs2 /\
    (isInsertBefore b = true -> l2 <> []).
Proof.
  destruct b as [ | n | id]; cbn; [intros H; discriminate H | | ].
  - revert n bs'. induction bs as [ | blk bs IH]; intros n bs' H;
      [destruct n; discriminate | ].
    destruct n as [ | n]; cbn in H.
    + inversion H; subst. exists [], blk, bs, (children blk), [].
      rewrite app_nil_r. repeat split. intros; discriminate.
    + destruct (insertAtEndOfBlock n new bs) as [r | ] eqn:E; [ | discriminate].
      cbn in H. inversion H; subst.
      destruct (IH _ _ E) as (bs1 & b0 & bs2 & l1 & l2 & -> & Hc & -> & Hl).
      exists (blk :: bs1), b0, bs2, l1, l2. repeat split; auto.
  - revert bs'. induction bs as [ | blk bs IH]; intros bs' H; cbn in H;
      [discriminate | ].
    destruct (insertBeforeInList id new (children blk)) as [c | ] eqn:E.
    + inversion H; subst.
      apply insertBeforeInList_split in E.
      destruct E as (pre & x & post & Hc & -> & _).
      exists [], blk, bs, pre, (x :: post). repeat split; auto. intros; discriminate.
    + destruct (insertBeforeInBlocks id new bs) as [r | ] eqn:E2; [ | discriminate].
      cbn in H. inversion H; subst.
      destruct (IH _ eq_refl) as (bs1 & b0 & bs2 & l1 & l2 & -> & Hc & -> & Hl).
      exists (blk :: bs1), b0, bs2, l1, l2. repeat split; auto.
Qed.

Lemma insertAt_Forall (P : IRInst -> Prop) b new bs bs' :
  insertAt b new bs = Some bs' ->
  P new ->
  Forall P (flat_map children bs) -> Forall P (flat_map children bs').
Proof.
  intros H Hn Hall.
  destruct (insertAt_split _ _ _ H) as (bs1 & blk & bs2 & l1 & l2 & -> & Hc & -> & _).
  rewrite flat_map_app in *. cbn in *. rewrite Hc in Hall.
  repeat rewrite Forall_app in *.
  destruct Hall as (H1 & (H2 & H3) & H4).
  repeat split; auto.
Qed.

Lemma insertAllAt_Forall (P : IRInst -> Prop) b new : forall bs bs',
  insertAllAt b new bs = Some bs' ->
  Forall P new ->
  Forall P (flat_map children bs) -> Forall P (flat_map children bs').
Proof.
  induction new as [ | i new IH]; intros bs bs' H Hn Hall; cbn in H.
  - inversion H; subst. exact Hall.
  - destruct (insertAt b i bs) as [bs1 | ] eqn:E; [ | discriminate].
    inversion Hn; subst.
    eapply IH; [exact H | assumption | ].
    eapply insertAt_Forall; eassumption.
Qed.

Lemma stateBlocks_allInsts st :
  allInsts (module st) =
  moduleBefore (module st) ++ flat_map children (stateBlocks st) ++ moduleAfter (module st).
Proof. reflexivity. Qed.

Lemma emitted_fresh b st st' new :
  emitted b st st' new -> freshIds st -> freshIds st'.
Proof.
  intros ((Hb & Ha & Hfi & _) & Hn & Hi & Hins) H.
  apply freshIds_parts in H. destruct H as (Fb & Fbl & Fa & Ff).
  split.
  - rewrite stateBlocks_allInsts, Hb, Ha, Hn.
    repeat rewrite Forall_app. repeat split;
      try (eapply Forall_lt_weaken; [ | eassumption]; lia).
    eapply insertAllAt_Forall; [exact Hins | | ].
    + apply seq_ids_fresh. exact Hi.
    + eapply Forall_lt_weaken; [ | exact Fbl]. lia.
  - rewrite Hfi, Hn. lia.
Qed.

(** ** Blocks through the rewrite of a parameter *)

Lemma lastOpt_app {A} (l1 l2 : list A) :
  l2 <> [] -> lastOpt (l1 ++ l2) = lastOpt l2.
Proof.
  intros H. induction l1 as [ | x l1 IH]; cbn; [reflexivity | ].
  destruct (l1 ++ l2) eqn:E.
  - apply app_eq_nil in E. destruct E. contradiction.
  - exact IH.
Qed.

Lemma lastOpt_snoc {A} (l : list A) (x : A) : lastOpt (l ++ [x]) = Some x.
Proof. rewrite lastOpt_app by discriminate. reflexivity. Qed.

Lemma blockRefines_refl b : blockRefines b b.
Proof.
  split; [reflexivity | ]. apply Forall_forall. intros o Ho. left. exact Ho.
Qed.

Lemma blockRefines_trans b1 b2 b3 :
  blockRefines b1 b2 -> blockRefines b2 b3 -> blockRefines b1 b3.
Proof.
  intros [Hl1 Ho1] [Hl2 Ho2]. split; [congruence | ].
  rewrite Forall_forall in *. intros o Ho.
  destruct (Ho2 o Ho) as [Hin | Hp]; [ | right; exact Hp].
  exact (Ho1 o Hin).
Qed.

Lemma blocksRefine_refl bs : blocksRefine bs bs.
Proof. induction bs; constructor; [apply blockRefines_refl | assumption]. Qed.

Lemma blocksRefine_trans bs1 bs2 bs3 :
  blocksRefine bs1 bs2 -> blocksRefine bs2 bs3 -> blocksRefine bs1 bs3.
Proof.
  intros H. revert bs3. induction H as [ | b1 b2 bs1 bs2 Hb Hbs IH]; intros bs3 H2.
  - inversion H2. constructor.
  - inversion H2; subst. constructor.
    + eapply blockRefines_trans; eassumption.
    + apply IH. assumption.
Qed.

Lemma blocksRefine_of_ops bs bs' :
  map blockOps bs' = map blockOps bs -> blocksRefine bs bs'.
Proof.
  revert bs'. induction bs as [ | b bs IH]; intros [ | b' bs'] H; cbn in H;
    try discriminate; constructor.
  - inversion H as [[Hb Hbs]]. split; [rewrite Hb; reflexivity | ].
    rewrite Hb. apply Forall_forall. intros o Ho. left. exact Ho.
  - apply IH. inversion H. reflexivity.
Qed.

Lemma insertAt_blocksRefine b new bs bs' :
  isInsertBefore b = true -> isPassOp (op new) = true ->
  insertAt b new bs = Some bs' -> blocksRefine bs bs'.
Proof.
  intros Hb Hop H.
  destruct (insertAt_split _ _ _ H) as (bs1 & blk & bs2 & l1 & l2 & -> & Hc & -> & Hl).
  specialize (Hl Hb).
  apply Forall2_app; [apply blocksRefine_refl | ].
  constructor; [ | apply blocksRefine_refl].
  unfold blockRefines, blockOps. cbn [children]. rewrite Hc.
  repeat rewrite map_app. cbn [map].
  split.
  - rewrite lastOpt_app by (destruct l2; [contradiction | discriminate]).
    rewrite (@lastOpt_app _ (map op l1) (map op l2))
      by (destruct l2; [contradiction | discriminate]).
    destruct l2 as [ | x l2]; [contradiction | reflexivity].
  - apply Forall_forall. intros o Ho.
    apply in_app_or in Ho. destruct Ho as [Ho | [Ho | Ho]].
    + left. apply in_or_app. left. exact Ho.
    + right. subst o. exact Hop.
    + left. apply in_or_app. right. exact Ho.
Qed.

Lemma insertAllAt_blocksRefine b new : forall bs bs',
  isInsertBefore b = true ->
  Forall (fun i => isPassOp (op i) = true) new ->
  insertAllAt b new bs = Some bs' -> blocksRefine bs bs'.
Proof.
  induction new as [ | i new IH]; intros bs bs' Hb Hop H; cbn in H.
  - inversion H. apply blocksRefine_refl.
  - destruct (insertAt b i bs) as [bs1 | ] eqn:E; [ | discriminate].
    inversion Hop; subst.
    eapply blocksRefine_trans.
    + eapply insertAt_blocksRefine; eassumption.
    + eapply IH; eassumption.
Qed.

Lemma isScalarizedOp_isPassOp o : isScalarizedOp o = true -> isPassOp o = true.
Proof. intros H. unfold isPassOp. rewrite H. reflexivity. Qed.

(** *** Steps of the rewrite of the parameters *)

Lemma paramStep_ret {A} (a : A) : paramStep (ret a).
Proof.
  intros st a' st' Hf Hb H. apply ret_OK in H. destruct H; subst.
  repeat split; try assumption; try apply Hf. apply blocksRefine_refl.
Qed.

Lemma paramStep_bind {A B} (m : M A) (f : A -> M B) :
  paramStep m -> (forall a, paramStep (f a)) -> paramStep (bind m f).
Proof.
  intros Hm Hk st r st' Hf Hb H. apply bind_OK in H.
  destruct H as (a & st1 & H1 & H2).
  destruct (Hm _ _ _ Hf Hb H1) as (Hf1 & Hb1 & Hr1).
  destruct (Hk a _ _ _ Hf1 Hb1 H2) as (Hf2 & Hb2 & Hr2).
  split; [exact Hf2 | ]. split; [exact Hb2 | ].
  eapply blocksRefine_trans; eassumption.
Qed.

Lemma paramStep_abort {A} msg : paramStep (@abort A msg).
Proof. intros st a st' _ _ H. discriminate. Qed.

Lemma paramStep_reads {A} (m : M A) :
  (forall st a st', m st = OK (a, st') -> st' = st) -> paramStep m.
Proof.
  intros Hm st a st' Hf Hb H. apply Hm in H. subst.
  split; [exact Hf | ]. split; [exact Hb | apply blocksRefine_refl].
Qed.

Lemma paramStep_emits {A} b (m : M A) :
  isInsertBefore b = true -> emits b m -> paramStep m.
Proof.
  intros Hb Hm st a st' Hf Hcb H.
  destruct (Hm _ _ _ H) as (new & He & Hops).
  split; [eapply emitted_fresh; eassumption | ].
  destruct He as ((_ & _ & _ & _ & _ & _ & _ & _ & Hcb') & _ & _ & Hins).
  split; [rewrite Hcb'; exact Hcb | ].
  eapply insertAllAt_blocksRefine; [exact Hb | | exact Hins].
  eapply Forall_impl; [ | exact Hops]. intros i. apply isScalarizedOp_isPassOp.
Qed.

Lemma paramStep_getBuilder {B} (f : IRBuilder -> M B) :
  (forall b, isInsertBefore b = true -> paramStep (f b)) ->
  paramStep (bind getBuilder f).
Proof.
  intros Hk st r st' Hf Hb H. unfold bind, getBuilder in H.
  exact (Hk _ Hb _ _ _ Hf Hb H).
Qed.

Lemma paramStep_emitInst b o t args :
  isInsertBefore b = true -> isPassOp o = true -> paramStep (emitInst b o t args).
Proof.
  intros Hb Ho st a st' Hf Hcb H.
  apply emitInst_emitted in H. destruct H as [_ He].
  split; [eapply emitted_fresh; eassumption | ].
  destruct He as ((_ & _ & _ & _ & _ & _ & _ & _ & Hcb') & _ & _ & Hins).
  split; [rewrite Hcb'; exact Hcb | ].
  eapply insertAllAt_blocksRefine; [exact Hb | | exact Hins].
  constructor; [exact Ho | constructor].
Qed.

Lemma paramStep_createGLSLGlobalVaryings type layout kind stage :
  paramStep (createGLSLGlobalVaryings type layout kind stage).
Proof.
  intros st v st' Hf Hb H.
  destruct (createGLSLGlobalVaryings_createdGlobals _ _ _ _ Hf H) as (globals & Hc).
  split; [eapply createdGlobals_fresh; eassumption | ].
  destruct Hc as (_ & _ & Hfn & _ & Hcb & _).
  split; [rewrite Hcb; exact Hb | ].
  unfold stateBlocks. rewrite Hfn. apply blocksRefine_refl.
Qed.

Lemma paramStep_setInsertBefore ii : paramStep (setInsertBefore ii).
Proof.
  destruct ii as [x | ]; [ | apply paramStep_abort].
  intros st a st' Hf Hb H. cbn in H. apply modify_OK in H. subst. cbn.
  split; [exact Hf | ]. split; [reflexivity | apply blocksRefine_refl].
Qed.

Lemma map_ops_mapInsts (f : IRInst -> IRInst) (bs : list IRBlock) :
  (forall i, op (f i) = op i) ->
  map blockOps (map (fun b => mkIRBlock (map f (children b))) bs) = map blockOps bs.
Proof.
  intros Hf. rewrite map_map. apply map_ext. intros b.
  unfold blockOps. cbn. rewrite map_map. apply map_ext. exact Hf.
Qed.

Lemma Forall_map_ids (f : IRInst -> IRInst) (n : nat) (l : list IRInst) :
  (forall i, instId (f i) = instId i) ->
  Forall (fun i => instId i < n) l -> Forall (fun i => instId i < n) (map f l).
Proof.
  intros Hf H. rewrite Forall_map. eapply Forall_impl; [ | exact H].
  cbn. intros i Hi. rewrite Hf. exact Hi.
Qed.

Lemma flat_map_mapInsts (f : IRInst -> IRInst) (bs : list IRBlock) :
  flat_map children (map (fun b => mkIRBlock (map f (children b))) bs) =
  map f (flat_map children bs).
Proof.
  induction bs as [ | b bs IH]; cbn; [reflexivity | ].
  rewrite map_app, IH. reflexivity.
Qed.

Lemma freshIds_mapInsts (f : IRInst -> IRInst) st fd :
  (forall i, instId (f i) = instId i) ->
  freshIds st ->
  let m := mapInsts f (module st) in
  freshIds (set_module st
              (set_func m (mkIRFunc (funcId (moduleFunc m)) (fullType (moduleFunc m))
                                    (blocks (moduleFunc m)) fd))).
Proof.
  intros Hf H. apply freshIds_parts in H. destruct H as (Fb & Fbl & Fa & Ff).
  split; cbn; [ | exact Ff].
  unfold allInsts. cbn. rewrite flat_map_mapInsts.
  repeat rewrite Forall_app. repeat split; apply Forall_map_ids; assumption.
Qed.

Lemma paramStep_replaceUsesWith old new : paramStep (replaceUsesWith old new).
Proof.
  intros st a st' Hf Hb H. apply modify_OK in H. subst.
  split; [apply freshIds_mapInsts; [reflexivity | exact Hf] | ].
  split; [exact Hb | ].
  apply blocksRefine_of_ops. cbn. apply map_ops_mapInsts. reflexivity.
Qed.

Lemma paramStep_addGlobalParam t : paramStep (addGlobalParam t).
Proof.
  intros st a st' Hf Hb H. unfold addGlobalParam, bind, freshId, modify, ret in H.
  inversion H; subst; clear H. cbn.
  apply freshIds_parts in Hf. destruct Hf as (Fb & Fbl & Fa & Ff).
  split; [ | split; [exact Hb | apply blocksRefine_refl] ].
  split; cbn; [ | lia]. unfold allInsts. cbn.
  repeat rewrite Forall_app. repeat split;
    try (eapply Forall_lt_weaken; [ | eassumption]; lia).
  constructor; [cbn; lia | constructor].
Qed.

Lemma addDecorationTo_id id d i : instId (addDecorationTo id d i) = instId i.
Proof. unfold addDecorationTo. destruct (Nat.eqb _ _); reflexivity. Qed.

Lemma addDecorationTo_op id d i : op (addDecorationTo id d i) = op i.
Proof. unfold addDecorationTo. destruct (Nat.eqb _ _); reflexivity. Qed.

Lemma paramStep_addDecoration target d : paramStep (addDecoration target d).
Proof.
  destruct target as [id | | ]; try apply paramStep_ret.
  intros st a st' Hf Hb H. apply modify_OK in H. subst. cbv zeta.
  destruct (Nat.eqb id (funcId (moduleFunc (module st)))).
  - split; [ | split; [exact Hb | apply blocksRefine_refl] ].
    destruct Hf as [H1 H2]. split; [exact H1 | exact H2].
  - split; [ | split; [exact Hb | ] ].
    + pose proof (@freshIds_mapInsts (addDecorationTo id d) st
                    (funcDecorations (moduleFunc (module st)))
                    (addDecorationTo_id id d) Hf) as H.
      destruct H as [H1 H2]. split; [exact H1 | exact H2].
    + apply blocksRefine_of_ops. cbn. apply map_ops_mapInsts.
      apply addDecorationTo_op.
Qed.

Lemma Forall_filter_keep {A} (P : A -> Prop) (p : A -> bool) (l : list A) :
  Forall P l -> Forall P (filter p l).
Proof.
  intros H. apply Forall_forall. intros x Hx. apply filter_In in Hx.
  rewrite Forall_forall in H. apply H. tauto.
Qed.

Lemma paramStep_moveValueBefore v : paramStep (moveValueBefore v).
Proof.
  destruct v as [id | | ]; try apply paramStep_abort.
  intros st a st' Hf Hb H. unfold moveValueBefore in H.
  destruct (find _ _) as [x | ] eqn:E; [ | discriminate].
  inversion H; subst; clear H.
  apply find_some in E. destruct E as [Hin _].
  apply freshIds_parts in Hf. destruct Hf as (Fb & Fbl & Fa & Ff).
  split; [ | split; [exact Hb | apply blocksRefine_refl] ].
  split; cbn; [ | exact Ff]. unfold allInsts. cbn.
  repeat rewrite Forall_app. repeat split;
    try (apply Forall_filter_keep; assumption); try assumption.
  constructor; [ | constructor].
  apply in_app_or in Hin. rewrite Forall_forall in Fb, Fa.
  destruct Hin as [Hin | Hin]; [apply Fb | apply Fa]; exact Hin.
Qed.

Lemma paramStep_forEach {A} (f : A -> M unit) (l : list A) :
  (forall x, paramStep (f x)) -> paramStep (forEach f l).
Proof.
  intros Hf. induction l as [ | x l IH]; cbn.
  - apply paramStep_ret.
  - apply paramStep_bind; [apply Hf | intros; exact IH].
Qed.

Lemma getFunc_reads st a st' : getFunc st = OK (a, st') -> st' = st.
Proof. unfold getFunc. intros H. inversion H. reflexivity. Qed.

Lemma paramStep_getFunc : paramStep getFunc.
Proof. apply paramStep_reads. apply getFunc_reads. Qed.

Lemma paramStep_getBlock n : paramStep (getBlock n).
Proof.
  unfold getBlock. apply paramStep_bind; [apply paramStep_getFunc | intros f].
  destruct (nth_error _ _); [apply paramStep_ret | apply paramStep_abort].
Qed.

Lemma paramStep_forEachBlock (body : nat -> IRBlock -> M unit) :
  (forall n b, paramStep (body n b)) -> paramStep (forEachBlock body).
Proof.
  intros Hb. unfold forEachBlock, blockCount.
  apply paramStep_bind.
  - apply paramStep_bind; [apply paramStep_getFunc | intros; apply paramStep_ret].
  - intros n. apply paramStep_forEach. intros k.
    apply paramStep_bind; [apply paramStep_getBlock | intros; apply Hb].
Qed.

Lemma paramStep_derefM p : paramStep (derefM p).
Proof. apply paramStep_reads. apply derefM_OK. Qed.

Lemma paramStep_resolveCallee fuel : forall callee, paramStep (resolveCallee fuel callee).
Proof.
  induction fuel as [ | fuel IH]; intros callee; cbn [resolveCallee].
  - intros st a st' _ _ H. discriminate.
  - destruct (op callee); try apply paramStep_ret.
    + destruct (genericReturnVal callee); [ | apply paramStep_ret].
      apply paramStep_bind; [apply paramStep_derefM | intros; apply IH].
    + destruct (getOperand callee 0); [ | apply paramStep_abort].
      apply paramStep_bind; [apply paramStep_derefM | intros; apply IH].
Qed.

Lemma paramStep_legalizeStreamOutputCall globalOutputVal ii :
  paramStep (legalizeStreamOutputCall globalOutputVal ii).
Proof.
  unfold legalizeStreamOutputCall.
  destruct (negb _); [apply paramStep_ret | ].
  destruct (getOperand ii 0); [ | apply paramStep_abort].
  apply paramStep_bind; [apply paramStep_derefM | intros callee].
  apply paramStep_bind.
  { apply paramStep_reads. intros st a st' H. inversion H. reflexivity. }
  intros fuel.
  apply paramStep_bind; [apply paramStep_resolveCallee | intros callee'].
  destruct (negb _); [apply paramStep_ret | ].
  destruct (findTargetIntrinsicDecoration _ _); [ | apply paramStep_ret].
  destruct (negb _); [apply paramStep_ret | ].
  apply paramStep_bind; [apply paramStep_setInsertBefore | intros _].
  apply paramStep_getBuilder. intros b Hb.
  destruct (getOperand ii 2); [ | apply paramStep_abort].
  eapply paramStep_emits; [exact Hb | apply emits_assign].
Qed.

Lemma paramStep_assignBeforeReturn globalOutputVal localVal bb :
  paramStep (assignBeforeReturn globalOutputVal localVal bb).
Proof.
  unfold assignBeforeReturn.
  destruct (getLastInst bb) as [t | ]; [ | apply paramStep_ret].
  destruct (op t); try apply paramStep_ret;
    (eapply paramStep_emits; [ | apply emits_assign]; reflexivity).
Qed.

Lemma paramStep_legalizeRayTracing pp paramLayout :
  paramStep (legalizeRayTracingEntryPointParameterForGLSL pp paramLayout).
Proof.
  unfold legalizeRayTracingEntryPointParameterForGLSL.
  apply paramStep_bind; [apply paramStep_addGlobalParam | intros g].
  apply paramStep_bind; [apply paramStep_addDecoration | intros _].
  apply paramStep_bind; [apply paramStep_moveValueBefore | intros _].
  apply paramStep_bind; [apply paramStep_replaceUsesWith | intros _].
  apply paramStep_bind.
  - unfold getFuncPtr.
    apply paramStep_bind; [apply paramStep_getFunc | intros; apply paramStep_ret].
  - intros f. apply paramStep_addDecoration.
Qed.

(** The rewrite of one parameter is a step of the rewrite of the
    parameters. *)
Lemma paramStep_legalizeEntryPointParameterForGLSL pp paramLayout :
  paramStep (legalizeEntryPointParameterForGLSL pp paramLayout).
Proof.
  unfold legalizeEntryPointParameterForGLSL.
  apply paramStep_bind.
  { apply paramStep_reads. intros st a st' H. inversion H. reflexivity. }
  intros stage.
  assert (Hrest : forall asOut,
             paramStep
               (if isRayTracingStage stage
                then legalizeRayTracingEntryPointParameterForGLSL pp paramLayout
                else
                  match asOut with
                  | Some (ptrOp, valueType) =>
                      builder <- getBuilder ;;
                      localVariable <- emitVar builder valueType ;;
                      let localVal := address localVariable in
                      match ptrOp with
                      | kIROp_InOutType =>
                          globalInputVal <- createGLSLGlobalVaryings valueType paramLayout
                                              LayoutResourceKind_VaryingInput stage ;;
                          assign builder localVal globalInputVal
                      | _ => ret tt
                      end ;;
                      replaceUsesWith (InstRef (instId pp)) localVariable ;;
                      globalOutputVal <- createGLSLGlobalVaryings valueType paramLayout
                                           LayoutResourceKind_VaryingOutput stage ;;
                      forEachBlock (fun _ bb =>
                                      assignBeforeReturn globalOutputVal localVal bb)
                  | None =>
                      globalValue <- createGLSLGlobalVaryings (dataType pp) paramLayout
                                       LayoutResourceKind_VaryingInput stage ;;
                      builder <- getBuilder ;;
                      materialized <- materializeValue builder globalValue ;;
                      replaceUsesWith (InstRef (instId pp)) materialized
                  end)).
  { intros asOut. destruct (isRayTracingStage stage);
      [apply paramStep_legalizeRayTracing | ].
    destruct asOut as [[ptrOp valueType] | ].
    - apply paramStep_getBuilder. intros b Hb.
      apply paramStep_bind; [apply paramStep_emitInst; [exact Hb | reflexivity] | ].
      intros localVariable.
      apply paramStep_bind.
      { destruct ptrOp; try apply paramStep_ret.
        apply paramStep_bind; [apply paramStep_createGLSLGlobalVaryings | intros g].
        eapply paramStep_emits; [exact Hb | apply emits_assign]. }
      intros _.
      apply paramStep_bind; [apply paramStep_replaceUsesWith | intros _].
      apply paramStep_bind; [apply paramStep_createGLSLGlobalVaryings | intros g].
      apply paramStep_forEachBlock. intros n bb. apply paramStep_assignBeforeReturn.
    - apply paramStep_bind; [apply paramStep_createGLSLGlobalVaryings | intros g].
      apply paramStep_getBuilder. intros b Hb.
      apply paramStep_bind;
        [eapply paramStep_emits; [exact Hb | apply emits_materializeValue] | ].
      intros m. apply paramStep_replaceUsesWith. }
  destruct (asOutTypeBase (dataType pp)) as [[ptrOp valueType] | ] eqn:E;
    [ | apply (Hrest None)].
  destruct valueType; try apply (Hrest (Some (ptrOp, _))).
  apply paramStep_bind; [apply paramStep_createGLSLGlobalVaryings | intros g].
  apply paramStep_bind.
  { apply paramStep_forEachBlock. intros n bb. apply paramStep_forEach.
    intros ii. apply paramStep_legalizeStreamOutputCall. }
  intros _.
  apply paramStep_bind; [apply paramStep_getBlock | intros firstBlock].
  apply paramStep_bind; [apply paramStep_setInsertBefore | intros _].
  apply paramStep_getBuilder. intros b Hb.
  apply paramStep_bind; [apply paramStep_emitInst; [exact Hb | reflexivity] | ].
  intros u. apply paramStep_replaceUsesWith.
Qed.

Lemma paramStep_legalizeParams firstBlock : paramStep (legalizeParams firstBlock).
Proof.
  unfold legalizeParams. apply paramStep_forEach. intros pp.
  destruct (findLayoutDecoration (decorations pp)) as [[l | l | l] | ];
    try apply paramStep_abort.
  apply paramStep_legalizeEntryPointParameterForGLSL.
Qed.

(** ** The parameters are gone after the pass *)

Lemma takeWhile_dropWhile {A} (p : A -> bool) (l : list A) :
  takeWhile p (dropWhile p l) = [].
Proof.
  induction l as [ | x l IH]; cbn; [reflexivity | ].
  destruct (p x) eqn:E; [exact IH | ]. cbn. rewrite E. reflexivity.
Qed.

Lemma isVoidType_eq t : isVoidType t = true -> t = IRVoidType.
Proof. destruct t; cbn; congruence. Qed.

Lemma removeParams_funcParams st u st' :
  removeParams st = OK (u, st') -> funcParams (moduleFunc (module st')) = [].
Proof.
  intros H. apply modify_OK in H. subst. unfold funcParams, getFirstBlock, stateBlocks.
  destruct (blocks (moduleFunc (module st))) as [ | b r] eqn:E.
  - rewrite E. reflexivity.
  - cbn. unfold getParams. cbn. apply takeWhile_dropWhile.
Qed.

Lemma setFullType_OK t st u st' :
  setFullType t st = OK (u, st') ->
  fullType (moduleFunc (module st')) = t /\
  blocks (moduleFunc (module st')) = blocks (moduleFunc (module st)).
Proof. intros H. apply modify_OK in H. subst. cbn. split; reflexivity. Qed.

(** C1. After the pass has run on an entry point (whose function type
    says it has no parameter only if its entry block has none), the
    function has no parameter, in its entry block as in its type, and its
    type is the function type from no parameter to void. *)
Theorem legalizeEntryPointForGLSL_no_parameters (st st' : PassState) :
  signatureMatchesParams (moduleFunc (module st)) ->
  legalizeEntryPointForGLSL st = OK (tt, st') ->
  funcParams (moduleFunc (module st')) = [] /\
  getParamCount (moduleFunc (module st')) = 0%nat /\
  fullType (moduleFunc (module st')) = getFuncType [] getVoidType.
Proof.
  intros Hsig H. unfold legalizeEntryPointForGLSL in H.
  apply bind_OK in H. destruct H as (func & st0 & Hfunc & H).
  apply getFunc_reads in Hfunc as Est0. unfold getFunc in Hfunc.
  inversion Hfunc; subst func st0. clear Hfunc.
  destruct (findLayoutDecoration _) as [[l | l | e] | ]; try discriminate.
  apply bind_OK in H. destruct H as (u1 & st1 & Hstep1 & H).
  apply modify_OK in Hstep1. subst st1.
  apply bind_OK in H. destruct H as (m & st2 & Hstep2 & H).
  inversion Hstep2; subst m st2. clear Hstep2.
  apply bind_OK in H. destruct H as (u3 & st3 & Hstep3 & H).
  unfold SLANG_ASSERT in Hstep3. destruct (negb _); [ | discriminate].
  apply ret_OK in Hstep3. destruct Hstep3 as [_ <-].
  apply bind_OK in H. destruct H as (u4 & st4 & Hstep4 & H).
  apply modify_OK in Hstep4. subst st4.
  destruct (getResultType (moduleFunc (module st))) as [resultType | ] eqn:Er;
    [ | discriminate].
  destruct (isVoidType resultType && Nat.eqb (getParamCount (moduleFunc (module st))) 0)%bool
    eqn:Eearly.
  - apply ret_OK in H. destruct H as [_ <-]. cbn.
    apply andb_prop in Eearly. destruct Eearly as [Ev Ec].
    apply isVoidType_eq in Ev. apply Nat.eqb_eq in Ec. subst resultType.
    split; [exact (Hsig Ec) | ]. split; [exact Ec | ].
    unfold getResultType, getParamCount in *.
    destruct (fullType (moduleFunc (module st))); try discriminate.
    destruct paramTypes; [ | discriminate]. inversion Er. reflexivity.
  - apply bind_OK in H. destruct H as (u5 & st5 & _ & H).
    apply bind_OK in H. destruct H as (func' & st6 & Hf6 & H).
    unfold getFunc in Hf6. inversion Hf6; subst func' st6. clear Hf6.
    apply bind_OK in H. destruct H as (u7 & st7 & Hstep7 & H).
    apply setFullType_OK in H. destruct H as [Ht Hb].
    assert (Hp : funcParams (moduleFunc (module st7)) = []).
    { destruct (getFirstBlock (moduleFunc (module st5))) as [fb | ] eqn:Efb.
      - apply bind_OK in Hstep7. destruct Hstep7 as (u8 & st8 & _ & Hstep7).
        apply bind_OK in Hstep7. destruct Hstep7 as (u9 & st9 & _ & Hstep7).
        exact (removeParams_funcParams Hstep7).
      - apply ret_OK in Hstep7. destruct Hstep7 as [_ <-].
        unfold funcParams. rewrite Efb. reflexivity. }
    split.
    + unfold funcParams, getFirstBlock in *. rewrite Hb. exact Hp.
    + unfold getParamCount. rewrite Ht. split; reflexivity.
Qed.

(** ** Where the instructions go *)

Lemma insertAtEndOfBlock_at new bs1 b bs2 :
  insertAtEndOfBlock (List.length bs1) new (bs1 ++ b :: bs2) =
  Some (bs1 ++ mkIRBlock (children b ++ [new]) :: bs2).
Proof.
  induction bs1 as [ | b1 bs1 IH]; cbn; [reflexivity | ].
  rewrite IH. reflexivity.
Qed.

Lemma insertAllAt_end new : forall bs1 b bs2,
  insertAllAt (insertIntoBlock (List.length bs1)) new (bs1 ++ b :: bs2) =
  Some (bs1 ++ mkIRBlock (children b ++ new) :: bs2).
Proof.
  induction new as [ | i new IH]; intros bs1 b bs2; cbn [insertAllAt insertAt].
  - rewrite app_nil_r. destruct b; reflexivity.
  - rewrite insertAtEndOfBlock_at.
    rewrite (IH bs1 (mkIRBlock (children b ++ [i])) bs2). cbn [children].
    rewrite <- app_assoc. reflexivity.
Qed.

Lemma insertBeforeInBlocks_at id new bs1 pre x post bs2 :
  Forall (fun i => instId i <> id) (flat_map children bs1) ->
  Forall (fun i => instId i <> id) pre ->
  instId x = id ->
  insertBeforeInBlocks id new (bs1 ++ mkIRBlock (pre ++ x :: post) :: bs2) =
  Some (bs1 ++ mkIRBlock (pre ++ new :: x :: post) :: bs2).
Proof.
  intros H1 Hpre Hx. induction bs1 as [ | b1 bs1 IH]; cbn.
  - rewrite insertBeforeInList_app by assumption. reflexivity.
  - cbn in H1. apply Forall_app in H1. destruct H1 as [Hb1 H1].
    apply insertBeforeInList_none with (new := new) in Hb1. rewrite Hb1.
    rewrite (IH H1). reflexivity.
Qed.

Lemma insertAllAt_before id new : forall bs1 pre x post bs2,
  Forall (fun i => instId i <> id) (flat_map children bs1) ->
  Forall (fun i => instId i <> id) pre ->
  Forall (fun i => instId i <> id) new ->
  instId x = id ->
  insertAllAt (insertBeforeInst id) new (bs1 ++ mkIRBlock (pre ++ x :: post) :: bs2) =
  Some (bs1 ++ mkIRBlock (pre ++ new ++ x :: post) :: bs2).
Proof.
  induction new as [ | i new IH]; intros bs1 pre x post bs2 H1 Hpre Hnew Hx;
    cbn [insertAllAt insertAt].
  - reflexivity.
  - apply Forall_cons_iff in Hnew. destruct Hnew as [Hi Hnew].
    rewrite insertBeforeInBlocks_at by assumption.
    replace (pre ++ i :: x :: post) with ((pre ++ [i]) ++ x :: post)
      by (rewrite <- app_assoc; reflexivity).
    rewrite IH; try assumption; try reflexivity.
    + rewrite <- app_assoc. reflexivity.
    + apply Forall_app. split; [assumption | constructor; [assumption | constructor] ].
Qed.

(** *** Instructions stay distinct *)

Lemma insertAt_ids b new bs bs' :
  insertAt b new bs = Some bs' ->
  exists l1 l2,
    flat_map children bs = l1 ++ l2 /\
    flat_map children bs' = l1 ++ new :: l2.
Proof.
  intros H.
  destruct (insertAt_split _ _ _ H) as (bs1 & blk & bs2 & l1 & l2 & -> & Hc & -> & _).
  exists (flat_map children bs1 ++ l1), (l2 ++ flat_map children bs2).
  repeat rewrite flat_map_app. cbn. rewrite Hc.
  repeat rewrite <- app_assoc. cbn. split; reflexivity.
Qed.

Lemma insertAt_NoDup b new bs bs' :
  insertAt b new bs = Some bs' ->
  ~ In (instId new) (map instId (flat_map children bs)) ->
  NoDup (map instId (flat_map children bs)) ->
  NoDup (map instId (flat_map children bs')).
Proof.
  intros H Hnew Hnd.
  destruct (insertAt_ids _ _ _ H) as (l1 & l2 & E1 & E2).
  rewrite E1 in *. rewrite E2. rewrite map_app in *. cbn.
  eapply Permutation_NoDup; [apply Permutation_middle | ].
  constructor; assumption.
Qed.

Lemma insertAllAt_NoDup b new : forall bs bs',
  insertAllAt b new bs = Some bs' ->
  NoDup (map instId new) ->
  (forall i, In i new -> ~ In (instId i) (map instId (flat_map children bs))) ->
  NoDup (map instId (flat_map children bs)) ->
  NoDup (map instId (flat_map children bs')).
Proof.
  induction new as [ | i new IH]; intros bs bs' H Hn Hfresh Hnd; cbn in H.
  - inversion H; subst. exact Hnd.
  - destruct (insertAt b i bs) as [bs1 | ] eqn:E; [ | discriminate].
    cbn in Hn. apply NoDup_cons_iff in Hn. destruct Hn as [Hi Hn].
    eapply IH; [exact H | exact Hn | | ].
    + intros j Hj Hin.
      destruct (insertAt_ids _ _ _ E) as (l1 & l2 & E1 & E2).
      rewrite E2, map_app in Hin. cbn in Hin.
      apply in_app_or in Hin. destruct Hin as [Hin | [Hin | Hin]].
      * apply (Hfresh j (or_intror Hj)). rewrite E1, map_app.
        apply in_or_app. left. exact Hin.
      * apply Hi. rewrite Hin. apply in_map. exact Hj.
      * apply (Hfresh j (or_intror Hj)). rewrite E1, map_app.
        apply in_or_app. right. exact Hin.
    + eapply insertAt_NoDup; [exact E | | exact Hnd].
      apply Hfresh. left. reflexivity.
Qed.

Lemma emitted_unique b st st' new :
  emitted b st st' new -> freshIds st -> uniqueIds st -> uniqueIds st'.
Proof.
  intros (_ & Hn & Hi & Hins) Hf Hu.
  apply freshIds_parts in Hf. destruct Hf as (_ & Fbl & _ & _).
  unfold uniqueIds in *.
  eapply insertAllAt_NoDup; [exact Hins | | | exact Hu].
  - rewrite Hi. apply seq_NoDup.
  - intros i Hin Hold.
    assert (Hge : nextInstId st <= instId i).
    { assert (H : In (instId i) (seq (nextInstId st) (List.length new))).
      { rewrite <- Hi. apply in_map. exact Hin. }
      apply in_seq in H. lia. }
    apply in_map_iff in Hold. destruct Hold as (j & Ej & Hj).
    rewrite Forall_forall in Fbl. specialize (Fbl j Hj).
    unfold stateBlocks in *. lia.
Qed.

(** ** The rewrite of the return sites *)

Lemma IROp_eqb_eq a b : IROp_eqb a b = true <-> a = b.
Proof.
  split.
  - destruct a, b; cbn; intros H; try discriminate; try reflexivity.
    apply Nat.eqb_eq in H. subst. reflexivity.
  - intros <-. destruct a; cbn; try reflexivity. apply Nat.eqb_refl.
Qed.

Lemma IROp_eqb_neq a b : IROp_eqb a b = false <-> a <> b.
Proof.
  rewrite <- IROp_eqb_eq. destruct (IROp_eqb a b); split; congruence.
Qed.

Lemma rewriteReturnVal_skip resultGlobal blockIndex pre rest :
  Forall (fun i => op i <> kIROp_ReturnVal) pre ->
  rewriteReturnVal resultGlobal blockIndex (pre ++ rest) =
  rewriteReturnVal resultGlobal blockIndex rest.
Proof.
  intros H. induction H as [ | i pre Hi Hpre IH]; cbn; [reflexivity | ].
  apply IROp_eqb_neq in Hi. rewrite Hi. cbn. exact IH.
Qed.

Lemma rewriteReturnVal_none resultGlobal blockIndex insts st :
  Forall (fun i => op i <> kIROp_ReturnVal) insts ->
  rewriteReturnVal resultGlobal blockIndex insts st = OK (tt, st).
Proof.
  intros H. rewrite <- (app_nil_r insts). rewrite rewriteReturnVal_skip by exact H.
  reflexivity.
Qed.

Lemma firstReturnVal (l : list IRInst) :
  Forall (fun i => op i <> kIROp_ReturnVal) l \/
  exists pre rv post,
    l = pre ++ rv :: post /\
    Forall (fun i => op i <> kIROp_ReturnVal) pre /\
    op rv = kIROp_ReturnVal.
Proof.
  induction l as [ | i l IH]; [left; constructor | ].
  destruct (IROp_eqb (op i) kIROp_ReturnVal) eqn:E.
  - right. apply IROp_eqb_eq in E. exists [], i, l. repeat split; auto.
  - apply IROp_eqb_neq in E. destruct IH as [IH | (pre & rv & post & -> & Hp & Hr)].
    + left. constructor; assumption.
    + right. exists (i :: pre), rv, post. repeat split; auto.
Qed.

Lemma filter_other_ids (id : nat) (l : list IRInst) :
  Forall (fun i => instId i <> id) l ->
  filter (fun i => negb (Nat.eqb (instId i) id)) l = l.
Proof.
  intros H. induction H as [ | x l Hx Hl IH]; cbn; [reflexivity | ].
  apply Nat.eqb_neq in Hx. rewrite Hx. cbn. rewrite IH. reflexivity.
Qed.

Lemma removeFromBlock_other_ids (id : nat) (bs : list IRBlock) :
  Forall (fun i => instId i <> id) (flat_map children bs) ->
  map (removeFromBlock id) bs = bs.
Proof.
  induction bs as [ | b bs IH]; cbn; intros H; [reflexivity | ].
  apply Forall_app in H. destruct H as [Hb Hbs].
  rewrite (IH Hbs). unfold removeFromBlock. rewrite (filter_other_ids Hb).
  destruct b; reflexivity.
Qed.

Lemma filter_unique_ids (keep : IRInst -> bool) : forall insts : list IRInst,
  NoDup (map instId insts) -> NoDup (map instId (filter keep insts)).
Proof.
  induction insts as [ | i insts IH]; cbn; intros H; [constructor | ].
  apply NoDup_cons_iff in H. destruct H as [Hi Hrest].
  destruct (keep i); [ | apply IH; exact Hrest].
  cbn. constructor; [ | apply IH; exact Hrest].
  intros Hin. apply Hi. apply in_map_iff in Hin. destruct Hin as (j & Ej & Hj).
  apply filter_In in Hj. destruct Hj as [Hj _].
  rewrite <- Ej. apply in_map. exact Hj.
Qed.

Lemma flat_map_removeFromBlock id bs :
  flat_map children (map (removeFromBlock id) bs) =
  filter (fun i => negb (Nat.eqb (instId i) id)) (flat_map children bs).
Proof.
  induction bs as [ | b bs IH]; cbn; [reflexivity | ].
  rewrite filter_app, IH. reflexivity.
Qed.

Lemma removeAndDeallocate_wf id st u st' :
  removeAndDeallocate id st = OK (u, st') ->
  freshIds st -> uniqueIds st -> freshIds st' /\ uniqueIds st'.
Proof.
  intros H Hf Hu. apply modify_OK in H. subst.
  apply freshIds_parts in Hf. destruct Hf as (Fb & Fbl & Fa & Ff).
  split.
  - split; cbn; [ | exact Ff]. unfold allInsts. cbn.
    rewrite flat_map_removeFromBlock.
    repeat rewrite Forall_app. repeat split; try assumption.
    apply Forall_filter_keep. exact Fbl.
  - unfold uniqueIds, stateBlocks. cbn. rewrite flat_map_removeFromBlock.
    apply filter_unique_ids. exact Hu.
Qed.

Lemma NoDup_app_cons_not_in {A} (l1 l2 : list A) (x : A) :
  NoDup (l1 ++ x :: l2) -> ~ In x l1 /\ ~ In x l2.
Proof.
  intros H. apply NoDup_remove_2 in H. split; intros Hin; apply H;
    apply in_or_app; [left | right]; exact Hin.
Qed.

Lemma not_in_map_ids (id : nat) (l : list IRInst) :
  ~ In id (map instId l) -> Forall (fun i => instId i <> id) l.
Proof.
  intros H. apply Forall_forall. intros i Hi E. apply H. rewrite <- E.
  apply in_map. exact Hi.
Qed.

(** One return site: the first [returnVal] of the block is removed; the
    assignment to the result global and a new [returnVoid] are at the
    end of the block; the other blocks are as they were. *)
Lemma rewriteReturnVal_at resultGlobal bs1 pre rv post bs2 st st' :
  freshIds st -> uniqueIds st ->
  stateBlocks st = bs1 ++ mkIRBlock (pre ++ rv :: post) :: bs2 ->
  op rv = kIROp_ReturnVal ->
  Forall (fun i => op i <> kIROp_ReturnVal) pre ->
  rewriteReturnVal resultGlobal (List.length bs1) (rv :: post) st = OK (tt, st') ->
  exists b',
    stateBlocks st' = bs1 ++ b' :: bs2 /\
    returnRewritten resultGlobal (mkIRBlock (pre ++ rv :: post)) b' /\
    freshIds st' /\ uniqueIds st'.
Proof.
  intros Hf Hu Hbs Hrv Hpre H. cbn [rewriteReturnVal] in H.
  apply IROp_eqb_eq in Hrv as Hrvb. rewrite Hrvb in H. cbn [negb] in H.
  destruct (getOperand rv 0) as [returnValue | ] eqn:Eval; [ | discriminate].
  apply bind_OK in H. destruct H as (u1 & st1 & Hset & H).
  apply modify_OK in Hset.
  apply bind_OK in H. destruct H as (b & st1' & Hb & H).
  unfold getBuilder in Hb. inversion Hb; subst b st1'. clear Hb.
  apply bind_OK in H. destruct H as (u2 & st2 & Hassign & H).
  apply bind_OK in H. destruct H as (rtp & st3 & Hret & H).
  apply bind_OK in H. destruct H as (u3 & st4 & Hrem & H).
  apply ret_OK in H. destruct H as [_ <-].
  assert (Ecb : contextBuilder st1 = insertIntoBlock (List.length bs1))
    by (subst st1; reflexivity).
  rewrite Ecb in Hassign, Hret.
  assert (Hf1 : freshIds st1) by (subst st1; exact Hf).
  assert (Hu1 : uniqueIds st1) by (subst st1; exact Hu).
  assert (Hbs1 : stateBlocks st1 = bs1 ++ mkIRBlock (pre ++ rv :: post) :: bs2)
    by (subst st1; exact Hbs).
  assert (Hn1 : nextInstId st1 = nextInstId st) by (subst st1; reflexivity).
  destruct (emits_assign _ _ _ _ Hassign) as (new & He & Hops).
  apply emitInst_emitted in Hret. destruct Hret as [_ Her].
  pose proof (emitted_trans He Her) as Hall.
  pose proof (emitted_fresh Hall Hf1) as Hf3.
  pose proof (emitted_unique Hall Hf1 Hu1) as Hu3.
  destruct (removeAndDeallocate_wf Hrem Hf3 Hu3) as [Hf4 Hu4].
  set (rt := mkIRInst (nextInstId st2) kIROp_ReturnVoid IRVoidType [] [] None) in *.
  exists (mkIRBlock (pre ++ post ++ new ++ [rt])).
  split;
    [ | split;
        [ right; exists pre, rv, post, new, rt, returnValue, (List.length bs1), st1, st2;
          cbn [children];
          split; [reflexivity | ]; split; [exact Hpre | ]; split; [exact Hrv | ];
          split; [exact Eval | ]; split; [destruct u2; exact Hassign | ];
          split; [exact He | ];
          split; [exact Hops | ]; split; reflexivity
        | split; [exact Hf4 | exact Hu4] ] ].
  destruct Hall as (_ & _ & Hids & Hins).
  rewrite Hbs1, insertAllAt_end in Hins. inversion Hins as [Hbs3]. clear Hins.
  apply modify_OK in Hrem. subst st4. unfold stateBlocks at 1. cbn.
  rewrite <- Hbs3. cbn [children].
  (* the identities of the other instructions differ from that of [rv] *)
  unfold uniqueIds in Hu. rewrite Hbs in Hu.
  rewrite flat_map_app in Hu. cbn in Hu.
  repeat rewrite map_app in Hu. cbn [map] in Hu.
  rewrite <- app_assoc in Hu. cbn [app] in Hu. rewrite app_assoc in Hu.
  apply NoDup_app_cons_not_in in Hu. destruct Hu as [Hleft Hright].
  assert (H1 : Forall (fun i => instId i <> instId rv) (flat_map children bs1)).
  { apply not_in_map_ids. intros Hin. apply Hleft. apply in_or_app. left. exact Hin. }
  assert (H2 : Forall (fun i => instId i <> instId rv) pre).
  { apply not_in_map_ids. intros Hin. apply Hleft. apply in_or_app. right. exact Hin. }
  assert (H3 : Forall (fun i => instId i <> instId rv) post).
  { apply not_in_map_ids. intros Hin. apply Hright. apply in_or_app. left. exact Hin. }
  assert (H4 : Forall (fun i => instId i <> instId rv) (flat_map children bs2)).
  { apply not_in_map_ids. intros Hin. apply Hright. apply in_or_app. right. exact Hin. }
  assert (H5 : Forall (fun i => instId i <> instId rv) (new ++ [rt])).
  { apply freshIds_parts in Hf. destruct Hf as (_ & Fbl & _ & _).
    unfold stateBlocks in Hbs. rewrite Hbs in Fbl.
    rewrite flat_map_app in Fbl. cbn in Fbl.
    apply Forall_app in Fbl. destruct Fbl as [_ Fbl].
    apply Forall_app in Fbl. destruct Fbl as [Fbl _].
    apply Forall_app in Fbl. destruct Fbl as [_ Fbl].
    apply Forall_cons_iff in Fbl. destruct Fbl as [Frv _].
    apply Forall_forall. intros i Hi.
    assert (Hin : In (instId i) (seq (nextInstId st1) (List.length (new ++ [rt])))).
    { rewrite <- Hids. apply in_map. exact Hi. }
    apply in_seq in Hin. lia. }
  rewrite map_app. cbn [map].
  rewrite (@removeFromBlock_other_ids _ _ H1), (@removeFromBlock_other_ids _ _ H4).
  unfold removeFromBlock at 1. cbn [children].
  repeat rewrite filter_app. cbn [filter].
  rewrite Nat.eqb_refl. cbn [negb].
  apply Forall_app in H5. destruct H5 as [H5 H6].
  apply Forall_cons_iff in H6. destruct H6 as [H6 _].
  apply Nat.eqb_neq in H6. rewrite H6. cbn [negb].
  rewrite (filter_other_ids H2), (filter_other_ids H3), (filter_other_ids H5).
  repeat rewrite <- app_assoc. reflexivity.
Qed.

Unset Implicit Arguments.

Lemma getBlock_at done b todo st :
  stateBlocks st = done ++ b :: todo ->
  getBlock (List.length done) st = OK (b, st).
Proof.
  intros H. unfold getBlock, bind, getFunc. unfold stateBlocks in H. rewrite H.
  rewrite nth_error_app2 by lia. rewrite Nat.sub_diag. reflexivity.
Qed.

(** The loop over the blocks, from any block on. *)
Lemma rewriteReturnVal_blocks resultGlobal : forall todo done st st',
  stateBlocks st = done ++ todo ->
  freshIds st -> uniqueIds st ->
  forEach (fun blockIndex =>
             bb <- getBlock blockIndex ;;
             rewriteReturnVal resultGlobal blockIndex (children bb))
          (seq (List.length done) (List.length todo)) st = OK (tt, st') ->
  exists todo',
    stateBlocks st' = done ++ todo' /\
    Forall2 (returnRewritten resultGlobal) todo todo' /\
    freshIds st' /\ uniqueIds st' /\
    moduleBefore (module st') = moduleBefore (module st) /\
    moduleAfter (module st') = moduleAfter (module st).
Proof.
  induction todo as [ | b todo IH]; intros done st st' Hbs Hf Hu H.
  - cbn in H. apply ret_OK in H. destruct H as [_ <-].
    exists []. repeat split; try assumption; try apply Hf. constructor.
  - cbn [List.length seq forEach] in H.
    apply bind_OK in H. destruct H as (u & st1 & Hbody & H).
    apply bind_OK in Hbody. destruct Hbody as (bb & st0 & Hget & Hrw).
    rewrite (getBlock_at _ _ _ _ Hbs) in Hget. inversion Hget; subst bb st0. clear Hget.
    assert (Hstep : exists b',
               stateBlocks st1 = done ++ b' :: todo /\
               returnRewritten resultGlobal b b' /\
               freshIds st1 /\ uniqueIds st1 /\
               moduleBefore (module st1) = moduleBefore (module st) /\
               moduleAfter (module st1) = moduleAfter (module st)).
    { destruct (firstReturnVal (children b)) as [Hnone | (pre & rv & post & Ec & Hpre & Hrv)].
      - rewrite rewriteReturnVal_none in Hrw by exact Hnone.
        inversion Hrw; subst st1. exists b.
        split; [exact Hbs | ]. split; [left; split; [ | reflexivity] | auto].
        unfold noReturnVal, blockOps. rewrite Forall_map. exact Hnone.
      - rewrite Ec, rewriteReturnVal_skip in Hrw by exact Hpre.
        destruct b as [c]. cbn in Ec. subst c. destruct u.
        pose proof Hrw as Hrw'.
        apply (@rewriteReturnVal_at resultGlobal done pre rv post todo st st1 Hf Hu Hbs Hrv Hpre) in Hrw.
        destruct Hrw as (b' & Hb' & Hr & Hf1 & Hu1).
        exists b'. split; [exact Hb' | ]. split; [exact Hr | ].
        split; [exact Hf1 | ]. split; [exact Hu1 | ].
        (* the module around the function *)
        cbn [rewriteReturnVal] in Hrw'.
        apply IROp_eqb_eq in Hrv. rewrite Hrv in Hrw'. cbn [negb] in Hrw'.
        destruct (getOperand rv 0); [ | discriminate].
        apply bind_OK in Hrw'. destruct Hrw' as (? & s1 & Hs1 & Hrw').
        apply modify_OK in Hs1.
        apply bind_OK in Hrw'. destruct Hrw' as (bd & s1' & Hbd & Hrw').
        inversion Hbd; subst bd s1'. clear Hbd.
        apply bind_OK in Hrw'. destruct Hrw' as (? & s2 & Hs2 & Hrw').
        apply bind_OK in Hrw'. destruct Hrw' as (? & s3 & Hs3 & Hrw').
        apply bind_OK in Hrw'. destruct Hrw' as (? & s4 & Hs4 & Hrw').
        apply ret_OK in Hrw'. destruct Hrw' as [_ <-].
        destruct (emits_assign _ _ _ _ Hs2) as (new & ((Hb2 & Ha2 & _) & _) & _).
        apply emitInst_emitted in Hs3. destruct Hs3 as [_ ((Hb3 & Ha3 & _) & _)].
        apply modify_OK in Hs4. subst s4 s1. cbn in *. split; congruence. }
    destruct Hstep as (b' & Hbs1 & Hr & Hf1 & Hu1 & Hmb & Hma).
    assert (Hbs1' : stateBlocks st1 = (done ++ [b']) ++ todo)
      by (rewrite <- app_assoc; exact Hbs1).
    replace (S (List.length done)) with (List.length (done ++ [b'])) in H
      by (rewrite length_app; cbn; lia).
    destruct (IH _ _ _ Hbs1' Hf1 Hu1 H) as (todo' & Hbs' & Hrs & Hf' & Hu' & Hmb' & Hma').
    exists (b' :: todo').
    rewrite <- app_assoc in Hbs'. cbn in Hbs'.
    split; [exact Hbs' | ]. split; [constructor; assumption | ].
    split; [exact Hf' | ]. split; [exact Hu' | ]. split; congruence.
Qed.

Lemma rewriteReturnVal_forEachBlock resultGlobal st st' :
  freshIds st -> uniqueIds st ->
  forEachBlock (fun blockIndex bb =>
                  rewriteReturnVal resultGlobal blockIndex (children bb)) st
  = OK (tt, st') ->
  Forall2 (returnRewritten resultGlobal) (stateBlocks st) (stateBlocks st') /\
  freshIds st' /\ uniqueIds st'.
Proof.
  intros Hf Hu H. unfold forEachBlock in H.
  apply bind_OK in H. destruct H as (n & st0 & Hn & H).
  unfold blockCount, bind, getFunc, ret in Hn. inversion Hn; subst n st0. clear Hn.
  destruct (rewriteReturnVal_blocks resultGlobal (stateBlocks st) [] st st'
              eq_refl Hf Hu H) as (todo' & Hbs & Hr & Hf' & Hu' & _).
  cbn in Hbs. rewrite Hbs. auto.
Qed.

Lemma isPassOp_not_ReturnVal o : isPassOp o = true -> o <> kIROp_ReturnVal.
Proof. intros H E. subst o. discriminate. Qed.

Lemma blockRefines_keepsReturns b b' : blockRefines b b' -> keepsReturns b b'.
Proof.
  intros [Hl Ho]. split.
  - unfold noReturnVal. intros Hn. rewrite Forall_forall in *.
    intros o Hin. destruct (Ho o Hin) as [Hold | Hp].
    + apply Hn. exact Hold.
    + apply isPassOp_not_ReturnVal. exact Hp.
  - intros H. rewrite Hl. exact H.
Qed.

Lemma keepsReturns_refl b : keepsReturns b b.
Proof. split; auto. Qed.

Lemma keepsReturns_trans b1 b2 b3 :
  keepsReturns b1 b2 -> keepsReturns b2 b3 -> keepsReturns b1 b3.
Proof. intros [H1 H2] [H3 H4]. split; auto. Qed.

Lemma Forall2_trans {A} (R : A -> A -> Prop) :
  (forall a b c, R a b -> R b c -> R a c) ->
  forall l1 l2 l3, Forall2 R l1 l2 -> Forall2 R l2 l3 -> Forall2 R l1 l3.
Proof.
  intros HR l1 l2 l3 H. revert l3.
  induction H as [ | a b l1 l2 Hab H12 IH]; intros l3 H23; inversion H23; subst.
  - constructor.
  - constructor; [eapply HR; eassumption | apply IH; assumption].
Qed.

Lemma Forall2_refl {A} (R : A -> A -> Prop) :
  (forall a, R a a) -> forall l, Forall2 R l l.
Proof. intros HR l. induction l; constructor; auto. Qed.

Lemma Forall2_impl {A B} (R S : A -> B -> Prop) :
  (forall a b, R a b -> S a b) ->
  forall l1 l2, Forall2 R l1 l2 -> Forall2 S l1 l2.
Proof. intros H l1 l2 H12. induction H12; constructor; auto. Qed.

Lemma dropWhile_keepsReturns (l : list IRInst) :
  keepsReturns (mkIRBlock l) (mkIRBlock (dropWhile isParam l)).
Proof.
  unfold keepsReturns, noReturnVal, blockOps. cbn [children].
  induction l as [ | i l [IH1 IH2] ]; cbn [dropWhile]; [split; auto | ].
  destruct (isParam i) eqn:E; [ | split; auto].
  split.
  - intros H. cbn in H. apply Forall_cons_iff in H. apply IH1. apply H.
  - intros H. cbn [map] in H. apply IH2.
    destruct l as [ | j l]; [ | exact H].
    cbn in H. inversion H as [Hop]. unfold isParam in E. rewrite Hop in E. discriminate.
Qed.

(** The rewrite of the parameters and their removal keep, in each block,
    the absence of [returnVal] and a final [returnVoid]. *)
Lemma legalizeParams_keepsReturns st st' :
  freshIds st ->
  match getFirstBlock (moduleFunc (module st)) with
  | Some firstBlock =>
      setInsertBefore (getFirstOrdinaryInst firstBlock) ;;
      legalizeParams firstBlock ;;
      removeParams
  | None => ret tt
  end st = OK (tt, st') ->
  Forall2 keepsReturns (stateBlocks st) (stateBlocks st').
Proof.
  intros Hf H.
  destruct (getFirstBlock (moduleFunc (module st))) as [firstBlock | ].
  - apply bind_OK in H. destruct H as (u1 & st1 & Hset & H).
    apply bind_OK in H. destruct H as (u2 & st2 & Hparams & H).
    destruct (getFirstOrdinaryInst firstBlock) as [x | ]; [ | discriminate].
    cbn in Hset. apply modify_OK in Hset.
    assert (Hf1 : freshIds st1) by (subst st1; exact Hf).
    assert (Hb1 : isInsertBefore (contextBuilder st1) = true) by (subst st1; reflexivity).
    destruct (@paramStep_legalizeParams firstBlock st1 u2 st2 Hf1 Hb1 Hparams)
      as (_ & _ & Hr).
    assert (E1 : stateBlocks st1 = stateBlocks st) by (subst st1; reflexivity).
    rewrite E1 in Hr.
    apply modify_OK in H. subst st'.
    eapply Forall2_trans; [exact keepsReturns_trans | | ].
    + eapply Forall2_impl; [exact blockRefines_keepsReturns | exact Hr].
    + destruct (stateBlocks st2) as [ | [c] r] eqn:E2.
      * rewrite E2. constructor.
      * unfold stateBlocks. cbn. constructor.
        -- apply dropWhile_keepsReturns.
        -- apply Forall2_refl. exact keepsReturns_refl.
  - apply ret_OK in H. destruct H as [_ <-].
    apply Forall2_refl. exact keepsReturns_refl.
Qed.

Lemma lastOpt_map {A B} (f : A -> B) (l : list A) :
  lastOpt (map f l) = option_map f (lastOpt l).
Proof.
  induction l as [ | x l IH]; [reflexivity | ].
  destruct l as [ | y l]; [reflexivity | exact IH].
Qed.

Lemma returnRewritten_returns resultGlobal b b' :
  returnValOnlyLast b ->
  returnRewritten resultGlobal b b' ->
  noReturnVal b' /\ returnsVoid b b'.
Proof.
  intros Hlast [[Hn ->] | H].
  - split; [exact Hn | ].
    intros o Ho Hret. rewrite Ho. f_equal.
    destruct o; try discriminate; [ | reflexivity].
    exfalso. unfold noReturnVal in Hn. rewrite Forall_forall in Hn.
    apply (Hn kIROp_ReturnVal); [ | reflexivity].
    clear Hn Hret Hlast. unfold blockOps in *.
    induction (map op (children b)) as [ | x l IH]; [discriminate | ].
    destruct l as [ | y l]; [inversion Ho; left; reflexivity | right; exact (IH Ho)].
  - destruct H as (pre & rv & post & new & rt & rval & bi & s1 & s2 &
                   Hc & Hpre & Hrv & _ & _ & _ & Hnew & Hrt & Hc').
    pose proof (Hlast _ _ _ Hc Hrv) as Hpost. subst post.
    split.
    + unfold noReturnVal, blockOps. rewrite Hc'. cbn [app].
      rewrite Forall_map. repeat rewrite Forall_app. split; [exact Hpre | ].
      split.
      * eapply Forall_impl; [ | exact Hnew]. cbn. intros i Hi E.
        rewrite E in Hi. discriminate.
      * constructor; [rewrite Hrt; discriminate | constructor].
    + intros o _ _. unfold blockOps. rewrite Hc'. cbn [app].
      rewrite app_assoc, map_app. cbn [map]. rewrite lastOpt_snoc, Hrt. reflexivity.
Qed.

(** C3. When the return type of the entry point is not void, the pass
    creates the result global from the result layout of the entry point
    and runs the loop over the return sites with it: in each block of
    the function the first [returnVal] is removed, and the instructions
    that assign the returned value to that result global, then a new
    [returnVoid], are put at the end of the block, from where the loop
    goes on.  The rewrite of the parameters that follows keeps this.
    So, [returnVal] being a terminator, no [returnVal] is left in the
    function after the pass, and each block that ended in a return ends
    in [returnVoid]. *)
Theorem legalizeEntryPointForGLSL_returns
        (st st' : PassState) (resultType : IRType) :
  freshIds st -> uniqueIds st ->
  Forall returnValOnlyLast (stateBlocks st) ->
  getResultType (moduleFunc (module st)) = Some resultType ->
  isVoidType resultType = false ->
  legalizeEntryPointForGLSL st = OK (tt, st') ->
  exists entryPointLayout layout resultGlobal st1 st2,
    findLayoutDecoration (funcDecorations (moduleFunc (module st)))
      = Some (Layout_EntryPointLayout entryPointLayout) /\
    resultLayout entryPointLayout = Some layout /\
    createGLSLGlobalVaryings resultType layout LayoutResourceKind_VaryingOutput
      (profileStage entryPointLayout)
      (atResult (profileStage entryPointLayout) st) = OK (resultGlobal, st1) /\
    stateBlocks st1 = stateBlocks st /\
    rewriteReturnSites resultGlobal st1 = OK (tt, st2) /\
    Forall2 (returnRewritten resultGlobal) (stateBlocks st) (stateBlocks st2) /\
    legalizeAfterResult st2 = OK (tt, st') /\
    Forall2 keepsReturns (stateBlocks st2) (stateBlocks st') /\
    Forall noReturnVal (stateBlocks st') /\
    Forall2 returnsVoid (stateBlocks st) (stateBlocks st').
Proof.
  intros Hf Hu Hlast Hres Hvoid H.
  unfold legalizeEntryPointForGLSL in H.
  apply bind_OK in H. destruct H as (func & st0 & Hfunc & H).
  unfold getFunc in Hfunc. inversion Hfunc; subst func st0. clear Hfunc.
  destruct (findLayoutDecoration (funcDecorations (moduleFunc (module st))))
    as [[l | l | e] | ] eqn:Edecoration; try discriminate.
  apply bind_OK in H. destruct H as (u1 & st1 & Hs1 & H).
  apply modify_OK in Hs1. subst st1.
  apply bind_OK in H. destruct H as (m & st2 & Hs2 & H).
  inversion Hs2; subst m st2. clear Hs2.
  apply bind_OK in H. destruct H as (u3 & st3 & Hs3 & H).
  unfold SLANG_ASSERT in Hs3. destruct (negb _); [ | discriminate].
  apply ret_OK in Hs3. destruct Hs3 as [_ <-].
  apply bind_OK in H. destruct H as (u4 & st4 & Hs4 & H).
  apply modify_OK in Hs4. subst st4.
  rewrite Hres, Hvoid in H. cbn [andb] in H.
  apply bind_OK in H. destruct H as (u5 & st5 & Hret & H).
  assert (Hafter : legalizeAfterResult st5 = OK (tt, st')) by exact H.
  apply bind_OK in H. destruct H as (func & st5' & Hfunc & H).
  unfold getFunc in Hfunc. inversion Hfunc; subst func st5'. clear Hfunc.
  apply bind_OK in H. destruct H as (u6 & st6 & Hparams & H).
  apply setFullType_OK in H. destruct H as [_ Hb].
  destruct (resultLayout e) as [layout | ] eqn:Elayout; [ | discriminate].
  apply bind_OK in Hret. destruct Hret as (resultGlobal & st4 & Hcreate & Hloop).
  change (mkPassState _ _ _ _ _ _) with (atResult (profileStage e) st) in Hcreate.
  set (sa := atResult (profileStage e) st) in *.
  assert (Hfa : freshIds sa) by exact Hf.
  assert (Hua : uniqueIds sa) by exact Hu.
  destruct (createGLSLGlobalVaryings_createdGlobals _ _ _ _ Hfa Hcreate)
    as (globals & Hc).
  pose proof (createdGlobals_fresh Hc Hfa) as Hf4.
  assert (E4 : stateBlocks st4 = stateBlocks st).
  { destruct Hc as (_ & _ & Hfn & _). unfold stateBlocks. rewrite Hfn. reflexivity. }
  assert (Hu4 : uniqueIds st4) by (unfold uniqueIds; rewrite E4; exact Hu).
  destruct u5.
  destruct (rewriteReturnVal_forEachBlock resultGlobal st4 st5 Hf4 Hu4 Hloop)
    as (Hr & Hf5 & Hu5).
  rewrite E4 in Hr.
  destruct u6.
  pose proof (legalizeParams_keepsReturns st5 st6 Hf5 Hparams) as Hk.
  assert (E6 : stateBlocks st' = stateBlocks st6) by exact Hb.
  rewrite <- E6 in Hk.
  exists e, layout, resultGlobal, st4, st5.
  split; [reflexivity | ].
  split; [exact Elayout | ].
  split; [exact Hcreate | ].
  split; [exact E4 | ].
  split; [exact Hloop | ].
  split; [exact Hr | ].
  split; [exact Hafter | ].
  split; [exact Hk | ].
  clear - Hlast Hr Hk.
  revert Hlast Hk. generalize (stateBlocks st') as bs6.
  induction Hr as [ | b b5 bs bs5 Hb5 Hbs5 IH]; intros bs6 Hlast Hk;
    inversion Hk as [ | ? b6 ? bs6' Hb6 Hbs6]; subst.
  - split; constructor.
  - apply Forall_cons_iff in Hlast. destruct Hlast as [Hl1 Hl2].
    destruct (IH _ Hl2 Hbs6) as [IHa IHb].
    destruct (returnRewritten_returns resultGlobal b b5 Hl1 Hb5) as [Hn5 Hv5].
    destruct Hb6 as [Hk1 Hk2].
    split; constructor; auto.
    intros o Ho Hret. apply Hk2. exact (Hv5 o Ho Hret).
Qed.

Lemma returnValOnlyLastIn_spec (l : list IRInst) :
  returnValOnlyLastIn l = true -> returnValOnlyLast (mkIRBlock l).
Proof.
  unfold returnValOnlyLast. cbn [children].
  induction l as [ | x l IH]; intros H pre i post E Hop.
  - destruct pre; discriminate.
  - destruct l as [ | y l].
    + destruct pre as [ | p pre]; cbn in E.
      * inversion E. reflexivity.
      * inversion E. destruct pre; discriminate.
    + cbn [returnValOnlyLastIn] in H. apply andb_prop in H. destruct H as [Hx Hl].
      destruct pre as [ | p pre]; cbn in E; inversion E; subst.
      * unfold isReturnVal in Hx. apply IROp_eqb_eq in Hop. rewrite Hop in Hx.
        discriminate.
      * eapply IH; [exact Hl | eassumption | exact Hop].
Qed.

Ltac exampleUnique :=
  unfold uniqueIds; cbn; repeat constructor; cbn; intuition lia.

Ltac exampleReturns :=
  repeat constructor; apply returnValOnlyLastIn_spec; reflexivity.

Lemma legalizeEntryPointForGLSL_no_parameters_witness :
  let st' := stateAfter legalizeEntryPointForGLSL simpleVertexShader in
  funcParams (moduleFunc (module st')) = [] /\
  getParamCount (moduleFunc (module st')) = 0%nat /\
  fullType (moduleFunc (module st')) = getFuncType [] getVoidType.
Proof.
  apply (@legalizeEntryPointForGLSL_no_parameters simpleVertexShader
           (stateAfter legalizeEntryPointForGLSL simpleVertexShader)).
  - intros H. discriminate H.
  - vm_compute. reflexivity.
Defined.

Lemma legalizeEntryPointForGLSL_returns_witness :
  let st := simpleVertexShader in
  let st' := stateAfter legalizeEntryPointForGLSL st in
  (exists entryPointLayout layout resultGlobal st1 st2,
      findLayoutDecoration (funcDecorations (moduleFunc (module st)))
        = Some (Layout_EntryPointLayout entryPointLayout) /\
      resultLayout entryPointLayout = Some layout /\
      createGLSLGlobalVaryings float4Type layout LayoutResourceKind_VaryingOutput
        (profileStage entryPointLayout)
        (atResult (profileStage entryPointLayout) st) = OK (resultGlobal, st1) /\
      stateBlocks st1 = stateBlocks st /\
      rewriteReturnSites resultGlobal st1 = OK (tt, st2) /\
      Forall2 (returnRewritten resultGlobal) (stateBlocks st) (stateBlocks st2) /\
      legalizeAfterResult st2 = OK (tt, st') /\
      Forall2 keepsReturns (stateBlocks st2) (stateBlocks st') /\
      Forall noReturnVal (stateBlocks st') /\
      Forall2 returnsVoid (stateBlocks st) (stateBlocks st')) /\
  map (fun b => map (fun i => (instId i, op i, operands i)) (children b)) (stateBlocks st) =
    [[(1%nat, kIROp_Param, []);
      (2%nat, kIROp_Param, []);
      (3%nat, kIROp_Other 0, [InstRef 1; InstRef 2]);
      (4%nat, kIROp_ReturnVal, [InstRef 3])]] /\
  map (fun b => map (fun i => (instId i, op i, operands i)) (children b)) (stateBlocks st') =
    [[(1005%nat, kIROp_Construct, [InstRef 1004]);
      (3%nat, kIROp_Other 0, [InstRef 1003; InstRef 1005]);
      (1001%nat, kIROp_Store, [InstRef 1000; InstRef 3]);
      (1002%nat, kIROp_ReturnVoid, [])]].
Proof.
  split; [ | split; vm_compute; reflexivity].
  apply (legalizeEntryPointForGLSL_returns simpleVertexShader
           (stateAfter legalizeEntryPointForGLSL simpleVertexShader) float4Type).
  - exampleFresh.
  - exampleUnique.
  - exampleReturns.
  - reflexivity.
  - reflexivity.
  - vm_compute. reflexivity.
Defined.

(** ** [out] and [inout] parameters *)


Lemma uniqueIds_before (st : PassState) done pre x post todo :
  uniqueIds st ->
  stateBlocks st = done ++ mkIRBlock (pre ++ x :: post) :: todo ->
  Forall (fun i => instId i <> instId x) (flat_map children done) /\
  Forall (fun i => instId i <> instId x) pre.
Proof.
  intros Hu Hbs. unfold uniqueIds in Hu. rewrite Hbs in Hu.
  rewrite flat_map_app in Hu. cbn in Hu.
  repeat rewrite map_app in Hu. cbn [map] in Hu.
  rewrite <- app_assoc in Hu. cbn [app] in Hu. rewrite app_assoc in Hu.
  apply NoDup_app_cons_not_in in Hu. destruct Hu as [Hleft _].
  split; apply not_in_map_ids; intros Hin; apply Hleft; apply in_or_app;
    [left | right]; exact Hin.
Qed.

Lemma emitted_ids_fresh b st st' new (x : IRInst) :
  emitted b st st' new -> instId x < nextInstId st ->
  Forall (fun i => instId i <> instId x) new.
Proof.
  intros (_ & _ & Hids & _) Hx. apply Forall_forall. intros i Hi.
  assert (Hin : In (instId i) (seq (nextInstId st) (List.length new))).
  { rewrite <- Hids. apply in_map. exact Hi. }
  apply in_seq in Hin. lia.
Qed.

Lemma freshIds_block_inst (st : PassState) done pre x post todo :
  freshIds st ->
  stateBlocks st = done ++ mkIRBlock (pre ++ x :: post) :: todo ->
  instId x < nextInstId st.
Proof.
  intros Hf Hbs. apply freshIds_parts in Hf. destruct Hf as (_ & Fbl & _ & _).
  unfold stateBlocks in Hbs. rewrite Hbs in Fbl.
  rewrite flat_map_app in Fbl. cbn in Fbl.
  apply Forall_app in Fbl. destruct Fbl as [_ Fbl].
  apply Forall_app in Fbl. destruct Fbl as [Fbl _].
  apply Forall_app in Fbl. destruct Fbl as [_ Fbl].
  apply Forall_cons_iff in Fbl. apply Fbl.
Qed.

(** Instructions emitted before an instruction of a block go right
    before it. *)
Lemma emitted_before (st st' : PassState) done pre x post todo new :
  freshIds st -> uniqueIds st ->
  stateBlocks st = done ++ mkIRBlock (pre ++ x :: post) :: todo ->
  emitted (insertBeforeInst (instId x)) st st' new ->
  stateBlocks st' = done ++ mkIRBlock (pre ++ new ++ x :: post) :: todo.
Proof.
  intros Hf Hu Hbs He.
  destruct (uniqueIds_before st done pre x post todo Hu Hbs) as [H1 H2].
  pose proof (emitted_ids_fresh _ _ _ _ x He
                (freshIds_block_inst st done pre x post todo Hf Hbs)) as H3.
  destruct He as (_ & _ & _ & Hins).
  rewrite Hbs in Hins.
  rewrite (@insertAllAt_before (instId x) new done pre x post todo H1 H2 H3 eq_refl)
    in Hins.
  inversion Hins. reflexivity.
Qed.



Lemma replacePtr_not_old old new p :
  (forall id, old = InstRef id) \/ True ->
  new <> old ->
  (forall q, IRInstPtr_eqb q old = false -> q <> old) ->
  replacePtr old new p <> old.
Proof.
  intros _ Hne Hq. unfold replacePtr.
  destruct (IRInstPtr_eqb p old) eqn:E; [exact Hne | exact (Hq p E)].
Qed.

Lemma IRInstPtr_eqb_InstRef_false q id :
  IRInstPtr_eqb q (InstRef id) = false -> q <> InstRef id.
Proof.
  intros H E. subst q. cbn in H. rewrite Nat.eqb_refl in H. discriminate.
Qed.

Lemma replaceUsesWith_noUsesOf id new st u st' :
  new <> InstRef id ->
  replaceUsesWith (InstRef id) new st = OK (u, st') ->
  noUsesOf (InstRef id) st'.
Proof.
  intros Hne H. apply modify_OK in H. subst st'.
  unfold noUsesOf, allInsts. cbn. rewrite flat_map_mapInsts.
  assert (Hm : forall l, Forall (fun i => ~ In (InstRef id) (operands i))
                                (map (replaceInInst (InstRef id) new) l)).
  { intros l. rewrite Forall_map. apply Forall_forall. intros i _ Hin.
    cbn in Hin. apply in_map_iff in Hin. destruct Hin as (q & Eq & _).
    revert Eq. apply replacePtr_not_old; [right; exact I | exact Hne | ].
    intros q'. apply IRInstPtr_eqb_InstRef_false. }
  repeat rewrite Forall_app. repeat split; apply Hm.
Qed.


Lemma createdGlobals_unique st st' globals :
  createdGlobals st st' globals -> uniqueIds st -> uniqueIds st'.
Proof.
  intros (_ & _ & Hfn & _) Hu. unfold uniqueIds, stateBlocks. rewrite Hfn. exact Hu.
Qed.



(** ** Geometry-shader output streams *)

Lemma resolveCallee_reads fuel : forall callee st callee' st',
  resolveCallee fuel callee st = OK (callee', st') -> st' = st.
Proof.
  induction fuel as [ | fuel IH]; intros callee st callee' st' H; cbn [resolveCallee] in H.
  - discriminate.
  - destruct (op callee);
      try (apply ret_OK in H; destruct H as [_ H]; symmetry; exact H).
    + destruct (genericReturnVal callee) as [r | ].
      * apply bind_OK in H. destruct H as (c & s & Hd & H).
        apply derefM_OK in Hd. subst s. exact (IH _ _ _ _ H).
      * apply ret_OK in H. destruct H as [_ H]. symmetry. exact H.
    + destruct (getOperand callee 0) as [p | ]; [ | discriminate].
      apply bind_OK in H. destruct H as (c & s & Hd & H).
      apply derefM_OK in Hd. subst s. exact (IH _ _ _ _ H).
Qed.

Lemma derefM_deref p st i st' :
  derefM p st = OK (i, st') -> deref (module st) p = Some i.
Proof.
  unfold derefM. destruct (deref (module st) p); intros H; inversion H. reflexivity.
Qed.

(** One instruction of the loop. *)
Lemma legalizeStreamOutputCall_cases globalOutputVal ii st st' :
  legalizeStreamOutputCall globalOutputVal ii st = OK (tt, st') ->
  (~ callsEmitVertex st ii /\ st' = st) \/
  (callsEmitVertex st ii /\
   exists arg,
     getOperand ii 2 = Some arg /\
     assign (insertBeforeInst (instId ii)) globalOutputVal (value arg)
            (stateAfter (setInsertBefore (Some ii)) st) = OK (tt, st')).
Proof.
  intros H. unfold legalizeStreamOutputCall in H.
  destruct (IROp_eqb (op ii) kIROp_Call) eqn:Ecall; cbn [negb] in H.
  2:{ apply ret_OK in H. destruct H as [_ <-]. left. split; [ | reflexivity].
      intros [Hop _]. apply IROp_eqb_neq in Ecall. contradiction. }
  apply IROp_eqb_eq in Ecall.
  destruct (getOperand ii 0) as [calleePtr | ] eqn:E0; [ | discriminate].
  apply bind_OK in H. destruct H as (callee0 & s0 & Hd & H).
  pose proof (derefM_deref _ _ _ _ Hd) as Hderef.
  apply derefM_OK in Hd. subst s0.
  apply bind_OK in H. destruct H as (fuel & s0 & Hfuel & H).
  unfold resolveCalleeFuel in Hfuel. inversion Hfuel; subst fuel s0. clear Hfuel.
  apply bind_OK in H. destruct H as (callee & s0 & Hres & H).
  pose proof (resolveCallee_reads _ _ _ _ _ Hres) as Es. subst s0.
  assert (Hunique : forall P : Prop,
             (op callee = kIROp_Func ->
              findTargetIntrinsicDecoration (decorations callee) "glsl"
              = Some "EmitVertex()"%string -> P) ->
             callsEmitVertex st ii -> P).
  { intros P HP (_ & p' & c0' & c' & Ep & Ed & Er & Hf & Hd).
    rewrite E0 in Ep. inversion Ep; subst p'.
    rewrite Hderef in Ed. inversion Ed; subst c0'.
    rewrite Hres in Er. inversion Er; subst c'.
    exact (HP Hf Hd). }
  destruct (IROp_eqb (op callee) kIROp_Func) eqn:Efunc; cbn [negb] in H.
  2:{ apply ret_OK in H. destruct H as [_ <-]. left. split; [ | reflexivity].
      intros Hc. apply (Hunique False); [ | exact Hc]. intros Hf _. apply IROp_eqb_neq in Efunc. contradiction. }
  apply IROp_eqb_eq in Efunc.
  destruct (findTargetIntrinsicDecoration (decorations callee) "glsl") as [def | ] eqn:Edef.
  2:{ apply ret_OK in H. destruct H as [_ <-]. left. split; [ | reflexivity].
      intros Hc. apply (Hunique False); [ | exact Hc]. intros _ Hd. discriminate. }
  destruct (String.eqb def "EmitVertex()") eqn:Eev; cbn [negb] in H.
  2:{ apply ret_OK in H. destruct H as [_ <-]. left. split; [ | reflexivity].
      intros Hc. apply (Hunique False); [ | exact Hc]. intros _ Hd. inversion Hd; subst def.
      rewrite String.eqb_refl in Eev. discriminate. }
  apply String.eqb_eq in Eev. subst def.
  right. split.
  - split; [exact Ecall | ].
    exists calleePtr, callee0, callee. repeat split; assumption.
  - apply bind_OK in H. destruct H as (u & s1 & Hset & H).
    apply bind_OK in H. destruct H as (b & s1' & Hb & H).
    unfold getBuilder in Hb. inversion Hb; subst b s1'. clear Hb.
    destruct (getOperand ii 2) as [arg | ]; [ | discriminate].
    exists arg. split; [reflexivity | ].
    unfold stateAfter. rewrite Hset.
    cbn in Hset. apply modify_OK in Hset. subst s1. exact H.
Qed.

Lemma streamCalls_insts globalOutputVal done todo :
  forall todoI doneI st st',
    stateBlocks st = done ++ mkIRBlock (doneI ++ todoI) :: todo ->
    freshIds st -> uniqueIds st ->
    forEach (legalizeStreamOutputCall globalOutputVal) todoI st = OK (tt, st') ->
    exists todoI',
      stateBlocks st' = done ++ mkIRBlock (doneI ++ todoI') :: todo /\
      streamCallsAssigned globalOutputVal st todoI st' todoI' /\
      freshIds st' /\ uniqueIds st' /\ nextInstId st <= nextInstId st'.
Proof.
  induction todoI as [ | ii todoI IH]; intros doneI st st' Hbs Hf Hu H.
  - cbn in H. apply ret_OK in H. destruct H as [_ <-].
    exists []. split; [exact Hbs | ]. split; [constructor | ].
    split; [assumption | ]. split; [assumption | lia].
  - cbn [forEach] in H.
    apply bind_OK in H. destruct H as (u & st1 & Hstep & H). destruct u.
    apply legalizeStreamOutputCall_cases in Hstep.
    destruct Hstep as [[Hno ->] | [Hyes (arg & Earg & Hassign)] ].
    + assert (Hbs' : stateBlocks st = done ++ mkIRBlock ((doneI ++ [ii]) ++ todoI) :: todo)
        by (rewrite <- app_assoc; exact Hbs).
      destruct (IH _ _ _ Hbs' Hf Hu H) as (todoI' & Hbs1 & Hr & Hf' & Hu' & Hn').
      exists (ii :: todoI'). rewrite <- app_assoc in Hbs1.
      split; [exact Hbs1 | ].
      split; [exact (@streamCalls_other globalOutputVal st st' ii _ _ Hno Hr) | ].
      split; [assumption | ]. split; assumption.
    + set (s0 := stateAfter (setInsertBefore (Some ii)) st) in *.
      assert (Hf0 : freshIds s0) by exact Hf.
      assert (Hu0 : uniqueIds s0) by exact Hu.
      assert (Hbs0 : stateBlocks s0 = done ++ mkIRBlock (doneI ++ ii :: todoI) :: todo)
        by exact Hbs.
      destruct (emits_assign _ _ _ _ Hassign) as (new & He & _).
      pose proof (emitted_before s0 st1 done doneI ii todoI todo new Hf0 Hu0 Hbs0 He)
        as Hbs1.
      assert (Hbs1' : stateBlocks st1
                      = done ++ mkIRBlock ((doneI ++ new ++ [ii]) ++ todoI) :: todo).
      { rewrite Hbs1. repeat rewrite <- app_assoc. reflexivity. }
      destruct (IH _ _ _ Hbs1' (emitted_fresh He Hf0) (emitted_unique He Hf0 Hu0) H)
        as (todoI' & Hbs2 & Hr & Hf' & Hu' & Hn').
      exists (new ++ ii :: todoI').
      split; [rewrite Hbs2; repeat rewrite <- app_assoc; reflexivity | ].
      split; [ | split; [assumption | split; [assumption | ] ] ].
      2:{ destruct He as (_ & Hn & _). change (nextInstId s0) with (nextInstId st) in Hn.
          lia. }
      exact (@streamCalls_emitVertex globalOutputVal st st1 st' ii arg new _ _
               Hyes Earg Hassign He Hr).
Qed.

Lemma streamCalls_blocks globalOutputVal : forall todo done st st',
  stateBlocks st = done ++ todo ->
  freshIds st -> uniqueIds st ->
  forEach (fun blockIndex =>
             bb <- getBlock blockIndex ;;
             forEach (legalizeStreamOutputCall globalOutputVal) (children bb))
          (seq (List.length done) (List.length todo)) st = OK (tt, st') ->
  exists todo',
    stateBlocks st' = done ++ todo' /\
    streamBlocksAssigned globalOutputVal st todo st' todo' /\
    freshIds st' /\ uniqueIds st' /\ nextInstId st <= nextInstId st'.
Proof.
  induction todo as [ | b todo IH]; intros done st st' Hbs Hf Hu H.
  - cbn in H. apply ret_OK in H. destruct H as [_ <-].
    exists []. split; [exact Hbs | ]. split; [constructor | ].
    split; [assumption | ]. split; [assumption | lia].
  - cbn [List.length seq forEach] in H.
    apply bind_OK in H. destruct H as (u & st1 & Hbody & H).
    apply bind_OK in Hbody. destruct Hbody as (bb & st0 & Hget & Hrw).
    rewrite (getBlock_at _ _ _ _ Hbs) in Hget. inversion Hget; subst bb st0. clear Hget.
    destruct u. destruct b as [c].
    destruct (streamCalls_insts globalOutputVal done todo c [] st st1 Hbs Hf Hu Hrw)
      as (c' & Hbs1 & Hr & Hf1 & Hu1 & Hn1).
    cbn [app] in Hbs1.
    assert (Hbs1' : stateBlocks st1 = (done ++ [mkIRBlock c']) ++ todo)
      by (rewrite <- app_assoc; exact Hbs1).
    replace (S (List.length done)) with (List.length (done ++ [mkIRBlock c'])) in H
      by (rewrite length_app; cbn; lia).
    destruct (IH _ _ _ Hbs1' Hf1 Hu1 H) as (todo' & Hbs' & Hrs & Hf' & Hu' & Hn').
    exists (mkIRBlock c' :: todo').
    rewrite <- app_assoc in Hbs'. cbn in Hbs'.
    split; [exact Hbs' | ].
    split; [exact (@streamBlocks_cons globalOutputVal st st1 st' (mkIRBlock c)
                     (mkIRBlock c') todo todo' Hr Hrs) | ].
    split; [assumption | ]. split; [assumption | lia].
Qed.

(** At a call of [EmitVertex()] the loop has no choice: the instructions
    of the assignment are what it puts before the call. *)
Lemma streamCallsAssigned_at_call globalOutputVal st ii l st' l' :
  callsEmitVertex st ii ->
  streamCallsAssigned globalOutputVal st (ii :: l) st' l' ->
  exists arg st1 new rest,
    getOperand ii 2 = Some arg /\
    assign (insertBeforeInst (instId ii)) globalOutputVal (value arg)
           (stateAfter (setInsertBefore (Some ii)) st) = OK (tt, st1) /\
    emitted (insertBeforeInst (instId ii))
            (stateAfter (setInsertBefore (Some ii)) st) st1 new /\
    l' = new ++ ii :: rest /\
    streamCallsAssigned globalOutputVal st1 l st' rest.
Proof.
  intros Hcall H.
  inversion H as [ | s s' i r r' Hno Hrest | s s1 s' i arg new r r' _ Harg Hassign Hnew Hrest];
    subst; [contradiction | ].
  exists arg, s1, new, r'.
  split; [exact Harg | ]. split; [exact Hassign | ]. split; [exact Hnew | ].
  split; [reflexivity | exact Hrest].
Qed.

(** C7. For a parameter whose type is an output pointer to a
    geometry-shader output stream: the output varying of the stream is
    created; then, block after block and instruction after instruction,
    from the state the materializer has left: before each call whose
    callee behind the [specialize] and [generic] wrappers is, in the
    state the loop is in, a function with the [glsl] target intrinsic
    [EmitVertex()], the instructions are inserted that assign operand 2
    of the call to the output varying, every other instruction staying
    as it is; afterwards an undefined
    value of the type of the parameter is made before the first ordinary
    instruction of the first block and every use of the parameter is
    replaced by it, so that no use of the parameter is left. *)
Theorem legalizeEntryPointParameterForGLSL_stream
        (pp : IRInst) (paramLayout : VarLayout) (ptrOp : PtrOp)
        (streamOp : StreamOp) (elementType : IRType) (st st' : PassState) :
  freshIds st -> uniqueIds st ->
  instId pp < nextInstId st ->
  dataType pp = IRPtrTypeBase ptrOp (IRHLSLStreamOutputType streamOp elementType) ->
  ptrOp = kIROp_OutType \/ ptrOp = kIROp_InOutType ->
  legalizeEntryPointParameterForGLSL pp paramLayout st = OK (tt, st') ->
  exists globalOutputVal st1 st2 firstBlock first st3,
    createGLSLGlobalVaryings (IRHLSLStreamOutputType streamOp elementType) paramLayout
      LayoutResourceKind_VaryingOutput (contextStage st) st = OK (globalOutputVal, st1) /\
    streamBlocksAssigned globalOutputVal st1 (stateBlocks st1) st2 (stateBlocks st2) /\
    hd_error (stateBlocks st2) = Some firstBlock /\
    getFirstOrdinaryInst firstBlock = Some first /\
    emitted (insertBeforeInst (instId first))
            (stateAfter (setInsertBefore (Some first)) st2) st3
            [mkIRInst (nextInstId st2) kIROp_undefined (dataType pp) [] [] None] /\
    replaceUsesWith (InstRef (instId pp)) (InstRef (nextInstId st2)) st3 = OK (tt, st') /\
    noUsesOf (InstRef (instId pp)) st'.
Proof.
  intros Hf Hu Hpp Hty Hop H.
  unfold legalizeEntryPointParameterForGLSL in H.
  apply bind_OK in H. destruct H as (stage' & st0 & Hstage & H).
  unfold getStage in Hstage. inversion Hstage; subst stage' st0. clear Hstage.
  rewrite Hty in H.
  assert (Has : asOutTypeBase (IRPtrTypeBase ptrOp
                                 (IRHLSLStreamOutputType streamOp elementType))
                = Some (ptrOp, IRHLSLStreamOutputType streamOp elementType))
    by (destruct Hop; subst ptrOp; reflexivity).
  rewrite Has in H.
  apply bind_OK in H. destruct H as (gout & st1 & Hout & H).
  apply bind_OK in H. destruct H as (u & st2 & Hloop & H). destruct u.
  apply bind_OK in H. destruct H as (firstBlock & s & Hfirst & H).
  apply bind_OK in H. destruct H as (u & s2 & Hset & H). destruct u.
  apply bind_OK in H. destruct H as (b & s3 & Hb & H).
  apply bind_OK in H. destruct H as (undefinedVal & st3 & Hundef & H).
  destruct (createGLSLGlobalVaryings_createdGlobals _ _ _ _ Hf Hout)
    as (globals & Hc).
  pose proof (createdGlobals_fresh Hc Hf) as Hf1.
  pose proof (createdGlobals_unique st st1 globals Hc Hu) as Hu1.
  unfold forEachBlock in Hloop.
  apply bind_OK in Hloop. destruct Hloop as (n & s0 & Hn & Hloop).
  unfold blockCount, bind, getFunc, ret in Hn. inversion Hn; subst n s0. clear Hn.
  destruct (streamCalls_blocks gout (stateBlocks st1) [] st1 st2 eq_refl Hf1 Hu1 Hloop)
    as (todo' & Hbs & Hr & Hf2 & Hu2 & Hn2).
  cbn [app] in Hbs.
  unfold getBlock, bind, getFunc in Hfirst.
  destruct (nth_error (blocks (moduleFunc (module st2))) 0) as [fb | ] eqn:Efb;
    [ | discriminate].
  inversion Hfirst; subst fb s. clear Hfirst.
  destruct (getFirstOrdinaryInst firstBlock) as [first | ] eqn:Efirst; [ | discriminate].
  unfold getBuilder in Hb. inversion Hb; subst b s3. clear Hb.
  assert (Es2 : s2 = stateAfter (setInsertBefore (Some first)) st2)
    by (unfold stateAfter; rewrite Hset; reflexivity).
  assert (Ecb : contextBuilder s2 = insertBeforeInst (instId first)).
  { cbn in Hset. apply modify_OK in Hset. subst s2. reflexivity. }
  assert (En : nextInstId s2 = nextInstId st2).
  { cbn in Hset. apply modify_OK in Hset. subst s2. reflexivity. }
  rewrite Ecb in Hundef.
  apply emitInst_emitted in Hundef. destruct Hundef as [-> Hundef].
  rewrite En in Hundef, H. rewrite Es2 in Hundef.
  exists gout, st1, st2, firstBlock, first, st3.
  split; [exact Hout | ].
  split; [rewrite Hbs; exact Hr | ].
  split; [unfold stateBlocks; destruct (blocks (moduleFunc (module st2)));
          [discriminate | exact Efb] | ].
  split; [exact Efirst | ].
  split; [rewrite Hty; exact Hundef | ].
  split; [exact H | ].
  apply (replaceUsesWith_noUsesOf (instId pp) (InstRef (nextInstId st2)) st3 tt st');
    [ | exact H].
  intros E. inversion E.
  destruct Hc as (_ & _ & _ & _ & _ & Hn1 & _). lia.
Qed.

Ltac exampleLoopFresh :=
  split; [cbn; repeat constructor; cbn; lia | cbn; lia].


Lemma legalizeEntryPointParameterForGLSL_stream_witness :
  let st := inParameterLoop Stage_Geometry 2 geometryEntryPoint in
  let st' := stateAfter (legalizeEntryPointParameterForGLSL streamParam streamLayout) st in
  (exists globalOutputVal st1 st2 firstBlock first st3,
      createGLSLGlobalVaryings streamType streamLayout
        LayoutResourceKind_VaryingOutput Stage_Geometry st = OK (globalOutputVal, st1) /\
      streamBlocksAssigned globalOutputVal st1 (stateBlocks st1) st2 (stateBlocks st2) /\
      hd_error (stateBlocks st2) = Some firstBlock /\
      getFirstOrdinaryInst firstBlock = Some first /\
      emitted (insertBeforeInst (instId first))
              (stateAfter (setInsertBefore (Some first)) st2) st3
              [mkIRInst (nextInstId st2) kIROp_undefined
                        (IRPtrTypeBase kIROp_InOutType streamType) [] [] None] /\
      replaceUsesWith (InstRef 1) (InstRef (nextInstId st2)) st3 = OK (tt, st') /\
      noUsesOf (InstRef 1) st') /\
  map (fun b => map (fun i => (instId i, op i, operands i)) (children b)) (stateBlocks st') =
    [[(1%nat, kIROp_Param, []);
      (1006%nat, kIROp_undefined, []);
      (2%nat, kIROp_Other 0, []);
      (1002%nat, kIROp_FieldExtract, [InstRef 2; StructKeyRef 1]);
      (1003%nat, kIROp_Store, [InstRef 1000; InstRef 1002]);
      (1004%nat, kIROp_FieldExtract, [InstRef 2; StructKeyRef 2]);
      (1005%nat, kIROp_Store, [InstRef 1001; InstRef 1004]);
      (3%nat, kIROp_Call, [InstRef 12; InstRef 1006; InstRef 2]);
      (4%nat, kIROp_Call, [InstRef 13; InstRef 1006; InstRef 2]);
      (5%nat, kIROp_ReturnVoid, [])]].
Proof.
  split; [ | vm_compute; reflexivity].
  apply (legalizeEntryPointParameterForGLSL_stream streamParam streamLayout
           kIROp_InOutType kIROp_HLSLTriangleStreamType fooType
           (inParameterLoop Stage_Geometry 2 geometryEntryPoint)
           (stateAfter (legalizeEntryPointParameterForGLSL streamParam streamLayout)
                       (inParameterLoop Stage_Geometry 2 geometryEntryPoint))).
  - exampleLoopFresh.
  - exampleUnique.
  - cbn. lia.
  - reflexivity.
  - right. reflexivity.
  - vm_compute. reflexivity.
Defined.

(** ** Type adapters *)

Lemma emitLoad_emitted b p st r st' :
  emitLoad b p st = OK (r, st') ->
  r = InstRef (nextInstId st) /\
  exists t, emitted b st st' [mkIRInst (nextInstId st) kIROp_Load t [p] [] None].
Proof.
  intros H. unfold emitLoad in H.
  apply bind_OK in H. destruct H as (t & s & Ht & H).
  unfold getDataType in Ht.
  apply bind_OK in Ht. destruct Ht as (i & s0 & Hd & Ht).
  apply derefM_OK in Hd. subst s0.
  apply ret_OK in Ht. destruct Ht as [_ <-].
  destruct t; try discriminate H.
  apply emitInst_emitted in H. destruct H as [-> H].
  split; [reflexivity | eexists; exact H].
Qed.

(** Reading a value or an address makes no conversion. *)
Lemma materializeValue_leaf b x v st src st' :
  v = value x \/ v = address x ->
  materializeValue b v st = OK (src, st') ->
  exists pre, emitted b st st' pre /\ conversions pre = [].
Proof.
  intros [-> | ->] H.
  - change (ret x st = OK (src, st')) in H.
    apply ret_OK in H. destruct H as [_ <-].
    exists []. split; [apply emitted_refl | reflexivity].
  - change (emitLoad b x st = OK (src, st')) in H.
    apply emitLoad_emitted in H. destruct H as (_ & t & H).
    eexists. split; [exact H | reflexivity].
Qed.

Lemma conversions_app l1 l2 : conversions (l1 ++ l2) = conversions l1 ++ conversions l2.
Proof. apply filter_app. Qed.

(** Reading through an adapter of a value or an address: the inner
    value is read, then converted. *)
Lemma materializeValue_typeAdapter b x inner actualType pretendType st r st' :
  inner = value x \/ inner = address x ->
  materializeValue b (typeAdapter inner actualType pretendType) st = OK (r, st') ->
  exists src st1,
    materializeValue b inner st = OK (src, st1) /\
    emitConstructorInst b pretendType [src] st1 = OK (r, st').
Proof.
  intros [-> | ->] H.
  - change ((adapted <- adaptType b (value x) pretendType actualType ;;
             materializeValue_fuel 2 b adapted) st = OK (r, st')) in H.
    apply bind_OK in H. destruct H as (adapted & s1 & Ha & H).
    cbn [adaptType] in Ha. unfold adaptTypeInst in Ha.
    apply bind_OK in Ha. destruct Ha as (i & s2 & Hc & Ha).
    apply ret_OK in Ha. destruct Ha as [<- <-].
    cbn [materializeValue_fuel] in H. apply ret_OK in H. destruct H as [<- <-].
    exists x, st. split; [reflexivity | exact Hc].
  - change ((adapted <- adaptType b (address x) pretendType actualType ;;
             materializeValue_fuel 2 b adapted) st = OK (r, st')) in H.
    apply bind_OK in H. destruct H as (adapted & s1 & Ha & H).
    cbn [adaptType] in Ha.
    apply bind_OK in Ha. destruct Ha as (loaded & s0 & Hl & Ha).
    unfold adaptTypeInst in Ha.
    apply bind_OK in Ha. destruct Ha as (i & s2 & Hc & Ha).
    apply ret_OK in Ha. destruct Ha as [<- <-].
    cbn [materializeValue_fuel] in H. apply ret_OK in H. destruct H as [<- <-].
    exists loaded, s0. split; [exact Hl | exact Hc].
Qed.

(** Writing through an adapter of a value or an address: the right-hand
    side is read, converted, and the result is assigned to the inner
    value. *)
Lemma assign_typeAdapter b x inner actualType pretendType right st st' :
  inner = value x \/ inner = address x ->
  assign b (typeAdapter inner actualType pretendType) right st = OK (tt, st') ->
  exists y src st1 c st2,
    (right = value y \/ right = address y) /\
    materializeValue b right st = OK (src, st1) /\
    emitConstructorInst b actualType [src] st1 = OK (c, st2) /\
    assign b inner (value c) st2 = OK (tt, st').
Proof.
  intros Hin H.
  assert (Hsize : sizeOfVal inner = 1%nat) by (destruct Hin; subst inner; reflexivity).
  unfold assign in H. cbn [sizeOfVal] in H. rewrite Hsize in H.
  cbn [Nat.add assign_fuel] in H.
  apply bind_OK in H. destruct H as (adapted & s1 & Ha & H).
  destruct right as [ | y | y | ty es | v a p]; try discriminate Ha.
  - cbn [adaptType] in Ha. unfold adaptTypeInst in Ha.
    apply bind_OK in Ha. destruct Ha as (i & s2 & Hc & Ha).
    apply ret_OK in Ha. destruct Ha as [<- <-].
    exists y, y, st, i. eexists.
    split; [left; reflexivity | ]. split; [reflexivity | ]. split; [exact Hc | ].
    unfold assign. rewrite Hsize. exact H.
  - cbn [adaptType] in Ha.
    apply bind_OK in Ha. destruct Ha as (loaded & s0 & Hl & Ha).
    unfold adaptTypeInst in Ha.
    apply bind_OK in Ha. destruct Ha as (i & s2 & Hc & Ha).
    apply ret_OK in Ha. destruct Ha as [<- <-].
    exists y, loaded, s0, i. eexists.
    split; [right; reflexivity | ]. split; [exact Hl | ]. split; [exact Hc | ].
    unfold assign. rewrite Hsize. exact H.
Qed.

(** Assigning a value to a value or an address makes no conversion. *)
Lemma assign_leaf_value b x inner c st st' :
  inner = value x \/ inner = address x ->
  assign b inner (value c) st = OK (tt, st') ->
  exists post, emitted b st st' post /\ conversions post = [].
Proof.
  intros [-> | ->] H.
  - discriminate H.
  - change ((emitStore b x c ;; ret tt) st = OK (tt, st')) in H.
    apply bind_OK in H. destruct H as (i & s1 & Hs & H).
    apply ret_OK in H. destruct H as [_ <-].
    apply emitInst_emitted in Hs. destruct Hs as [_ Hs].
    eexists. split; [exact Hs | reflexivity].
Qed.

(** C4. A leaf whose system value has a required type other than the
    declared type comes back inside a type adapter whose actual type is
    the required type and whose pretend type is the declared type.  A
    read through that adapter reads the inner value and converts it to
    the pretend type: among the instructions emitted there is exactly one
    conversion, that one.  A write through it reads the right-hand side,
    converts it to the actual type and assigns the result to the inner
    value: among the instructions emitted there is exactly one
    conversion, that one. *)
Theorem typeAdapter_round_trip
        (inType : IRType) (vl : VarLayout) (tl : TypeLayout)
        (kind : LayoutResourceKind) (stage : Stage) (bindingIndex : Z)
        (declarator : list GlobalVaryingDeclarator) (st : PassState)
        (info : GLSLSystemValueInfo) (actualType : IRType) :
  freshIds st ->
  fst (resolveSystemValue vl kind stage st) = Some info ->
  requiredType info = Some actualType ->
  isTypeEqual actualType inType = false ->
  let inner := leafRef (nextInstId st) kind in
  let adapter := typeAdapter inner actualType inType in
  (exists st',
     createSimpleGLSLGlobalVarying inType vl tl kind stage bindingIndex declarator st
     = OK (adapter, st')) /\
  (forall builder s r s',
     materializeValue builder adapter s = OK (r, s') ->
     exists src s1 new,
       materializeValue builder inner s = OK (src, s1) /\
       emitConstructorInst builder inType [src] s1 = OK (r, s') /\
       r = InstRef (nextInstId s1) /\
       emitted builder s s' new /\
       conversions new = [conversion (nextInstId s1) inType src]) /\
  (forall builder right s s',
     assign builder adapter right s = OK (tt, s') ->
     exists src s1 s2 new,
       materializeValue builder right s = OK (src, s1) /\
       emitConstructorInst builder actualType [src] s1
       = OK (InstRef (nextInstId s1), s2) /\
       assign builder inner (value (InstRef (nextInstId s1))) s2 = OK (tt, s') /\
       emitted builder s s' new /\
       conversions new = [conversion (nextInstId s1) actualType src]).
Proof.
  intros Hf Hinfo Hreq Hne inner adapter.
  assert (Hleaf : inner = value (InstRef (nextInstId st))
                  \/ inner = address (InstRef (nextInstId st))).
  { unfold inner, leafRef. destruct (isOutputKind kind); [right | left]; reflexivity. }
  split; [ | split].
  - eexists.
    rewrite (createSimpleGLSLGlobalVarying_spec inType vl tl kind stage bindingIndex
                                                declarator Hf).
    rewrite Hinfo. unfold leafVal, needsTypeAdapter. rewrite Hreq, Hne. reflexivity.
  - intros builder s r s' H.
    destruct (materializeValue_typeAdapter builder _ inner actualType inType s r s'
                Hleaf H) as (src & s1 & Hread & Hconv).
    destruct (materializeValue_leaf builder _ inner s src s1 Hleaf Hread)
      as (pre & Hpre & Hnone).
    pose proof Hconv as Hc.
    apply emitInst_emitted in Hc. destruct Hc as [-> Hc].
    exists src, s1, (pre ++ [conversion (nextInstId s1) inType src]).
    split; [exact Hread | ]. split; [exact Hconv | ]. split; [reflexivity | ].
    split; [exact (emitted_trans Hpre Hc) | ].
    rewrite conversions_app, Hnone. reflexivity.
  - intros builder right s s' H.
    destruct (assign_typeAdapter builder _ inner actualType inType right s s' Hleaf H)
      as (y & src & s1 & c & s2 & Hright & Hread & Hconv & Hassign).
    destruct (materializeValue_leaf builder y right s src s1 Hright Hread)
      as (pre & Hpre & Hnone).
    pose proof Hconv as Hc.
    apply emitInst_emitted in Hc. destruct Hc as [-> Hc].
    destruct (assign_leaf_value builder _ inner _ s2 s' Hleaf Hassign)
      as (post & Hpost & Hnone').
    exists src, s1, s2, (pre ++ [conversion (nextInstId s1) actualType src] ++ post).
    split; [exact Hread | ]. split; [exact Hconv | ]. split; [exact Hassign | ].
    split; [exact (emitted_trans Hpre (emitted_trans Hc Hpost)) | ].
    rewrite conversions_app, conversions_app, Hnone, Hnone'. reflexivity.
Qed.

Lemma typeAdapter_round_trip_witness :
  let st := inParameterLoop Stage_Vertex 2 instanceIdEntryPoint in
  let uintType := IRBasicType BaseType_UInt in
  let intType := IRBasicType BaseType_Int in
  let inner := address (InstRef 1000) in
  let adapter := typeAdapter inner intType uintType in
  (exists st',
     createSimpleGLSLGlobalVarying uintType instanceIdLayout exampleTypeLayout
       LayoutResourceKind_VaryingOutput Stage_Vertex 0 [] st = OK (adapter, st')) /\
  (forall builder s r s',
     materializeValue builder adapter s = OK (r, s') ->
     exists src s1 new,
       materializeValue builder inner s = OK (src, s1) /\
       emitConstructorInst builder uintType [src] s1 = OK (r, s') /\
       r = InstRef (nextInstId s1) /\
       emitted builder s s' new /\
       conversions new = [conversion (nextInstId s1) uintType src]) /\
  (forall builder right s s',
     assign builder adapter right s = OK (tt, s') ->
     exists src s1 s2 new,
       materializeValue builder right s = OK (src, s1) /\
       emitConstructorInst builder intType [src] s1
       = OK (InstRef (nextInstId s1), s2) /\
       assign builder inner (value (InstRef (nextInstId s1))) s2 = OK (tt, s') /\
       emitted builder s s' new /\
       conversions new = [conversion (nextInstId s1) intType src]).
Proof.
  apply (typeAdapter_round_trip (IRBasicType BaseType_UInt) instanceIdLayout
           exampleTypeLayout LayoutResourceKind_VaryingOutput Stage_Vertex 0 []
           (inParameterLoop Stage_Vertex 2 instanceIdEntryPoint)
           (mkGLSLSystemValueInfo "gl_InstanceIndex" None
                                  (Some (IRBasicType BaseType_Int)))
           (IRBasicType BaseType_Int)).
  - exampleLoopFresh.
  - vm_compute. reflexivity.
  - reflexivity.
  - reflexivity.
Defined.

(** In the example, a read and a write through the adapter of the
    output [gl_InstanceIndex] return: the read loads the global and
    converts it to [uint]; the write converts the parameter to [int] and
    stores it. *)
Example typeAdapter_read_write_example :
  let st := stateAfter (createSimpleGLSLGlobalVarying (IRBasicType BaseType_UInt)
                          instanceIdLayout exampleTypeLayout
                          LayoutResourceKind_VaryingOutput Stage_Vertex 0 [])
                       (inParameterLoop Stage_Vertex 2 instanceIdEntryPoint) in
  let adapter := typeAdapter (address (InstRef 1000)) (IRBasicType BaseType_Int)
                             (IRBasicType BaseType_UInt) in
  (exists s', materializeValue (insertBeforeInst 2) adapter st = OK (InstRef 1002, s')) /\
  (exists s', assign (insertBeforeInst 2) adapter (value (InstRef 1)) st = OK (tt, s')).
Proof.
  split; eexists; vm_compute; reflexivity.
Qed.

(** In the geometry-shader example the call of [Append] is a call of
    [EmitVertex()], behind a [specialize] and a [generic]; the other call
    is not. *)
Example appendCall_callsEmitVertex :
  let st := inParameterLoop Stage_Geometry 2 geometryEntryPoint in
  callsEmitVertex st appendCall /\
  ~ callsEmitVertex st
      (mkIRInst 4 kIROp_Call IRVoidType [InstRef 13; InstRef 1; InstRef 2] [] None).
Proof.
  split.
  - split; [reflexivity | ].
    exists (InstRef 12),
           (mkIRInst 12 kIROp_Specialize IRVoidType [InstRef 11; InstRef 20] [] None),
           emitVertexFunc.
    repeat split; reflexivity.
  - intros (_ & p & c0 & c & Hp & Hd & Hr & _ & Hdef).
    inversion Hp; subst p. inversion Hd; subst c0.
    inversion Hr; subst c. discriminate Hdef.
Qed.

(** ** The bounds on the recursion are never reached *)

Lemma terminatesWith_ret {A} (a : A) (P : A -> Prop) : P a -> terminatesWith (ret a) P.
Proof. intros H st. exact H. Qed.

Lemma terminatesWith_abort {A} msg (P : A -> Prop) : terminatesWith (abort msg) P.
Proof. intros st. exact I. Qed.

Lemma terminatesWith_bind {A B} (m : M A) (k : A -> M B) (P : A -> Prop) (Q : B -> Prop) :
  terminatesWith m P -> (forall a, P a -> terminatesWith (k a) Q) ->
  terminatesWith (bind m k) Q.
Proof.
  intros Hm Hk st. unfold bind. specialize (Hm st).
  destruct (m st) as [[a st1] | msg | ]; [ | exact I | exact Hm].
  exact (Hk a Hm st1).
Qed.

Lemma terminatesWith_weaken {A} (m : M A) (P Q : A -> Prop) :
  terminatesWith m P -> (forall a, P a -> Q a) -> terminatesWith m Q.
Proof.
  intros Hm HPQ st. specialize (Hm st).
  destruct (m st) as [[a st1] | msg | ]; [apply HPQ; exact Hm | exact I | exact Hm].
Qed.

Lemma terminates_bind {A B} (m : M A) (k : A -> M B) :
  terminates m -> (forall a, terminates (k a)) -> terminates (bind m k).
Proof. intros Hm Hk. eapply terminatesWith_bind; [exact Hm | intros a _; apply Hk]. Qed.

Lemma terminates_emitInst b o t args : terminates (emitInst b o t args).
Proof.
  intros st. unfold emitInst, bind, freshId, insertInst, ret.
  cbn. destruct (insertAt b _ _); exact I.
Qed.

Lemma terminates_derefM p : terminates (derefM p).
Proof. intros st. unfold derefM. destruct (deref (module st) p); exact I. Qed.

Lemma terminates_getDataType p : terminates (getDataType p).
Proof.
  unfold getDataType. apply terminates_bind; [apply terminates_derefM | ].
  intros i. apply terminatesWith_ret. exact I.
Qed.

Lemma terminates_getFieldType t k : terminates (getFieldType t k).
Proof.
  unfold getFieldType. destruct t; try apply terminatesWith_abort.
  destruct (findFieldType fields k);
    [apply terminatesWith_ret; exact I | apply terminatesWith_abort].
Qed.

Lemma terminates_emitLoad b p : terminates (emitLoad b p).
Proof.
  unfold emitLoad. apply terminates_bind; [apply terminates_getDataType | ].
  intros t. destruct t; try apply terminatesWith_abort. apply terminates_emitInst.
Qed.

Lemma sizeOfVal_pos v : 1 <= sizeOfVal v.
Proof. destruct v; cbn; lia. Qed.

Lemma sizeOfVal_element ty es k e :
  In (k, e) es -> sizeOfVal e < sizeOfVal (tuple ty es).
Proof.
  cbn [sizeOfVal]. induction es as [ | [k' e'] es IH]; intros Hin; [contradiction | ].
  destruct Hin as [Heq | Hin].
  - inversion Heq; subst. lia.
  - specialize (IH Hin). lia.
Qed.

(** A field of a scalarized value is no larger than the value. *)
Lemma terminatesWith_extractField b v fieldIndex fieldKey :
  terminatesWith (extractField b v fieldIndex fieldKey)
                 (fun r => sizeOfVal r <= sizeOfVal v).
Proof.
  destruct v as [ | p | p | ty es | inner a pr]; cbn [extractField];
    try apply terminatesWith_abort.
  - eapply terminatesWith_bind; [apply terminates_getDataType | intros baseType _].
    eapply terminatesWith_bind; [apply terminates_getFieldType | intros fieldType _].
    eapply terminatesWith_bind; [apply terminates_emitInst | intros i _].
    apply terminatesWith_ret. cbn. lia.
  - eapply terminatesWith_bind; [apply terminates_getDataType | intros ptrType _].
    destruct ptrType; try apply terminatesWith_abort.
    eapply terminatesWith_bind; [apply terminates_getFieldType | intros fieldType _].
    eapply terminatesWith_bind; [apply terminates_emitInst | intros i _].
    apply terminatesWith_ret. cbn. lia.
  - destruct (nth_error es fieldIndex) as [[k e] | ] eqn:E;
      [ | apply terminatesWith_abort].
    apply terminatesWith_ret. apply nth_error_In in E.
    pose proof (sizeOfVal_element ty es k e E). lia.
Qed.

Lemma terminatesWith_adaptType b v toType fromType :
  terminatesWith (adaptType b v toType fromType) (fun r => exists i, r = value i).
Proof.
  destruct v as [ | p | p | ty es | inner a pr]; cbn [adaptType];
    try apply terminatesWith_abort; unfold adaptTypeInst.
  - eapply terminatesWith_bind; [apply terminates_emitInst | intros i _].
    apply terminatesWith_ret. exists i. reflexivity.
  - eapply terminatesWith_bind; [apply terminates_emitLoad | intros loaded _].
    eapply terminatesWith_bind; [apply terminates_emitInst | intros i _].
    apply terminatesWith_ret. exists i. reflexivity.
Qed.

Lemma terminates_forEachIndexed {A} (f : nat -> A -> M unit) : forall l ee,
  (forall n x, In x l -> terminates (f n x)) ->
  terminates (forEachIndexed f ee l).
Proof.
  induction l as [ | x l IH]; intros ee H; cbn [forEachIndexed].
  - apply terminatesWith_ret. exact I.
  - apply terminates_bind; [apply H; left; reflexivity | intros _].
    apply IH. intros n y Hy. apply H. right. exact Hy.
Qed.

Lemma terminates_assign_fuel b : forall fuel left right,
  sizeOfVal left + sizeOfVal right <= fuel ->
  terminates (assign_fuel fuel b left right).
Proof.
  induction fuel as [ | fuel IH]; intros left right Hsize.
  - pose proof (sizeOfVal_pos left). lia.
  - cbn [assign_fuel].
    destruct left as [ | p | p | ty es | inner a pr]; try apply terminatesWith_abort.
    + destruct right as [ | q | q | ty es | inner a pr]; try apply terminatesWith_abort.
      * apply terminates_bind; [apply terminates_emitInst | intros _].
        apply terminatesWith_ret. exact I.
      * apply terminates_bind; [apply terminates_emitLoad | intros val].
        apply terminates_bind; [apply terminates_emitInst | intros _].
        apply terminatesWith_ret. exact I.
      * apply terminates_forEachIndexed. intros n [k e] Hin. cbn [fst snd].
        eapply terminatesWith_bind; [apply terminatesWith_extractField | ].
        intros leftElementVal Hle. apply IH.
        pose proof (sizeOfVal_element ty es k e Hin).
        change (sizeOfVal (address p)) with 1%nat in *. cbv beta in Hle. lia.
    + apply terminates_forEachIndexed. intros n [k e] Hin. cbn [fst snd].
      eapply terminatesWith_bind; [apply terminatesWith_extractField | ].
      intros rightElementVal Hle. apply IH.
      pose proof (sizeOfVal_element ty es k e Hin). cbv beta in Hle. lia.
    + eapply terminatesWith_bind; [apply terminatesWith_adaptType | ].
      intros adaptedRight [i ->]. apply IH.
      pose proof (sizeOfVal_pos right). change (sizeOfVal (value i)) with 1%nat.
      change (sizeOfVal (typeAdapter inner a pr)) with (S (sizeOfVal inner)) in Hsize. lia.
Qed.

(** [assign] comes to an end on every pair of scalarized values. *)
Lemma terminates_assign b left right : terminates (assign b left right).
Proof. apply terminates_assign_fuel. lia. Qed.

Lemma typeSize_pos t : 1 <= typeSize t.
Proof. destruct t; cbn; lia. Qed.

Lemma typeSize_field nm fs f :
  In f fs -> typeSize (snd f) < typeSize (IRStructType nm fs).
Proof.
  cbn [typeSize]. induction fs as [ | [k t] fs IH]; intros Hin; [contradiction | ].
  destruct Hin as [<- | Hin].
  - cbn [snd]. lia.
  - specialize (IH Hin). lia.
Qed.

Lemma sizeOfVal_cons ty k e es :
  sizeOfVal (tuple ty ((k, e) :: es)) = sizeOfVal e + sizeOfVal (tuple ty es).
Proof. cbn [sizeOfVal]. lia. Qed.

Lemma maxTupleTypeSize_cons ty k e es :
  maxTupleTypeSize (tuple ty ((k, e) :: es))
  = Nat.max (maxTupleTypeSize e) (maxTupleTypeSize (tuple ty es)).
Proof. cbn [maxTupleTypeSize]. lia. Qed.

Lemma maxTupleTypeSize_nil ty : maxTupleTypeSize (tuple ty []) = typeSize ty.
Proof. cbn [maxTupleTypeSize]. lia. Qed.

Lemma tupleTypeSize_le_max v : tupleTypeSize v <= maxTupleTypeSize v.
Proof. destruct v; cbn [tupleTypeSize maxTupleTypeSize]; lia. Qed.

Lemma maxTupleTypeSize_element ty es k e :
  In (k, e) es -> maxTupleTypeSize e <= maxTupleTypeSize (tuple ty es).
Proof.
  induction es as [ | [k' e'] es IH]; intros Hin; [contradiction | ].
  rewrite maxTupleTypeSize_cons.
  destruct Hin as [Heq | Hin].
  - inversion Heq; subst. lia.
  - specialize (IH Hin). lia.
Qed.

Lemma maxTupleTypeSize_tuple_type ty es : typeSize ty <= maxTupleTypeSize (tuple ty es).
Proof. cbn [maxTupleTypeSize]. lia. Qed.

(** An element of a scalarized array is no larger than the array, and
    the types of its tuples are parts of the element type. *)
Lemma terminatesWith_getSubscriptVal b : forall v elementType indexVal,
  terminatesWith (getSubscriptVal b elementType v indexVal)
                 (fun r => sizeOfVal r <= sizeOfVal v /\
                           maxTupleTypeSize r <= typeSize elementType).
Proof.
  induction v as [ | p | p | ty es IH | inner a pr IH] using ScalarizedVal_nested_ind;
    intros elementType indexVal; cbn [getSubscriptVal];
    try apply terminatesWith_abort.
  - eapply terminatesWith_bind; [apply terminates_emitInst | intros i _].
    apply terminatesWith_ret. cbn. lia.
  - eapply terminatesWith_bind; [apply terminates_emitInst | intros i _].
    apply terminatesWith_ret. cbn. lia.
  - destruct elementType as [ | | | | | | nm fields | | | ];
      try apply terminatesWith_abort.
    pose proof (fun f => @typeSize_field nm fields f) as Hfields.
    set (bound := typeSize (IRStructType nm fields)) in *.
    eapply terminatesWith_bind with
      (P := fun rs => sizeOfVal (tuple IRVoidType rs) <= sizeOfVal (tuple IRVoidType es) /\
                      forall ty', maxTupleTypeSize (tuple ty' rs)
                                  <= Nat.max (typeSize ty') bound).
    + clearbody bound. revert fields Hfields.
      induction IH as [ | [k v] es Hv Hes IHes]; intros fields Hfields.
      * destruct fields; [ | apply terminatesWith_abort].
        apply terminatesWith_ret. split; [lia | ].
        intros ty'. rewrite maxTupleTypeSize_nil. lia.
      * destruct fields as [ | field fields]; [apply terminatesWith_abort | ].
        eapply terminatesWith_bind; [apply Hv | ].
        intros resultVal [Hs Hm].
        eapply terminatesWith_bind;
          [apply IHes; intros f Hf; apply Hfields; right; exact Hf | ].
        intros others [Hss Hms].
        apply terminatesWith_ret. cbn [snd] in Hs.
        pose proof (Hfields field (or_introl eq_refl)) as Hfield.
        unfold IRStructField_getFieldType in Hm.
        split.
        -- rewrite !sizeOfVal_cons. lia.
        -- intros ty'. rewrite maxTupleTypeSize_cons. specialize (Hms ty'). lia.
    + intros rs [Hs Hm]. apply terminatesWith_ret.
      split; [exact Hs | ].
      specialize (Hm (IRStructType nm fields)). fold bound in Hm. lia.
Qed.

Lemma terminates_mapM {A B} (f : A -> M B) : forall l,
  (forall x, In x l -> terminates (f x)) -> terminates (mapM f l).
Proof.
  induction l as [ | x l IH]; intros H; cbn [mapM].
  - apply terminatesWith_ret. exact I.
  - apply terminates_bind; [apply H; left; reflexivity | intros y].
    apply terminates_bind; [apply IH; intros z Hz; apply H; right; exact Hz | intros ys].
    apply terminatesWith_ret. exact I.
Qed.

Lemma terminates_materializeValue_fuel b : forall fuel v,
  sizeOfVal v * S (maxTupleTypeSize v) + tupleTypeSize v < fuel ->
  terminates (materializeValue_fuel fuel b v).
Proof.
  induction fuel as [ | fuel IH]; intros v Hfuel; [lia | ].
  cbn [materializeValue_fuel].
  destruct v as [ | p | p | ty es | inner a pr].
  - apply terminatesWith_abort.
  - apply terminatesWith_ret. exact I.
  - apply terminates_emitLoad.
  - assert (Helement : forall k e, In (k, e) es -> terminates (materializeValue_fuel fuel b e)).
    { intros k e Hin. apply IH.
      pose proof (sizeOfVal_element ty es k e Hin) as H1.
      pose proof (maxTupleTypeSize_element ty es k e Hin) as H2.
      pose proof (tupleTypeSize_le_max e) as H3.
      pose proof (tupleTypeSize_le_max (tuple ty es)) as H4.
      nia. }
    unfold materializeTupleValueWith.
    destruct ty as [ | | | | e count | | | | | ];
      try (apply terminates_bind;
           [apply terminates_mapM; intros [k e] Hin; exact (Helement k e Hin)
           | intros; apply terminates_emitInst]).
    apply terminates_bind; [ | intros; apply terminates_emitInst].
    apply terminates_mapM. intros ii _.
    eapply terminatesWith_bind; [apply terminatesWith_getSubscriptVal | ].
    intros r [Hs Hm]. apply IH.
    pose proof (tupleTypeSize_le_max r) as H3.
    pose proof (maxTupleTypeSize_tuple_type (IRArrayType e count) es) as H4.
    change (tupleTypeSize (tuple (IRArrayType e count) es)) with (S (typeSize e)) in Hfuel.
    change (typeSize (IRArrayType e count)) with (S (typeSize e)) in H4.
    nia.
  - eapply terminatesWith_bind; [apply terminatesWith_adaptType | ].
    intros adapted [i ->]. apply IH.
    change (sizeOfVal (typeAdapter inner a pr)) with (S (sizeOfVal inner)) in Hfuel.
    pose proof (sizeOfVal_pos inner).
    change (sizeOfVal (value i) * S (maxTupleTypeSize (value i)) + tupleTypeSize (value i))
      with 1%nat.
    nia.
Qed.

(** [materializeValue] comes to an end on every scalarized value. *)
Lemma terminates_materializeValue b v : terminates (materializeValue b v).
Proof. apply terminates_materializeValue_fuel. unfold materializeFuel. lia. Qed.

(** ** The callee loop *)

Lemma resolveCallee_OutOfFuel st : forall fuel callee,
  resolveCallee fuel callee st = OutOfFuel <->
  calleeAfter (module st) fuel callee <> None.
Proof.
  induction fuel as [ | fuel IH]; intros callee; cbn [resolveCallee calleeAfter].
  - split; [discriminate | reflexivity].
  - unfold nextCallee.
    destruct (op callee); try (split; [discriminate | intros H; contradiction H; reflexivity]).
    + destruct (genericReturnVal callee) as [p | ];
        [ | split; [discriminate | intros H; contradiction H; reflexivity] ].
      unfold bind, derefM. destruct (deref (module st) p) as [c | ].
      * apply IH.
      * split; [discriminate | intros H; contradiction H; reflexivity].
    + destruct (getOperand callee 0) as [p | ];
        [ | split; [discriminate | intros H; contradiction H; reflexivity] ].
      unfold bind, derefM. destruct (deref (module st) p) as [c | ].
      * apply IH.
      * split; [discriminate | intros H; contradiction H; reflexivity].
Qed.

Lemma calleeAfter_add m : forall a b callee,
  calleeAfter m (a + b) callee =
  match calleeAfter m a callee with
  | Some callee' => calleeAfter m b callee'
  | None => None
  end.
Proof.
  induction a as [ | a IH]; intros b callee; cbn [Nat.add calleeAfter]; [reflexivity | ].
  destruct (nextCallee callee) as [p | ]; [ | reflexivity].
  destruct (deref m p) as [c | ]; [apply IH | reflexivity].
Qed.

Lemma calleeAfter_prefix m a b callee :
  calleeAfter m (a + b) callee <> None -> calleeAfter m a callee <> None.
Proof.
  rewrite calleeAfter_add. destruct (calleeAfter m a callee); [discriminate | exact id].
Qed.

(** A callee from which the loop goes on, and which the loop came to,
    is the instruction of the module that has its identity. *)
Lemma deref_nextCallee m p callee q :
  deref m p = Some callee -> nextCallee callee = Some q ->
  In (instId callee) (map instId (allInsts m)) /\
  find (fun i => Nat.eqb (instId i) (instId callee)) (allInsts m) = Some callee.
Proof.
  intros Hd Hn. destruct p as [id | t v | k]; cbn [deref] in Hd.
  - unfold findInst in Hd.
    destruct (Nat.eqb id (funcId (moduleFunc m))).
    + inversion Hd; subst callee. discriminate Hn.
    + pose proof (find_some _ _ Hd) as [Hin Hid].
      apply Nat.eqb_eq in Hid. subst id.
      split; [apply in_map; exact Hin | exact Hd].
  - inversion Hd; subst callee. discriminate Hn.
  - inversion Hd; subst callee. discriminate Hn.
Qed.

Lemma calleeAfter_S_last m : forall k callee,
  calleeAfter m (S k) callee =
  match calleeAfter m k callee with
  | Some c =>
      match nextCallee c with
      | Some p => deref m p
      | None => None
      end
  | None => None
  end.
Proof.
  intros k callee. replace (S k) with (k + 1) by lia. rewrite calleeAfter_add.
  destruct (calleeAfter m k callee) as [c | ]; [ | reflexivity].
  cbn [calleeAfter]. destruct (nextCallee c) as [p | ]; [ | reflexivity].
  destruct (deref m p); reflexivity.
Qed.

(** Among more numbers than a list has, all in the list, two are equal. *)
Lemma two_equal_ids (f : nat -> nat) (ids : list nat) (n : nat) :
  List.length ids < n ->
  (forall i, i < n -> In (f i) ids) ->
  exists i j, i < j /\ j < n /\ f i = f j.
Proof.
  intros Hlen Hin.
  assert (Hdup : ~ NoDup (map f (seq 0 n))).
  { intros Hnd.
    assert (Hincl : incl (map f (seq 0 n)) ids).
    { intros x Hx. apply in_map_iff in Hx. destruct Hx as (i & <- & Hi).
      apply in_seq in Hi. apply Hin. lia. }
    pose proof (NoDup_incl_length Hnd Hincl) as Hle.
    rewrite length_map, length_seq in Hle. lia. }
  apply ListDec.not_NoDup in Hdup;
    [ | intros x y; unfold Decidable.decidable; lia].
  destruct Hdup as (a & l1 & l2 & l3 & E).
  exists (List.length l1), (S (List.length l1 + List.length l2)).
  assert (Hn : List.length (map f (seq 0 n)) = n) by (rewrite length_map, length_seq; reflexivity).
  rewrite E in Hn. rewrite length_app in Hn. cbn [List.length] in Hn.
  rewrite length_app in Hn. cbn [List.length] in Hn.
  split; [lia | ]. split; [lia | ].
  assert (H1 : nth_error (map f (seq 0 n)) (List.length l1) = Some a).
  { rewrite E. rewrite nth_error_app2 by lia. rewrite Nat.sub_diag. reflexivity. }
  assert (H2 : nth_error (map f (seq 0 n)) (S (List.length l1 + List.length l2)) = Some a).
  { rewrite E. rewrite nth_error_app2 by lia.
    replace (S (List.length l1 + List.length l2) - List.length l1)
      with (S (List.length l2)) by lia.
    cbn [nth_error]. rewrite nth_error_app2 by lia. rewrite Nat.sub_diag. reflexivity. }
  rewrite nth_error_map, nth_error_seq in H1, H2.
  destruct (Nat.ltb_spec (List.length l1) n); [ | lia].
  destruct (Nat.ltb_spec (S (List.length l1 + List.length l2)) n); [ | lia].
  cbn in H1, H2. inversion H1. inversion H2. congruence.
Qed.

(** When the loop makes more turns than the module has instructions, it
    makes any number of turns. *)
Lemma calleeAfter_cycle m callee :
  calleeAfter m (S (S (List.length (allInsts m)))) callee <> None ->
  forall turns, calleeAfter m turns callee <> None.
Proof.
  intros Hlong.
  set (n := S (List.length (allInsts m))) in *.
  assert (Hdef : forall k, k <= S n -> calleeAfter m k callee <> None).
  { intros k Hk. apply (calleeAfter_prefix m k (S n - k)).
    replace (k + (S n - k)) with (S n) by lia. exact Hlong. }
  set (f := fun i => match calleeAfter m (S i) callee with
                     | Some c => instId c
                     | None => O
                     end).
  assert (Hstep : forall i, i < n ->
            exists c, calleeAfter m (S i) callee = Some c /\
                      In (instId c) (map instId (allInsts m)) /\
                      find (fun x => Nat.eqb (instId x) (instId c)) (allInsts m) = Some c).
  { intros i Hi.
    pose proof (Hdef (S (S i)) ltac:(lia)) as Hnext.
    pose proof (Hdef (S i) ltac:(lia)) as Hhere.
    rewrite calleeAfter_S_last in Hnext.
    destruct (calleeAfter m (S i) callee) as [c | ] eqn:Ec; [ | contradiction Hhere; reflexivity].
    destruct (nextCallee c) as [q | ] eqn:Eq; [ | contradiction Hnext; reflexivity].
    rewrite calleeAfter_S_last in Ec.
    destruct (calleeAfter m i callee) as [c0 | ]; [ | discriminate Ec].
    destruct (nextCallee c0) as [p | ]; [ | discriminate Ec].
    exists c. split; [reflexivity | ].
    exact (deref_nextCallee m p c q Ec Eq). }
  destruct (two_equal_ids f (map instId (allInsts m)) n) as (i & j & Hij & Hj & Hsame).
  { rewrite length_map. unfold n. lia. }
  { intros i Hi. destruct (Hstep i Hi) as (c & Ec & Hin & _).
    unfold f. rewrite Ec. exact Hin. }
  destruct (Hstep i ltac:(lia)) as (ci & Eci & _ & Hfi).
  destruct (Hstep j Hj) as (cj & Ecj & _ & Hfj).
  unfold f in Hsame. rewrite Eci, Ecj in Hsame.
  rewrite Hsame in Hfi. rewrite Hfi in Hfj. inversion Hfj; subst cj. clear Hfj Hfi Hsame.
  set (d := j - i).
  assert (Hperiod : calleeAfter m d ci = Some ci).
  { replace (S j) with (S i + d) in Ecj by (unfold d; lia).
    rewrite calleeAfter_add, Eci in Ecj. exact Ecj. }
  assert (Hmany : forall k, calleeAfter m (k * d) ci = Some ci).
  { induction k as [ | k IHk]; [reflexivity | ].
    cbn [Nat.mul]. rewrite calleeAfter_add, Hperiod. exact IHk. }
  assert (Hci : forall k, calleeAfter m k ci <> None).
  { intros k. apply (calleeAfter_prefix m k (k * d - k)).
    replace (k + (k * d - k)) with (k * d) by (unfold d; nia).
    rewrite Hmany. discriminate. }
  intros turns.
  destruct (Nat.le_gt_cases turns (S i)) as [Hle | Hgt].
  - apply Hdef. lia.
  - replace turns with (S i + (turns - S i)) by lia.
    rewrite calleeAfter_add, Eci. apply Hci.
Qed.

(** The bound of the callee loop is reached only when the loop of the
    source does not end. *)
Lemma resolveCallee_adequate st callee :
  resolveCallee (S (S (List.length (allInsts (module st))))) callee st = OutOfFuel ->
  calleeLoopDiverges st callee.
Proof.
  intros H fuel. apply resolveCallee_OutOfFuel.
  apply calleeAfter_cycle. apply resolveCallee_OutOfFuel. exact H.
Qed.

(** ** The pass comes to an end *)

Lemma terminates_reads {A} (f : PassState -> A) : terminates (fun st => OK (f st, st)).
Proof. intros st. exact I. Qed.

Lemma terminates_modify f : terminates (modify f).
Proof. intros st. exact I. Qed.

Lemma terminates_getGLSLSystemValueInfo vl kind stage :
  terminates (getGLSLSystemValueInfo vl kind stage).
Proof.
  intros st. destruct (getGLSLSystemValueInfo_OK vl kind stage st) as (info & st' & H & _).
  rewrite H. exact I.
Qed.

Lemma terminates_addGlobalParam t : terminates (addGlobalParam t).
Proof. intros st. exact I. Qed.

Lemma terminates_moveValueBefore p : terminates (moveValueBefore p).
Proof.
  destruct p; try apply terminatesWith_abort.
  intros st. unfold moveValueBefore. destruct (find _ _); exact I.
Qed.

Lemma terminates_addDecoration p d : terminates (addDecoration p d).
Proof. destruct p; intros st; exact I. Qed.

Lemma terminates_replaceUsesWith old new : terminates (replaceUsesWith old new).
Proof. intros st. exact I. Qed.

Lemma terminates_getBlock n : terminates (getBlock n).
Proof.
  intros st. unfold getBlock, bind, getFunc.
  destruct (nth_error _ n); exact I.
Qed.

Lemma terminates_setInsertBefore i : terminates (setInsertBefore i).
Proof. destruct i; intros st; exact I. Qed.

Create HintDb terminates.
#[local] Hint Resolve terminates_emitInst terminates_derefM terminates_getDataType
  terminates_getFieldType terminates_emitLoad terminates_assign
  terminates_materializeValue terminates_reads terminates_modify
  terminates_getGLSLSystemValueInfo terminates_addGlobalParam
  terminates_moveValueBefore terminates_addDecoration terminates_replaceUsesWith
  terminates_getBlock terminates_setInsertBefore : terminates.

Ltac terminatesStep :=
  first
    [ solve [auto with terminates]
    | apply terminatesWith_ret; exact I
    | apply terminatesWith_abort
    | match goal with
      | |- terminates (match ?x with _ => _ end) => destruct x
      | |- terminates (if ?x then _ else _) => destruct x
      end
    | apply terminates_bind; [ | intros ] ].

Lemma terminates_createSimpleGLSLGlobalVarying inType vl tl kind stage bi decl :
  terminates (createSimpleGLSLGlobalVarying inType vl tl kind stage bi decl).
Proof.
  unfold createSimpleGLSLGlobalVarying.
  apply terminates_bind; [auto with terminates | intros systemValueInfo].
  destruct (fold_left _ decl _) as [type typeLayout].
  repeat terminatesStep.
Qed.

Lemma terminates_createGLSLGlobalVaryingsImpl kind stage :
  forall type vl tl bi decl,
    terminates (createGLSLGlobalVaryingsImpl type vl tl kind stage bi decl).
Proof.
  induction type as [ | b | e n IHtype | e r c IHtype | e n IHtype | o e IHtype
                     | nm fs IHfs | o v0 IHtype | ps r IHps IHr | n]
    using IRType_nested_ind; intros vl tl bi decl;
    try apply terminates_createSimpleGLSLGlobalVarying.
  - apply terminatesWith_ret. exact I.
  - cbn [createGLSLGlobalVaryingsImpl].
    destruct (TypeLayout_shape tl); try apply terminatesWith_abort. apply IHtype.
  - cbn [createGLSLGlobalVaryingsImpl].
    destruct (TypeLayout_shape tl); try apply terminatesWith_abort. apply IHtype.
  - rewrite createGLSLGlobalVaryingsImpl_struct.
    destruct (TypeLayout_shape tl) as [ | | | fieldLayouts];
      try apply terminatesWith_abort.
    apply terminates_bind; [ | intros; apply terminatesWith_ret; exact I].
    generalize 0%nat as counter.
    induction IHfs as [ | [key fieldType] fs Hfield Hfs IH]; intros counter.
    + apply terminatesWith_ret. exact I.
    + cbn [createFields].
      destruct (nth_error fieldLayouts counter) as [fl | ];
        [ | apply terminatesWith_abort].
      apply terminates_bind; [apply Hfield | intros fieldVal].
      apply terminates_bind; [apply IH | intros others].
      apply terminatesWith_ret. exact I.
Qed.

Lemma terminates_createGLSLGlobalVaryings type layout kind stage :
  terminates (createGLSLGlobalVaryings type layout kind stage).
Proof. apply terminates_createGLSLGlobalVaryingsImpl. Qed.

Lemma terminates_forEach {A} (f : A -> M unit) : forall l,
  (forall x, terminates (f x)) -> terminates (forEach f l).
Proof.
  induction l as [ | x l IH]; intros H; cbn [forEach].
  - apply terminatesWith_ret. exact I.
  - apply terminates_bind; [apply H | intros _; apply IH; exact H].
Qed.

Lemma terminates_forEachBlock body :
  (forall n bb, terminates (body n bb)) -> terminates (forEachBlock body).
Proof.
  intros H. unfold forEachBlock.
  apply terminates_bind; [intros st; exact I | intros n].
  apply terminates_forEach. intros blockIndex.
  apply terminates_bind; [apply terminates_getBlock | intros bb; apply H].
Qed.

Lemma terminates_assignBeforeReturn globalOutputVal localVal bb :
  terminates (assignBeforeReturn globalOutputVal localVal bb).
Proof. unfold assignBeforeReturn. repeat terminatesStep. Qed.

Lemma terminates_legalizeRayTracing pp paramLayout :
  terminates (legalizeRayTracingEntryPointParameterForGLSL pp paramLayout).
Proof.
  unfold legalizeRayTracingEntryPointParameterForGLSL.
  apply terminates_bind; [apply terminates_addGlobalParam | intros globalParam].
  apply terminates_bind; [apply terminates_addDecoration | intros _].
  apply terminates_bind; [apply terminates_moveValueBefore | intros _].
  apply terminates_bind; [apply terminates_replaceUsesWith | intros _].
  apply terminates_bind; [intros st; exact I | intros func].
  apply terminates_addDecoration.
Qed.

Lemma terminates_rewriteReturnVal resultGlobal blockIndex : forall insts,
  terminates (rewriteReturnVal resultGlobal blockIndex insts).
Proof.
  induction insts as [ | ii rest IH]; cbn [rewriteReturnVal].
  - apply terminatesWith_ret. exact I.
  - destruct (negb (IROp_eqb (op ii) kIROp_ReturnVal)); [exact IH | ].
    destruct (getOperand ii 0); [ | apply terminatesWith_abort].
    apply terminates_bind; [intros st; exact I | intros _].
    apply terminates_bind; [intros st; exact I | intros builder].
    apply terminates_bind; [apply terminates_assign | intros _].
    apply terminates_bind; [apply terminates_emitInst | intros returnVoid].
    apply terminates_bind; [intros st; exact I | intros _].
    apply terminatesWith_ret. exact I.
Qed.

Lemma terminatesUnless_terminates {A} (m : M A) :
  terminates m -> terminatesUnlessCalleeLoop m.
Proof. intros H st E. specialize (H st). rewrite E in H. contradiction. Qed.

Lemma terminatesUnless_bind {A B} (m : M A) (k : A -> M B) :
  terminatesUnlessCalleeLoop m -> (forall a, terminatesUnlessCalleeLoop (k a)) ->
  terminatesUnlessCalleeLoop (bind m k).
Proof.
  intros Hm Hk st E. unfold bind in E.
  destruct (m st) as [[a st1] | msg | ] eqn:Em.
  - exact (Hk a st1 E).
  - discriminate E.
  - exact (Hm st Em).
Qed.

Lemma bind_OutOfFuel {A B} (m : M A) (k : A -> M B) st :
  bind m k st = OutOfFuel ->
  m st = OutOfFuel \/ exists a st1, m st = OK (a, st1) /\ k a st1 = OutOfFuel.
Proof.
  unfold bind. destruct (m st) as [[a st1] | msg | ]; intros H.
  - right. exists a, st1. split; [reflexivity | exact H].
  - discriminate H.
  - left. reflexivity.
Qed.

Lemma terminatesUnless_forEach {A} (f : A -> M unit) : forall l,
  (forall x, terminatesUnlessCalleeLoop (f x)) ->
  terminatesUnlessCalleeLoop (forEach f l).
Proof.
  induction l as [ | x l IH]; intros H; cbn [forEach].
  - apply terminatesUnless_terminates. apply terminatesWith_ret. exact I.
  - apply terminatesUnless_bind; [apply H | intros _; apply IH; exact H].
Qed.

Lemma terminatesUnless_legalizeStreamOutputCall globalOutputVal ii :
  terminatesUnlessCalleeLoop (legalizeStreamOutputCall globalOutputVal ii).
Proof.
  unfold legalizeStreamOutputCall.
  destruct (negb (IROp_eqb (op ii) kIROp_Call));
    [apply terminatesUnless_terminates; apply terminatesWith_ret; exact I | ].
  destruct (getOperand ii 0) as [calleePtr | ];
    [ | apply terminatesUnless_terminates; apply terminatesWith_abort].
  apply terminatesUnless_bind;
    [apply terminatesUnless_terminates; apply terminates_derefM | intros callee0].
  intros st E.
  apply bind_OutOfFuel in E.
  destruct E as [E | (fuel & s0 & Efuel & E)]; [discriminate E | ].
  unfold resolveCalleeFuel in Efuel. inversion Efuel; subst fuel s0. clear Efuel.
  apply bind_OutOfFuel in E.
  destruct E as [E | (callee & st1 & _ & E)].
  - exists st, callee0. apply resolveCallee_adequate. exact E.
  - exfalso.
    assert (Hrest : terminates
              (if negb (IROp_eqb (op callee) kIROp_Func) then ret tt
               else
                 match findTargetIntrinsicDecoration (decorations callee) "glsl" with
                 | None => ret tt
                 | Some definition =>
                     if negb (String.eqb definition "EmitVertex()") then ret tt
                     else
                       setInsertBefore (Some ii) ;;
                       builder <- getBuilder ;;
                       match getOperand ii 2 with
                       | None => abort "no operand"
                       | Some arg => assign builder globalOutputVal (value arg)
                       end
                 end)).
    { repeat terminatesStep. intros st'. exact I. }
    specialize (Hrest st1). rewrite E in Hrest. exact Hrest.
Qed.

Lemma terminatesUnless_legalizeEntryPointParameterForGLSL pp paramLayout :
  terminatesUnlessCalleeLoop (legalizeEntryPointParameterForGLSL pp paramLayout).
Proof.
  unfold legalizeEntryPointParameterForGLSL.
  apply terminatesUnless_bind;
    [apply terminatesUnless_terminates; intros st; exact I | intros stage].
  assert (Hrest : forall asOut,
             terminates
               (if isRayTracingStage stage
                then legalizeRayTracingEntryPointParameterForGLSL pp paramLayout
                else
                  match asOut with
                  | Some (ptrOp, valueType) =>
                      builder <- getBuilder ;;
                      localVariable <- emitVar builder valueType ;;
                      let localVal := address localVariable in
                      match ptrOp with
                      | kIROp_InOutType =>
                          globalInputVal <- createGLSLGlobalVaryings valueType paramLayout
                                              LayoutResourceKind_VaryingInput stage ;;
                          assign builder localVal globalInputVal
                      | _ => ret tt
                      end ;;
                      replaceUsesWith (InstRef (instId pp)) localVariable ;;
                      globalOutputVal <- createGLSLGlobalVaryings valueType paramLayout
                                           LayoutResourceKind_VaryingOutput stage ;;
                      forEachBlock (fun _ bb =>
                                      assignBeforeReturn globalOutputVal localVal bb)
                  | None =>
                      globalValue <- createGLSLGlobalVaryings (dataType pp) paramLayout
                                       LayoutResourceKind_VaryingInput stage ;;
                      builder <- getBuilder ;;
                      materialized <- materializeValue builder globalValue ;;
                      replaceUsesWith (InstRef (instId pp)) materialized
                  end)).
  { intros asOut. destruct (isRayTracingStage stage);
      [apply terminates_legalizeRayTracing | ].
    destruct asOut as [[ptrOp valueType] | ].
    - apply terminates_bind; [intros st; exact I | intros builder].
      apply terminates_bind; [apply terminates_emitInst | intros localVariable].
      apply terminates_bind.
      { destruct ptrOp; try (apply terminatesWith_ret; exact I).
        apply terminates_bind; [apply terminates_createGLSLGlobalVaryings | intros v].
        apply terminates_assign. }
      intros _.
      apply terminates_bind; [apply terminates_replaceUsesWith | intros _].
      apply terminates_bind; [apply terminates_createGLSLGlobalVaryings | intros v].
      apply terminates_forEachBlock. intros n bb. apply terminates_assignBeforeReturn.
    - apply terminates_bind; [apply terminates_createGLSLGlobalVaryings | intros v].
      apply terminates_bind; [intros st; exact I | intros builder].
      apply terminates_bind; [apply terminates_materializeValue | intros materialized].
      apply terminates_replaceUsesWith. }
  destruct (asOutTypeBase (dataType pp)) as [[ptrOp valueType] | ] eqn:Eas;
    [ | apply terminatesUnless_terminates; exact (Hrest None)].
  destruct valueType;
    try (apply terminatesUnless_terminates; exact (Hrest (Some (ptrOp, _)))).
  apply terminatesUnless_bind;
    [apply terminatesUnless_terminates; apply terminates_createGLSLGlobalVaryings
    | intros globalOutputVal].
  apply terminatesUnless_bind.
  { unfold forEachBlock.
    apply terminatesUnless_bind;
      [apply terminatesUnless_terminates; intros st; exact I | intros n].
    apply terminatesUnless_forEach. intros blockIndex.
    apply terminatesUnless_bind;
      [apply terminatesUnless_terminates; apply terminates_getBlock | intros bb].
    apply terminatesUnless_forEach. intros ii.
    apply terminatesUnless_legalizeStreamOutputCall. }
  intros _. apply terminatesUnless_terminates.
  apply terminates_bind; [apply terminates_getBlock | intros firstBlock].
  apply terminates_bind; [apply terminates_setInsertBefore | intros _].
  apply terminates_bind; [intros st; exact I | intros builder].
  apply terminates_bind; [apply terminates_emitInst | intros undefinedVal].
  apply terminates_replaceUsesWith.
Qed.

(** The pass comes to an end from every state, by returning or by
    aborting as the code does; the only bound that can be reached is that
    of the callee loop, where the loop of the source does not end. *)
Theorem legalizeEntryPointForGLSL_terminates :
  terminatesUnlessCalleeLoop legalizeEntryPointForGLSL.
Proof.
  unfold legalizeEntryPointForGLSL.
  apply terminatesUnless_bind;
    [apply terminatesUnless_terminates; intros st; exact I | intros func].
  destruct (findLayoutDecoration (funcDecorations func)) as [[vl | tl | entryPointLayout] | ];
    try (apply terminatesUnless_terminates; apply terminatesWith_abort).
  apply terminatesUnless_bind;
    [apply terminatesUnless_terminates; intros st; exact I | intros _].
  apply terminatesUnless_bind;
    [apply terminatesUnless_terminates; intros st; exact I | intros m].
  apply terminatesUnless_bind.
  { apply terminatesUnless_terminates. unfold SLANG_ASSERT.
    destruct (negb _); [apply terminatesWith_ret; exact I | apply terminatesWith_abort]. }
  intros _.
  apply terminatesUnless_bind;
    [apply terminatesUnless_terminates; intros st; exact I | intros _].
  destruct (getResultType func) as [resultType | ];
    [ | apply terminatesUnless_terminates; apply terminatesWith_abort].
  destruct (isVoidType resultType && Nat.eqb (getParamCount func) 0)%bool;
    [apply terminatesUnless_terminates; apply terminatesWith_ret; exact I | ].
  apply terminatesUnless_bind.
  { apply terminatesUnless_terminates.
    destruct (isVoidType resultType); [apply terminatesWith_ret; exact I | ].
    destruct (resultLayout entryPointLayout) as [layout | ];
      [ | apply terminatesWith_abort].
    apply terminates_bind; [apply terminates_createGLSLGlobalVaryings | intros v].
    apply terminates_forEachBlock. intros n bb. apply terminates_rewriteReturnVal. }
  intros _.
  apply terminatesUnless_bind;
    [apply terminatesUnless_terminates; intros st; exact I | intros func'].
  apply terminatesUnless_bind; [ | intros _; apply terminatesUnless_terminates;
                                   intros st; exact I].
  destruct (getFirstBlock func') as [firstBlock | ];
    [ | apply terminatesUnless_terminates; apply terminatesWith_ret; exact I].
  apply terminatesUnless_bind;
    [apply terminatesUnless_terminates; apply terminates_setInsertBefore | intros _].
  apply terminatesUnless_bind; [ | intros _; apply terminatesUnless_terminates;
                                   intros st; exact I].
  unfold legalizeParams. apply terminatesUnless_forEach. intros pp.
  destruct (findLayoutDecoration (decorations pp)) as [[paramLayout | tl | epl] | ];
    try (apply terminatesUnless_terminates; apply terminatesWith_abort).
  apply terminatesUnless_legalizeEntryPointParameterForGLSL.
Qed.

(* ------------------------------------------------------------------ *)
(** * Further properties of the pass *)

(** ** The varying materializer on any type *)

Lemma find_exists {A} (f : A -> bool) (l : list A) (x : A) :
  In x l -> f x = true -> find f l <> None.
Proof.
  induction l as [ | y l IH]; intros Hin Hx; [contradiction | ].
  cbn. destruct (f y) eqn:Ey; [discriminate | ].
  destruct Hin as [-> | Hin]; [congruence | exact (IH Hin Hx)].
Qed.

(** A leaf is created from every state, and its value is never [none]. *)
Lemma createSimpleGLSLGlobalVarying_returns inType vl tl kind stage bi decl st :
  exists v st',
    createSimpleGLSLGlobalVarying inType vl tl kind stage bi decl st = OK (v, st') /\
    isNone v = false.
Proof.
  unfold createSimpleGLSLGlobalVarying.
  destruct (getGLSLSystemValueInfo_OK vl kind stage st) as (info & st0 & Hinfo & _).
  unfold bind at 1. rewrite Hinfo.
  destruct (fold_left _ decl _) as [type typeLayout].
  set (paramType := if isOutputKind kind then getOutType type else type).
  unfold bind at 1.
  change (addGlobalParam paramType st0)
    with (OK (InstRef (nextInstId st0),
              mkPassState (S (nextInstId st0))
                (mkIRModule (moduleBefore (module st0)) (moduleFunc (module st0))
                   (moduleAfter (module st0)
                    ++ [mkIRInst (nextInstId st0) kIROp_GlobalParam paramType [] [] None]))
                (contextStage st0) (sink st0) (extensionUsageTracker st0)
                (contextBuilder st0))).
  cbv iota beta.
  unfold bind at 1. unfold moveValueBefore. cbn [module moduleBefore moduleAfter].
  destruct (find _ _) as [moved | ] eqn:Efind.
  2:{ exfalso. revert Efind.
      apply (find_exists _ _
               (mkIRInst (nextInstId st0) kIROp_GlobalParam paramType [] [] None)).
      - apply in_or_app. right. apply in_or_app. right. left. reflexivity.
      - cbn. apply Nat.eqb_refl. }
  cbv iota beta.
  destruct info as [info | ].
  - destruct (isOutputKind kind), (requiredType info) as [fromType | ],
      (outerArrayName info);
      try destruct (negb (isTypeEqual fromType inType));
      eexists; eexists; (split; [reflexivity | reflexivity]).
  - destruct (isOutputKind kind);
      eexists; eexists; (split; [reflexivity | reflexivity]).
Qed.

Lemma createSimpleGLSLGlobalVarying_not_none inType vl tl kind stage bi decl st v st' :
  createSimpleGLSLGlobalVarying inType vl tl kind stage bi decl st = OK (v, st') ->
  isNone v = false.
Proof.
  intros H.
  destruct (createSimpleGLSLGlobalVarying_returns inType vl tl kind stage bi decl st)
    as (v0 & st0 & H0 & Hn).
  rewrite H0 in H. inversion H; subst. exact Hn.
Qed.

(** The flavor [none] comes back for the types without a leaf, and only
    for them. *)
Lemma createGLSLGlobalVaryingsImpl_none kind stage :
  forall type vl tl bi decl st v st',
    createGLSLGlobalVaryingsImpl type vl tl kind stage bi decl st = OK (v, st') ->
    isNone v = yieldsNone type.
Proof.
  induction type as [ | b | e n IHtype | e r c IHtype | e n IHtype | o e IHtype
                     | nm fs IHfs | o v0 IHtype | ps r IHps IHr | n]
    using IRType_nested_ind; intros vl tl bi decl st v st' H;
    try exact (createSimpleGLSLGlobalVarying_not_none _ _ _ _ _ _ _ _ _ _ H).
  - cbn in H. apply ret_OK in H. destruct H as [<- _]. reflexivity.
  - cbn [createGLSLGlobalVaryingsImpl] in H.
    destruct (TypeLayout_shape tl); try discriminate H.
    exact (IHtype _ _ _ _ _ _ _ H).
  - cbn [createGLSLGlobalVaryingsImpl] in H.
    destruct (TypeLayout_shape tl); try discriminate H.
    exact (IHtype _ _ _ _ _ _ _ H).
  - rewrite createGLSLGlobalVaryingsImpl_struct in H.
    destruct (TypeLayout_shape tl); try discriminate H.
    apply bind_OK in H. destruct H as (es & s & _ & H).
    apply ret_OK in H. destruct H as [<- _]. reflexivity.
Qed.

Lemma createFields_keys fieldLayouts kind stage bi decl :
  forall fields counter st es st',
    createFields fieldLayouts kind stage bi decl fields counter st = OK (es, st') ->
    map fst es = map IRStructField_getKey (keptFields fields).
Proof.
  induction fields as [ | [key fieldType] fields IH]; intros counter st es st' H.
  - cbn in H. apply ret_OK in H. destruct H as [<- _]. reflexivity.
  - cbn [createFields] in H.
    destruct (nth_error fieldLayouts counter) as [fl | ]; [ | discriminate H].
    apply bind_OK in H. destruct H as (fieldVal & s1 & Hfield & H).
    apply bind_OK in H. destruct H as (others & s2 & Hothers & H).
    apply ret_OK in H. destruct H as [<- _].
    apply createGLSLGlobalVaryingsImpl_none in Hfield.
    specialize (IH _ _ _ _ Hothers).
    unfold keptFields. cbn [filter IRStructField_getFieldType snd].
    rewrite Hfield. destruct (yieldsNone fieldType); cbn [negb map fst].
    + exact IH.
    + rewrite IH. reflexivity.
Qed.

(** X1. For any type, the flavor [none] comes back exactly when the type
    is void, or an array or an output stream of such a type; never for a
    struct, not even one whose fields are all void, for which an empty
    tuple comes back.  The tuple the materializer builds for a struct
    has one element for each field whose type does not give [none],
    under the key of the field and in the order of the fields; a field
    of type void (or an array or stream of void) has no element.  The
    type of the tuple is the struct type in the outer arrays. *)
Theorem createGLSLGlobalVaryingsImpl_skips_void_fields
        (type : IRType) (vl : VarLayout) (tl : TypeLayout)
        (kind : LayoutResourceKind) (stage : Stage) (bindingIndex : Z)
        (declarator : list GlobalVaryingDeclarator)
        (st : PassState) (v : ScalarizedVal.t) (st' : PassState) :
  createGLSLGlobalVaryingsImpl type vl tl kind stage bindingIndex declarator st
  = OK (v, st') ->
  isNone v = yieldsNone type /\
  (forall nm fields,
      type = IRStructType nm fields ->
      exists elements,
        v = tuple (wrapFullType type declarator) elements /\
        map fst elements = map IRStructField_getKey (keptFields fields)).
Proof.
  intros H. split; [exact (createGLSLGlobalVaryingsImpl_none _ _ _ _ _ _ _ _ _ _ H) | ].
  intros nm fields ->.
  rewrite createGLSLGlobalVaryingsImpl_struct in H.
  destruct (TypeLayout_shape tl) as [ | | | fieldLayouts]; try discriminate H.
  apply bind_OK in H. destruct H as (es & s & Hes & H).
  apply ret_OK in H. destruct H as [<- _].
  exists es. split; [reflexivity | ].
  exact (createFields_keys _ _ _ _ _ _ _ _ _ _ Hes).
Qed.

(** The materializer returns exactly when the layout has the shape of
    the type. *)
Lemma createGLSLGlobalVaryingsImpl_returns_iff kind stage :
  forall type vl tl bi decl st,
    (exists v st',
        createGLSLGlobalVaryingsImpl type vl tl kind stage bi decl st = OK (v, st'))
    <-> layoutFits type tl = true.
Proof.
  assert (Hsimple : forall type vl tl bi decl st,
             (exists v st',
                 createSimpleGLSLGlobalVarying type vl tl kind stage bi decl st
                 = OK (v, st'))
             <-> true = true).
  { intros. split; [reflexivity | intros _].
    destruct (createSimpleGLSLGlobalVarying_returns type vl tl kind stage bi decl st)
      as (v & st' & H & _).
    exists v, st'. exact H. }
  induction type as [ | b | e n IHtype | e r c IHtype | e n IHtype | o e IHtype
                     | nm fs IHfs | o v0 IHtype | ps r IHps IHr | n]
    using IRType_nested_ind; intros vl tl bi decl st;
    try apply Hsimple.
  - split; [reflexivity | intros _]. exists none, st. reflexivity.
  - cbn [createGLSLGlobalVaryingsImpl layoutFits].
    destruct (TypeLayout_shape tl);
      try (split; [intros (v & st' & H); discriminate H | discriminate]).
    apply IHtype.
  - cbn [createGLSLGlobalVaryingsImpl layoutFits].
    destruct (TypeLayout_shape tl);
      try (split; [intros (v & st' & H); discriminate H | discriminate]).
    apply IHtype.
  - rewrite createGLSLGlobalVaryingsImpl_struct. cbn [layoutFits].
    destruct (TypeLayout_shape tl) as [ | | | fieldLayouts];
      try (split; [intros (v & st' & H); discriminate H | discriminate]).
    assert (Hloop : forall counter st,
               (exists es st',
                   createFields fieldLayouts kind stage bi decl fs counter st
                   = OK (es, st'))
               <->
               (fix eachField (fs : list (IRStructKey * IRType)) (fieldCounter : nat)
                    {struct fs} : bool :=
                  match fs with
                  | [] => true
                  | (_, fieldType) :: rest =>
                      match nth_error fieldLayouts fieldCounter with
                      | Some fieldLayout =>
                          (layoutFits fieldType (VarLayout_typeLayout fieldLayout)
                           && eachField rest (S fieldCounter))%bool
                      | None => false
                      end
                  end) fs counter = true).
    { clear st. induction IHfs as [ | [key fieldType] fs Hfield Hfs IH]; intros counter st.
      - split; [reflexivity | intros _]. exists [], st. reflexivity.
      - cbn [createFields]. cbn [snd] in Hfield.
        destruct (nth_error fieldLayouts counter) as [fl | ];
          [ | split; [intros (es & st' & H); discriminate H | discriminate] ].
        split.
        + intros (es & st' & H).
          apply bind_OK in H. destruct H as (fieldVal & s1 & Hfv & H).
          apply bind_OK in H. destruct H as (others & s2 & Hothers & _).
          apply andb_true_intro. split.
          * eapply (Hfield fl (VarLayout_typeLayout fl)).
            exists fieldVal, s1. exact Hfv.
          * apply (IH (S counter) s1). exists others, s2. exact Hothers.
        + intros H. apply andb_prop in H. destruct H as [H1 H2].
          apply (Hfield fl (VarLayout_typeLayout fl)
                        match FindResourceInfo (VarLayout_resourceInfos fl) kind with
                        | Some index => UInt_wrap (bi + index)
                        | None => bi
                        end decl st) in H1.
          destruct H1 as (fieldVal & s1 & Hfv).
          apply (IH (S counter) s1) in H2. destruct H2 as (others & s2 & Hothers).
          eexists. eexists. unfold bind. rewrite Hfv, Hothers. reflexivity. }
    split.
    + intros (v & st' & H). apply bind_OK in H. destruct H as (es & s1 & Hes & _).
      apply (Hloop 0%nat st). exists es, s1. exact Hes.
    + intros H. apply (Hloop 0%nat st) in H. destruct H as (es & s1 & Hes).
      eexists. eexists. unfold bind. rewrite Hes. reflexivity.
Qed.

(** X2. The materializer returns exactly when the type layout has the
    shape of the type at every level (an array layout for an array, a
    stream layout for an output stream, a struct layout with a layout at
    the position of each field for a struct); otherwise one of its
    assertions on the layout fails.  Whether it returns does not depend
    on the state, the variable layout, the kind, the stage or the
    binding index. *)
Theorem createGLSLGlobalVaryings_returns_iff_layout_fits
        (type : IRType) (layout : VarLayout) (kind : LayoutResourceKind)
        (stage : Stage) (st : PassState) :
  (exists v st', createGLSLGlobalVaryings type layout kind stage st = OK (v, st'))
  <-> layoutFits type (VarLayout_typeLayout layout) = true.
Proof. apply createGLSLGlobalVaryingsImpl_returns_iff. Qed.

Lemma createGLSLGlobalVaryingsImpl_leaves kind stage :
  forall type vl tl bi decl st v st',
    freshIds st ->
    createGLSLGlobalVaryingsImpl type vl tl kind stage bi decl st = OK (v, st') ->
    exists globals,
      createdGlobals st st' globals /\ List.length globals = leafCount type.
Proof.
  assert (Hsimple : forall type vl tl bi decl st v st',
             freshIds st ->
             createSimpleGLSLGlobalVarying type vl tl kind stage bi decl st = OK (v, st') ->
             exists globals,
               createdGlobals st st' globals /\ List.length globals = 1%nat).
  { intros type vl tl bi decl st v st' Hf H.
    destruct (createSimpleGLSLGlobalVarying_createdGlobals _ _ _ _ _ _ _ Hf H)
      as (g & Hc & _).
    exists [g]. split; [exact Hc | reflexivity]. }
  induction type as [ | b | e n IHtype | e r c IHtype | e n IHtype | o e IHtype
                     | nm fs IHfs | o v0 IHtype | ps r IHps IHr | n]
    using IRType_nested_ind; intros vl tl bi decl st v st' Hf H;
    try exact (Hsimple _ _ _ _ _ _ _ _ Hf H).
  - cbn in H. apply ret_OK in H. destruct H; subst.
    exists []. split; [apply createdGlobals_refl | reflexivity].
  - cbn [createGLSLGlobalVaryingsImpl] in H.
    destruct (TypeLayout_shape tl); try discriminate H.
    exact (IHtype _ _ _ _ _ _ _ Hf H).
  - cbn [createGLSLGlobalVaryingsImpl] in H.
    destruct (TypeLayout_shape tl); try discriminate H.
    exact (IHtype _ _ _ _ _ _ _ Hf H).
  - rewrite createGLSLGlobalVaryingsImpl_struct in H.
    destruct (TypeLayout_shape tl) as [ | | | fieldLayouts]; try discriminate H.
    apply bind_OK in H. destruct H as (elements & st1 & Hrun & Hret).
    apply ret_OK in Hret. destruct Hret as [_ <-].
    clear v.
    assert (Hloop : forall counter st elements st1,
               createFields fieldLayouts kind stage bi decl fs counter st
               = OK (elements, st1) ->
               freshIds st ->
               exists globals,
                 createdGlobals st st1 globals /\
                 List.length globals = leafCount (IRStructType nm fs)).
    { clear Hrun Hf st st1 elements.
      induction IHfs as [ | [key fieldType] fs Hfield Hfs IH];
        intros counter st elements st1 Hrun Hf.
      - cbn in Hrun. apply ret_OK in Hrun. destruct Hrun; subst.
        exists []. split; [apply createdGlobals_refl | reflexivity].
      - cbn [createFields] in Hrun.
        destruct (nth_error fieldLayouts counter) as [fl | ]; [ | discriminate].
        apply bind_OK in Hrun. destruct Hrun as (fieldVal & st2 & Hfv & Hrest).
        apply bind_OK in Hrest. destruct Hrest as (others & st3 & Hothers & Hret).
        apply ret_OK in Hret. destruct Hret as [_ <-].
        cbn [snd] in Hfield.
        destruct (Hfield _ _ _ _ _ _ _ Hf Hfv) as (g1 & Hc1 & Hn1).
        pose proof (createdGlobals_fresh Hc1 Hf) as Hf2.
        destruct (IH _ _ _ _ Hothers Hf2) as (g2 & Hc2 & Hn2).
        exists (g1 ++ g2). split; [eapply createdGlobals_trans; eassumption | ].
        rewrite length_app, Hn1, Hn2. reflexivity. }
    exact (Hloop _ _ _ _ Hrun Hf).
Qed.

(** X3. The materializer creates exactly one global parameter for each
    leaf of the type (none for void, one for a scalar, vector or matrix,
    those of the element for an array or an output stream, those of all
    the fields for a struct), with consecutive fresh identities, all put
    before the function in the order of the leaves; it leaves the
    function, its blocks and the rest of the module as they were. *)
Theorem createGLSLGlobalVaryings_one_global_per_leaf
        (type : IRType) (layout : VarLayout) (kind : LayoutResourceKind)
        (stage : Stage) (st : PassState) (v : ScalarizedVal.t) (st' : PassState) :
  freshIds st ->
  createGLSLGlobalVaryings type layout kind stage st = OK (v, st') ->
  exists globals,
    List.length globals = leafCount type /\
    moduleBefore (module st') = moduleBefore (module st) ++ globals /\
    moduleFunc (module st') = moduleFunc (module st) /\
    moduleAfter (module st') = moduleAfter (module st) /\
    nextInstId st' = nextInstId st + leafCount type /\
    map instId globals = seq (nextInstId st) (leafCount type) /\
    Forall (fun g => op g = kIROp_GlobalParam) globals.
Proof.
  intros Hf H. unfold createGLSLGlobalVaryings in H.
  destruct (createGLSLGlobalVaryingsImpl_leaves _ _ _ _ _ _ _ _ _ _ Hf H)
    as (globals & (Hb & Ha & Hfn & _ & _ & Hn & Hi & Ho) & Hlen).
  exists globals. rewrite <- Hlen.
  split; [reflexivity | ].
  repeat (split; [assumption | ]). assumption.
Qed.

Lemma createGLSLGlobalVaryingsImpl_skips_void_fields_witness :
  let v := tuple gapType [(1%nat, value (InstRef 1000)); (3%nat, value (InstRef 1001))] in
  isNone v = yieldsNone gapType /\
  (forall nm fields,
      gapType = IRStructType nm fields ->
      exists elements,
        v = tuple (wrapFullType gapType []) elements /\
        map fst elements = map IRStructField_getKey (keptFields fields)).
Proof.
  apply (createGLSLGlobalVaryingsImpl_skips_void_fields
           gapType gapLayout (VarLayout_typeLayout gapLayout)
           LayoutResourceKind_VaryingInput Stage_Vertex 4 [] trivialEntryPoint
           (tuple gapType [(1%nat, value (InstRef 1000)); (3%nat, value (InstRef 1001))])
           (stateAfter (createGLSLGlobalVaryingsImpl
                          gapType gapLayout (VarLayout_typeLayout gapLayout)
                          LayoutResourceKind_VaryingInput Stage_Vertex 4 [])
                       trivialEntryPoint)).
  vm_compute. reflexivity.
Defined.

Lemma createGLSLGlobalVaryings_one_global_per_leaf_witness :
  let st := trivialEntryPoint in
  let st' := stateAfter (createGLSLGlobalVaryings
                           (IRArrayType gapType 3) 
                           (exampleVarLayout "" 4
                              (mkTypeLayout 0 []
                                 (ArrayTypeLayout exampleTypeLayout
                                    (VarLayout_typeLayout gapLayout) 0)))
                           LayoutResourceKind_VaryingOutput Stage_Vertex) st in
  exists globals,
    List.length globals = 2%nat /\
    moduleBefore (module st') = moduleBefore (module st) ++ globals /\
    moduleFunc (module st') = moduleFunc (module st) /\
    moduleAfter (module st') = moduleAfter (module st) /\
    nextInstId st' = 1002%nat /\
    map instId globals = [1000%nat; 1001%nat] /\
    Forall (fun g => op g = kIROp_GlobalParam) globals.
Proof.
  apply (createGLSLGlobalVaryings_one_global_per_leaf
           (IRArrayType gapType 3)
           (exampleVarLayout "" 4
              (mkTypeLayout 0 []
                 (ArrayTypeLayout exampleTypeLayout (VarLayout_typeLayout gapLayout) 0)))
           LayoutResourceKind_VaryingOutput Stage_Vertex trivialEntryPoint
           (tuple (IRArrayType gapType 3)
                  [(1%nat, address (InstRef 1000)); (3%nat, address (InstRef 1001))])).
  - exampleFresh.
  - vm_compute. reflexivity.
Defined.

(** ** The system-value resolver on any semantic *)

Ltac caseSemantic s :=
  repeat match goal with
         | |- context [String.eqb s ?b] =>
             let E := fresh "E" in
             destruct (String.eqb s b) eqn:E;
             [apply String.eqb_eq in E; subst s | ]
         end.

Lemma toLower_length s : String.length (toLower s) = String.length s.
Proof. induction s as [ | c s IH]; cbn; [reflexivity | rewrite IH; reflexivity]. Qed.

(** X4. The resolver compares the semantic in lower case: two spellings
    of a semantic that differ only in the case of their letters give the
    same result (the same descriptor, or both none) and the same
    requirements on the extension tracker, and leave the module as it
    was. *)
Theorem getGLSLSystemValueInfo_ignores_case
        (vl vl' : VarLayout) (kind : LayoutResourceKind) (stage : Stage)
        (st : PassState) :
  toLower (systemValueSemantic vl) = toLower (systemValueSemantic vl') ->
  exists info st1 st2,
    getGLSLSystemValueInfo vl kind stage st = OK (info, st1) /\
    getGLSLSystemValueInfo vl' kind stage st = OK (info, st2) /\
    extensionUsageTracker st1 = extensionUsageTracker st2 /\
    module st1 = module st /\ module st2 = module st.
Proof.
  intros Hsame. unfold getGLSLSystemValueInfo.
  assert (Hlen : String.length (systemValueSemantic vl)
                 = String.length (systemValueSemantic vl'))
    by (rewrite <- (toLower_length (systemValueSemantic vl)), Hsame;
        apply toLower_length).
  rewrite Hlen, Hsame.
  destruct (Nat.eqb (String.length (systemValueSemantic vl')) 0).
  - exists None, st, st. repeat split; reflexivity.
  - destruct (systemValueTable_OK (toLower (systemValueSemantic vl')) kind stage st)
      as (locals & s1 & Ht & Hm & _).
    unfold bind. rewrite Ht.
    destruct locals as [[[[n | ] outer] required] | ];
      eexists; eexists; eexists;
      (split; [reflexivity | split; [reflexivity | ] ]);
      cbn; repeat split; congruence.
Qed.

(** X5. The resolver always returns, and leaves the module, the fresh
    identities and the builder as they were.  It returns a descriptor
    exactly for the 26 semantics of its table other than [sv_target] (in
    any case of letters), and then sends no diagnostic. *)
Theorem getGLSLSystemValueInfo_descriptor_iff_known
        (vl : VarLayout) (kind : LayoutResourceKind) (stage : Stage) (st : PassState) :
  exists info st',
    getGLSLSystemValueInfo vl kind stage st = OK (info, st') /\
    module st' = module st /\ nextInstId st' = nextInstId st /\
    contextBuilder st' = contextBuilder st /\
    ((exists i, info = Some i) <->
     (isKnownSemantic (toLower (systemValueSemantic vl)) = true /\
      toLower (systemValueSemantic vl) <> "sv_target"%string)) /\
    ((exists i, info = Some i) -> sink st' = sink st).
Proof.
  destruct (getGLSLSystemValueInfo_OK vl kind stage st)
    as (info & st' & H & Hm & Hn & Hb & _).
  exists info, st'. split; [exact H | ]. repeat (split; [assumption | ]).
  destruct (isKnownSemantic (toLower (systemValueSemantic vl))) eqn:Ek.
  - destruct (String.eqb (toLower (systemValueSemantic vl)) "sv_target") eqn:Et.
    + apply String.eqb_eq in Et.
      rewrite (getGLSLSystemValueInfo_sv_target vl kind stage st Et) in H.
      inversion H; subst.
      split; [split | ].
      * intros (i & Hi). discriminate Hi.
      * intros (_ & Hne). contradiction.
      * reflexivity.
    + apply String.eqb_neq in Et.
      destruct (getGLSLSystemValueInfo_known vl kind stage st Ek Et)
        as (i & s1 & H1 & Hs).
      rewrite H1 in H. inversion H; subst.
      split; [split | ].
      * intros _. split; [reflexivity | exact Et].
      * intros _. exists i. reflexivity.
      * intros _. exact Hs.
  - assert (Hnone : info = None).
    { destruct (systemValueSemantic vl) as [ | c r] eqn:Es.
      - rewrite (getGLSLSystemValueInfo_empty vl kind stage st Es) in H.
        inversion H. reflexivity.
      - rewrite (getGLSLSystemValueInfo_unknown vl kind stage st) in H.
        + inversion H. reflexivity.
        + rewrite Es. discriminate.
        + rewrite Es. exact Ek. }
    subst info. split; [split | ].
    + intros (i & Hi). discriminate Hi.
    + intros (Hk & _). discriminate Hk.
    + intros (i & Hi). discriminate Hi.
Qed.

(** X6. [SV_Position], in any case of letters: the built-in is
    [gl_FragCoord] as the input of a fragment shader and [gl_Position]
    anywhere else; as the input of a geometry shader it is inside the
    outer array [gl_in]; the required type is a vector of four floats;
    nothing is required of the tracker and no diagnostic is sent. *)
Theorem getGLSLSystemValueInfo_sv_position
        (vl : VarLayout) (kind : LayoutResourceKind) (stage : Stage) (st : PassState) :
  toLower (systemValueSemantic vl) = "sv_position"%string ->
  let input := LayoutResourceKind_eqb kind LayoutResourceKind_VaryingInput in
  getGLSLSystemValueInfo vl kind stage st =
  OK (Some (mkGLSLSystemValueInfo
              (if (Stage_eqb stage Stage_Fragment && input)%bool
               then "gl_FragCoord" else "gl_Position")
              (if (Stage_eqb stage Stage_Geometry && input)%bool
               then Some "gl_in"%string else None)
              (Some float4Type)),
      st).
Proof.
  intros H input. unfold getGLSLSystemValueInfo.
  rewrite toLower_nonempty by (rewrite H; discriminate).
  rewrite H. unfold input. destruct stage, kind; reflexivity.
Qed.

(** X7. What the resolver requires of the extension tracker, for every
    semantic: an extension for [sv_culldistance] and [sv_stencilref]; a
    version and an extension for [nv_x_right] and [nv_viewport_mask];
    for [sv_rendertargetarrayindex] GLSL 150 in a geometry shader, GLSL
    430 in a fragment shader, GLSL 450 and the viewport-layer-array
    extension elsewhere, by the stage of the context and not by the
    stage it is called with; nothing for any other semantic. *)
Theorem getGLSLSystemValueInfo_requirements
        (vl : VarLayout) (kind : LayoutResourceKind) (stage : Stage) (st : PassState) :
  exists info st',
    getGLSLSystemValueInfo vl kind stage st = OK (info, st') /\
    extensionUsageTracker st' =
    withRequirements (requiredBy (toLower (systemValueSemantic vl)) (contextStage st))
                     (extensionUsageTracker st).
Proof.
  destruct st as [n m cs sk [exts vers] bd].
  unfold getGLSLSystemValueInfo.
  destruct (systemValueSemantic vl) as [ | c r] eqn:Es.
  - exists None. eexists. split; [reflexivity | ].
    unfold withRequirements. cbn. rewrite !app_nil_r. reflexivity.
  - cbn [String.length Nat.eqb].
    generalize (toLower (String c r)) as s. intros s.
    unfold bind, systemValueTable, requiredBy.
    caseSemantic s;
      try (destruct (Stage_eqb stage Stage_Fragment && _)%bool;
           [ | destruct (Stage_eqb stage Stage_Geometry && _)%bool ]);
      try (unfold getStage; destruct cs);
      cbn; eexists; eexists; (split; [reflexivity | ]);
      unfold withRequirements; cbn; rewrite ?app_nil_r; reflexivity.
Qed.

Lemma getGLSLSystemValueInfo_ignores_case_witness :
  exists info st1 st2,
    getGLSLSystemValueInfo (exampleVarLayout "SV_Position" 0 exampleTypeLayout)
      LayoutResourceKind_VaryingInput Stage_Fragment trivialEntryPoint = OK (info, st1) /\
    getGLSLSystemValueInfo (exampleVarLayout "sv_POSITION" 0 exampleTypeLayout)
      LayoutResourceKind_VaryingInput Stage_Fragment trivialEntryPoint = OK (info, st2) /\
    extensionUsageTracker st1 = extensionUsageTracker st2 /\
    module st1 = module trivialEntryPoint /\ module st2 = module trivialEntryPoint.
Proof.
  apply (getGLSLSystemValueInfo_ignores_case
           (exampleVarLayout "SV_Position" 0 exampleTypeLayout)
           (exampleVarLayout "sv_POSITION" 0 exampleTypeLayout)).
  reflexivity.
Defined.

Lemma getGLSLSystemValueInfo_sv_position_witness :
  getGLSLSystemValueInfo (exampleVarLayout "SV_Position" 0 exampleTypeLayout)
    LayoutResourceKind_VaryingInput Stage_Geometry trivialEntryPoint =
  OK (Some (mkGLSLSystemValueInfo "gl_Position" (Some "gl_in"%string) (Some float4Type)),
      trivialEntryPoint).
Proof.
  apply (getGLSLSystemValueInfo_sv_position
           (exampleVarLayout "SV_Position" 0 exampleTypeLayout)
           LayoutResourceKind_VaryingInput Stage_Geometry trivialEntryPoint).
  reflexivity.
Defined.

(** ** The global parameter of a leaf *)

(** X8. The global parameter of a leaf carries a layout of its own: the
    declaration, the flags, the semantics and the stage of the layout of
    the variable, and the resource information of the one kind it is
    created for, at the binding index; whatever other kinds the layout of
    the variable had are left out.  It carries an import decoration with
    the name of the built-in exactly when the resolver returned a
    descriptor, and an outer-array decoration exactly when the descriptor
    names an outer array. *)
Theorem createSimpleGLSLGlobalVarying_decorations
        (inType : IRType) (inVarLayout : VarLayout) (inTypeLayout : TypeLayout)
        (kind : LayoutResourceKind) (stage : Stage) (bindingIndex : Z)
        (declarator : list GlobalVaryingDeclarator) (st : PassState) :
  freshIds st ->
  let info := fst (resolveSystemValue inVarLayout kind stage st) in
  exists v st' g varLayout,
    createSimpleGLSLGlobalVarying inType inVarLayout inTypeLayout kind stage
                                  bindingIndex declarator st = OK (v, st') /\
    moduleBefore (module st') = moduleBefore (module st) ++ [g] /\
    findLayoutDecoration (decorations g) = Some (Layout_VarLayout varLayout) /\
    VarLayout_resourceInfos varLayout = [(kind, bindingIndex)] /\
    varDecl varLayout = varDecl inVarLayout /\
    flags varLayout = flags inVarLayout /\
    systemValueSemantic varLayout = systemValueSemantic inVarLayout /\
    systemValueSemanticIndex varLayout = systemValueSemanticIndex inVarLayout /\
    semanticName varLayout = semanticName inVarLayout /\
    semanticIndex varLayout = semanticIndex inVarLayout /\
    VarLayout_stage varLayout = VarLayout_stage inVarLayout /\
    (declarator = [] -> VarLayout_typeLayout varLayout = inTypeLayout) /\
    (forall n, In (IRImportDecoration n) (decorations g) <->
               exists i, info = Some i /\ name i = n) /\
    (forall o, In (IRGLSLOuterArrayDecoration o) (decorations g) <->
               exists i, info = Some i /\ outerArrayName i = Some o).
Proof.
  intros Hf info.
  rewrite (createSimpleGLSLGlobalVarying_spec inType inVarLayout inTypeLayout kind stage
                                              bindingIndex declarator Hf).
  destruct (resolveSystemValue_frame inVarLayout kind stage st) as (Hm & _).
  fold info.
  do 4 eexists. split; [reflexivity | ].
  split; [cbn; rewrite Hm; reflexivity | ].
  unfold leafGlobalParam. cbn [decorations]. unfold leafDecorations.
  split; [reflexivity | ].
  unfold leafVarLayout. cbn.
  repeat (split; [reflexivity | ]).
  split; [intros ->; reflexivity | ].
  split.
  - intros n. destruct info as [i | ].
    + destruct (outerArrayName i); cbn; split.
      * intros [H | [H | [H | [ ] ] ] ]; try discriminate H.
        inversion H. exists i. split; reflexivity.
      * intros (i' & Hi & <-). inversion Hi. right. right. left. reflexivity.
      * intros [H | [H | [ ] ] ]; try discriminate H.
        inversion H. exists i. split; reflexivity.
      * intros (i' & Hi & <-). inversion Hi. right. left. reflexivity.
    + cbn. split.
      * intros [H | [ ] ]. discriminate H.
      * intros (i' & Hi & _). discriminate Hi.
  - intros o. destruct info as [i | ].
    + destruct (outerArrayName i) as [outer | ] eqn:Eo; cbn; split.
      * intros [H | [H | [H | [ ] ] ] ]; try discriminate H.
        inversion H. subst o. exists i. split; [reflexivity | exact Eo].
      * intros (i' & Hi & Ho). inversion Hi; subst i'. rewrite Eo in Ho.
        inversion Ho. right. left. reflexivity.
      * intros [H | [H | [ ] ] ]; discriminate H.
      * intros (i' & Hi & Ho). inversion Hi; subst i'. rewrite Eo in Ho.
        discriminate Ho.
    + cbn. split.
      * intros [H | [ ] ]. discriminate H.
      * intros (i' & Hi & _). discriminate Hi.
Qed.

Lemma createSimpleGLSLGlobalVarying_decorations_witness :
  let st := trivialEntryPoint in
  let inVarLayout := exampleVarLayout "SV_Position" 0 exampleTypeLayout in
  let info := fst (resolveSystemValue inVarLayout LayoutResourceKind_VaryingInput
                                      Stage_Geometry st) in
  exists v st' g varLayout,
    createSimpleGLSLGlobalVarying float4Type inVarLayout exampleTypeLayout
      LayoutResourceKind_VaryingInput Stage_Geometry 5 [] st = OK (v, st') /\
    moduleBefore (module st') = moduleBefore (module st) ++ [g] /\
    findLayoutDecoration (decorations g) = Some (Layout_VarLayout varLayout) /\
    VarLayout_resourceInfos varLayout = [(LayoutResourceKind_VaryingInput, 5%Z)] /\
    varDecl varLayout = varDecl inVarLayout /\
    flags varLayout = flags inVarLayout /\
    systemValueSemantic varLayout = systemValueSemantic inVarLayout /\
    systemValueSemanticIndex varLayout = systemValueSemanticIndex inVarLayout /\
    semanticName varLayout = semanticName inVarLayout /\
    semanticIndex varLayout = semanticIndex inVarLayout /\
    VarLayout_stage varLayout = VarLayout_stage inVarLayout /\
    (@nil GlobalVaryingDeclarator = [] -> VarLayout_typeLayout varLayout = exampleTypeLayout) /\
    (forall n, In (IRImportDecoration n) (decorations g) <->
               exists i, info = Some i /\ name i = n) /\
    (forall o, In (IRGLSLOuterArrayDecoration o) (decorations g) <->
               exists i, info = Some i /\ outerArrayName i = Some o).
Proof.
  apply (createSimpleGLSLGlobalVarying_decorations
           float4Type (exampleVarLayout "SV_Position" 0 exampleTypeLayout)
           exampleTypeLayout LayoutResourceKind_VaryingInput Stage_Geometry 5 []
           trivialEntryPoint).
  exampleFresh.
Defined.

(** ** The binding indices of the fields of a struct *)

Lemma createFields_bindings kind stage bi decl :
  forall fields pre layouts st,
    freshIds st ->
    forallb (fun f => isSimpleVaryingType (IRStructField_getFieldType f)) fields = true ->
    List.length fields <= List.length layouts ->
    exists es st' globals,
      createFields (pre ++ layouts) kind stage bi decl fields (List.length pre) st
      = OK (es, st') /\
      moduleBefore (module st') = moduleBefore (module st) ++ globals /\
      map globalResourceInfos globals =
      map (fun fl => Some [(kind, fieldBindingIndex bi kind fl)])
          (firstn (List.length fields) layouts).
Proof.
  induction fields as [ | [key fieldType] fields IH]; intros pre layouts st Hf Hleaf Hlen.
  - exists [], st, []. cbn. rewrite app_nil_r. repeat split; reflexivity.
  - destruct layouts as [ | fl layouts]; [cbn in Hlen; lia | ].
    cbn in Hleaf. apply andb_prop in Hleaf. destruct Hleaf as [Hleaf1 Hleaf].
    cbn in Hlen.
    cbn [createFields].
    rewrite nth_error_app2 by lia. rewrite Nat.sub_diag. cbn [nth_error].
    rewrite (createGLSLGlobalVaryingsImpl_simple _ _ _ _ _ _ _ Hleaf1).
    fold (fieldBindingIndex bi kind fl).
    pose proof (createSimpleGLSLGlobalVarying_spec fieldType fl
                  (VarLayout_typeLayout fl) kind stage (fieldBindingIndex bi kind fl)
                  decl Hf) as Hs.
    set (g := leafGlobalParam (nextInstId st) fieldType fl (VarLayout_typeLayout fl)
                              kind (fieldBindingIndex bi kind fl) decl
                              (fst (resolveSystemValue fl kind stage st))) in *.
    set (st0 := snd (resolveSystemValue fl kind stage st)) in *.
    destruct (resolveSystemValue_frame fl kind stage st) as (Hm0 & Hn0 & Hb0 & _).
    fold st0 in Hm0, Hn0, Hb0.
    assert (Hf1 : freshIds (withGlobalParam g st0)).
    { apply freshIds_withGlobalParam.
      - apply freshIds_resolve. exact Hf.
      - rewrite Hn0. reflexivity. }
    destruct (IH (pre ++ [fl]) layouts (withGlobalParam g st0) Hf1 Hleaf)
      as (es & st' & globals & Hrun & Hmb & Hinfos); [lia | ].
    rewrite <- app_assoc in Hrun. cbn [app] in Hrun.
    rewrite length_app in Hrun. cbn [List.length] in Hrun.
    rewrite Nat.add_1_r in Hrun.
    eexists. exists st', (g :: globals).
    split.
    { eapply bind_step; [exact Hs | ].
      eapply bind_step; [exact Hrun | ].
      reflexivity. }
    cbn [withGlobalParam module moduleBefore] in Hmb. rewrite Hm0 in Hmb.
    split; [rewrite Hmb, <- app_assoc; reflexivity | ].
    cbn [List.length firstn map]. rewrite Hinfos. f_equal.
Qed.

(** X9. For a struct whose fields have simple types, the global
    parameter of each field is bound at the binding index of the struct
    plus the index the layout of the field gives for the kind (in
    [UInt]; the index of the struct itself when the field has none for
    the kind), where the index of the struct is the one its layout gives
    for the kind, or 0. *)
Theorem createGLSLGlobalVaryings_field_bindings
        (nm : string) (fields : list IRStructField) (layout : VarLayout)
        (fieldLayouts : list VarLayout)
        (kind : LayoutResourceKind) (stage : Stage) (st : PassState) :
  freshIds st ->
  TypeLayout_shape (VarLayout_typeLayout layout) = StructTypeLayout fieldLayouts ->
  forallb (fun f => isSimpleVaryingType (IRStructField_getFieldType f)) fields = true ->
  List.length fields <= List.length fieldLayouts ->
  let bindingIndex :=
    match FindResourceInfo (VarLayout_resourceInfos layout) kind with
    | Some index => index
    | None => 0%Z
    end in
  exists v st' globals,
    createGLSLGlobalVaryings (IRStructType nm fields) layout kind stage st = OK (v, st') /\
    moduleBefore (module st') = moduleBefore (module st) ++ globals /\
    map globalResourceInfos globals =
    map (fun fl => Some [(kind, fieldBindingIndex bindingIndex kind fl)])
        (firstn (List.length fields) fieldLayouts).
Proof.
  intros Hf Hshape Hleaf Hlen bindingIndex.
  unfold createGLSLGlobalVaryings. fold bindingIndex.
  rewrite createGLSLGlobalVaryingsImpl_struct, Hshape.
  destruct (createFields_bindings kind stage bindingIndex [] fields [] fieldLayouts st
              Hf Hleaf Hlen) as (es & st' & globals & Hrun & Hmb & Hinfos).
  cbn [app List.length] in Hrun.
  eexists. exists st', globals.
  split; [eapply bind_step; [exact Hrun | reflexivity] | ].
  split; assumption.
Qed.

Lemma createGLSLGlobalVaryings_field_bindings_witness :
  let st := trivialEntryPoint in
  exists v st' globals,
    createGLSLGlobalVaryings fooType (exampleVarLayout "" 4 (VarLayout_typeLayout fooLayout))
      LayoutResourceKind_VaryingOutput Stage_Vertex st = OK (v, st') /\
    moduleBefore (module st') = moduleBefore (module st) ++ globals /\
    map globalResourceInfos globals =
    [Some [(LayoutResourceKind_VaryingOutput, 4%Z)];
     Some [(LayoutResourceKind_VaryingOutput, 5%Z)]].
Proof.
  apply (createGLSLGlobalVaryings_field_bindings
           "Foo" fooFields (exampleVarLayout "" 4 (VarLayout_typeLayout fooLayout))
           [exampleVarLayout "" 0 exampleTypeLayout;
            exampleVarLayout "" 1 exampleTypeLayout]
           LayoutResourceKind_VaryingOutput Stage_Vertex trivialEntryPoint).
  - exampleFresh.
  - reflexivity.
  - reflexivity.
  - cbn. lia.
Defined.

(** ** How the scalarized operations compose *)

Lemma find_skip {A} (f : A -> bool) (x : A) (a b : list A) :
  f x = false -> find f (a ++ x :: b) = find f (a ++ b).
Proof.
  intros Hx. induction a as [ | y a IH]; cbn.
  - rewrite Hx. reflexivity.
  - destruct (f y); [reflexivity | exact IH].
Qed.

Lemma find_insertAllAt (f : IRInst -> bool) b new : forall bs bs' pre post,
  insertAllAt b new bs = Some bs' ->
  Forall (fun x => f x = false) new ->
  find f (pre ++ flat_map children bs' ++ post)
  = find f (pre ++ flat_map children bs ++ post).
Proof.
  induction new as [ | x new IH]; intros bs bs' pre post H Hnew; cbn in H.
  - inversion H. reflexivity.
  - destruct (insertAt b x bs) as [bs1 | ] eqn:E; [ | discriminate H].
    inversion Hnew as [ | x0 new0 Hx Hrest]; subst.
    rewrite (IH _ _ pre post H Hrest).
    destruct (insertAt_ids _ _ _ E) as (l1 & l2 & E1 & E2).
    rewrite E1, E2.
    replace (pre ++ (l1 ++ x :: l2) ++ post) with ((pre ++ l1) ++ x :: (l2 ++ post))
      by (repeat rewrite <- app_assoc; reflexivity).
    rewrite (find_skip f x _ _ Hx).
    repeat rewrite <- app_assoc. reflexivity.
Qed.

(** An instruction that was there stays what a pointer to it points to,
    whatever is emitted. *)
Lemma deref_emitted b st st' new p i :
  emitted b st st' new -> freshIds st ->
  deref (module st) p = Some i -> deref (module st') p = Some i.
Proof.
  intros ((Hb & Ha & Hfi & Hft & Hfd & _) & Hn & Hids & Hins) Hf Hd.
  destruct p as [id | t v | k]; [ | exact Hd | exact Hd].
  cbn [deref] in *. unfold findInst in *. rewrite Hfi.
  destruct (Nat.eqb id (funcId (moduleFunc (module st)))).
  - rewrite <- Hd. unfold funcAsInst. rewrite Hfi, Hft, Hfd. reflexivity.
  - rewrite stateBlocks_allInsts in *. rewrite Hb, Ha.
    rewrite (find_insertAllAt _ b new _ _ _ _ Hins); [exact Hd | ].
    pose proof (find_some _ _ Hd) as [Hin Hid]. apply Nat.eqb_eq in Hid.
    destruct Hf as [Hall _]. rewrite stateBlocks_allInsts in Hall.
    rewrite Forall_forall in Hall. specialize (Hall i Hin).
    apply Forall_forall. intros x Hx. apply Nat.eqb_neq.
    assert (Hxin : In (instId x) (seq (nextInstId st) (List.length new))).
    { rewrite <- Hids. apply in_map. exact Hx. }
    apply in_seq in Hxin. lia.
Qed.

(** A pointer to an instruction just emitted points to it. *)
Lemma deref_new b st st' x :
  emitted b st st' [x] -> freshIds st ->
  deref (module st') (InstRef (instId x)) = Some x.
Proof.
  intros ((Hb & Ha & Hfi & _) & Hn & Hids & Hins) Hf.
  cbn in Hids. inversion Hids as [Hid].
  apply freshIds_parts in Hf. destruct Hf as (Fb & Fbl & Fa & Ff).
  cbn [deref]. unfold findInst. rewrite Hfi, Hid.
  destruct (Nat.eqb_spec (nextInstId st) (funcId (moduleFunc (module st)))) as [E | _];
    [lia | ].
  rewrite stateBlocks_allInsts, Hb.
  cbn in Hins. destruct (insertAt b x (stateBlocks st)) as [bs1 | ] eqn:E;
    [ | discriminate Hins].
  inversion Hins; subst bs1.
  destruct (insertAt_ids _ _ _ E) as (l1 & l2 & E1 & E2).
  rewrite E2. unfold stateBlocks in E1. rewrite E1 in Fbl.
  apply Forall_app in Fbl. destruct Fbl as [F1 F2].
  assert (Hskip : forall l rest,
             Forall (fun i => instId i < nextInstId st) l ->
             find (fun i => Nat.eqb (instId i) (nextInstId st)) (l ++ rest)
             = find (fun i => Nat.eqb (instId i) (nextInstId st)) rest).
  { induction l as [ | y l IH]; intros rest Hl; [reflexivity | ].
    inversion Hl; subst. cbn.
    destruct (Nat.eqb_spec (instId y) (nextInstId st)); [lia | apply IH; assumption]. }
  rewrite Hskip by exact Fb. rewrite <- app_assoc. rewrite Hskip by exact F1.
  cbn. rewrite Hid, Nat.eqb_refl. reflexivity.
Qed.

Lemma getDataType_OK p st t st' :
  getDataType p st = OK (t, st') ->
  st' = st /\ exists i, deref (module st) p = Some i /\ dataType i = t.
Proof.
  unfold getDataType. intros H.
  apply bind_OK in H. destruct H as (i & s & Hd & H).
  pose proof (derefM_deref _ _ _ _ Hd) as Hderef.
  apply derefM_OK in Hd. subst s.
  apply ret_OK in H. destruct H as [<- <-].
  split; [reflexivity | exists i; split; [exact Hderef | reflexivity] ].
Qed.

Lemma getFieldType_OK baseType k st t st' :
  getFieldType baseType k st = OK (t, st') ->
  st' = st /\ exists nm fields,
    baseType = IRStructType nm fields /\ findFieldType fields k = Some t.
Proof.
  unfold getFieldType.
  destruct baseType as [ | | | | | | nm fields | | | ]; try discriminate.
  destruct (findFieldType fields k) as [t0 | ] eqn:E; [ | discriminate].
  intros H. apply ret_OK in H. destruct H as [<- <-].
  split; [reflexivity | exists nm, fields; split; [reflexivity | exact E] ].
Qed.

(** The field of a value: one extraction, of the type of the field. *)
Lemma extractField_value_OK b rv ee k st v st' :
  extractField b (value rv) ee k st = OK (v, st') ->
  exists i nm fields t,
    deref (module st) rv = Some i /\ dataType i = IRStructType nm fields /\
    findFieldType fields k = Some t /\
    v = value (InstRef (nextInstId st)) /\
    emitted b st st'
      [mkIRInst (nextInstId st) kIROp_FieldExtract t [rv; StructKeyRef k] [] None].
Proof.
  cbn [extractField]. intros H.
  apply bind_OK in H. destruct H as (baseType & s1 & Hty & H).
  apply getDataType_OK in Hty. destruct Hty as (-> & i & Hd & Hdt).
  apply bind_OK in H. destruct H as (t & s1 & Hft & H).
  apply getFieldType_OK in Hft. destruct Hft as (-> & nm & fields & -> & Hfind).
  apply bind_OK in H. destruct H as (p & s1 & He & H).
  apply ret_OK in H. destruct H as [<- <-].
  apply emitInst_emitted in He. destruct He as [-> He].
  exists i, nm, fields, t. repeat (split; [assumption || reflexivity | ]). exact He.
Qed.

(** The field of an address: one field address, a pointer of the same
    kind to the type of the field. *)
Lemma extractField_address_OK b lv ee k st v st' :
  extractField b (address lv) ee k st = OK (v, st') ->
  exists i ptrOp nm fields t,
    deref (module st) lv = Some i /\
    dataType i = IRPtrTypeBase ptrOp (IRStructType nm fields) /\
    findFieldType fields k = Some t /\
    v = address (InstRef (nextInstId st)) /\
    emitted b st st'
      [mkIRInst (nextInstId st) kIROp_FieldAddress (IRPtrTypeBase ptrOp t)
                [lv; StructKeyRef k] [] None].
Proof.
  cbn [extractField]. intros H.
  apply bind_OK in H. destruct H as (ptrType & s1 & Hty & H).
  apply getDataType_OK in Hty. destruct Hty as (-> & i & Hd & Hdt).
  destruct ptrType as [ | | | | | | | ptrOp valType | | ]; try discriminate H.
  apply bind_OK in H. destruct H as (t & s1 & Hft & H).
  apply getFieldType_OK in Hft. destruct Hft as (-> & nm & fields & -> & Hfind).
  apply bind_OK in H. destruct H as (p & s1 & He & H).
  apply ret_OK in H. destruct H as [<- <-].
  apply emitInst_emitted in He. destruct He as [-> He].
  exists i, ptrOp, nm, fields, t. repeat (split; [assumption || reflexivity | ]). exact He.
Qed.

Lemma assign_fuel_store fuel b g x st st' :
  1 <= fuel ->
  assign_fuel fuel b (address g) (value x) st = OK (tt, st') ->
  emitted b st st' [mkIRInst (nextInstId st) kIROp_Store IRVoidType [g; x] [] None].
Proof.
  intros Hfuel H. destruct fuel as [ | fuel]; [lia | ].
  cbn [assign_fuel] in H.
  apply bind_OK in H. destruct H as (p & s1 & He & H).
  apply ret_OK in H. destruct H as [_ <-].
  apply emitInst_emitted in He. destruct He as [_ He]. exact He.
Qed.

Lemma emitted_nextInstId b st st' new :
  emitted b st st' new -> nextInstId st' = nextInstId st + List.length new.
Proof. intros (_ & Hn & _). exact Hn. Qed.

Lemma extractAndStore_loop b rv fuel i nm fields :
  1 <= fuel ->
  forall leaves ee st st',
    freshIds st ->
    deref (module st) rv = Some i ->
    dataType i = IRStructType nm fields ->
    forEachIndexed
      (fun ee leftElement =>
         rightElementVal <- extractField b (value rv) ee (fst leftElement) ;;
         assign_fuel fuel b (snd leftElement) rightElementVal)
      ee (addressLeaves leaves) st = OK (tt, st') ->
    exists types,
      map Some types = fieldTypesOf fields leaves /\
      emitted b st st' (extractAndStore (nextInstId st) rv leaves types).
Proof.
  intros Hfuel.
  induction leaves as [ | [k g] leaves IH]; intros ee st st' Hf Hd Hty H.
  - cbn in H. apply ret_OK in H. destruct H as [_ <-].
    exists []. split; [reflexivity | apply emitted_refl].
  - cbn [addressLeaves map forEachIndexed fst snd] in H.
    apply bind_OK in H. destruct H as (u & s2 & Hstep & H). destruct u.
    apply bind_OK in Hstep. destruct Hstep as (r & s1 & Hx & Hs).
    apply extractField_value_OK in Hx.
    destruct Hx as (i' & nm' & fields' & t & Hd' & Hty' & Hfind & -> & He1).
    rewrite Hd in Hd'. inversion Hd'; subst i'.
    rewrite Hty in Hty'. inversion Hty'; subst nm' fields'.
    pose proof (emitted_fresh He1 Hf) as Hf1.
    apply assign_fuel_store in Hs; [ | exact Hfuel].
    pose proof (emitted_fresh Hs Hf1) as Hf2.
    rewrite (emitted_nextInstId _ _ _ _ He1) in Hs. cbn [List.length] in Hs.
    replace (nextInstId st + 1) with (S (nextInstId st)) in Hs by lia.
    pose proof (emitted_trans He1 Hs) as He2. cbn [app] in He2.
    pose proof (deref_emitted _ _ _ _ _ _ He2 Hf Hd) as Hd2.
    destruct (IH (S ee) s2 st' Hf2 Hd2 Hty H) as (types & Htypes & Hrest).
    exists (t :: types).
    split; [cbn [map fieldTypesOf fst]; rewrite Hfind; f_equal; exact Htypes | ].
    cbn [extractAndStore].
    rewrite (emitted_nextInstId _ _ _ _ He2) in Hrest. cbn [List.length] in Hrest.
    replace (nextInstId st + 2) with (S (S (nextInstId st))) in Hrest by lia.
    exact (emitted_trans He2 Hrest).
Qed.

(** X10. Assigning a struct value to a tuple of output leaves (what the
    pass does with a returned struct): for each leaf, in order, one
    extraction of the field of its key from the value, of the type of
    the field, then one store of the field to the leaf; nothing else is
    emitted, and the assignment returns only if every key is a field of
    the struct. *)
Theorem assign_tuple_from_value
        (b : IRBuilder) (ty : IRType) (leaves : list (IRStructKey * IRInstPtr))
        (rv : IRInstPtr) (i : IRInst) (nm : string) (fields : list IRStructField)
        (st st' : PassState) :
  freshIds st ->
  deref (module st) rv = Some i ->
  dataType i = IRStructType nm fields ->
  assign b (tuple ty (addressLeaves leaves)) (value rv) st = OK (tt, st') ->
  exists types,
    map Some types = fieldTypesOf fields leaves /\
    emitted b st st' (extractAndStore (nextInstId st) rv leaves types).
Proof.
  intros Hf Hd Hty H. unfold assign in H.
  change (sizeOfVal (value rv)) with 1%nat in H.
  pose proof (sizeOfVal_pos (tuple ty (addressLeaves leaves))) as Hpos.
  destruct (sizeOfVal (tuple ty (addressLeaves leaves))) as [ | size]; [lia | ].
  cbn [Nat.add assign_fuel] in H.
  exact (extractAndStore_loop b rv (size + 1) i nm fields ltac:(lia)
           leaves 0%nat st st' Hf Hd Hty H).
Qed.

Lemma assign_fuel_load_store fuel b g x st st' i ptrOp t :
  1 <= fuel ->
  deref (module st) x = Some i ->
  dataType i = IRPtrTypeBase ptrOp t ->
  assign_fuel fuel b (address g) (address x) st = OK (tt, st') ->
  emitted b st st'
    [mkIRInst (nextInstId st) kIROp_Load t [x] [] None;
     mkIRInst (S (nextInstId st)) kIROp_Store IRVoidType
              [g; InstRef (nextInstId st)] [] None].
Proof.
  intros Hfuel Hd Hty H. destruct fuel as [ | fuel]; [lia | ].
  cbn [assign_fuel] in H.
  apply bind_OK in H. destruct H as (val & s1 & Hl & H).
  apply bind_OK in H. destruct H as (p & s2 & He & H).
  apply ret_OK in H. destruct H as [_ <-].
  unfold emitLoad in Hl.
  apply bind_OK in Hl. destruct Hl as (pt & s0 & Hpt & Hl).
  apply getDataType_OK in Hpt. destruct Hpt as (-> & i' & Hd' & Hdt).
  rewrite Hd in Hd'. inversion Hd'; subst i'. rewrite Hty in Hdt. subst pt.
  apply emitInst_emitted in Hl. destruct Hl as [-> Hl].
  apply emitInst_emitted in He. destruct He as [_ He].
  rewrite (emitted_nextInstId _ _ _ _ Hl) in He. cbn [List.length] in He.
  replace (nextInstId st + 1) with (S (nextInstId st)) in He by lia.
  exact (emitted_trans Hl He).
Qed.

Lemma addressLoadStore_loop b lv fuel i ptrOp nm fields :
  1 <= fuel ->
  forall leaves ee st st',
    freshIds st ->
    deref (module st) lv = Some i ->
    dataType i = IRPtrTypeBase ptrOp (IRStructType nm fields) ->
    forEachIndexed
      (fun ee leftElement =>
         rightElementVal <- extractField b (address lv) ee (fst leftElement) ;;
         assign_fuel fuel b (snd leftElement) rightElementVal)
      ee (addressLeaves leaves) st = OK (tt, st') ->
    exists types,
      map Some types = fieldTypesOf fields leaves /\
      emitted b st st' (addressLoadStore (nextInstId st) ptrOp lv leaves types).
Proof.
  intros Hfuel.
  induction leaves as [ | [k g] leaves IH]; intros ee st st' Hf Hd Hty H.
  - cbn in H. apply ret_OK in H. destruct H as [_ <-].
    exists []. split; [reflexivity | apply emitted_refl].
  - cbn [addressLeaves map forEachIndexed fst snd] in H.
    apply bind_OK in H. destruct H as (u & s2 & Hstep & H). destruct u.
    apply bind_OK in Hstep. destruct Hstep as (r & s1 & Hx & Hs).
    apply extractField_address_OK in Hx.
    destruct Hx as (i' & ptrOp' & nm' & fields' & t & Hd' & Hty' & Hfind & -> & He1).
    rewrite Hd in Hd'. inversion Hd'; subst i'.
    rewrite Hty in Hty'. inversion Hty'; subst ptrOp' nm' fields'.
    pose proof (emitted_fresh He1 Hf) as Hf1.
    pose proof (deref_new _ _ _ _ He1 Hf) as Hnew. cbn [instId] in Hnew.
    apply (assign_fuel_load_store fuel b g _ s1 s2 _ ptrOp t Hfuel Hnew eq_refl) in Hs.
    pose proof (emitted_fresh Hs Hf1) as Hf2.
    rewrite (emitted_nextInstId _ _ _ _ He1) in Hs. cbn [List.length] in Hs.
    replace (nextInstId st + 1) with (S (nextInstId st)) in Hs by lia.
    pose proof (emitted_trans He1 Hs) as He2. cbn [app] in He2.
    pose proof (deref_emitted _ _ _ _ _ _ He2 Hf Hd) as Hd2.
    destruct (IH (S ee) s2 st' Hf2 Hd2 Hty H) as (types & Htypes & Hrest).
    exists (t :: types).
    split; [cbn [map fieldTypesOf fst]; rewrite Hfind; f_equal; exact Htypes | ].
    cbn [addressLoadStore].
    rewrite (emitted_nextInstId _ _ _ _ He2) in Hrest. cbn [List.length] in Hrest.
    replace (nextInstId st + 3) with (S (S (S (nextInstId st)))) in Hrest by lia.
    exact (emitted_trans He2 Hrest).
Qed.

(** X11. Assigning the struct variable at an address to a tuple of output
    leaves (what the pass does before each return for an [out] or
    [inout] struct parameter): for each leaf, in order, the address of
    the field of its key in the variable (a pointer of the kind of the
    variable to the type of the field), one load of the field, and one
    store of what was loaded to the leaf. *)
Theorem assign_tuple_from_address
        (b : IRBuilder) (ty : IRType) (leaves : list (IRStructKey * IRInstPtr))
        (lv : IRInstPtr) (i : IRInst) (ptrOp : PtrOp) (nm : string)
        (fields : list IRStructField) (st st' : PassState) :
  freshIds st ->
  deref (module st) lv = Some i ->
  dataType i = IRPtrTypeBase ptrOp (IRStructType nm fields) ->
  assign b (tuple ty (addressLeaves leaves)) (address lv) st = OK (tt, st') ->
  exists types,
    map Some types = fieldTypesOf fields leaves /\
    emitted b st st' (addressLoadStore (nextInstId st) ptrOp lv leaves types).
Proof.
  intros Hf Hd Hty H. unfold assign in H.
  change (sizeOfVal (address lv)) with 1%nat in H.
  pose proof (sizeOfVal_pos (tuple ty (addressLeaves leaves))) as Hpos.
  destruct (sizeOfVal (tuple ty (addressLeaves leaves))) as [ | size]; [lia | ].
  cbn [Nat.add assign_fuel] in H.
  exact (addressLoadStore_loop b lv (size + 1) i ptrOp nm fields ltac:(lia)
           leaves 0%nat st st' Hf Hd Hty H).
Qed.

Lemma addressAndStore_loop b lv fuel i ptrOp nm fields :
  1 <= fuel ->
  forall leaves ee st st',
    freshIds st ->
    deref (module st) lv = Some i ->
    dataType i = IRPtrTypeBase ptrOp (IRStructType nm fields) ->
    forEachIndexed
      (fun ee rightElement =>
         leftElementVal <- extractField b (address lv) ee (fst rightElement) ;;
         assign_fuel fuel b leftElementVal (snd rightElement))
      ee (valueLeaves leaves) st = OK (tt, st') ->
    exists types,
      map Some types = fieldTypesOf fields leaves /\
      emitted b st st' (addressAndStore (nextInstId st) ptrOp lv leaves types).
Proof.
  intros Hfuel.
  induction leaves as [ | [k g] leaves IH]; intros ee st st' Hf Hd Hty H.
  - cbn in H. apply ret_OK in H. destruct H as [_ <-].
    exists []. split; [reflexivity | apply emitted_refl].
  - cbn [valueLeaves map forEachIndexed fst snd] in H.
    apply bind_OK in H. destruct H as (u & s2 & Hstep & H). destruct u.
    apply bind_OK in Hstep. destruct Hstep as (r & s1 & Hx & Hs).
    apply extractField_address_OK in Hx.
    destruct Hx as (i' & ptrOp' & nm' & fields' & t & Hd' & Hty' & Hfind & -> & He1).
    rewrite Hd in Hd'. inversion Hd'; subst i'.
    rewrite Hty in Hty'. inversion Hty'; subst ptrOp' nm' fields'.
    pose proof (emitted_fresh He1 Hf) as Hf1.
    apply assign_fuel_store in Hs; [ | exact Hfuel].
    pose proof (emitted_fresh Hs Hf1) as Hf2.
    rewrite (emitted_nextInstId _ _ _ _ He1) in Hs. cbn [List.length] in Hs.
    replace (nextInstId st + 1) with (S (nextInstId st)) in Hs by lia.
    pose proof (emitted_trans He1 Hs) as He2. cbn [app] in He2.
    pose proof (deref_emitted _ _ _ _ _ _ He2 Hf Hd) as Hd2.
    destruct (IH (S ee) s2 st' Hf2 Hd2 Hty H) as (types & Htypes & Hrest).
    exists (t :: types).
    split; [cbn [map fieldTypesOf fst]; rewrite Hfind; f_equal; exact Htypes | ].
    cbn [addressAndStore].
    rewrite (emitted_nextInstId _ _ _ _ He2) in Hrest. cbn [List.length] in Hrest.
    replace (nextInstId st + 2) with (S (S (nextInstId st))) in Hrest by lia.
    exact (emitted_trans He2 Hrest).
Qed.

(** X12. Assigning a tuple of input leaves to the struct variable at an
    address (what the pass does at the top of the function for an
    [inout] struct parameter): for each leaf, in order, the address of
    the field of its key in the variable, then one store of the leaf to
    that address. *)
Theorem assign_address_from_tuple
        (b : IRBuilder) (ty : IRType) (leaves : list (IRStructKey * IRInstPtr))
        (lv : IRInstPtr) (i : IRInst) (ptrOp : PtrOp) (nm : string)
        (fields : list IRStructField) (st st' : PassState) :
  freshIds st ->
  deref (module st) lv = Some i ->
  dataType i = IRPtrTypeBase ptrOp (IRStructType nm fields) ->
  assign b (address lv) (tuple ty (valueLeaves leaves)) st = OK (tt, st') ->
  exists types,
    map Some types = fieldTypesOf fields leaves /\
    emitted b st st' (addressAndStore (nextInstId st) ptrOp lv leaves types).
Proof.
  intros Hf Hd Hty H. unfold assign in H.
  change (sizeOfVal (address lv)) with 1%nat in H.
  pose proof (sizeOfVal_pos (tuple ty (valueLeaves leaves))) as Hpos.
  destruct (sizeOfVal (tuple ty (valueLeaves leaves))) as [ | size]; [lia | ].
  cbn [Nat.add assign_fuel] in H.
  exact (addressAndStore_loop b lv (S size) i ptrOp nm fields ltac:(lia)
           leaves 0%nat st st' Hf Hd Hty H).
Qed.

Lemma assign_tuple_from_value_witness :
  let st := fooReturnEntryPoint in
  let b := insertIntoBlock 0 in
  let st' := stateAfter (assign b (tuple fooType (addressLeaves fooLeaves))
                                (value (InstRef 2))) st in
  exists types,
    map Some types = fieldTypesOf fooFields fooLeaves /\
    emitted b st st' (extractAndStore 1000 (InstRef 2) fooLeaves types).
Proof.
  apply (assign_tuple_from_value (insertIntoBlock 0) fooType fooLeaves (InstRef 2)
           (mkIRInst 2 (kIROp_Other 0) fooType [] [] None) "Foo" fooFields
           fooReturnEntryPoint
           (stateAfter (assign (insertIntoBlock 0)
                               (tuple fooType (addressLeaves fooLeaves))
                               (value (InstRef 2))) fooReturnEntryPoint)).
  - exampleFresh.
  - reflexivity.
  - reflexivity.
  - vm_compute. reflexivity.
Defined.

Lemma assign_tuple_from_address_witness :
  let st := fooVarEntryPoint in
  let b := insertBeforeInst 3 in
  let st' := stateAfter (assign b (tuple fooType (addressLeaves fooLeaves))
                                (address (InstRef 2))) st in
  exists types,
    map Some types = fieldTypesOf fooFields fooLeaves /\
    emitted b st st' (addressLoadStore 1000 kIROp_PtrType (InstRef 2) fooLeaves types).
Proof.
  apply (assign_tuple_from_address (insertBeforeInst 3) fooType fooLeaves (InstRef 2)
           (mkIRInst 2 kIROp_Var (getPtrType fooType) [] [] None) kIROp_PtrType
           "Foo" fooFields fooVarEntryPoint
           (stateAfter (assign (insertBeforeInst 3)
                               (tuple fooType (addressLeaves fooLeaves))
                               (address (InstRef 2))) fooVarEntryPoint)).
  - exampleFresh.
  - reflexivity.
  - reflexivity.
  - vm_compute. reflexivity.
Defined.

Lemma assign_address_from_tuple_witness :
  let st := fooVarEntryPoint in
  let b := insertBeforeInst 3 in
  let st' := stateAfter (assign b (address (InstRef 2))
                                (tuple fooType (valueLeaves fooLeaves))) st in
  exists types,
    map Some types = fieldTypesOf fooFields fooLeaves /\
    emitted b st st' (addressAndStore 1000 kIROp_PtrType (InstRef 2) fooLeaves types).
Proof.
  apply (assign_address_from_tuple (insertBeforeInst 3) fooType fooLeaves (InstRef 2)
           (mkIRInst 2 kIROp_Var (getPtrType fooType) [] [] None) kIROp_PtrType
           "Foo" fooFields fooVarEntryPoint
           (stateAfter (assign (insertBeforeInst 3) (address (InstRef 2))
                               (tuple fooType (valueLeaves fooLeaves))) fooVarEntryPoint)).
  - exampleFresh.
  - reflexivity.
  - reflexivity.
  - vm_compute. reflexivity.
Defined.

(** ** Reading scalarized values *)

Lemma getSubscriptVal_fields_keys b indexVal :
  forall es fields st rs st',
    (fix eachField (fs : list IRStructField)
         (es : list (IRStructKey * ScalarizedVal.t)) {struct es}
       : M (list (IRStructKey * ScalarizedVal.t)) :=
       match fs with
       | [] =>
           match es with
           | [] => ret []
           | _ :: _ => abort "assertion failed: elementCounter == elementCount"
           end
       | field :: fs' =>
           match es with
           | [] => abort "assertion failed: elementIndex < elementCount"
           | (key, inputVal) :: es' =>
               let tupleElementType := IRStructField_getFieldType field in
               resultVal <- getSubscriptVal b tupleElementType inputVal indexVal ;;
               others <- eachField fs' es' ;;
               ret ((key, resultVal) :: others)
           end
       end) fields es st = OK (rs, st') ->
    List.length fields = List.length es /\ map fst rs = map fst es.
Proof.
  induction es as [ | [key v] es IH]; intros fields st rs st' H.
  - destruct fields; [ | discriminate H].
    apply ret_OK in H. destruct H as [<- _]. split; reflexivity.
  - destruct fields as [ | field fields]; [discriminate H | ].
    apply bind_OK in H. destruct H as (resultVal & s1 & _ & H).
    apply bind_OK in H. destruct H as (others & s2 & Hothers & H).
    apply ret_OK in H. destruct H as [<- _].
    destruct (IH _ _ _ _ Hothers) as [Hlen Hkeys].
    split; [cbn; rewrite Hlen; reflexivity | cbn; rewrite Hkeys; reflexivity].
Qed.

(** The element of a tuple is read only at a struct type with as many
    fields as the tuple has elements. *)
Lemma getSubscriptVal_tuple_struct b elementType ty es indexVal st r st' :
  getSubscriptVal b elementType (tuple ty es) indexVal st = OK (r, st') ->
  exists nm fields,
    elementType = IRStructType nm fields /\
    List.length fields = List.length es.
Proof.
  intros H. cbn [getSubscriptVal] in H.
  destruct elementType as [ | | | | | | nm fields | | | ]; try discriminate H.
  apply bind_OK in H. destruct H as (rs & s1 & Hrs & _).
  exists nm, fields. split; [reflexivity | ].
  exact (proj1 (getSubscriptVal_fields_keys b indexVal _ _ _ _ _ Hrs)).
Qed.

(** X13. The element of a scalarized tuple at an index is a tuple of the
    element type with the same keys in the same order.  It is returned
    only when the element type is a struct with exactly as many fields
    as the tuple has elements: a field without an element, or an element
    without a field, fails a release assertion.  (So a tuple from which
    the materializer has left out a void field has no element.) *)
Theorem getSubscriptVal_tuple_shape
        (b : IRBuilder) (elementType ty : IRType)
        (es : list (IRStructKey * ScalarizedVal.t)) (indexVal : IRInstPtr)
        (st : PassState) (r : ScalarizedVal.t) (st' : PassState) :
  getSubscriptVal b elementType (tuple ty es) indexVal st = OK (r, st') ->
  exists nm fields es',
    elementType = IRStructType nm fields /\
    List.length fields = List.length es /\
    r = tuple elementType es' /\
    map fst es' = map fst es.
Proof.
  intros H. cbn [getSubscriptVal] in H.
  destruct elementType as [ | | | | | | nm fields | | | ]; try discriminate H.
  apply bind_OK in H. destruct H as (rs & s1 & Hrs & H).
  apply ret_OK in H. destruct H as [<- _].
  destruct (getSubscriptVal_fields_keys b indexVal _ _ _ _ _ Hrs) as [Hlen Hkeys].
  exists nm, fields, rs. repeat split; assumption.
Qed.

Lemma mapM_values b fuel : 1 <= fuel -> forall leaves st,
  mapM (fun element => materializeValue_fuel fuel b (snd element)) (valueLeaves leaves) st
  = OK (map snd leaves, st).
Proof.
  intros Hfuel. destruct fuel as [ | fuel]; [lia | ].
  induction leaves as [ | [k g] leaves IH]; intros st; [reflexivity | ].
  cbn [valueLeaves map mapM snd].
  eapply bind_step; [reflexivity | ].
  eapply bind_step; [apply IH | reflexivity].
Qed.

Lemma materializeValue_fuel_struct b fuel ty leaves st :
  2 <= fuel -> isArrayType ty = false ->
  materializeValue_fuel fuel b (tuple ty (valueLeaves leaves)) st
  = emitConstructorInst b ty (map snd leaves) st.
Proof.
  intros Hfuel Hty. destruct fuel as [ | fuel]; [lia | ].
  cbn [materializeValue_fuel]. unfold materializeTupleValueWith.
  destruct ty; try discriminate Hty;
    (eapply bind_step; [apply mapM_values; lia | reflexivity]).
Qed.

Lemma materializeFuel_tuple ty es : 2 <= materializeFuel (tuple ty es).
Proof.
  unfold materializeFuel.
  pose proof (sizeOfVal_pos (tuple ty es)). nia.
Qed.

(** X14. Reading a tuple of input leaves as a value of a type that is not
    an array (a struct parameter): no leaf is loaded or copied; exactly
    one constructor of the type of the tuple is emitted, over the leaves
    in the order of the tuple, and it is the value. *)
Theorem materializeValue_struct_of_values
        (b : IRBuilder) (ty : IRType) (leaves : list (IRStructKey * IRInstPtr))
        (st : PassState) (r : IRInstPtr) (st' : PassState) :
  isArrayType ty = false ->
  materializeValue b (tuple ty (valueLeaves leaves)) st = OK (r, st') ->
  r = InstRef (nextInstId st) /\
  emitted b st st'
    [mkIRInst (nextInstId st) kIROp_Construct ty (map snd leaves) [] None].
Proof.
  intros Hty H. unfold materializeValue in H.
  rewrite materializeValue_fuel_struct in H;
    [ | apply materializeFuel_tuple | exact Hty].
  apply emitInst_emitted in H. exact H.
Qed.

Lemma getSubscriptVal_fields_values b indexVal :
  forall leaves fields st rs st',
    (fix eachField (fs : list IRStructField)
         (es : list (IRStructKey * ScalarizedVal.t)) {struct es}
       : M (list (IRStructKey * ScalarizedVal.t)) :=
       match fs with
       | [] =>
           match es with
           | [] => ret []
           | _ :: _ => abort "assertion failed: elementCounter == elementCount"
           end
       | field :: fs' =>
           match es with
           | [] => abort "assertion failed: elementIndex < elementCount"
           | (key, inputVal) :: es' =>
               let tupleElementType := IRStructField_getFieldType field in
               resultVal <- getSubscriptVal b tupleElementType inputVal indexVal ;;
               others <- eachField fs' es' ;;
               ret ((key, resultVal) :: others)
           end
       end) fields (valueLeaves leaves) st = OK (rs, st') ->
    rs = valueLeaves (readLeaves (nextInstId st) leaves) /\
    emitted b st st' (elementReads (nextInstId st) fields leaves indexVal).
Proof.
  induction leaves as [ | [key g] leaves IH]; intros fields st rs st' H.
  - destruct fields; [ | discriminate H].
    apply ret_OK in H. destruct H as [<- <-].
    split; [reflexivity | apply emitted_refl].
  - destruct fields as [ | field fields]; [discriminate H | ].
    cbn [valueLeaves map fst snd] in H.
    apply bind_OK in H. destruct H as (resultVal & s1 & Hread & H).
    apply bind_OK in H. destruct H as (others & s2 & Hothers & H).
    apply ret_OK in H. destruct H as [<- <-].
    cbn [getSubscriptVal] in Hread.
    apply bind_OK in Hread. destruct Hread as (p & s0 & He & Hret).
    apply ret_OK in Hret. destruct Hret as [<- <-].
    apply emitInst_emitted in He. destruct He as [-> He].
    destruct (IH _ _ _ _ Hothers) as [Hrs Hrest].
    rewrite (emitted_nextInstId _ _ _ _ He) in Hrest, Hrs. cbn [List.length] in Hrest, Hrs.
    replace (nextInstId st + 1) with (S (nextInstId st)) in Hrest, Hrs by lia.
    subst others.
    split; [reflexivity | ].
    exact (emitted_trans He Hrest).
Qed.

Lemma readLeaves_length n leaves : List.length (readLeaves n leaves) = List.length leaves.
Proof.
  revert n. induction leaves as [ | [k g] leaves IH]; intros n; cbn;
    [reflexivity | rewrite IH; reflexivity].
Qed.

Lemma elementReads_length n fields leaves index :
  List.length fields = List.length leaves ->
  List.length (elementReads n fields leaves index) = List.length leaves.
Proof.
  revert n fields. induction leaves as [ | [k g] leaves IH]; intros n fields Hlen.
  - destruct fields; [reflexivity | discriminate Hlen].
  - destruct fields as [ | f fields]; [discriminate Hlen | ].
    cbn. rewrite IH; [reflexivity | ]. cbn in Hlen. lia.
Qed.

Lemma arrayReads_loop b fuel nm fields ty leaves :
  2 <= fuel ->
  forall indices st rs st',
    mapM (fun ii =>
            arrayElementPseudoVal <-
              getSubscriptValAt b (IRStructType nm fields)
                                (tuple ty (valueLeaves leaves)) ii ;;
            materializeValue_fuel fuel b arrayElementPseudoVal)
         indices st = OK (rs, st') ->
    rs = arrayResults (nextInstId st) (List.length leaves) (List.length indices) /\
    emitted b st st'
      (arrayReads (nextInstId st) (IRStructType nm fields) fields leaves indices) /\
    nextInstId st'
    = nextInstId st + List.length indices * S (List.length leaves).
Proof.
  intros Hfuel.
  induction indices as [ | ii indices IH]; intros st rs st' H.
  - cbn in H. apply ret_OK in H. destruct H as [<- <-].
    split; [reflexivity | ]. split; [apply emitted_refl | cbn; lia].
  - cbn [mapM] in H.
    apply bind_OK in H. destruct H as (y & s2 & Hstep & H).
    apply bind_OK in H. destruct H as (ys & s3 & Hrest & H).
    apply ret_OK in H. destruct H as [<- <-].
    apply bind_OK in Hstep. destruct Hstep as (pseudo & s1 & Hsub & Hmat).
    unfold getSubscriptValAt in Hsub.
    pose proof (getSubscriptVal_tuple_struct _ _ _ _ _ _ _ _ Hsub)
      as (nm' & fields' & Hty & Hlen).
    inversion Hty; subst nm' fields'.
    unfold valueLeaves in Hlen. rewrite length_map in Hlen.
    cbn [getSubscriptVal] in Hsub.
    apply bind_OK in Hsub. destruct Hsub as (elements & s0 & Hfields & Hret).
    apply ret_OK in Hret. destruct Hret as [<- <-].
    apply getSubscriptVal_fields_values in Hfields. destruct Hfields as [-> Hreads].
    rewrite materializeValue_fuel_struct in Hmat; [ | exact Hfuel | reflexivity].
    apply emitInst_emitted in Hmat. destruct Hmat as [-> Hcons].
    pose proof (emitted_nextInstId _ _ _ _ Hreads) as Hn1.
    rewrite (elementReads_length _ _ _ _ Hlen) in Hn1.
    rewrite Hn1 in Hcons |- *.
    pose proof (emitted_trans Hreads Hcons) as Hstep.
    pose proof (emitted_nextInstId _ _ _ _ Hcons) as Hn2. cbn [List.length] in Hn2.
    destruct (IH _ _ _ Hrest) as (-> & Hreads' & Hn3).
    assert (En : nextInstId s2 = nextInstId st + S (List.length leaves)) by lia.
    rewrite En in Hreads', Hn3 |- *.
    split; [cbn [List.length arrayResults]; reflexivity | ].
    split.
    + cbn [arrayReads].
      pose proof (emitted_trans Hstep Hreads') as Hall.
      rewrite <- app_assoc in Hall. cbn [app] in Hall. exact Hall.
    + cbn [List.length]. lia.
Qed.

(** X15. Reading a tuple of input leaves as an array of structs (an array
    of structs that came in as one array per field): for each index of
    the array, in order, one element is read from the array of each
    leaf, of the type of the field at the position of the leaf, and a
    struct is constructed from them; then one array is made of the
    structs, and it is the value.  The number of elements is the element
    count of the array type read as a [UInt]. *)
Theorem materializeValue_array_of_structs
        (b : IRBuilder) (nm : string) (fields : list IRStructField) (count : Z)
        (leaves : list (IRStructKey * IRInstPtr))
        (st : PassState) (r : IRInstPtr) (st' : PassState) :
  let elementType := IRStructType nm fields in
  let type := IRArrayType elementType count in
  let arrayElementCount := Z.to_nat (UInt_wrap count) in
  let n := nextInstId st in
  let last := n + arrayElementCount * S (List.length leaves) in
  materializeValue b (tuple type (valueLeaves leaves)) st = OK (r, st') ->
  r = InstRef last /\
  emitted b st st'
    (arrayReads n elementType fields leaves (seq 0 arrayElementCount) ++
     [mkIRInst last kIROp_makeArray type
               (arrayResults n (List.length leaves) arrayElementCount) [] None]).
Proof.
  intros elementType type arrayElementCount n last H.
  unfold materializeValue in H.
  pose proof (sizeOfVal_pos (tuple type (valueLeaves leaves))) as Hsize.
  pose proof (maxTupleTypeSize_tuple_type type (valueLeaves leaves)) as Hmax.
  pose proof (typeSize_pos elementType) as Helem.
  change (typeSize type) with (S (typeSize elementType)) in Hmax.
  unfold materializeFuel in H.
  remember (sizeOfVal (tuple type (valueLeaves leaves))
            * S (maxTupleTypeSize (tuple type (valueLeaves leaves)))
            + tupleTypeSize (tuple type (valueLeaves leaves))) as fuel eqn:Efuel.
  assert (Hfuel : 2 <= fuel) by (subst fuel; nia).
  clear Efuel.
  cbn [materializeValue_fuel] in H. unfold materializeTupleValueWith in H.
  fold elementType in H. fold arrayElementCount in H. fold type in H.
  apply bind_OK in H. destruct H as (vals & s1 & Hloop & H).
  destruct (arrayReads_loop b fuel nm fields type leaves Hfuel _ _ _ _ Hloop)
    as (-> & Hreads & Hn).
  rewrite length_seq in Hn.
  apply emitInst_emitted in H. destruct H as [-> Hmake].
  rewrite length_seq in Hmake. rewrite Hn in Hmake |- *.
  split; [reflexivity | ].
  exact (emitted_trans Hreads Hmake).
Qed.

Lemma getSubscriptVal_tuple_shape_witness :
  exists nm fields es',
    fooType = IRStructType nm fields /\
    List.length fields = List.length (valueLeaves fooLeaves) /\
    tuple fooType (valueLeaves (readLeaves 1000 fooLeaves)) = tuple fooType es' /\
    map fst es' = map fst (valueLeaves fooLeaves).
Proof.
  apply (getSubscriptVal_tuple_shape
           (insertBeforeInst 2) fooType (IRArrayType fooType 3) (valueLeaves fooLeaves)
           (getIntValue getIntType 1)
           (inParameterLoop Stage_Vertex 2 inoutEntryPoint)
           (tuple fooType (valueLeaves (readLeaves 1000 fooLeaves)))
           (stateAfter (getSubscriptVal (insertBeforeInst 2) fooType
                          (tuple (IRArrayType fooType 3) (valueLeaves fooLeaves))
                          (getIntValue getIntType 1))
                       (inParameterLoop Stage_Vertex 2 inoutEntryPoint))).
  vm_compute. reflexivity.
Defined.

Lemma materializeValue_struct_of_values_witness :
  let st := inParameterLoop Stage_Vertex 2 inoutEntryPoint in
  let b := insertBeforeInst 2 in
  let st' := stateAfter (materializeValue b (tuple fooType (valueLeaves fooLeaves))) st in
  InstRef 1000 = InstRef (nextInstId st) /\
  emitted b st st'
    [mkIRInst (nextInstId st) kIROp_Construct fooType (map snd fooLeaves) [] None].
Proof.
  apply (materializeValue_struct_of_values
           (insertBeforeInst 2) fooType fooLeaves
           (inParameterLoop Stage_Vertex 2 inoutEntryPoint) (InstRef 1000)
           (stateAfter (materializeValue (insertBeforeInst 2)
                          (tuple fooType (valueLeaves fooLeaves)))
                       (inParameterLoop Stage_Vertex 2 inoutEntryPoint))).
  - reflexivity.
  - vm_compute. reflexivity.
Defined.

Lemma materializeValue_array_of_structs_witness :
  let st := inParameterLoop Stage_Vertex 2 inoutEntryPoint in
  let b := insertBeforeInst 2 in
  let type := IRArrayType fooType 2 in
  let st' := stateAfter (materializeValue b (tuple type (valueLeaves fooLeaves))) st in
  InstRef 1006 = InstRef (1000 + 2 * 3) /\
  emitted b st st'
    (arrayReads 1000 fooType fooFields fooLeaves [0%nat; 1%nat] ++
     [mkIRInst (1000 + 2 * 3) kIROp_makeArray type
               (arrayResults 1000 2 2) [] None]).
Proof.
  apply (materializeValue_array_of_structs
           (insertBeforeInst 2) "Foo" fooFields 2 fooLeaves
           (inParameterLoop Stage_Vertex 2 inoutEntryPoint) (InstRef 1006)
           (stateAfter (materializeValue (insertBeforeInst 2)
                          (tuple (IRArrayType fooType 2) (valueLeaves fooLeaves)))
                       (inParameterLoop Stage_Vertex 2 inoutEntryPoint))).
  vm_compute. reflexivity.
Defined.

(* ------------------------------------------------------------------ *)
(** ** Parameters of ray-tracing entry points *)

Lemma map_replaceInInst_noUses id new (l : list IRInst) :
  new <> InstRef id ->
  Forall (fun i => ~ In (InstRef id) (operands i))
         (map (replaceInInst (InstRef id) new) l).
Proof.
  intros Hne. apply Forall_forall. intros i Hi.
  apply in_map_iff in Hi. destruct Hi as [j [Hj _]]. subst i. cbn.
  intros Hin. apply in_map_iff in Hin. destruct Hin as [q [Hq _]].
  revert Hq. apply replacePtr_not_old; [right; exact I | exact Hne | ].
  intros q'. apply IRInstPtr_eqb_InstRef_false.
Qed.

(** Adding a decoration to a fresh global parameter that is still the
    last instruction after the function. *)
Lemma addDecoration_last_after n0 b f a stg sk tr bd id o t ops ds grv d :
  Forall (fun i => instId i < id) b ->
  Forall (fun i => instId i < id) (flat_map children (blocks f)) ->
  Forall (fun i => instId i < id) a ->
  funcId f < id ->
  addDecoration (InstRef id) d
    (mkPassState n0 (mkIRModule b f (a ++ [mkIRInst id o t ops ds grv])) stg sk tr bd) =
  OK (tt,
      mkPassState n0 (mkIRModule b f (a ++ [mkIRInst id o t ops (d :: ds) grv]))
                  stg sk tr bd).
Proof.
  intros Hb Hbl Ha Hfn.
  unfold addDecoration, modify. cbn.
  destruct (Nat.eqb_spec id (funcId f)); [lia | ].
  unfold mapInsts, set_module, set_blocks. cbn.
  rewrite map_app, (map_addDecorationTo_fresh d Hb), (map_addDecorationTo_fresh d Ha).
  rewrite (@map_blocks_fresh (addDecorationTo id d) _ _
             (fun l => @map_addDecorationTo_fresh id d l) Hbl).
  cbn. unfold addDecorationTo. cbn. rewrite Nat.eqb_refl.
  destruct f; reflexivity.
Qed.

Lemma legalizeRayTracing_step n b f a stg sk tr bd pp paramLayout :
  let old := InstRef (instId pp) in
  let new := InstRef n in
  let st := mkPassState n (mkIRModule b f a) stg sk tr bd in
  freshIds st ->
  legalizeRayTracingEntryPointParameterForGLSL pp paramLayout st =
  OK (tt,
      mkPassState (S n)
        (mkIRModule
           (map (replaceInInst old new) b ++
            [mkIRInst n kIROp_GlobalParam (dataType pp) []
                      [IRLayoutDecoration (Layout_VarLayout paramLayout)] None])
           (mkIRFunc (funcId f) (fullType f)
              (map (fun bb => mkIRBlock (map (replaceInInst old new) (children bb)))
                   (blocks f))
              (IRDependsOnDecoration new ::
               map (replaceInDecoration old new) (funcDecorations f)))
           (map (replaceInInst old new) a))
        stg sk tr bd).
Proof.
  intros old new st Hfresh.
  destruct (freshIds_parts Hfresh) as [Hb [Hbl [Ha Hf]]]. cbn in Hb, Hbl, Ha, Hf.
  unfold legalizeRayTracingEntryPointParameterForGLSL, st.
  eapply bind_step; [apply addGlobalParam_step | ].
  eapply bind_step; [apply addDecoration_last_after; assumption | ].
  eapply bind_step; [apply moveValueBefore_step; assumption | ].
  eapply bind_step; [reflexivity | ].
  eapply bind_step; [reflexivity | ].
  unfold addDecoration, modify. cbn. rewrite Nat.eqb_refl.
  unfold set_module, set_func. cbn. rewrite map_app. reflexivity.
Qed.

(** X16. In a ray-tracing stage, a parameter that is not an output stream
    becomes one global parameter of the parameter's own type (pointer
    included), with the parameter's layout, put last before the function;
    no instruction is added to or taken from the function; every use of
    the parameter becomes a use of the global; and the function is
    decorated as depending on the global. *)
Theorem legalizeEntryPointParameterForGLSL_ray_tracing pp paramLayout st :
  freshIds st ->
  isRayTracingStage (contextStage st) = true ->
  isStreamOutParam (dataType pp) = false ->
  In pp (allInsts (module st)) ->
  let old := InstRef (instId pp) in
  let new := InstRef (nextInstId st) in
  let replaced := replaceInInst old new in
  exists st',
    legalizeEntryPointParameterForGLSL pp paramLayout st = OK (tt, st') /\
    moduleBefore (module st') =
      map replaced (moduleBefore (module st)) ++
      [mkIRInst (nextInstId st) kIROp_GlobalParam (dataType pp) []
                [IRLayoutDecoration (Layout_VarLayout paramLayout)] None] /\
    stateBlocks st' =
      map (fun bb => mkIRBlock (map replaced (children bb))) (stateBlocks st) /\
    moduleAfter (module st') = map replaced (moduleAfter (module st)) /\
    funcDecorations (moduleFunc (module st')) =
      IRDependsOnDecoration new ::
      map (replaceInDecoration old new) (funcDecorations (moduleFunc (module st))) /\
    noUsesOf old st' /\
    nextInstId st' = S (nextInstId st) /\
    sink st' = sink st /\
    extensionUsageTracker st' = extensionUsageTracker st /\
    contextBuilder st' = contextBuilder st.
Proof.
  intros Hfresh Hrt Hns Hin old new replaced.
  assert (Hne : new <> old).
  { destruct Hfresh as [Hall _].
    rewrite Forall_forall in Hall. pose proof (Hall pp Hin) as Hlt.
    unfold new, old. intros E. inversion E. lia. }
  destruct st as [n [b f a] stg sk tr bd]. cbn in Hrt, Hin, Hne.
  eexists. split.
  - unfold legalizeEntryPointParameterForGLSL.
    eapply bind_step; [reflexivity | ]. cbn [contextStage].
    unfold isStreamOutParam in Hns.
    destruct (asOutTypeBase (dataType pp)) as [[po vt] | ];
      [destruct vt; try discriminate | ]; rewrite Hrt;
      apply legalizeRayTracing_step; exact Hfresh.
  - cbn. repeat (split; [reflexivity | ]).
    split; [ | repeat split].
    unfold noUsesOf, allInsts. cbn.
    apply Forall_app. split.
    + apply Forall_app. split; [apply map_replaceInInst_noUses; exact Hne | ].
      constructor; [ | constructor]. cbn. intros [].
    + apply Forall_app. split; [ | apply map_replaceInInst_noUses; exact Hne].
      clear Hin Hfresh. induction (blocks f) as [ | bb bs IH]; cbn; [constructor | ].
      apply Forall_app. split; [apply map_replaceInInst_noUses; exact Hne | exact IH].
Qed.

Lemma legalizeEntryPointParameterForGLSL_ray_tracing_witness :
  let old := InstRef 10 in
  let new := InstRef 20 in
  exists st',
    legalizeEntryPointParameterForGLSL payloadParam payloadLayout payloadState
      = OK (tt, st') /\
    moduleBefore (module st') =
      [mkIRInst 20 kIROp_GlobalParam (IRPtrTypeBase kIROp_InOutType payloadType) []
                [IRLayoutDecoration (Layout_VarLayout payloadLayout)] None] /\
    stateBlocks st' =
      [mkIRBlock [payloadParam;
                  mkIRInst 11 kIROp_Load payloadType [InstRef 20] [] None;
                  mkIRInst 12 kIROp_ReturnVoid IRVoidType [] [] None]] /\
    funcDecorations (moduleFunc (module st')) = [IRDependsOnDecoration new] /\
    noUsesOf old st'.
Proof.
  intros old new.
  assert (Hfresh : freshIds payloadState).
  { split; [ | cbn; lia]. repeat constructor; cbn; lia. }
  destruct (@legalizeEntryPointParameterForGLSL_ray_tracing
              payloadParam payloadLayout payloadState Hfresh eq_refl eq_refl
              (or_introl eq_refl))
    as [st' [Hrun [Hb [Hbl [_ [Hd [Hno _]]]]]]].
  exists st'. repeat split; assumption.
Defined.

(* ------------------------------------------------------------------ *)
(** ** Input parameters of a simple type *)

Lemma replaceInInst_leafGlobalParam old new id inType vl tl kind bi decl info :
  replaceInInst old new (leafGlobalParam id inType vl tl kind bi decl info) =
  leafGlobalParam id inType vl tl kind bi decl info.
Proof.
  unfold leafGlobalParam, replaceInInst, leafDecorations. cbn.
  destruct info as [[nm [outer | ] required] | ]; reflexivity.
Qed.

Lemma replaceInBlocks_noUses id new (bs : list IRBlock) :
  new <> InstRef id ->
  Forall (fun i => ~ In (InstRef id) (operands i))
         (flat_map children (replaceInBlocks (InstRef id) new bs)).
Proof.
  intros Hne. induction bs as [ | bb bs IH]; cbn; [constructor | ].
  apply Forall_app. split; [apply map_replaceInInst_noUses; exact Hne | exact IH].
Qed.

Lemma fresh_ref_differs st pp :
  freshIds st -> In pp (allInsts (module st)) ->
  forall k, InstRef (nextInstId st + k) <> InstRef (instId pp).
Proof.
  intros [Hall _] Hin k E. rewrite Forall_forall in Hall.
  pose proof (Hall pp Hin). inversion E. lia.
Qed.

(** The first steps of the rewrite of an input parameter of a simple
    type: the global parameter is created, and the builder is read. *)
Lemma legalizeInput_simple_steps pp paramLayout st :
  freshIds st ->
  isRayTracingStage (contextStage st) = false ->
  asOutTypeBase (dataType pp) = None ->
  isSimpleVaryingType (dataType pp) = true ->
  let resolved := resolveSystemValue paramLayout LayoutResourceKind_VaryingInput
                                     (contextStage st) st in
  let g := inputGlobalParam (nextInstId st) pp paramLayout (fst resolved) in
  legalizeEntryPointParameterForGLSL pp paramLayout st =
  (materialized <- materializeValue (contextBuilder st)
                     (leafVal (nextInstId st) (dataType pp)
                              LayoutResourceKind_VaryingInput (fst resolved)) ;;
   replaceUsesWith (InstRef (instId pp)) materialized)
    (withGlobalParam g (snd resolved)).
Proof.
  intros Hfresh Hrt Hout Hsimple resolved g.
  unfold legalizeEntryPointParameterForGLSL.
  eapply bind_step; [reflexivity | ].
  rewrite Hout, Hrt.
  eapply bind_step.
  { unfold createGLSLGlobalVaryings.
    rewrite (createGLSLGlobalVaryingsImpl_simple _ _ _ _ _ _ _ Hsimple).
    apply createSimpleGLSLGlobalVarying_spec. exact Hfresh. }
  eapply bind_step; [reflexivity | ].
  cbn [contextBuilder withGlobalParam].
  destruct (resolveSystemValue_frame paramLayout LayoutResourceKind_VaryingInput
              (contextStage st) st) as (_ & _ & Hb & _).
  cbn zeta in Hb. rewrite Hb. reflexivity.
Qed.

(** X17. Outside the ray-tracing stages, an input parameter of a simple
    type whose semantic asks for no other type becomes one global
    parameter, put last before the function; every use of the parameter
    becomes a use of the global itself, and no instruction is added to
    the function. *)
Theorem legalizeEntryPointParameterForGLSL_in_simple pp paramLayout st :
  freshIds st ->
  isRayTracingStage (contextStage st) = false ->
  asOutTypeBase (dataType pp) = None ->
  isSimpleVaryingType (dataType pp) = true ->
  In pp (allInsts (module st)) ->
  let resolved := resolveSystemValue paramLayout LayoutResourceKind_VaryingInput
                                     (contextStage st) st in
  needsTypeAdapter (dataType pp) (fst resolved) = None ->
  let old := InstRef (instId pp) in
  let new := InstRef (nextInstId st) in
  exists st',
    legalizeEntryPointParameterForGLSL pp paramLayout st = OK (tt, st') /\
    moduleBefore (module st') =
      map (replaceInInst old new) (moduleBefore (module st)) ++
      [inputGlobalParam (nextInstId st) pp paramLayout (fst resolved)] /\
    stateBlocks st' = replaceInBlocks old new (stateBlocks st) /\
    moduleAfter (module st') = map (replaceInInst old new) (moduleAfter (module st)) /\
    noUsesOf old st' /\
    nextInstId st' = S (nextInstId st) /\
    contextBuilder st' = contextBuilder st.
Proof.
  intros Hfresh Hrt Hout Hsimple Hin resolved Hadapt old new.
  pose proof (fresh_ref_differs _ _ Hfresh Hin 0) as Hne. rewrite Nat.add_0_r in Hne.
  rewrite (legalizeInput_simple_steps pp paramLayout st Hfresh Hrt Hout Hsimple).
  pose proof (resolveSystemValue_frame paramLayout LayoutResourceKind_VaryingInput
                (contextStage st) st) as Hframe.
  subst resolved.
  destruct (resolveSystemValue paramLayout LayoutResourceKind_VaryingInput
              (contextStage st) st) as [info st1].
  cbn [fst snd] in *. destruct Hframe as (Hm & Hn & Hb & _).
  unfold leafVal. rewrite Hadapt. cbn [leafRef isOutputKind].
  eexists. split; [reflexivity | ].
  cbn. rewrite Hm, Hb. unfold inputGlobalParam.
  rewrite map_app. cbn [map]. rewrite replaceInInst_leafGlobalParam.
  repeat (split; [reflexivity | ]).
  split; [ | split; [congruence | reflexivity]].
  unfold noUsesOf, allInsts. cbn.
  apply Forall_app. split.
  - rewrite map_app. apply Forall_app. split; [apply map_replaceInInst_noUses; exact Hne | ].
    constructor; [ | constructor].
    unfold leafGlobalParam. cbn. intros [].
  - apply Forall_app. split; [ | apply map_replaceInInst_noUses; exact Hne].
    apply (replaceInBlocks_noUses _ _ _ Hne).
Qed.

Lemma legalizeEntryPointParameterForGLSL_in_simple_witness :
  exists st',
    legalizeEntryPointParameterForGLSL colorParam colorLayout colorState = OK (tt, st') /\
    moduleBefore (module st') =
      [mkIRInst 20 kIROp_GlobalParam colorType []
         [IRLayoutDecoration
            (Layout_VarLayout
               (leafVarLayout colorLayout exampleTypeLayout
                              LayoutResourceKind_VaryingInput 3))] None] /\
    stateBlocks st' =
      [mkIRBlock [colorParam;
                  mkIRInst 11 (kIROp_Other 0) IRVoidType [InstRef 20] [] None;
                  mkIRInst 12 kIROp_ReturnVoid IRVoidType [] [] None]] /\
    noUsesOf (InstRef 10) st'.
Proof.
  assert (Hfresh : freshIds colorState).
  { split; [ | cbn; lia]. repeat constructor; cbn; lia. }
  destruct (@legalizeEntryPointParameterForGLSL_in_simple
              colorParam colorLayout colorState Hfresh eq_refl eq_refl eq_refl
              (or_introl eq_refl) eq_refl)
    as [st' [Hrun [Hb [Hbl [_ [Hno _]]]]]].
  exists st'. repeat split; assumption.
Defined.

(** X18. Outside the ray-tracing stages, for an input parameter of a
    simple type whose semantic asks for another type, the global
    parameter has the type the semantic asks for; one conversion of the
    global to the type of the parameter is emitted at the builder's
    place, and every use of the parameter becomes a use of that
    conversion. *)
Theorem legalizeEntryPointParameterForGLSL_in_adapted pp paramLayout st actual bs :
  freshIds st ->
  isRayTracingStage (contextStage st) = false ->
  asOutTypeBase (dataType pp) = None ->
  isSimpleVaryingType (dataType pp) = true ->
  In pp (allInsts (module st)) ->
  let resolved := resolveSystemValue paramLayout LayoutResourceKind_VaryingInput
                                     (contextStage st) st in
  needsTypeAdapter (dataType pp) (fst resolved) = Some actual ->
  let global := inputGlobalParam (nextInstId st) pp paramLayout (fst resolved) in
  let conversion :=
    mkIRInst (S (nextInstId st)) kIROp_Construct (dataType pp)
             [InstRef (nextInstId st)] [] None in
  insertAt (contextBuilder st) conversion (stateBlocks st) = Some bs ->
  let old := InstRef (instId pp) in
  let new := InstRef (S (nextInstId st)) in
  exists st',
    legalizeEntryPointParameterForGLSL pp paramLayout st = OK (tt, st') /\
    dataType global = actual /\
    moduleBefore (module st') =
      map (replaceInInst old new) (moduleBefore (module st)) ++ [global] /\
    stateBlocks st' = replaceInBlocks old new bs /\
    moduleAfter (module st') = map (replaceInInst old new) (moduleAfter (module st)) /\
    noUsesOf old st' /\
    nextInstId st' = S (S (nextInstId st)) /\
    contextBuilder st' = contextBuilder st.
Proof.
  intros Hfresh Hrt Hout Hsimple Hin resolved Hadapt global conversion Hplace old new.
  pose proof (fresh_ref_differs _ _ Hfresh Hin 1) as Hne.
  replace (nextInstId st + 1) with (S (nextInstId st)) in Hne by lia.
  rewrite (legalizeInput_simple_steps pp paramLayout st Hfresh Hrt Hout Hsimple).
  pose proof (resolveSystemValue_frame paramLayout LayoutResourceKind_VaryingInput
                (contextStage st) st) as Hframe.
  subst global resolved.
  destruct (resolveSystemValue paramLayout LayoutResourceKind_VaryingInput
              (contextStage st) st) as [info st1].
  cbn [fst snd] in *. destruct Hframe as (Hm & Hn & Hb & _).
  unfold leafVal. rewrite Hadapt. cbn [leafRef isOutputKind].
  assert (Hrun : materializeValue (contextBuilder st)
                   (typeAdapter (value (InstRef (nextInstId st))) actual (dataType pp))
                   (withGlobalParam (inputGlobalParam (nextInstId st) pp paramLayout info)
                                    st1)
                 = OK (new,
                       set_state_blocks
                         (mkPassState (S (S (nextInstId st)))
                            (mkIRModule
                               (moduleBefore (module st) ++
                                [inputGlobalParam (nextInstId st) pp paramLayout info])
                               (moduleFunc (module st)) (moduleAfter (module st)))
                            (contextStage st1) (sink st1) (extensionUsageTracker st1)
                            (contextBuilder st))
                         bs)).
  { unfold materializeValue, materializeFuel.
    cbn [sizeOfVal maxTupleTypeSize tupleTypeSize Nat.add Nat.mul materializeValue_fuel
         adaptType adaptTypeInst].
    unfold adaptTypeInst, emitConstructorInst, emitInst, freshId, insertInst, bind, ret, withGlobalParam,
      stateBlocks.
    cbn [nextInstId module moduleFunc]. rewrite Hm, Hn, Hb.
    unfold stateBlocks in Hplace. fold conversion. rewrite Hplace. reflexivity. }
  eexists. split; [eapply bind_step; [exact Hrun | reflexivity] | ].
  split.
  { clear Hrun. unfold needsTypeAdapter in Hadapt.
    unfold inputGlobalParam, leafGlobalParam, leafType, leafParamType.
    destruct info as [[nm outer [required | ]] | ]; try discriminate.
    cbn in Hadapt |- *.
    destruct (isTypeEqual required (dataType pp)); [discriminate | ].
    inversion Hadapt. reflexivity. }
  cbn. unfold inputGlobalParam.
  rewrite map_app. cbn [map]. rewrite replaceInInst_leafGlobalParam.
  repeat (split; [reflexivity | ]).
  split; [ | split; reflexivity].
  unfold noUsesOf, allInsts. cbn.
  apply Forall_app. split.
  - rewrite map_app. apply Forall_app. split; [apply map_replaceInInst_noUses; exact Hne | ].
    constructor; [ | constructor].
    unfold leafGlobalParam. cbn. intros [].
  - apply Forall_app. split; [ | apply map_replaceInInst_noUses; exact Hne].
    apply (replaceInBlocks_noUses _ _ _ Hne).
Qed.

Lemma legalizeEntryPointParameterForGLSL_in_adapted_witness :
  exists st',
    legalizeEntryPointParameterForGLSL instanceIdParam instanceIdLayout instanceIdState
      = OK (tt, st') /\
    map dataType (moduleBefore (module st')) = [IRBasicType BaseType_Int] /\
    stateBlocks st' =
      [mkIRBlock [instanceIdParam;
                  mkIRInst 21 kIROp_Construct (IRBasicType BaseType_UInt)
                           [InstRef 20] [] None;
                  mkIRInst 2 (kIROp_Other 0) IRVoidType [InstRef 21] [] None;
                  mkIRInst 3 kIROp_ReturnVoid IRVoidType [] [] None]] /\
    noUsesOf (InstRef 1) st'.
Proof.
  assert (Hfresh : freshIds instanceIdState).
  { split; [ | cbn; lia]. repeat constructor; cbn; lia. }
  destruct (@legalizeEntryPointParameterForGLSL_in_adapted
              instanceIdParam instanceIdLayout instanceIdState (IRBasicType BaseType_Int)
              _ Hfresh eq_refl eq_refl eq_refl (or_introl eq_refl) eq_refl eq_refl)
    as [st' [Hrun [Hty [Hb [Hbl [_ [Hno _]]]]]]].
  exists st'. split; [exact Hrun | ].
  split; [rewrite Hb; cbn [moduleBefore module instanceIdState map app];
          rewrite Hty; reflexivity | ].
  split; [exact Hbl | exact Hno].
Defined.

(* ------------------------------------------------------------------ *)
(** ** What the rewrite of a parameter does not implement *)

(** X19. Outside the ray-tracing stages, the rewrite of an [inout]
    parameter of a simple type whose semantic asks, as an input, for
    another type than the parameter's stops with "unimplemented": after
    the local variable, the assignment from the adapted global to the
    variable is not implemented. *)
Theorem legalizeEntryPointParameterForGLSL_inout_adapted_aborts
        pp paramLayout valueType actual st bs :
  freshIds st ->
  isRayTracingStage (contextStage st) = false ->
  dataType pp = IRPtrTypeBase kIROp_InOutType valueType ->
  isSimpleVaryingType valueType = true ->
  needsTypeAdapter valueType
    (systemValueOf paramLayout LayoutResourceKind_VaryingInput (contextStage st))
    = Some actual ->
  insertAt (contextBuilder st)
    (mkIRInst (nextInstId st) kIROp_Var (getPtrType valueType) [] [] None)
    (stateBlocks st) = Some bs ->
  legalizeEntryPointParameterForGLSL pp paramLayout st = Abort "unimplemented".
Proof.
  intros Hfresh Hrt Hty Hsimple Hadapt Hplace.
  unfold legalizeEntryPointParameterForGLSL.
  eapply bind_step; [reflexivity | ].
  rewrite Hty. cbn [asOutTypeBase]. rewrite Hrt.
  assert (Hvar : emitVar (contextBuilder st) valueType st =
                 OK (InstRef (nextInstId st),
                     set_state_blocks
                       (mkPassState (S (nextInstId st)) (module st) (contextStage st)
                                    (sink st) (extensionUsageTracker st)
                                    (contextBuilder st)) bs)).
  { unfold emitVar, emitInst, freshId, insertInst, bind, ret, stateBlocks.
    cbn [nextInstId module]. unfold stateBlocks in Hplace. rewrite Hplace. reflexivity. }
  pose proof (emitInst_emitted _ _ _ _ _ Hvar) as [_ Hemitted].
  pose proof (emitted_fresh Hemitted Hfresh) as Hfresh1.
  set (st1 := set_state_blocks _ bs) in *.
  assert (Hrest :
            (builder <- getBuilder ;;
             localVariable <- emitVar builder valueType ;;
             (globalInputVal <- createGLSLGlobalVaryings valueType paramLayout
                                  LayoutResourceKind_VaryingInput (contextStage st) ;;
              assign builder (address localVariable) globalInputVal) ;;
             replaceUsesWith (InstRef (instId pp)) localVariable ;;
             globalOutputVal <- createGLSLGlobalVaryings valueType paramLayout
                                  LayoutResourceKind_VaryingOutput (contextStage st) ;;
             forEachBlock (fun _ bb =>
                             assignBeforeReturn globalOutputVal (address localVariable) bb))
              st = Abort "unimplemented").
  { eapply bind_step; [reflexivity | ].
    eapply bind_step; [exact Hvar | ].
    unfold bind at 1. unfold bind at 1.
    unfold createGLSLGlobalVaryings.
    rewrite (createGLSLGlobalVaryingsImpl_simple _ _ _ _ _ _ _ Hsimple).
    rewrite (createSimpleGLSLGlobalVarying_spec _ _ _ _ _ _ _ Hfresh1).
    rewrite resolveSystemValue_systemValueOf.
    unfold leafVal. rewrite Hadapt. reflexivity. }
  destruct valueType; try discriminate Hsimple; exact Hrest.
Qed.

Lemma legalizeEntryPointParameterForGLSL_inout_adapted_aborts_witness :
  legalizeEntryPointParameterForGLSL instanceIdInOutParam instanceIdLayout
    instanceIdInOutState = Abort "unimplemented".
Proof.
  assert (Hfresh : freshIds instanceIdInOutState).
  { split; [ | cbn; lia]. repeat constructor; cbn; lia. }
  exact (@legalizeEntryPointParameterForGLSL_inout_adapted_aborts
           instanceIdInOutParam instanceIdLayout (IRBasicType BaseType_UInt)
           (IRBasicType BaseType_Int) instanceIdInOutState _
           Hfresh eq_refl eq_refl eq_refl eq_refl eq_refl).
Defined.

Lemma getFieldType_none t k st :
  fieldTypeOf t k = None -> getFieldType t k st = Abort "no such field".
Proof.
  unfold fieldTypeOf, getFieldType. intros H.
  destruct t; try reflexivity. rewrite H. reflexivity.
Qed.

(** X20. Assigning to a tuple from a value, or from an address, whose
    type is not a struct with a field for the key of the first element
    of the tuple stops with "no such field": a tuple is only assigned
    from a struct, never from an array of structs. *)
Theorem assign_tuple_no_such_field b ty k e rest r i st :
  deref (module st) r = Some i ->
  (fieldTypeOf (dataType i) k = None ->
   assign b (tuple ty ((k, e) :: rest)) (value r) st = Abort "no such field") /\
  (forall ptrOp valType,
      dataType i = IRPtrTypeBase ptrOp valType ->
      fieldTypeOf valType k = None ->
      assign b (tuple ty ((k, e) :: rest)) (address r) st = Abort "no such field").
Proof.
  intros Hd.
  assert (Hty : getDataType r st = OK (dataType i, st)).
  { unfold getDataType, derefM, bind, ret. rewrite Hd. reflexivity. }
  split.
  - intros Hnone. unfold assign. cbn [sizeOfVal Nat.add assign_fuel forEachIndexed fst snd].
    unfold bind at 1. unfold bind at 1. cbn [extractField].
    unfold bind at 1. rewrite Hty.
    unfold bind at 1. rewrite (getFieldType_none _ _ st Hnone). reflexivity.
  - intros ptrOp valType Hptr Hnone. unfold assign.
    cbn [sizeOfVal Nat.add assign_fuel forEachIndexed fst snd].
    unfold bind at 1. unfold bind at 1. cbn [extractField].
    unfold bind at 1. rewrite Hty, Hptr.
    unfold bind at 1. rewrite (getFieldType_none _ _ st Hnone). reflexivity.
Qed.

Lemma assign_tuple_no_such_field_witness :
  assign (insertBeforeInst 12) (tuple payloadType [(1%nat, address (InstRef 50))])
         (value (InstRef 11)) payloadState = Abort "no such field" /\
  assign (insertBeforeInst 12) (tuple payloadType [(1%nat, address (InstRef 50))])
         (address (InstRef 10)) payloadState = Abort "no such field".
Proof.
  split.
  - exact (proj1 (@assign_tuple_no_such_field (insertBeforeInst 12) payloadType 1%nat
                    (address (InstRef 50)) [] (InstRef 11) _ payloadState eq_refl)
                 eq_refl).
  - exact (proj2 (@assign_tuple_no_such_field (insertBeforeInst 12) payloadType 1%nat
                    (address (InstRef 50)) [] (InstRef 10) _ payloadState eq_refl)
                 kIROp_InOutType payloadType eq_refl eq_refl).
Defined.

(* ------------------------------------------------------------------ *)
(** ** What the pass asks of an entry point *)

Lemma legalizeParams_layouts firstBlock st st' :
  legalizeParams firstBlock st = OK (tt, st') ->
  Forall (fun pp => hasVarLayout pp = true) (getParams firstBlock).
Proof.
  unfold legalizeParams. generalize (getParams firstBlock) as params.
  intros params. revert st.
  induction params as [ | pp params IH]; intros st H; constructor.
  - cbn [forEach] in H. apply bind_OK in H. destruct H as (u & s & Hpp & _).
    unfold hasVarLayout.
    destruct (findLayoutDecoration (decorations pp)) as [[l | l | l] | ];
      try discriminate Hpp. reflexivity.
  - cbn [forEach] in H. apply bind_OK in H. destruct H as (u & s & _ & Hrest).
    exact (IH s Hrest).
Qed.

Lemma getParams_same_start (pre l l' : list IRInst) :
  takeWhile isParam l = takeWhile isParam l' ->
  takeWhile isParam (pre ++ l) = takeWhile isParam (pre ++ l').
Proof.
  intros H. induction pre as [ | x pre IH]; cbn; [exact H | ].
  destruct (isParam x); [rewrite IH | ]; reflexivity.
Qed.

Lemma returnRewritten_getParams resultGlobal b b' :
  returnValOnlyLast b -> returnRewritten resultGlobal b b' ->
  getParams b' = getParams b.
Proof.
  intros Hlast [[_ ->] | H]; [reflexivity | ].
  destruct H as (pre & rv & post & new & rt & returnValue & blockIndex & st1 & st2 &
                 Hc & _ & Hrv & _ & _ & _ & Hnew & Hrt & Hc').
  pose proof (Hlast pre rv post Hc Hrv) as Hpost. subst post.
  unfold getParams. rewrite Hc, Hc'. cbn [app].
  apply getParams_same_start.
  cbn [takeWhile]. unfold isParam at 2. rewrite Hrv. cbn [IROp_eqb].
  destruct new as [ | i new]; cbn [app takeWhile].
  - unfold isParam. rewrite Hrt. reflexivity.
  - apply Forall_cons_iff in Hnew. destruct Hnew as [Hi _].
    unfold isParam. destruct (op i); try discriminate Hi; reflexivity.
Qed.

(** X21. The pass returns only for a function that has the layout of an
    entry point as its first layout decoration, that nothing uses, and
    whose type is a function type; with a result that is not void, only
    if the layout has a layout for the result; and, unless there is
    nothing to do, only if every parameter of the entry block has the
    layout of a variable as its first layout decoration. *)
Theorem legalizeEntryPointForGLSL_requires (st st' : PassState) :
  freshIds st -> uniqueIds st ->
  Forall returnValOnlyLast (stateBlocks st) ->
  legalizeEntryPointForGLSL st = OK (tt, st') ->
  let func := moduleFunc (module st) in
  exists entryPointLayout resultType,
    findLayoutDecoration (funcDecorations func)
      = Some (Layout_EntryPointLayout entryPointLayout) /\
    hasUses (module st) (InstRef (funcId func)) = false /\
    getResultType func = Some resultType /\
    (isVoidType resultType = false ->
     exists layout, resultLayout entryPointLayout = Some layout) /\
    ((isVoidType resultType && Nat.eqb (getParamCount func) 0)%bool = false ->
     Forall (fun pp => hasVarLayout pp = true) (funcParams func)).
Proof.
  intros Hf Hu Hlast H func. unfold legalizeEntryPointForGLSL in H.
  apply bind_OK in H. destruct H as (func0 & st0 & Hfunc & H).
  unfold getFunc in Hfunc. inversion Hfunc; subst func0 st0. clear Hfunc.
  fold func in H.
  destruct (findLayoutDecoration (funcDecorations func)) as [[l | l | e] | ];
    try discriminate.
  apply bind_OK in H. destruct H as (u1 & st1 & Hs1 & H).
  apply modify_OK in Hs1. subst st1.
  apply bind_OK in H. destruct H as (m & st2 & Hs2 & H).
  inversion Hs2; subst m st2. clear Hs2.
  apply bind_OK in H. destruct H as (u3 & st3 & Hs3 & H).
  unfold SLANG_ASSERT in Hs3. cbn [module] in Hs3.
  destruct (hasUses (module st) (InstRef (funcId func))) eqn:Euses; [discriminate | ].
  apply ret_OK in Hs3. destruct Hs3 as [_ <-].
  apply bind_OK in H. destruct H as (u4 & st4 & Hs4 & H).
  apply modify_OK in Hs4. subst st4.
  destruct (getResultType func) as [resultType | ] eqn:Er; [ | discriminate].
  exists e, resultType.
  repeat (split; [reflexivity | ]).
  set (sa := mkPassState (nextInstId st) (module st) (profileStage e) (sink st)
                         (extensionUsageTracker st) insertIntoFunc) in *.
  assert (Hfa : freshIds sa) by exact Hf.
  assert (Hua : uniqueIds sa) by exact Hu.
  destruct (isVoidType resultType && Nat.eqb (getParamCount func) 0)%bool eqn:Eearly.
  { split; [ | discriminate].
    intros Hv. rewrite Hv in Eearly. discriminate. }
  apply bind_OK in H. destruct H as (u5 & st5 & Hret & H).
  apply bind_OK in H. destruct H as (func5 & st5' & Hfunc & H).
  unfold getFunc in Hfunc. inversion Hfunc; subst func5 st5'. clear Hfunc.
  apply bind_OK in H. destruct H as (u6 & st6 & Hparams & _).
  assert (Hall : forall firstBlock,
             getFirstBlock (moduleFunc (module st5)) = Some firstBlock ->
             Forall (fun pp => hasVarLayout pp = true) (getParams firstBlock)).
  { intros firstBlock Efb. rewrite Efb in Hparams.
    apply bind_OK in Hparams. destruct Hparams as (u7 & st7 & _ & Hparams).
    apply bind_OK in Hparams. destruct Hparams as ([] & st8 & Hparams & _).
    exact (legalizeParams_layouts _ _ _ Hparams). }
  destruct (isVoidType resultType) eqn:Ev.
  - split; [discriminate | intros _].
    apply ret_OK in Hret. destruct Hret as [_ <-].
    unfold funcParams. fold func in Hall. cbn [module sa] in Hall. fold func in Hall.
    destruct (getFirstBlock func) as [firstBlock | ]; [ | constructor].
    exact (Hall firstBlock eq_refl).
  - destruct (resultLayout e) as [layout | ]; [ | discriminate].
    split; [intros _; exists layout; reflexivity | intros _].
    apply bind_OK in Hret. destruct Hret as (resultGlobal & st4 & Hcreate & Hloop).
    destruct (createGLSLGlobalVaryings_createdGlobals _ _ _ _ Hfa Hcreate)
      as (globals & Hc).
    pose proof (createdGlobals_fresh Hc Hfa) as Hf4.
    assert (E4 : stateBlocks st4 = stateBlocks st).
    { destruct Hc as (_ & _ & Hfn & _). unfold stateBlocks. rewrite Hfn. reflexivity. }
    assert (Hu4 : uniqueIds st4) by (unfold uniqueIds; rewrite E4; exact Hu).
    destruct u5.
    destruct (rewriteReturnVal_forEachBlock resultGlobal st4 st5 Hf4 Hu4 Hloop)
      as (Hr & _).
    rewrite E4 in Hr. unfold funcParams, getFirstBlock in *.
    unfold stateBlocks in Hr, Hlast. fold func in Hr, Hlast.
    destruct Hr as [ | b b5 bs bs5 Hb5 _]; [constructor | ].
    cbn [hd_error] in *.
    apply Forall_cons_iff in Hlast. destruct Hlast as [Hl _].
    rewrite <- (returnRewritten_getParams resultGlobal b b5 Hl Hb5).
    exact (Hall b5 eq_refl).
Qed.

Lemma legalizeEntryPointForGLSL_requires_witness :
  let func := moduleFunc (module simpleVertexShader) in
  exists entryPointLayout resultType,
    findLayoutDecoration (funcDecorations func)
      = Some (Layout_EntryPointLayout entryPointLayout) /\
    hasUses (module simpleVertexShader) (InstRef (funcId func)) = false /\
    getResultType func = Some resultType /\
    (isVoidType resultType = false ->
     exists layout, resultLayout entryPointLayout = Some layout) /\
    ((isVoidType resultType && Nat.eqb (getParamCount func) 0)%bool = false ->
     Forall (fun pp => hasVarLayout pp = true) (funcParams func)).
Proof.
  apply (legalizeEntryPointForGLSL_requires simpleVertexShader
           (stateAfter legalizeEntryPointForGLSL simpleVertexShader)).
  - exampleFresh.
  - exampleUnique.
  - exampleReturns.
  - vm_compute. reflexivity.
Defined.

(* ------------------------------------------------------------------ *)
(** ** The recursion of the scalarized operations ends *)

(** X22. The recursion of [assign] and that of [materializeValue] come to
    an end on all values, from every state, by returning or by stopping
    as the code does: the bound on the depth of the recursion is never
    reached. *)
Theorem assign_materializeValue_end b left right val st :
  assign b left right st <> OutOfFuel /\
  materializeValue b val st <> OutOfFuel.
Proof.
  split.
  - pose proof (terminates_assign b left right st) as H.
    intros E. rewrite E in H. exact H.
  - pose proof (terminates_materializeValue b val st) as H.
    intros E. rewrite E in H. exact H.
Qed.

(* ------------------------------------------------------------------ *)
(** * Arrays of structs *)


Lemma wrapFullType_array leaf n decl :
  wrapFullType leaf (mkGlobalVaryingDeclarator n :: decl) =
  wrapFullType (IRArrayType leaf n) decl.
Proof. reflexivity. Qed.








(* ------------------------------------------------------------------ *)
(** * Uses of the entry point *)

(** A decoration that refers to an instruction is a use of it. *)
Lemma hasUses_decoration m i id :
  In i (allInsts m) ->
  In (IRDependsOnDecoration (InstRef id)) (decorations i) ->
  hasUses m (InstRef id) = true.
Proof.
  intros Hi Hd. unfold hasUses. apply orb_true_intro. left.
  apply existsb_exists. exists i. split; [exact Hi | ].
  apply existsb_exists. exists (InstRef id). split; [ | apply Nat.eqb_refl].
  unfold usesOfInst. apply in_or_app. right. apply in_or_app. left.
  apply in_flat_map. exists (IRDependsOnDecoration (InstRef id)).
  split; [exact Hd | left; reflexivity].
Qed.

(** The pass stops at its assertion on an entry point that is used,
    also when the entry point is legal already. *)
Lemma legalizeEntryPointForGLSL_used st e :
  findLayoutDecoration (funcDecorations (moduleFunc (module st)))
    = Some (Layout_EntryPointLayout e) ->
  hasUses (module st) (InstRef (funcId (moduleFunc (module st)))) = true ->
  legalizeEntryPointForGLSL st = Abort "assertion failed".
Proof.
  intros Hlayout Huses.
  unfold legalizeEntryPointForGLSL, bind, getFunc. rewrite Hlayout. cbn.
  rewrite Huses. reflexivity.
Qed.

Example legalizeEntryPointForGLSL_used_by_decoration :
  legalizeEntryPointForGLSL
    (exampleState Stage_Vertex None (IRFuncType [] IRVoidType)
       [mkIRBlock [mkIRInst 1 kIROp_ReturnVoid IRVoidType [] [] None]]
       [mkIRInst 7 kIROp_GlobalParam float4Type []
                 [IRDependsOnDecoration (InstRef 100)] None]
       [])
  = Abort "assertion failed".
Proof. reflexivity. Qed.
